(** * GrapeTree tree-inference engine: distance matrices, MSTree, MSTreeV2

    A shallow embedding of the C++ sources [distance.cpp], [mstree.cpp],
    [mstree_v2.cpp], [newick.cpp] and [wasm_interface.cpp], and of the
    validators and the loader of the JavaScript shell ([file_handler.js],
    [wasm_loader.js]).

    Conventions of the embedding
    - a C++ [int] is a [Z]; no arithmetic in the sources comes near the
      32-bit limits for inputs that fit in memory, so no wrap-around is
      written out;
    - a C++ [double] is the rational [Q] it stands for, and [DBL_MAX] is
      the largest finite double.  Where the tree builders and the
      p-distance add, subtract or divide doubles (the tie tests, the
      harmonic-mean scores and their comparison, the reduced distances of
      a contraction, the costs of the recrafting pass, the quotient of the
      p-distance), the result is rounded by [fl] to the nearest binary64
      value, ties to the even significand, and the literal [1e-10] is the
      double [EPS_double].  The profile distances are sums of counts and
      halves of counts, which are exact in doubles, and are written
      without rounding.  Infinities and NaN are not modelled: [fl] rounds
      as a format without a largest exponent does, and the statements that
      rest on the value of a score are about matrices on which no
      operation leaves the finite doubles;
    - [std::vector<T>] is [list T], read with [idx] and written with [upd]
      (reads out of range, undefined in C++, yield a default; the theorems
      assume the shapes under which the C++ stays in range);
    - a [for (int k = lo; k < hi; ++k)] loop is [for_loop lo hi body]. *)

From Stdlib Require Import ZArith QArith Qabs List String Ascii Bool Lia Permutation.
From Stdlib Require Import DecimalString.
From Stdlib Require Import Lqa Qround Qpower.
Import ListNotations.

Open Scope Z_scope.

(** ** Vectors and loops *)

Definition idx {A : Type} (d : A) (l : list A) (i : Z) : A :=
  nth (Z.to_nat i) l d.

Fixpoint upd_nat {A : Type} (l : list A) (n : nat) (x : A) : list A :=
  match l, n with
  | [], _ => []
  | _ :: t, O => x :: t
  | h :: t, S n' => h :: upd_nat t n' x
  end.

Definition upd {A : Type} (l : list A) (i : Z) (x : A) : list A :=
  upd_nat l (Z.to_nat i) x.

Definition zrange (lo hi : Z) : list Z :=
  map (fun k => lo + Z.of_nat k) (seq 0 (Z.to_nat (hi - lo))).

Definition for_loop {T : Type} (lo hi : Z) (body : Z -> T -> T) (s : T) : T :=
  fold_left (fun s k => body k s) (zrange lo hi) s.

Definition size {A : Type} (l : list A) : Z := Z.of_nat (List.length l).

(** ** Doubles *)

Definition double := Q.

Definition DBL_MAX : double := inject_Z (2 ^ 1024 - 2 ^ 971).

(** The decimal number [1e-10], the tolerance of the tie tests as the
    sources write it; the tests compare with the double [EPS_double]
    below. *)
Definition EPS : double := 1 # 10000000000.

Definition Qltb (x y : Q) : bool := negb (Qle_bool y x).

(** *** Rounding to the nearest double *)

(** [rne u]: the integer nearest to [u], the even one of two that are
    equally near. *)
Definition rne (u : Q) : Z :=
  let k := Qfloor u in
  let r := (u - inject_Z k)%Q in
  if Qltb r (1 # 2) then k
  else if Qltb (1 # 2) r then k + 1
  else if Z.even k then k else k + 1.

(** [ilog2 x], for [0 < x]: the exponent [e] with [2^e <= x < 2^(e+1)]. *)
Definition ilog2 (x : Q) : Z :=
  let e := Z.log2 (Qnum x) - Z.log2 (Z.pos (Qden x)) in
  if Qle_bool (2 ^ e) x then e else e - 1.

(** The exponent of the last place of the doubles next to [x]: 52 binary
    places below the leading one, and never below that of the subnormal
    numbers. *)
Definition ulp_exp (x : Q) : Z := Z.max (ilog2 x - 52) (-1074).

Definition fl_pos (x : Q) : Q :=
  Qred (inject_Z (rne (x / 2 ^ ulp_exp x)) * 2 ^ ulp_exp x).

(** [fl x]: the binary64 value nearest to [x] (round to nearest, ties to
    even), what an IEEE 754 operation returns for the exact result [x]. *)
Definition fl (x : Q) : double :=
  if Qeq_bool x 0 then 0%Q
  else if Qltb x 0 then (- fl_pos (- x))%Q
  else fl_pos x.

(** The operators [+], [-] and [/] of the type [double]. *)
Definition fadd (x y : double) : double := fl (x + y).
Definition fsub (x y : double) : double := fl (x - y).
Definition fdiv (x y : double) : double := fl (x / y).

(** The literal [1e-10] of the sources: the double nearest to [EPS]. *)
Definition EPS_double : double := fl EPS.

Definition matrix := list (list double).

Definition get2 (m : matrix) (i j : Z) : double := idx 0%Q (idx [] m i) j.

Definition set2 (m : matrix) (i j : Z) (v : double) : matrix :=
  upd m i (upd (idx [] m i) j v).

Definition new_matrix (rows cols : Z) (v : double) : matrix :=
  repeat (repeat v (Z.to_nat cols)) (Z.to_nat rows).

(** ** distance.cpp *)

Module DistanceMatrix.

Record ProfileData := mkProfileData {
  strain_names : list string;
  profiles : list (list Z);
  n_strains : Z;
  n_genes : Z
}.

(** The enumeration, and the value a [static_cast] from an integer outside
    0..3 leaves behind: the [switch] of [compute_pairwise_distance] has no
    [default], so such a value selects no case. *)
Inductive MissingHandler :=
| IGNORE
| REMOVE_COLUMN
| TREAT_AS_ALLELE
| ABSOLUTE_DIFF
| OutOfRange (v : Z).

Definition MissingHandler_of_int (v : Z) : MissingHandler :=
  if v =? 0 then IGNORE
  else if v =? 1 then REMOVE_COLUMN
  else if v =? 2 then TREAT_AS_ALLELE
  else if v =? 3 then ABSOLUTE_DIFF
  else OutOfRange v.

(** One iteration of the loop of [compute_pairwise_distance]; the state is
    [(differences, valid_positions)]. *)
Definition pairwise_step (handler : MissingHandler) (allele1 allele2 : Z)
    (st : Z * Z) : Z * Z :=
  let '(differences, valid_positions) := st in
  let missing1 := allele1 <=? 0 in
  let missing2 := allele2 <=? 0 in
  if missing1 || missing2 then
    match handler with
    | IGNORE => st
    | REMOVE_COLUMN => st
    | TREAT_AS_ALLELE =>
        let differences' :=
          if negb (Bool.eqb missing1 missing2)
             || (negb missing1 && negb (allele1 =? allele2))
          then differences + 1 else differences in
        (differences', valid_positions + 1)
    | ABSOLUTE_DIFF => (differences + 1, valid_positions + 1)
    | OutOfRange _ => st
    end
  else
    ((if negb (allele1 =? allele2) then differences + 1 else differences),
     valid_positions + 1).

Definition compute_pairwise_distance (data_ : ProfileData)
    (profile1 profile2 : list Z) (handler : MissingHandler) : double :=
  let '(differences, _) :=
    for_loop 0 (n_genes data_)
      (fun k st => pairwise_step handler (idx 0 profile1 k) (idx 0 profile2 k) st)
      (0, 0) in
  inject_Z differences.

(** One iteration of the loop of [compute_directional_distance]; the state
    is [(differences, missing_in_from)]. *)
Definition directional_step (from_allele to_allele : Z) (st : Z * Z) : Z * Z :=
  let '(differences, missing_in_from) := st in
  if from_allele <=? 0 then (differences, missing_in_from + 1)
  else if (0 <? to_allele) && negb (from_allele =? to_allele)
       then (differences + 1, missing_in_from)
       else st.

Definition compute_directional_distance (data_ : ProfileData)
    (from_profile to_profile : list Z) : double :=
  let '(differences, missing_in_from) :=
    for_loop 0 (n_genes data_)
      (fun k st => directional_step (idx 0 from_profile k) (idx 0 to_profile k) st)
      (0, 0) in
  (inject_Z differences + (1 # 2) * inject_Z missing_in_from)%Q.

Definition compute_symmetric (data_ : ProfileData) (handler : MissingHandler)
    : matrix :=
  let n := n_strains data_ in
  for_loop 0 n
    (fun i m =>
       for_loop (i + 1) n
         (fun j m =>
            let dist :=
              compute_pairwise_distance data_
                (idx [] (profiles data_) i) (idx [] (profiles data_) j) handler in
            set2 (set2 m i j dist) j i dist)
         m)
    (new_matrix n n 0%Q).

Definition compute_asymmetric (data_ : ProfileData) : matrix :=
  let n := n_strains data_ in
  for_loop 0 n
    (fun i m =>
       for_loop 0 n
         (fun j m =>
            if i =? j then set2 m i j 0%Q
            else set2 m i j
                   (compute_directional_distance data_
                      (idx [] (profiles data_) i) (idx [] (profiles data_) j)))
         m)
    (new_matrix n n 0%Q).

(** [std::toupper] in the "C" locale. *)
Definition toupper (c : ascii) : ascii :=
  let n := nat_of_ascii c in
  if ((97 <=? n) && (n <=? 122))%nat then ascii_of_nat (n - 32) else c.

Definition char_at (s : string) (i : nat) : ascii :=
  match String.get i s with
  | Some c => c
  | None => "000"%char
  end.

(** One iteration of the loop of [p_distance]; the state is
    [(differences, valid_positions)]. *)
Definition p_step (ch1 ch2 : ascii) (st : Z * Z) : Z * Z :=
  let '(differences, valid_positions) := st in
  let c1 := toupper ch1 in
  let c2 := toupper ch2 in
  if Ascii.eqb c1 "-" || Ascii.eqb c1 "N" || Ascii.eqb c2 "-" || Ascii.eqb c2 "N"
  then st
  else ((if negb (Ascii.eqb c1 c2) then differences + 1 else differences),
        valid_positions + 1).

Definition p_distance (seq1 seq2 : string) : double :=
  if negb (String.length seq1 =? String.length seq2)%nat then DBL_MAX
  else
    let '(differences, valid_positions) :=
      fold_left (fun st i => p_step (char_at seq1 i) (char_at seq2 i) st)
        (seq 0 (String.length seq1)) (0, 0) in
    if valid_positions =? 0 then 0%Q
    else fdiv (inject_Z differences) (inject_Z valid_positions).

Definition compute_p_distance (sequences : list string) : matrix :=
  let n := size sequences in
  for_loop 0 n
    (fun i m =>
       for_loop (i + 1) n
         (fun j m =>
            let dist := p_distance (idx EmptyString sequences i)
                                   (idx EmptyString sequences j) in
            set2 (set2 m i j dist) j i dist)
         m)
    (new_matrix n n 0%Q).

End DistanceMatrix.

(** ** mstree.cpp *)

Record Edge := mkEdge { from : Z; to : Z; distance : double }.

(** A C++ call either returns or throws a [std::exception] with a message. *)
Inductive result (A : Type) : Type :=
| Ok (a : A)
| Throw (what : string).
Arguments Ok {A} a.
Arguments Throw {A} what.

(** What [std::length_error::what()] says when [std::vector::reserve] is
    asked for more than [max_size()] elements (libc++, the library of the
    Emscripten tool chain). *)
Definition length_error_what : string := "vector".

Module MSTree.

Inductive Heuristic := EBURST | HARMONIC.

Section Solver.

Variable distance_matrix_ : matrix.
Variable heuristic_ : Heuristic.

Definition n_nodes_ : Z := size distance_matrix_.

(** State of the loop: [(sum_reciprocals, count)]. *)
Definition compute_harmonic_mean_score (node : Z) : double :=
  let '(sum_reciprocals, count) :=
    for_loop 0 n_nodes_
      (fun i st =>
         let '(sum_reciprocals, count) := st in
         if i =? node then st
         else
           let dist := get2 distance_matrix_ node i in
           if Qltb 0 dist
           then (fadd sum_reciprocals (fdiv 1%Q dist), count + 1)
           else st)
      (0%Q, 0) in
  if count =? 0 then 0%Q else fdiv (inject_Z count) sum_reciprocals.

(** State of the loop over the candidates: [(best_node, max_connections)]. *)
Definition apply_eburst_tiebreak (candidates : list Z) (in_tree : list bool)
    (min_dist : double) : Z :=
  fst (fold_left
    (fun st node =>
       let '(best_node, max_connections) := st in
       let connections :=
         for_loop 0 n_nodes_
           (fun j connections =>
              if idx false in_tree j
                 && Qltb (Qabs (fsub (get2 distance_matrix_ node j) min_dist))
                         EPS_double
              then connections + 1 else connections)
           0 in
       if max_connections <? connections then (node, connections)
       else if connections =? max_connections then
              if node <? best_node then (node, max_connections) else st
            else st)
    candidates (idx 0 candidates 0, 0)).

(** State of the loop over the candidates: [(best_node, best_score)]. *)
Definition apply_harmonic_tiebreak (candidates : list Z) : Z :=
  fst (fold_left
    (fun st node =>
       let '(best_node, best_score) := st in
       let score := compute_harmonic_mean_score node in
       if Qltb best_score score then (node, score)
       else if Qltb (Qabs (fsub score best_score)) EPS_double then
              if node <? best_node then (node, best_score) else st
            else st)
    candidates (idx 0 candidates 0, (-1)%Q)).

(** The loop "Collect all nodes at minimum distance". *)
Definition collect_candidates (distances : list double)
    (in_tree : list bool) (min_dist : double) : list Z :=
  for_loop 0 n_nodes_
    (fun i candidates =>
       if negb (idx false in_tree i)
          && Qltb (Qabs (fsub (idx 0%Q distances i) min_dist)) EPS_double
       then candidates ++ [i] else candidates)
    [].

Definition select_node_with_tiebreak (distances : list double)
    (in_tree : list bool) (min_dist : double) : Z :=
  let candidates := collect_candidates distances in_tree min_dist in
  if size candidates =? 1 then idx 0 candidates 0
  else match heuristic_ with
       | EBURST => apply_eburst_tiebreak candidates in_tree min_dist
       | HARMONIC => apply_harmonic_tiebreak candidates
       end.

(** The state of Prim's loop. *)
Record prim_state := mkPrim {
  tree_edges : list Edge;
  in_tree : list bool;
  min_distance : list double;
  parent : list Z
}.

(** The loop "Initialize distances from start node"; the state is
    [(min_distance, parent)]. *)
Definition init_distances (start_node : Z) (min_distance : list double)
    (parent : list Z) : list double * list Z :=
  for_loop 0 n_nodes_
    (fun i st =>
       let '(min_distance, parent) := st in
       if negb (i =? start_node)
       then (upd min_distance i (get2 distance_matrix_ start_node i),
             upd parent i start_node)
       else st)
    (min_distance, parent).

Definition prim_init : prim_state :=
  let start_node := 0 in
  let in_tree := upd (repeat false (Z.to_nat n_nodes_)) start_node true in
  let min_distance := upd (repeat DBL_MAX (Z.to_nat n_nodes_)) start_node 0%Q in
  let parent := repeat (-1) (Z.to_nat n_nodes_) in
  let mp := init_distances start_node min_distance parent in
  mkPrim [] in_tree (fst mp) (snd mp).

(** The loop "Find minimum distance node not yet in tree". *)
Definition find_min_dist (in_tree : list bool) (min_distance : list double)
    : double :=
  for_loop 0 n_nodes_
    (fun i min_dist =>
       if negb (idx false in_tree i) && Qltb (idx 0%Q min_distance i) min_dist
       then idx 0%Q min_distance i else min_dist)
    DBL_MAX.

(** The loop "Update distances to remaining nodes"; the state is
    [(min_distance, parent)]. *)
Definition relax (min_node : Z) (in_tree : list bool)
    (min_distance : list double) (parent : list Z)
    : list double * list Z :=
  for_loop 0 n_nodes_
    (fun i mp =>
       let '(min_distance, parent) := mp in
       if negb (idx false in_tree i) then
         let new_dist := get2 distance_matrix_ min_node i in
         if Qltb new_dist (idx 0%Q min_distance i)
         then (upd min_distance i new_dist, upd parent i min_node)
         else mp
       else mp)
    (min_distance, parent).

(** One iteration of the loop "Build tree: add n-1 edges". *)
Definition prim_step (st : prim_state) : prim_state :=
  let min_dist := find_min_dist (in_tree st) (min_distance st) in
  let min_node :=
    select_node_with_tiebreak (min_distance st) (in_tree st) min_dist in
  let in_tree := upd (in_tree st) min_node true in
  let tree_edges :=
    tree_edges st ++ [mkEdge (idx (-1) (parent st) min_node) min_node min_dist] in
  let mp := relax min_node in_tree (min_distance st) (parent st) in
  mkPrim tree_edges in_tree (fst mp) (snd mp).

(** [tree_edges.reserve(n_nodes_ - 1)] is handed [(size_t)(-1)] when the
    matrix is empty and throws [std::length_error]. *)
Definition compute : result (list Edge) :=
  if n_nodes_ - 1 <? 0 then Throw length_error_what
  else Ok (tree_edges (for_loop 1 n_nodes_ (fun _ st => prim_step st) prim_init)).

End Solver.

End MSTree.

(** ** mstree_v2.cpp *)

(** [std::map] as an association list with unique keys, [std::set<int>] as
    a duplicate-free list. *)
Section Containers.

Context {K V : Type} (keqb : K -> K -> bool).

Fixpoint map_find (k : K) (m : list (K * V)) : option V :=
  match m with
  | [] => None
  | (k', v) :: t => if keqb k' k then Some v else map_find k t
  end.

Definition map_erase (k : K) (m : list (K * V)) : list (K * V) :=
  filter (fun kv => negb (keqb (fst kv) k)) m.

Definition map_put (k : K) (v : V) (m : list (K * V)) : list (K * V) :=
  (k, v) :: map_erase k m.

End Containers.

Definition set_mem (x : Z) (s : list Z) : bool := existsb (Z.eqb x) s.

Definition set_insert (x : Z) (s : list Z) : list Z :=
  if set_mem x s then s else s ++ [x].

Definition pair_eqb (a b : Z * Z) : bool :=
  (fst a =? fst b) && (snd a =? snd b).

(** [m[k]] on a [std::map<int,int>]: a missing key reads as 0. *)
Definition map_at (m : list (Z * Z)) (k : Z) : Z :=
  match map_find Z.eqb k m with Some v => v | None => 0 end.

Module MSTreeV2.

Section Solver.

Variable distance_matrix_ : matrix.

Definition n_nodes_ : Z := size distance_matrix_.

(** State of the loop: [(sum, count)]. *)
Definition harmonic_mean_score (node : Z) : double :=
  let '(sum, count) :=
    for_loop 0 n_nodes_
      (fun i st =>
         let '(sum, count) := st in
         if i =? node then st
         else
           let dist := get2 distance_matrix_ node i in
           if Qltb 0 dist then (fadd sum (fdiv 1%Q dist), count + 1) else st)
      (0%Q, 0) in
  if 0 <? count then fdiv (inject_Z count) sum else 0%Q.

(** One iteration of the inner loop of [find_minimum_incoming_edges];
    the state is [(min_dist, best_from, best_score)]. *)
Definition incoming_step (to_ from_ : Z) (st : double * Z * double)
    : double * Z * double :=
  let '(min_dist, best_from, best_score) := st in
  if from_ =? to_ then st
  else
    let dist := get2 distance_matrix_ from_ to_ in
    if Qltb dist min_dist then (dist, from_, harmonic_mean_score from_)
    else if Qltb (Qabs (fsub dist min_dist)) EPS_double then
           let score := harmonic_mean_score from_ in
           if Qltb best_score score then (min_dist, from_, score) else st
         else st.

Definition incoming_scan (to_ : Z) : double * Z * double :=
  for_loop 0 n_nodes_ (incoming_step to_) (DBL_MAX, -1, (-1)%Q).

Definition find_minimum_incoming_edges : list Edge :=
  for_loop 1 n_nodes_
    (fun to_ edges =>
       let '(min_dist, best_from, _) := incoming_scan to_ in
       if negb (best_from =? -1) then edges ++ [mkEdge best_from to_ min_dist]
       else edges)
    [].

(** [find_root] recurses along the parent links; [fuel] bounds the depth. *)
Fixpoint find_root (fuel : nat) (parent : list Z) (node : Z)
    : option (list Z * Z) :=
  match fuel with
  | O => None
  | S fuel' =>
      if negb (idx 0 parent node =? node) then
        match find_root fuel' parent (idx 0 parent node) with
        | None => None
        | Some (parent, r) =>
            let parent := upd parent node r in
            Some (parent, idx 0 parent node)
        end
      else Some (parent, idx 0 parent node)
  end.

(** The [while] loop of [mark_cycle]; every round puts a new node into
    [visited], so [fuel] beyond the number of nodes is never used up. *)
Fixpoint mark_cycle_loop (fuel : nat) (edges : list Edge) (current : Z)
    (visited : list Z) (cycle_id : list Z) (id : Z) : option (list Z) :=
  match fuel with
  | O => None
  | S fuel' =>
      if set_mem current visited then Some cycle_id
      else
        let visited := set_insert current visited in
        let cycle_id := upd cycle_id current id in
        match find (fun e => to e =? current) edges with
        | Some e => mark_cycle_loop fuel' edges (from e) visited cycle_id id
        | None => Some cycle_id
        end
  end.

Definition mark_cycle (edges : list Edge) (start : Z) (cycle_id : list Z)
    (id : Z) : option (list Z) :=
  mark_cycle_loop (S (S (Z.to_nat n_nodes_))) edges start [] cycle_id id.

(** State of the loop of [detect_cycles]:
    [(parent, cycle_id, next_cycle_id)]. *)
Definition detect_step (edges : list Edge) (e : Edge)
    (st : list Z * list Z * Z) : option (list Z * list Z * Z) :=
  let '(parent, cycle_id, next_cycle_id) := st in
  let fuel := S (Z.to_nat n_nodes_) in
  match find_root fuel parent (from e) with
  | None => None
  | Some (parent, root_from) =>
      match find_root fuel parent (to e) with
      | None => None
      | Some (parent, root_to) =>
          let marked :=
            if (root_from =? root_to) && (idx 0 cycle_id (to e) =? -1)
            then match mark_cycle edges (to e) cycle_id next_cycle_id with
                 | Some cycle_id => Some (cycle_id, next_cycle_id + 1)
                 | None => None
                 end
            else Some (cycle_id, next_cycle_id) in
          match marked with
          | None => None
          | Some (cycle_id, next_cycle_id) =>
              Some (upd parent root_to root_from, cycle_id, next_cycle_id)
          end
      end
  end.

Definition detect_cycles (edges : list Edge) : option (list Z) :=
  match
    fold_left
      (fun st e => match st with
                   | Some st => detect_step edges e st
                   | None => None
                   end)
      edges
      (Some (zrange 0 n_nodes_, repeat (-1) (Z.to_nat n_nodes_), 0))
  with
  | Some (_, cycle_id, _) => Some cycle_id
  | None => None
  end.

Definition has_cycles (cycle_id : list Z) : bool :=
  existsb (fun id => negb (id =? -1)) cycle_id.

(** The first part of [contract_and_solve]: the map from the nodes to the
    nodes of the contracted graph, and the size of the contracted graph. *)
Definition build_node_mapping (cycle_id : list Z) : list (Z * Z) * Z :=
  let unique_cycles :=
    fold_left (fun s id => if negb (id =? -1) then set_insert id s else s)
      cycle_id [] in
  let cycles0 : list (list Z) := repeat [] (List.length unique_cycles) in
  let '(node_mapping, cycles, next_node) :=
    for_loop 0 n_nodes_
      (fun i st =>
         let '(node_mapping, cycles, next_node) := st in
         if idx 0 cycle_id i =? -1
         then (map_put Z.eqb i next_node node_mapping, cycles, next_node + 1)
         else (node_mapping,
               upd cycles (idx 0 cycle_id i)
                 (set_insert i (idx [] cycles (idx 0 cycle_id i))),
               next_node))
      ([], cycles0, 0) in
  fold_left
    (fun st cyc =>
       let '(node_mapping, next_node) := st in
       let contracted_node := next_node in
       (fold_left (fun nm node => map_put Z.eqb node contracted_node nm)
          cyc node_mapping,
        next_node + 1))
    cycles (node_mapping, next_node).

(** The weight of the picked edge that enters [j] (0 when there is none). *)
Definition cycle_edge_weight (edges : list Edge) (j : Z) : double :=
  match find (fun e => to e =? j) edges with
  | Some e => distance e
  | None => 0%Q
  end.

(** The second part: the contracted matrix and, for each pair of
    contracted nodes, the original edge that realises its entry. *)
Definition build_contracted (edges : list Edge) (cycle_id : list Z)
    (node_mapping : list (Z * Z)) (new_size : Z)
    : matrix * list (Z * Z * Edge) :=
  for_loop 0 n_nodes_
    (fun i st =>
       for_loop 0 n_nodes_
         (fun j st =>
            let '(new_distances, edge_mapping) := st in
            if i =? j then st
            else
              let ni := map_at node_mapping i in
              let nj := map_at node_mapping j in
              if negb (ni =? nj) then
                let dist := get2 distance_matrix_ i j in
                let reduced_dist :=
                  if negb (idx 0 cycle_id j =? -1)
                  then fsub dist (cycle_edge_weight edges j)
                  else dist in
                if Qltb reduced_dist (get2 new_distances ni nj)
                then (set2 new_distances ni nj reduced_dist,
                      map_put pair_eqb (ni, nj) (mkEdge i j dist) edge_mapping)
                else st
              else st)
         st)
    (new_matrix new_size new_size DBL_MAX, []).

(** The last part: the solution of the contracted graph expanded back.
    The state of both loops is [(final_edges, nodes_with_incoming_edges)]. *)
Definition expand_solution (edges contracted_edges : list Edge)
    (edge_mapping : list (Z * Z * Edge)) : list Edge :=
  let st1 :=
    fold_left
      (fun st e =>
         let '(final_edges, covered) := st in
         match map_find pair_eqb (from e, to e) edge_mapping with
         | Some original =>
             (final_edges ++ [original], set_insert (to original) covered)
         | None => st
         end)
      contracted_edges ([], []) in
  fst (fold_left
    (fun st e =>
       let '(final_edges, covered) := st in
       if negb (set_mem (to e) covered)
       then (final_edges ++ [e], set_insert (to e) covered)
       else st)
    edges st1).

(** [solve] is [compute] of the solver built on the contracted matrix. *)
Definition contract_and_solve (solve : matrix -> option (list Edge))
    (edges : list Edge) (cycle_id : list Z) : option (list Edge) :=
  let '(node_mapping, new_size) := build_node_mapping cycle_id in
  let '(new_distances, edge_mapping) :=
    build_contracted edges cycle_id node_mapping new_size in
  match solve new_distances with
  | Some contracted_edges =>
      Some (expand_solution edges contracted_edges edge_mapping)
  | None => None
  end.

Definition can_swap_edges (tree : list Edge) (idx1 idx2 : Z) : bool :=
  let e1 := idx (mkEdge 0 0 0%Q) tree idx1 in
  let e2 := idx (mkEdge 0 0 0%Q) tree idx2 in
  (from e1 =? from e2) || (from e1 =? to e2)
  || (to e1 =? from e2) || (to e1 =? to e2).

Definition calculate_swap_cost (tree : list Edge) (idx1 idx2 : Z) : double :=
  let e1 := idx (mkEdge 0 0 0%Q) tree idx1 in
  let e2 := idx (mkEdge 0 0 0%Q) tree idx2 in
  let cost1 := fadd (get2 distance_matrix_ (from e1) (to e2))
                    (get2 distance_matrix_ (from e2) (to e1)) in
  let cost2 := fadd (get2 distance_matrix_ (to e1) (from e2))
                    (get2 distance_matrix_ (to e2) (from e1)) in
  if Qltb cost2 cost1 then cost2 else cost1.

Definition perform_edge_swap (tree : list Edge) (idx1 idx2 : Z) : list Edge :=
  let e1 := idx (mkEdge 0 0 0%Q) tree idx1 in
  let e2 := idx (mkEdge 0 0 0%Q) tree idx2 in
  let e1' := mkEdge (from e1) (to e2) (get2 distance_matrix_ (from e1) (to e2)) in
  let e2' := mkEdge (from e2) (to e1) (get2 distance_matrix_ (from e2) (to e1)) in
  upd (upd tree idx1 e1') idx2 e2'.

(** One round of the [while] loop of [recraft_branches]: the two nested
    [for] loops; the state is [(tree, improved)]. *)
Definition recraft_pass (tree : list Edge) : list Edge * bool :=
  for_loop 0 (size tree)
    (fun i st =>
       for_loop (i + 1) (size tree)
         (fun j st =>
            let '(tree, improved) := st in
            if can_swap_edges tree i j then
              let e1 := idx (mkEdge 0 0 0%Q) tree i in
              let e2 := idx (mkEdge 0 0 0%Q) tree j in
              let current_cost := fadd (distance e1) (distance e2) in
              let swap_cost := calculate_swap_cost tree i j in
              if Qltb swap_cost (fsub current_cost EPS_double)
              then (perform_edge_swap tree i j, true)
              else st
            else st)
         st)
    (tree, false).

(** [while (improved && iteration < max_iterations)]: [rounds] is what is
    left of [max_iterations]. *)
Fixpoint recraft_loop (rounds : nat) (tree : list Edge) : list Edge :=
  match rounds with
  | O => tree
  | S rounds' =>
      let '(tree, improved) := recraft_pass tree in
      if improved then recraft_loop rounds' tree else tree
  end.

Definition recraft_branches (tree : list Edge) : list Edge :=
  recraft_loop 10 tree.

End Solver.

(** [compute] calls itself, through [contract_and_solve], on the contracted
    matrix; [fuel] bounds the depth of that recursion. *)
Fixpoint compute_fuel (fuel : nat) (distance_matrix_ : matrix)
    : option (list Edge) :=
  match fuel with
  | O => None
  | S fuel' =>
      let min_incoming := find_minimum_incoming_edges distance_matrix_ in
      match detect_cycles distance_matrix_ min_incoming with
      | None => None
      | Some cycle_id =>
          let solved :=
            if has_cycles cycle_id
            then contract_and_solve distance_matrix_ (compute_fuel fuel')
                   min_incoming cycle_id
            else Some min_incoming in
          match solved with
          | None => None
          | Some min_incoming =>
              Some (recraft_branches distance_matrix_ min_incoming)
          end
      end
  end.

(** Every contraction removes at least one node, so the depth is below the
    number of nodes. *)
Definition compute (distance_matrix_ : matrix) : option (list Edge) :=
  compute_fuel (S (List.length distance_matrix_)) distance_matrix_.

End MSTreeV2.

(** ** newick.cpp *)

Module NewickFormatter.

Record TreeNode := mkTreeNode {
  id : Z;
  children : list Z;
  parent : Z;
  branch_length : double
}.

Definition default_node : TreeNode := mkTreeNode (-1) [] (-1) 0%Q.

(** [oss << std::fixed << std::setprecision(6) << x]: the value rounded to
    six decimals, ties to even. *)
Definition round_half_even (x : Q) : Z :=
  let n := Qnum x in
  let d := Z.pos (Qden x) in
  let q := n / d in
  let r := 2 * (n mod d) in
  if r <? d then q
  else if d <? r then q + 1
  else if Z.even q then q else q + 1.

Definition decimal (n : Z) : string :=
  DecimalString.NilZero.string_of_uint (N.to_uint (Z.to_N n)).

Definition format_fixed6 (x : double) : string :=
  let scaled := Z.abs (round_half_even (x * inject_Z 1000000)%Q) in
  let sign := if Qltb x 0 then "-"%string else EmptyString in
  let frac := decimal (1000000 + scaled mod 1000000) in
  (sign ++ decimal (scaled / 1000000) ++ "."
        ++ String.substring 1 6 frac)%string.

Definition build_tree_structure (edges : list Edge) (n_nodes : Z)
    : list TreeNode :=
  let nodes :=
    for_loop 0 n_nodes
      (fun i nodes => upd nodes i (mkTreeNode i [] (-1) 0%Q))
      (repeat default_node (Z.to_nat n_nodes)) in
  fold_left
    (fun nodes e =>
       let nf := idx default_node nodes (from e) in
       let nodes :=
         upd nodes (from e)
           (mkTreeNode (id nf) (children nf ++ [to e]) (parent nf) (branch_length nf)) in
       let nt := idx default_node nodes (to e) in
       let nodes :=
         upd nodes (to e)
           (mkTreeNode (id nt) (children nt) (from e) (branch_length nt)) in
       let nt := idx default_node nodes (to e) in
       upd nodes (to e)
         (mkTreeNode (id nt) (children nt) (parent nt) (distance e)))
    edges nodes.

Definition find_root (nodes : list TreeNode) : Z :=
  match find (fun i => parent (idx default_node nodes i) =? -1)
             (zrange 0 (size nodes)) with
  | Some i => i
  | None =>
      fst (for_loop 0 (size nodes)
        (fun i st =>
           let '(best_root, max_children) := st in
           if max_children <? size (children (idx default_node nodes i))
           then (i, size (children (idx default_node nodes i)))
           else st)
        (0, 0))
  end.

Definition special_char (c : ascii) : bool :=
  Ascii.eqb c " " || Ascii.eqb c ":" || Ascii.eqb c ";"
  || Ascii.eqb c "(" || Ascii.eqb c ")" || Ascii.eqb c ","
  || Ascii.eqb c "[" || Ascii.eqb c "]" || Ascii.eqb c "'".

Definition sanitize_name (name : string) : string :=
  let needs_quotes := existsb special_char (list_ascii_of_string name) in
  if needs_quotes then ("'" ++ name ++ "'")%string else name.

(** [to_newick] recurses into the children; [fuel] bounds the depth.  On
    a child structure with a cycle below the root the C++ recursion does
    not return, and the model answers [None] for every [fuel]. *)
Fixpoint to_newick (fuel : nat) (node_id : Z) (nodes : list TreeNode)
    (names : list string) : option string :=
  match fuel with
  | O => None
  | S fuel' =>
      let node := idx default_node nodes node_id in
      match children node with
      | [] => Some (sanitize_name (idx EmptyString names node_id))
      | _ =>
          let body :=
            fold_left
              (fun acc child_id =>
                 match acc with
                 | None => None
                 | Some (is_first, s) =>
                     match to_newick fuel' child_id nodes names with
                     | None => None
                     | Some sub =>
                         Some (false,
                               (s ++ (if (is_first : bool) then EmptyString else ",") ++ sub
                                  ++ ":"
                                  ++ format_fixed6
                                       (branch_length (idx default_node nodes child_id)))%string)
                     end
                 end)
              (children node) (Some (true, "("%string)) in
          match body with
          | None => None
          | Some (_, s) =>
              Some ((s ++ ")")
                    ++ (if (node_id <? size names)%Z
                        then sanitize_name (idx EmptyString names node_id)
                        else EmptyString))%string
          end
      end
  end.

Definition format (edges : list Edge) (strain_names : list string)
    : option string :=
  match edges with
  | [] =>
      Some (match strain_names with
            | [] => "();"%string
            | name :: _ => (name ++ ";")%string
            end)
  | _ =>
      let nodes := build_tree_structure edges (size strain_names) in
      let root := find_root nodes in
      match to_newick (S (List.length nodes)) root nodes strain_names with
      | Some s => Some (s ++ ";")%string
      | None => None
      end
  end.

End NewickFormatter.

(** ** wasm_interface.cpp *)

(** What the calls into the JSON library made by [parse_profile_json]
    yield on a request text: [json::parse] or one of the two [get<>]
    conversions throws, or the two vectors are obtained. *)
Inductive json_input :=
| JsonThrows (what : string)
| JsonProfile (strains : list string) (profiles : list (list Z)).

Record EdgeJson := mkEdgeJson {
  ej_from : Z;
  ej_to : Z;
  ej_from_name : string;
  ej_to_name : string;
  ej_distance : double
}.

(** The two response envelopes, before [dump()] writes them out. *)
Inductive Response :=
| Success (newick : string) (edges : list EdgeJson) (n_nodes n_edges : Z)
| Failure (error : string).

Definition success (r : Response) : bool :=
  match r with
  | Success _ _ _ _ => true
  | Failure _ => false
  end.

Section Interface.

(** The JSON library, as far as [parse_profile_json] uses it. *)
Variable json_profile : string -> json_input.

Definition parse_profile_json (json_str : string)
    : result DistanceMatrix.ProfileData :=
  match json_profile json_str with
  | JsonThrows what => Throw what
  | JsonProfile strains profiles =>
      Ok (DistanceMatrix.mkProfileData strains profiles (size strains)
            (match profiles with
             | [] => 0
             | p :: _ => size p
             end))
  end.

Definition edges_to_json (edges : list Edge) (strain_names : list string)
    : list EdgeJson :=
  map (fun e =>
         mkEdgeJson (from e) (to e)
           (idx EmptyString strain_names (from e))
           (idx EmptyString strain_names (to e))
           (distance e))
      edges.

Definition compute_distances (profile_data : DistanceMatrix.ProfileData)
    (matrix_type : string) (missing_handler : Z) : matrix :=
  if String.eqb matrix_type "symmetric"
  then DistanceMatrix.compute_symmetric profile_data
         (DistanceMatrix.MissingHandler_of_int missing_handler)
  else DistanceMatrix.compute_asymmetric profile_data.

(** The method dispatch of [compute_tree].  [None] stands for a builder
    that does not return. *)
Definition build_tree (distances : matrix) (method heuristic : string)
    : option (result (list Edge)) :=
  if String.eqb method "MSTree" then
    let h := if String.eqb heuristic "harmonic"
             then MSTree.HARMONIC else MSTree.EBURST in
    Some (MSTree.compute distances h)
  else if String.eqb method "MSTreeV2" then
    match MSTreeV2.compute distances with
    | Some tree_edges => Some (Ok tree_edges)
    | None => None
    end
  else Some (Throw ("Unknown method: " ++ method)%string).

(** [None]: the call does not return. *)
Definition compute_tree (profile_json method matrix_type : string)
    (missing_handler : Z) (heuristic : string) : option Response :=
  match parse_profile_json profile_json with
  | Throw what => Some (Failure what)
  | Ok profile_data =>
      let distances :=
        compute_distances profile_data matrix_type missing_handler in
      match build_tree distances method heuristic with
      | None => None
      | Some (Throw what) => Some (Failure what)
      | Some (Ok tree_edges) =>
          match NewickFormatter.format tree_edges
                  (DistanceMatrix.strain_names profile_data) with
          | None => None
          | Some newick =>
              Some (Success newick
                      (edges_to_json tree_edges
                         (DistanceMatrix.strain_names profile_data))
                      (DistanceMatrix.n_strains profile_data)
                      (size tree_edges))
          end
      end
  end.

Definition compute_distance_matrix (profile_json matrix_type : string)
    (missing_handler : Z) : result (matrix * list string * Z) :=
  match parse_profile_json profile_json with
  | Throw what => Throw what
  | Ok profile_data =>
      Ok (compute_distances profile_data matrix_type missing_handler,
          DistanceMatrix.strain_names profile_data,
          DistanceMatrix.n_strains profile_data)
  end.

End Interface.


(** * Vocabulary of the statements *)

(** An [n] by [n] matrix. *)
Definition square (n : Z) (m : matrix) : Prop :=
  size m = n /\ forall i, 0 <= i < n -> size (idx [] m i) = n.

(** The invariants of a [ProfileData]: as many profiles as strain names,
    every profile with [n_genes] entries. *)
Definition valid_profile_data (pd : DistanceMatrix.ProfileData) : Prop :=
  DistanceMatrix.n_strains pd = size (DistanceMatrix.strain_names pd)
  /\ size (DistanceMatrix.profiles pd) = DistanceMatrix.n_strains pd
  /\ 0 <= DistanceMatrix.n_genes pd
  /\ Forall (fun p => size p = DistanceMatrix.n_genes pd)
            (DistanceMatrix.profiles pd).

(** The number of loci [k] in [0..G-1] that satisfy [P]. *)
Definition count_loci (G : Z) (P : Z -> bool) : Z :=
  Z.of_nat (List.length (filter P (zrange 0 G))).

Definition zsum (l : list Z) : Z := fold_right Z.add 0 l.

Definition missing (x : Z) : bool := x <=? 0.

(** The policy table of the symmetric distance: what one locus with the
    alleles [a] and [b] adds to the differences of a pair. *)
Definition policy_contribution (h : DistanceMatrix.MissingHandler) (a b : Z) : Z :=
  match missing a, missing b with
  | false, false => if a =? b then 0 else 1
  | true, true =>
      match h with
      | DistanceMatrix.ABSOLUTE_DIFF => 1
      | _ => 0
      end
  | _, _ =>
      match h with
      | DistanceMatrix.TREAT_AS_ALLELE | DistanceMatrix.ABSOLUTE_DIFF => 1
      | _ => 0
      end
  end.

Definition policy_differences (h : DistanceMatrix.MissingHandler)
    (p1 p2 : list Z) (G : Z) : Z :=
  zsum (map (fun k => policy_contribution h (idx 0 p1 k) (idx 0 p2 k))
            (zrange 0 G)).

Definition named_handlers : list DistanceMatrix.MissingHandler :=
  [DistanceMatrix.IGNORE; DistanceMatrix.REMOVE_COLUMN;
   DistanceMatrix.TREAT_AS_ALLELE; DistanceMatrix.ABSOLUTE_DIFF].

Definition is_ACGT (c : ascii) : bool :=
  Ascii.eqb c "A" || Ascii.eqb c "C" || Ascii.eqb c "G" || Ascii.eqb c "T".

(** The number of positions [i] below [n] that satisfy [P]. *)
Definition count_positions (n : nat) (P : nat -> bool) : Z :=
  Z.of_nat (List.length (filter P (seq 0 n))).

(** The p-distance in the words of the specification: only the positions
    where both characters are one of A, C, G, T are valid. *)
Definition p_distance_ACGT (seq1 seq2 : string) : double :=
  if negb (String.length seq1 =? String.length seq2)%nat then DBL_MAX
  else
    let valid i :=
      is_ACGT (DistanceMatrix.char_at seq1 i)
      && is_ACGT (DistanceMatrix.char_at seq2 i) in
    let differ i :=
      negb (Ascii.eqb (DistanceMatrix.char_at seq1 i)
                      (DistanceMatrix.char_at seq2 i)) in
    let valid_positions := count_positions (String.length seq1) valid in
    let differences :=
      count_positions (String.length seq1) (fun i => valid i && differ i) in
    if valid_positions =? 0 then 0%Q
    else fdiv (inject_Z differences) (inject_Z valid_positions).

(** A position takes part in the p-distance of the code when neither
    character, in upper case, is a gap or an N. *)
Definition gap_or_N (c : ascii) : bool :=
  Ascii.eqb (DistanceMatrix.toupper c) "-"
  || Ascii.eqb (DistanceMatrix.toupper c) "N".

Definition position_valid (seq1 seq2 : string) (i : nat) : bool :=
  negb (gap_or_N (DistanceMatrix.char_at seq1 i))
  && negb (gap_or_N (DistanceMatrix.char_at seq2 i)).

Definition position_differs (seq1 seq2 : string) (i : nat) : bool :=
  negb (Ascii.eqb (DistanceMatrix.toupper (DistanceMatrix.char_at seq1 i))
                  (DistanceMatrix.toupper (DistanceMatrix.char_at seq2 i))).

(** Locus [k] counts as a difference from [p1] to [p2]: both alleles are
    present and they differ. *)
Definition locus_differs (p1 p2 : list Z) (k : Z) : bool :=
  (0 <? idx 0 p1 k) && (0 <? idx 0 p2 k) && negb (idx 0 p1 k =? idx 0 p2 k).

(** Locus [k] is missing in [p]. *)
Definition locus_missing (p : list Z) (k : Z) : bool := idx 0 p k <=? 0.

(** [differences + 0.5 * missing_in_from] over [G] loci. *)
Definition directional_formula (G : Z) (p1 p2 : list Z) : double :=
  (inject_Z (count_loci G (locus_differs p1 p2))
   + (1 # 2) * inject_Z (count_loci G (locus_missing p1)))%Q.

Definition scenario5 : DistanceMatrix.ProfileData :=
  DistanceMatrix.mkProfileData ["S0"; "S1"]%string [[0; 0; 0]; [1; 2; 3]] 2 3.

Definition scenario4 : DistanceMatrix.ProfileData :=
  DistanceMatrix.mkProfileData ["S0"; "S1"; "S2"]%string
    [[1; 2; 0]; [1; 2; 3]; [1; 2; 3]] 3 3.

(** What a round of recrafting keeps: the number of edges, the [from]
    endpoints in their order, and the [to] endpoints as a multiset. *)
Definition recraft_related (tree0 tree : list Edge) : Prop :=
  List.length tree = List.length tree0
  /\ map from tree = map from tree0
  /\ Permutation (map to tree) (map to tree0).


(** The tie test of the sources, [std::abs(a - b) < 1e-10] in doubles,
    passes. *)
Definition tie_test (a b : double) : Prop :=
  (Qabs (fsub a b) < EPS_double)%Q.

(** [from_] is a candidate parent of [to_]. *)
Definition candidate (D : matrix) (to_ from_ : Z) : Prop :=
  0 <= from_ < size D /\ from_ <> to_.


(** What one round of the outer loop of phase C1 appends. *)
Definition incoming_edge (D : matrix) (to_ : Z) : list Edge :=
  let '(min_dist, best_from, _) := MSTreeV2.incoming_scan D to_ in
  if negb (best_from =? -1) then [mkEdge best_from to_ min_dist] else [].

(** The state of the scan for [to_] after the candidates below [k]:
    untouched before the first candidate; afterwards [f0] is the first
    candidate that attains the running minimum [m], and [b] has the largest
    score among the candidates from [f0] on that tie with [m]. *)
Definition scan_invariant (D : matrix) (to_ k : Z)
    (st : double * Z * double) : Prop :=
  let m := fst (fst st) in
  let b := snd (fst st) in
  let s := snd st in
  (k = 0 /\ st = (DBL_MAX, -1, (-1)%Q))
  \/ (exists f0,
        0 <= f0 < k /\ f0 <> to_ /\ m = get2 D f0 to_
        /\ (forall f, 0 <= f < f0 -> f <> to_ -> (m < get2 D f to_)%Q)
        /\ (forall f, 0 <= f < k -> f <> to_ -> (m <= get2 D f to_)%Q)
        /\ f0 <= b < k /\ b <> to_ /\ tie_test (get2 D b to_) m
        /\ s = MSTreeV2.harmonic_mean_score D b
        /\ (forall f, f0 <= f < k -> f <> to_ -> tie_test (get2 D f to_) m ->
              (MSTreeV2.harmonic_mean_score D f
               <= MSTreeV2.harmonic_mean_score D b)%Q)).

(** A matrix without ties, to try the rule of phase C1 on. *)
Definition three_node_matrix : matrix :=
  [[0; 1; 1]; [1; 0; 2]; [1; 2; 0]]%Q.


(** *** Undirected graphs given by an edge list *)

(** The edge [e] joins [u] and [v], in either direction. *)
Definition joins (e : Edge) (u v : Z) : Prop :=
  (from e = u /\ to e = v) \/ (from e = v /\ to e = u).

Definition adjacent (es : list Edge) (u v : Z) : Prop :=
  exists e, In e es /\ joins e u v.

Inductive connected (es : list Edge) : Z -> Z -> Prop :=
| connected_refl u : connected es u u
| connected_step u v w :
    connected es u v -> adjacent es v w -> connected es u w.

Definition connected_graph (n : Z) (es : list Edge) : Prop :=
  forall u v, 0 <= u < n -> 0 <= v < n -> connected es u v.

(** [trail es u w used]: a walk from [u] to [w] that traverses, in this
    order, the edges at the positions [used] of [es]. *)
Inductive trail (es : list Edge) : Z -> Z -> list nat -> Prop :=
| trail_nil u : trail es u u []
| trail_cons u v w i e used :
    nth_error es i = Some e -> joins e u v -> trail es v w used ->
    trail es u w (i :: used).

(** No cycle: a closed walk that uses no edge twice is empty. *)
Definition acyclic (es : list Edge) : Prop :=
  forall u used, trail es u u used -> NoDup used -> used = [].

Definition in_some_edge (es : list Edge) (v : Z) : Prop :=
  exists e, In e es /\ (from e = v \/ to e = v).

(** A connected acyclic graph on the vertices [0..n-1] in which every
    vertex lies on an edge. *)
Definition spanning_tree (n : Z) (es : list Edge) : Prop :=
  (forall e, In e es -> 0 <= from e < n /\ 0 <= to e < n)
  /\ connected_graph n es
  /\ acyclic es
  /\ forall v, 0 <= v < n -> in_some_edge es v.

(** An edge list grown from [root]: every edge hangs a new vertex onto a
    vertex that is the root or was hung on before. *)
Inductive grown (root : Z) : list Edge -> Prop :=
| grown_nil : grown root []
| grown_snoc es e :
    grown root es ->
    In (from e) (root :: map to es) ->
    ~ In (to e) (root :: map to es) ->
    grown root (es ++ [e]).

(** Every entry is a finite double. *)
Definition finite_matrix (D : matrix) : Prop :=
  forall i j, 0 <= i < size D -> 0 <= j < size D -> (get2 D i j <= DBL_MAX)%Q.

(** What Prim's loop keeps true of its state: the vectors have the size
    of the matrix; the edges are grown from vertex 0; [in_tree] marks the
    grown vertices; every vertex outside the tree has its [parent] inside
    and a finite [min_distance]. *)
Definition prim_invariant (D : matrix) (st : MSTree.prim_state) : Prop :=
  let n := size D in
  size (MSTree.in_tree st) = n
  /\ size (MSTree.min_distance st) = n
  /\ size (MSTree.parent st) = n
  /\ grown 0 (MSTree.tree_edges st)
  /\ (forall e, In e (MSTree.tree_edges st) -> 0 <= to e < n)
  /\ (forall i, 0 <= i < n ->
        (idx false (MSTree.in_tree st) i = true
         <-> In i (0 :: map to (MSTree.tree_edges st))))
  /\ (forall i, 0 <= i < n -> idx false (MSTree.in_tree st) i = false ->
        In (idx (-1) (MSTree.parent st) i) (0 :: map to (MSTree.tree_edges st))
        /\ (idx 0%Q (MSTree.min_distance st) i <= DBL_MAX)%Q).

(** A request whose shapes are as the data model demands: at least one
    strain, as many profiles as strains, all profiles of one length. *)
Definition well_formed_profile (strains : list string)
    (profiles : list (list Z)) : Prop :=
  strains <> []
  /\ size profiles = size strains
  /\ exists G, Forall (fun p => size p = G) profiles.

(** Three strains on four loci: B is two loci from A, C is three loci
    from B and four from A. *)
Definition chain_profiles : DistanceMatrix.ProfileData :=
  DistanceMatrix.mkProfileData ["A"; "B"; "C"]%string
    [[1; 1; 1; 1]; [2; 1; 1; 2]; [2; 2; 2; 3]] 3 4.

(** The text of a request; what it holds is told by the JSON library. *)
Definition request_text : string := "request".

Definition scenario1_json (_ : string) : json_input :=
  JsonProfile ["A"; "B"; "C"]%string [[1; 2; 3]; [1; 2; 4]; [1; 3; 3]].

Definition no_strains_json (_ : string) : json_input := JsonProfile [] [].

Definition no_profiles_json (_ : string) : json_input :=
  JsonProfile ["A"]%string [].

Definition ragged_json (_ : string) : json_input :=
  JsonProfile ["A"; "B"]%string [[1; 2; 3]; [1; 2; 4; 5]].

Definition throwing_json (_ : string) : json_input :=
  JsonThrows "parse error".


Definition scenario3_json (_ : string) : json_input :=
  JsonProfile ["a"; "b"; "c"; "d"; "e"]%string
    [[1; 2]; [1; 2]; [1; 2]; [1; 2]; [1; 2]].

Definition scenario5_json (_ : string) : json_input :=
  JsonProfile ["S0"; "S1"]%string [[0; 0; 0]; [1; 2; 3]].

Definition scenario6_json (_ : string) : json_input :=
  JsonProfile ["S 1"; "S:2"]%string [[1; 2]; [1; 2]].

Definition single_strain_json (_ : string) : json_input :=
  JsonProfile ["only"]%string [[1; 2]].

(** The Newick text and the [(from, to)] pairs of a successful response. *)
Definition newick_of (r : option Response) : option string :=
  match r with
  | Some (Success newick _ _ _) => Some newick
  | _ => None
  end.

Definition shape_of (r : option Response) : list (Z * Z) :=
  match r with
  | Some (Success _ edges _ _) => map (fun e => (ej_from e, ej_to e)) edges
  | _ => []
  end.

(** * Vocabulary of the further properties *)

(** The two nested loops shared by [compute_symmetric] and
    [compute_p_distance]: cell [(i, j)] and its mirror receive [F i j]. *)
Definition symmetric_fill (n : Z) (F : Z -> Z -> double) : matrix :=
  for_loop 0 n
    (fun i m =>
       for_loop (i + 1) n
         (fun j m => set2 (set2 m i j (F i j)) j i (F i j))
         m)
    (new_matrix n n 0%Q).

(** The number of loci of [p] below [G] that are missing. *)
Definition missing_loci (G : Z) (p : list Z) : Z :=
  count_loci G (locus_missing p).


Definition three_sequences : list string := ["ACGT"; "ACGA"; "AC-T"]%string.


(** What Prim's loop keeps true of the distances: a vertex outside the
    tree holds in [min_distance] its entry from its [parent], which is its
    least entry from the tree; a recorded distance is not above the entry
    of its edge and within the tolerance of it; and a recorded distance is
    not above any entry that led, when the edge was recorded, from the tree
    to a vertex outside it. *)
Definition prim_exact (D : matrix) (st : MSTree.prim_state) : Prop :=
  (forall i, 0 <= i < size D -> idx false (MSTree.in_tree st) i = false ->
     idx 0%Q (MSTree.min_distance st) i
     = get2 D (idx (-1) (MSTree.parent st) i) i
     /\ forall p, In p (0 :: map to (MSTree.tree_edges st)) ->
          (idx 0%Q (MSTree.min_distance st) i <= get2 D p i)%Q)
  /\ (forall e, In e (MSTree.tree_edges st) ->
        (distance e <= get2 D (from e) (to e))%Q
        /\ (Qabs (get2 D (from e) (to e) - distance e) < EPS)%Q)
  /\ (forall pre e post, MSTree.tree_edges st = pre ++ e :: post ->
        forall p v, In p (0 :: map to pre) -> 0 <= v < size D ->
                    ~ In v (0 :: map to pre) ->
                    (distance e <= get2 D p v)%Q).

(** The edge list is that of a tree rooted at vertex 0 over [0..n-1]. *)
Definition rooted_tree (n : Z) (es : list Edge) : Prop :=
  grown 0 es
  /\ Permutation (map to es) (zrange 1 n)
  /\ forall e, In e es -> 0 <= from e < n /\ from e <> to e.

(** Every recorded distance is the least entry from the tree built by the
    earlier edges to the vertices outside it, and the entry of its own edge
    is within the tolerance of it. *)
Definition greedy_distances (D : matrix) (es : list Edge) : Prop :=
  (forall e, In e es ->
     (distance e <= get2 D (from e) (to e))%Q
     /\ (Qabs (get2 D (from e) (to e) - distance e) < EPS)%Q)
  /\ (forall pre e post, es = pre ++ e :: post ->
        forall p v, In p (0 :: map to pre) -> 0 <= v < size D ->
                    ~ In v (0 :: map to pre) ->
                    (distance e <= get2 D p v)%Q).


(** Two vertices at distance 3 one way and 5 the other. *)
Definition two_node_matrix : matrix := [[0; 3]; [5; 0]]%Q.


(** ** The tree of an edge list *)

(** What an edge list says of vertex [v]: its children are the [to] of
    the edges out of [v], in the order of the list; its parent and its
    branch length are the [from] and the distance of the last edge into
    [v], and [-1] and [0] when there is none. *)
Definition children_of (es : list Edge) (v : Z) : list Z :=
  map to (filter (fun e => from e =? v) es).

Definition parent_of (es : list Edge) (v : Z) : Z :=
  fold_left (fun p e => if to e =? v then from e else p) es (-1).

Definition length_of (es : list Edge) (v : Z) : double :=
  fold_left (fun d e => if to e =? v then distance e else d) es 0%Q.

(** Every endpoint is a vertex in [0..n-1]. *)
Definition in_range (n : Z) (es : list Edge) : Prop :=
  forall e, In e es -> 0 <= from e < n /\ 0 <= to e < n.

(** The edge list returned for [chain_profiles] by MSTreeV2: an edge from
    A to C and a loop at B. *)
Definition self_loop_edges : list Edge := [mkEdge 0 2 4; mkEdge 1 1 0]%Q.

(** A star from vertex 0 to vertices 1 and 2. *)
Definition star_edges : list Edge := [mkEdge 0 1 1; mkEdge 0 2 1]%Q.

Definition three_names : list string := ["A"; "B"; "C"]%string.


(** Three strains on two loci; the middle one has no allele called. *)
Definition bridge_profiles : DistanceMatrix.ProfileData :=
  DistanceMatrix.mkProfileData ["A"; "B"; "C"]%string
    [[1; 1]; [0; 0]; [2; 2]] 3 2.

(** No locus below [G] is missing in [p]. *)
Definition complete (G : Z) (p : list Z) : Prop :=
  forall k, 0 <= k < G -> 0 < idx 0 p k.


(** * The JavaScript shell: file_handler.js and wasm_loader.js *)

(** The [data] object of a request, as far as the validators and the
    loader read it.  [None] stands for a field that is absent, [null] or
    [undefined]; a field that is present is an array (an array is truthy
    even when empty), of strings for [strains] and of arrays of integers
    for [profiles], as the parsers of file_handler.js produce them. *)
Record ProfileObject := mkProfileObject {
  po_strains : option (list string);
  po_profiles : option (list (list Z))
}.

Module FileHandler.

(** The object [{ valid, error }] that [validateProfileData] returns. *)
Record Validation := mkValidation {
  valid : bool;
  error : option string
}.

Definition validateProfileData (data : option ProfileObject) : Validation :=
  match data with
  | Some (mkProfileObject (Some strains) (Some profiles)) =>
      if size strains =? 0 then
        mkValidation false (Some "No strains provided"%string)
      else if negb (size strains =? size profiles) then
        mkValidation false (Some "Number of strains and profiles must match"%string)
      else
        let profileLength := size (idx [] profiles 0) in
        match find (fun i => negb (size (idx [] profiles i) =? profileLength))
                   (zrange 1 (size profiles)) with
        | Some i =>
            mkValidation false
              (Some ("Profile " ++ NewickFormatter.decimal i
                       ++ " has different length than profile 0")%string)
        | None => mkValidation true None
        end
  | _ => mkValidation false (Some "Missing strains or profiles"%string)
  end.

End FileHandler.

Module GrapeTreeWASM.

(** The argument of [computeTree]; [None] is an option left [undefined],
    which the destructuring replaces by its default. *)
Record TreeOptions := mkTreeOptions {
  data : option ProfileObject;
  method : option string;
  matrix : option string;
  missing : option Z;
  heuristic : option string
}.

(** The object that [computeTree] returns. *)
Record TreeResult := mkTreeResult {
  newick : string;
  edges : list EdgeJson;
  nNodes : Z;
  nEdges : Z
}.

Definition includes (l : list string) (x : string) : bool :=
  existsb (String.eqb x) l.

Definition join_comma (l : list string) : string :=
  String.concat ", " l.

Definition validMethods : list string := ["MSTree"; "MSTreeV2"; "NJ"]%string.
Definition validMatrix : list string := ["symmetric"; "asymmetric"]%string.
Definition validHeuristics : list string := ["eBurst"; "harmonic"]%string.

(** [_validateTreeOptions]: [Throw] carries the message of the [Error]. *)
Definition _validateTreeOptions (data : option ProfileObject)
    (method matrix : string) (missing : Z) (heuristic : string) : result unit :=
  match data with
  | Some (mkProfileObject (Some strains) (Some profiles)) =>
      if size strains =? 0 then Throw "No strains provided"
      else if negb (size profiles =? size strains) then
        Throw "Number of profiles must match number of strains"
      else if negb (includes validMethods method) then
        Throw ("Invalid method: " ++ method ++ ". Must be one of: "
                 ++ join_comma validMethods)
      else if negb (includes validMatrix matrix) then
        Throw ("Invalid matrix type: " ++ matrix ++ ". Must be one of: "
                 ++ join_comma validMatrix)
      else if (missing <? 0) || (3 <? missing) then
        Throw "Missing data handler must be 0-3"
      else if negb (includes validHeuristics heuristic) then
        Throw ("Invalid heuristic: " ++ heuristic ++ ". Must be one of: "
                 ++ join_comma validHeuristics)
      else Ok tt
  | _ => Throw "Invalid data format. Expected {strains: [], profiles: []}"
  end.

Section Loader.

(** The state of the loader and the pieces it calls: whether [init] has
    run, [JSON.stringify] on the data, and the JSON library of the engine
    reading that text back. *)
Variable isInitialized : bool.
Variable stringify : option ProfileObject -> string.
Variable json_profile : string -> json_input.

Definition default {A} (d : A) (o : option A) : A :=
  match o with Some x => x | None => d end.

(** [computeTree]: [None] when the engine does not return, [Throw] with
    the message of the [Error] thrown, [Ok] with the object returned. *)
Definition computeTree (options : TreeOptions) : option (result TreeResult) :=
  if negb isInitialized then
    Some (Throw "WASM module not initialized. Call init() first.")
  else
    let method := default "MSTreeV2"%string (method options) in
    let matrix := default "asymmetric"%string (matrix options) in
    let missing := default 0 (missing options) in
    let heuristic := default "harmonic"%string (heuristic options) in
    match _validateTreeOptions (data options) method matrix missing heuristic with
    | Throw what => Some (Throw what)
    | Ok _ =>
        let profileJson := stringify (data options) in
        match compute_tree json_profile profileJson method matrix missing
                heuristic with
        | None => None
        | Some (Failure error) =>
            Some (Throw (if String.eqb error "" then "Tree computation failed"
                         else error))
        | Some (Success newick edges n_nodes n_edges) =>
            Some (Ok (mkTreeResult newick edges n_nodes n_edges))
        end
    end.

End Loader.

End GrapeTreeWASM.

(** A data object with its two arrays. *)
Definition profile_object (strains : list string) (profiles : list (list Z))
    : option ProfileObject :=
  Some (mkProfileObject (Some strains) (Some profiles)).

(** [JSON.stringify] for the examples: the text is that of the request. *)
Definition request_stringify (_ : option ProfileObject) : string :=
  request_text.

(** The data of Scenario 1, and data whose second profile is longer than
    the first. *)
Definition scenario1_data : option ProfileObject :=
  profile_object ["A"; "B"; "C"]%string [[1; 2; 3]; [1; 2; 4]; [1; 3; 3]].

Definition ragged_data : option ProfileObject :=
  profile_object ["A"; "B"]%string [[1; 2; 3]; [1; 2; 4; 5]].

(** The options of a call that names its method and leaves the rest to the
    defaults. *)
Definition options_for (data : option ProfileObject) (method : string)
    : GrapeTreeWASM.TreeOptions :=
  GrapeTreeWASM.mkTreeOptions data (Some method) None None None.


(** ** Vocabulary of MSTreeV2 on every matrix *)

(** An edge list in the shape that phase C1 gives: no vertex is entered
    twice, vertex 0 is not entered, and every edge joins two different
    vertices of [0..n-1]. *)
Definition picked (n : Z) (es : list Edge) : Prop :=
  NoDup (map to es)
  /\ forall e, In e es -> 1 <= to e < n /\ 0 <= from e < n /\ from e <> to e.

(** [steps P u w]: from [u] one comes to [w] by walking edges of [P]
    backwards, from the [to] of an edge to its [from]. *)
Inductive steps (P : list Edge) : Z -> Z -> Prop :=
| steps_refl u : steps P u u
| steps_edge e u w : In e P -> to e = u -> steps P (from e) w -> steps P u w.

(** The backward walks from [u] and from [v] meet. *)
Definition merge (P : list Edge) (u v : Z) : Prop :=
  exists w, steps P u w /\ steps P v w.

(** The union-find forest of [detect_cycles] over [n] nodes: the links
    stay in range and climb a rank that is bounded by [bound], and every
    node meets the node it is linked to. *)
Definition uf_inv (n : Z) (P : list Edge) (bound : nat) (rank : Z -> nat)
    (parent : list Z) : Prop :=
  size parent = n
  /\ forall i, 0 <= i < n ->
       0 <= idx 0 parent i < n
       /\ (rank i <= bound)%nat
       /\ (idx 0 parent i <> i -> (rank i < rank (idx 0%Z parent i))%nat)
       /\ merge P i (idx 0 parent i).

(** The marks of [detect_cycles] after the edges [P]: a marked vertex is
    entered by an edge of [P] whose source carries the same mark, and the
    marks in use are exactly [0..next-1]. *)
Definition marks_inv (n : Z) (P : list Edge) (cycle_id : list Z) (next : Z)
    : Prop :=
  size cycle_id = n
  /\ 0 <= next
  /\ (forall u, 0 <= u < n -> idx 0 cycle_id u <> -1 ->
        0 <= idx 0 cycle_id u < next
        /\ exists e, In e P /\ to e = u
                     /\ idx 0 cycle_id (from e) = idx 0 cycle_id u)
  /\ (forall c, 0 <= c < next ->
        exists u, 0 <= u < n /\ idx 0 cycle_id u = c).

(** Node [i] carries no mark of a cycle. *)
Definition unmarked (cycle_id : list Z) (i : Z) : bool :=
  idx 0 cycle_id i =? -1.

(** [walk es v path]: [path] lists the vertices met from [v] to vertex 0
    when the edges of [es] are walked backwards. *)
Inductive walk (es : list Edge) : Z -> list Z -> Prop :=
| walk_root : walk es 0 [0]
| walk_step e v path :
    In e es -> to e = v -> walk es (from e) path -> walk es v (v :: path).

(** The number of edges walked backwards from [v] until a vertex that no
    edge enters, at most [fuel]. *)
Fixpoint depth_below (fuel : nat) (es : list Edge) (v : Z) : nat :=
  match fuel with
  | O => O
  | S fuel' =>
      match find (fun e => to e =? v) es with
      | Some e => S (depth_below fuel' es (from e))
      | None => O
      end
  end.

(** An edge list in which no vertex is entered twice and vertex 0 is not
    entered, over the vertices [0..n-1]. *)
Definition in_degree_one (n : Z) (es : list Edge) : Prop :=
  NoDup (map to es)
  /\ forall e, In e es -> 1 <= to e < n /\ 0 <= from e < n.

(** The options of a call that gives the data and nothing else. *)
Definition options_with_defaults (data : option ProfileObject)
    : GrapeTreeWASM.TreeOptions :=
  GrapeTreeWASM.mkTreeOptions data None None None None.


(** ** Vocabulary of the tiebreaks *)

(** The number of tree vertices whose entry from [node] lies within the
    tolerance of [min_dist]. *)
Definition connections (D : matrix) (in_tree : list bool) (min_dist : double)
    (node : Z) : Z :=
  Z.of_nat
    (List.length
       (filter (fun j => idx false in_tree j
                         && Qltb (Qabs (fsub (get2 D node j) min_dist))
                                 EPS_double)
          (zrange 0 (size D)))).

(** ** Vocabulary of the recrafting pass *)

(** The sum of the distances that the edges record. *)
Definition total_distance (es : list Edge) : double :=
  fold_right Qplus 0%Q (map distance es).

(** [D[i][j]] and [D[j][i]] agree for all vertices below [n]. *)
Definition symmetric_matrix (n : Z) (D : matrix) : Prop :=
  forall i j, 0 <= i < n -> 0 <= j < n -> (get2 D i j == get2 D j i)%Q.

(** A matrix that is not symmetric: vertex 2 is far from vertex 0 and
    vertex 0 is near to vertex 2.  Phase C1 picks [skew_tree] for it. *)
Definition skew_matrix : matrix :=
  [[0; 1; 100]; [1; 0; 1]; [0; 1; 0]]%Q.

Definition skew_tree : list Edge := [mkEdge 0 1 1; mkEdge 1 2 1]%Q.


(** The edge [e] records the entry of its endpoints in [D], up to the
    tolerance. *)
Definition records_entry (D : matrix) (e : Edge) : Prop :=
  (Qabs (get2 D (from e) (to e) - distance e) < EPS)%Q.

(** [occurs s t]: the text [s] is a contiguous part of the text [t]. *)
Definition occurs (s t : string) : Prop :=
  exists pre post, t = (pre ++ s ++ post)%string.

(** [reach es v w]: the edges of [es] lead from [v] to [w]. *)
Inductive reach (es : list Edge) : Z -> Z -> Prop :=
| reach_refl v : reach es v v
| reach_edge e w : In e es -> reach es (to e) w -> reach es (from e) w.

(** The test for [occurs]: [s] is a prefix of [t] or occurs further on. *)
Fixpoint occursb (s t : string) : bool :=
  String.prefix s t
  || match t with
     | EmptyString => false
     | String _ t' => occursb s t'
     end.

(** The edge that an entry of the edge array was written from. *)
Definition edge_of (e : EdgeJson) : Edge :=
  mkEdge (ej_from e) (ej_to e) (ej_distance e).

(** Two inputs on which the rounding of the doubles decides the outcome:
    the exact harmonic means of rows 1 and 2 of [close_scores_matrix]
    differ by more than 1e-10 and the doubles computed for them do not;
    on [close_costs_matrix] the exact swap cost of the two edges of
    [close_costs_tree] is not more than 1e-10 below their exact sum, and
    the rounded cost is below the rounded bound. *)
Definition close_scores_matrix : matrix :=
  [[0; 8089850055708879 # 8589934592; 8089850055708879 # 8589934592];
   [8089850055708879 # 8589934592; 0; 8089850055708879 # 8589934592];
   [8089850055708881 # 8589934592; 8089850055708879 # 8589934592; 0]]%Q.

Definition close_costs_matrix : matrix :=
  [[0; 1 # 16; 2251799811883809 # 18014398509481984];
   [1 # 16; 0; 4503599627370499 # 72057594037927936];
   [2251799811883809 # 18014398509481984;
    4503599627370499 # 72057594037927936; 0]]%Q.

Definition close_costs_tree : list Edge :=
  [mkEdge 0 1 (1 # 16); mkEdge 1 2 (4503599627370499 # 72057594037927936)].

(** ** Vocabulary of the engine's matrices *)

(** What the distance engine writes into a matrix: a multiple of 1/2
    between 0 and 2^31. *)
Definition engine_entry (x : double) : Prop :=
  exists k, 0 <= k <= 2 ^ 32 /\ (x == k # 2)%Q.

(** Every entry over the vertices below [n] is such a number. *)
Definition engine_matrix (n : Z) (D : matrix) : Prop :=
  forall i j, 0 <= i < n -> 0 <= j < n -> engine_entry (get2 D i j).

(** Every edge records such a number. *)
Definition engine_distances (es : list Edge) : Prop :=
  forall e, In e es -> engine_entry (distance e).

(** The shape under which the distance engine stays inside its vectors:
    every strain has a profile, and no profile of a strain is shorter than
    the first profile, whose length the engine takes for the number of
    loci. *)
Definition table_in_range (strains : list string)
    (profiles : list (list Z)) : Prop :=
  size strains <= size profiles
  /\ forall i, 0 <= i < size strains ->
       size (hd [] profiles) <= size (idx [] profiles i).

(** * Properties *)

(** ** Doubles and their rounding *)

Lemma Qltb_lt x y : Qltb x y = true <-> (x < y)%Q.
Proof.
  unfold Qltb. rewrite negb_true_iff. split.
  - intros H. apply Qnot_le_lt. intros Hle. apply Qle_bool_iff in Hle. congruence.
  - intros H. destruct (Qle_bool y x) eqn:E; [|reflexivity].
    apply Qle_bool_iff in E. exfalso. now apply (Qlt_not_le _ _ H).
Qed.

Lemma Qltb_ge x y : Qltb x y = false <-> (y <= x)%Q.
Proof.
  unfold Qltb. rewrite negb_false_iff. apply Qle_bool_iff.
Qed.

(** *** Rounding to the nearest integer *)

Lemma rne_cases u :
  (rne u = Qfloor u /\ (u - inject_Z (Qfloor u) <= 1 # 2)%Q)
  \/ (rne u = Qfloor u + 1 /\ (1 # 2 <= u - inject_Z (Qfloor u))%Q).
Proof.
  unfold rne. cbv zeta.
  destruct (Qltb (u - inject_Z (Qfloor u)) (1 # 2)) eqn:E1.
  - left. apply Qltb_lt in E1. split; [reflexivity|lra].
  - apply Qltb_ge in E1.
    destruct (Qltb (1 # 2) (u - inject_Z (Qfloor u))) eqn:E2.
    + right. split; [reflexivity|assumption].
    + apply Qltb_ge in E2. destruct (Z.even (Qfloor u)).
      * left. split; [reflexivity|assumption].
      * right. split; [reflexivity|assumption].
Qed.

Lemma rne_Z k : rne (inject_Z k) = k.
Proof.
  unfold rne. cbv zeta. rewrite Qfloor_Z.
  assert (Qltb (inject_Z k - inject_Z k) (1 # 2) = true) as ->; [|reflexivity].
  apply Qltb_lt. lra.
Qed.

Lemma rne_proper u v : (u == v)%Q -> rne u = rne v.
Proof.
  intros H. unfold rne. cbv zeta.
  assert (Qfloor u = Qfloor v) as E by now apply Qfloor_comp.
  rewrite E.
  assert (forall a b c, (a == b)%Q -> Qltb a c = Qltb b c) as L1.
  { intros a b c Hab. destruct (Qltb b c) eqn:Eb.
    - apply Qltb_lt. apply Qltb_lt in Eb. lra.
    - apply Qltb_ge. apply Qltb_ge in Eb. lra. }
  assert (forall a b c, (a == b)%Q -> Qltb c a = Qltb c b) as L2.
  { intros a b c Hab. destruct (Qltb c b) eqn:Eb.
    - apply Qltb_lt. apply Qltb_lt in Eb. lra.
    - apply Qltb_ge. apply Qltb_ge in Eb. lra. }
  rewrite (L1 (u - inject_Z (Qfloor v))%Q (v - inject_Z (Qfloor v))%Q) by lra.
  rewrite (L2 (u - inject_Z (Qfloor v))%Q (v - inject_Z (Qfloor v))%Q) by lra.
  reflexivity.
Qed.

Lemma rne_mono u v : (u <= v)%Q -> rne u <= rne v.
Proof.
  intros H. pose proof (Qfloor_resp_le u v H) as Hk.
  destruct (Z.eq_dec (Qfloor u) (Qfloor v)) as [E|N].
  - unfold rne. cbv zeta. rewrite E.
    assert (u - inject_Z (Qfloor v) <= v - inject_Z (Qfloor v))%Q as Hr by lra.
    destruct (Qltb (u - inject_Z (Qfloor v)) (1 # 2)) eqn:U1;
      destruct (Qltb (v - inject_Z (Qfloor v)) (1 # 2)) eqn:V1;
      destruct (Qltb (1 # 2) (u - inject_Z (Qfloor v))) eqn:U2;
      destruct (Qltb (1 # 2) (v - inject_Z (Qfloor v))) eqn:V2;
      destruct (Z.even (Qfloor v));
      try lia;
      repeat match goal with
             | H : Qltb _ _ = true |- _ => apply Qltb_lt in H
             | H : Qltb _ _ = false |- _ => apply Qltb_ge in H
             end; lra.
  - destruct (rne_cases u) as [[-> _]|[-> _]];
      destruct (rne_cases v) as [[-> _]|[-> _]]; lia.
Qed.

Lemma rne_nonneg u : (0 <= u)%Q -> 0 <= rne u.
Proof. intros H. rewrite <- (rne_Z 0). now apply rne_mono. Qed.

(** *** Powers of two *)

Lemma pow2_pos e : (0 < 2 ^ e)%Q.
Proof. apply Qpower_0_lt. reflexivity. Qed.

Lemma pow2_succ e : (2 ^ (e + 1) == 2 * 2 ^ e)%Q.
Proof. rewrite Qpower_plus by discriminate. change (2 ^ 1)%Q with 2%Q. ring. Qed.

Lemma pow2_le a b : a <= b -> (2 ^ a <= 2 ^ b)%Q.
Proof. intros H. apply Qpower_le_compat_l; [assumption|discriminate]. Qed.

Lemma pow2_lt a b : a < b -> (2 ^ a < 2 ^ b)%Q.
Proof.
  intros H. apply Qlt_le_trans with (2 ^ (a + 1))%Q.
  - rewrite pow2_succ. pose proof (pow2_pos a). lra.
  - apply pow2_le. lia.
Qed.

Lemma pow2_inject k : 0 <= k -> (inject_Z (2 ^ k) == 2 ^ k)%Q.
Proof. intros H. now rewrite Zpower_Qpower. Qed.

Lemma pow2_split a b : (2 ^ a == 2 ^ (a - b) * 2 ^ b)%Q.
Proof.
  rewrite <- Qpower_plus by discriminate. now replace (a - b + b) with a by lia.
Qed.

(** *** The exponent *)

Lemma ilog2_spec x :
  (0 < x)%Q -> (2 ^ ilog2 x <= x)%Q /\ (x < 2 ^ (ilog2 x + 1))%Q.
Proof.
  intros Hx. destruct x as [n d]. unfold ilog2. cbn [Qnum Qden].
  assert (0 < n) as Hn by (unfold Qlt in Hx; cbn in Hx; lia).
  set (a := Z.log2 n). set (b := Z.log2 (Z.pos d)).
  pose proof (Z.log2_spec n Hn) as [Ha1 Ha2]. fold a in Ha1, Ha2.
  pose proof (Z.log2_spec (Z.pos d) ltac:(lia)) as [Hb1 Hb2]. fold b in Hb1, Hb2.
  pose proof (Z.log2_nonneg n) as Ha0. fold a in Ha0.
  pose proof (Z.log2_nonneg (Z.pos d)) as Hb0. fold b in Hb0.
  assert (2 ^ a <= inject_Z n)%Q as HA1
    by (rewrite <- pow2_inject by lia; now rewrite <- Zle_Qle).
  assert (inject_Z n < 2 * 2 ^ a)%Q as HA2.
  { rewrite <- pow2_succ, <- pow2_inject by lia.
    rewrite <- Zlt_Qlt. now replace (a + 1) with (Z.succ a) by lia. }
  assert (2 ^ b <= inject_Z (Z.pos d))%Q as HB1
    by (rewrite <- pow2_inject by lia; now rewrite <- Zle_Qle).
  assert (inject_Z (Z.pos d) < 2 * 2 ^ b)%Q as HB2.
  { rewrite <- pow2_succ, <- pow2_inject by lia.
    rewrite <- Zlt_Qlt. now replace (b + 1) with (Z.succ b) by lia. }
  assert ((n # d) * inject_Z (Z.pos d) == inject_Z n)%Q as Hxd.
  { unfold Qeq, Qmult, inject_Z. cbn [Qnum Qden]. lia. }
  pose proof (pow2_split a b) as Hsplit.
  pose proof (pow2_pos a) as Pa. pose proof (pow2_pos b) as Pb.
  pose proof (pow2_pos (a - b)) as Pe.
  set (X := (n # d)%Q) in *. set (Dd := inject_Z (Z.pos d)) in *.
  set (A := inject_Z n) in *.
  set (P := (2 ^ a)%Q) in *. set (R := (2 ^ b)%Q) in *.
  set (T := (2 ^ (a - b))%Q) in *.
  destruct (Qle_bool T X) eqn:E.
  - apply Qle_bool_iff in E. split; [assumption|].
    rewrite pow2_succ. fold T.
    apply Qnot_le_lt. intros Hc.
    assert (2 * T * R <= X * Dd)%Q by nra. nra.
  - assert (X < T)%Q as Hlt.
    { apply Qnot_le_lt. intros Hc. apply Qle_bool_iff in Hc. congruence. }
    replace (a - b - 1 + 1) with (a - b) by lia. fold T.
    split; [|assumption].
    assert (2 * 2 ^ (a - b - 1) == T)%Q as Hh.
    { unfold T. rewrite <- pow2_succ. now replace (a - b - 1 + 1) with (a - b) by lia. }
    set (T' := (2 ^ (a - b - 1))%Q) in *.
    apply Qnot_lt_le. intros Hc.
    assert (X * Dd < T' * Dd)%Q by nra.
    assert (T' * Dd < T' * (2 * R))%Q.
    { assert (0 < T')%Q by (unfold T'; apply pow2_pos). nra. }
    nra.
Qed.

Lemma ilog2_unique x e :
  (2 ^ e <= x)%Q -> (x < 2 ^ (e + 1))%Q -> ilog2 x = e.
Proof.
  intros H1 H2.
  assert (0 < x)%Q as Hx by (pose proof (pow2_pos e); lra).
  destruct (ilog2_spec x Hx) as [S1 S2].
  destruct (Z.lt_trichotomy (ilog2 x) e) as [L|[E|G]]; [|assumption|].
  - pose proof (pow2_le (ilog2 x + 1) e ltac:(lia)). lra.
  - pose proof (pow2_le (e + 1) (ilog2 x) ltac:(lia)). lra.
Qed.

Lemma ilog2_mono x y : (0 < x)%Q -> (x <= y)%Q -> ilog2 x <= ilog2 y.
Proof.
  intros Hx Hxy.
  destruct (ilog2_spec x Hx) as [X1 X2].
  destruct (ilog2_spec y ltac:(lra)) as [Y1 Y2].
  destruct (Z_le_gt_dec (ilog2 x) (ilog2 y)) as [L|G]; [assumption|].
  pose proof (pow2_le (ilog2 y + 1) (ilog2 x) ltac:(lia)). lra.
Qed.

Lemma ilog2_proper x y : (0 < x)%Q -> (x == y)%Q -> ilog2 x = ilog2 y.
Proof.
  intros Hx E. destruct (ilog2_spec x Hx) as [X1 X2].
  symmetry. apply ilog2_unique; lra.
Qed.

(** *** Rounding a positive number *)

Lemma fl_pos_value x :
  (fl_pos x == inject_Z (rne (x / 2 ^ ulp_exp x)) * 2 ^ ulp_exp x)%Q.
Proof. unfold fl_pos. apply Qred_correct. Qed.

Lemma scaled_le x y q : (x <= y)%Q -> (x / 2 ^ q <= y / 2 ^ q)%Q.
Proof.
  intros H. unfold Qdiv. apply Qmult_le_compat_r; [assumption|].
  apply Qinv_le_0_compat. apply Qlt_le_weak, pow2_pos.
Qed.

Lemma pow2_quot a b : 0 <= a - b -> (2 ^ a / 2 ^ b == inject_Z (2 ^ (a - b)))%Q.
Proof.
  intros H. rewrite pow2_inject by assumption. rewrite (pow2_split a b).
  field. pose proof (pow2_pos b). lra.
Qed.

Lemma fl_pos_mono x y : (0 < x)%Q -> (x <= y)%Q -> (fl_pos x <= fl_pos y)%Q.
Proof.
  intros Hx Hxy. rewrite !fl_pos_value.
  pose proof (ilog2_mono x y Hx Hxy) as He.
  destruct (ilog2_spec x Hx) as [X1 X2].
  destruct (ilog2_spec y ltac:(lra)) as [Y1 Y2].
  destruct (Z.eq_dec (ulp_exp x) (ulp_exp y)) as [E|N].
  - rewrite E. apply Qmult_le_compat_r; [|apply Qlt_le_weak, pow2_pos].
    rewrite <- Zle_Qle. apply rne_mono. now apply scaled_le.
  - assert (ulp_exp y = ilog2 y - 52 /\ ulp_exp x < ulp_exp y) as [Ey Hlt]
      by (unfold ulp_exp in *; lia).
    set (ey := ilog2 y) in *.
    apply Qle_trans with (2 ^ ey)%Q.
    + (* fl x <= 2^ey *)
      assert (x <= 2 ^ ey)%Q as Hb.
      { pose proof (pow2_le (ilog2 x + 1) ey
                      ltac:(unfold ulp_exp in *; lia)). lra. }
      rewrite (pow2_split ey (ulp_exp x)).
      apply Qmult_le_compat_r; [|apply Qlt_le_weak, pow2_pos].
      rewrite <- (pow2_inject (ey - ulp_exp x)) by lia. rewrite <- Zle_Qle.
      rewrite <- (rne_Z (2 ^ (ey - ulp_exp x))).
      apply rne_mono. rewrite <- pow2_quot by lia. now apply scaled_le.
    + rewrite (pow2_split ey (ulp_exp y)) at 1.
      apply Qmult_le_compat_r; [|apply Qlt_le_weak, pow2_pos].
      rewrite <- (pow2_inject (ey - ulp_exp y)) by lia. rewrite <- Zle_Qle.
      rewrite <- (rne_Z (2 ^ (ey - ulp_exp y))).
      apply rne_mono. rewrite <- pow2_quot by lia. now apply scaled_le.
Qed.

Lemma fl_pos_nonneg x : (0 < x)%Q -> (0 <= fl_pos x)%Q.
Proof.
  intros Hx. rewrite fl_pos_value.
  apply Qmult_le_0_compat; [|apply Qlt_le_weak, pow2_pos].
  change 0%Q with (inject_Z 0). rewrite <- Zle_Qle. apply rne_nonneg.
  apply Qle_shift_div_l; [apply pow2_pos|]. lra.
Qed.

Lemma fl_pos_proper x y : (0 < x)%Q -> (x == y)%Q -> fl_pos x = fl_pos y.
Proof.
  intros Hx E. unfold fl_pos, ulp_exp.
  rewrite (ilog2_proper x y Hx E).
  now rewrite (rne_proper (x / 2 ^ _) (y / 2 ^ Z.max (ilog2 y - 52) (-1074)))
    by now rewrite E.
Qed.

(** A number [k * 2^p] with [0 < k < 2^53] and [p >= -1074] is its own
    rounding. *)
Lemma fl_pos_fixed x k p :
  0 < k < 2 ^ 53 -> -1074 <= p -> (x == inject_Z k * 2 ^ p)%Q ->
  (fl_pos x == x)%Q.
Proof.
  intros Hk Hp Hxv.
  assert (0 < inject_Z k)%Q as Hk0
    by (change 0%Q with (inject_Z 0); rewrite <- Zlt_Qlt; lia).
  assert (0 < x)%Q as Hx.
  { pose proof (pow2_pos p) as Pp.
    pose proof (Qmult_lt_0_compat _ _ Hk0 Pp). lra. }
  destruct (ilog2_spec x Hx) as [X1 X2].
  assert (ilog2 x < 53 + p) as He.
  { destruct (Z_lt_le_dec (ilog2 x) (53 + p)) as [L|G]; [assumption|exfalso].
    pose proof (pow2_le (53 + p) (ilog2 x) G) as H.
    rewrite Qpower_plus in H by discriminate.
    assert (inject_Z k < 2 ^ 53)%Q as Hk'.
    { rewrite <- pow2_inject by lia. rewrite <- Zlt_Qlt. lia. }
    pose proof (pow2_pos p). nra. }
  rewrite fl_pos_value.
  assert (ulp_exp x <= p) as Hq by (unfold ulp_exp; lia).
  set (q := ulp_exp x) in *.
  pose proof (pow2_pos q) as Pq.
  pose proof (pow2_split p q) as Hsplit.
  assert (x / 2 ^ q == inject_Z (k * 2 ^ (p - q)))%Q as Hs.
  { rewrite inject_Z_mult, pow2_inject by lia. rewrite Hxv, Hsplit.
    field. lra. }
  rewrite (rne_proper _ _ Hs), rne_Z.
  rewrite inject_Z_mult, pow2_inject by lia. rewrite Hxv, Hsplit. ring.
Qed.

(** *** Rounding *)

Lemma fl_zero x : (x == 0)%Q -> fl x = 0%Q.
Proof. intros H. unfold fl. apply Qeq_bool_iff in H. now rewrite H. Qed.

Lemma fl_positive x : (0 < x)%Q -> fl x = fl_pos x.
Proof.
  intros H. unfold fl.
  destruct (Qeq_bool x 0) eqn:E; [apply Qeq_bool_iff in E; lra|].
  destruct (Qltb x 0) eqn:E2; [apply Qltb_lt in E2; lra|reflexivity].
Qed.

Lemma fl_negative x : (x < 0)%Q -> fl x = (- fl_pos (- x))%Q.
Proof.
  intros H. unfold fl.
  destruct (Qeq_bool x 0) eqn:E; [apply Qeq_bool_iff in E; lra|].
  destruct (Qltb x 0) eqn:E2; [reflexivity|apply Qltb_ge in E2; lra].
Qed.

Lemma fl_nonneg x : (0 <= x)%Q -> (0 <= fl x)%Q.
Proof.
  intros H. destruct (Qlt_le_dec 0 x) as [P|Z0].
  - rewrite fl_positive by assumption. now apply fl_pos_nonneg.
  - rewrite fl_zero by lra. lra.
Qed.

Lemma fl_nonpos x : (x <= 0)%Q -> (fl x <= 0)%Q.
Proof.
  intros H. destruct (Qlt_le_dec x 0) as [N|Z0].
  - rewrite fl_negative by assumption.
    pose proof (fl_pos_nonneg (- x) ltac:(lra)). lra.
  - rewrite fl_zero by lra. lra.
Qed.

Lemma fl_mono x y : (x <= y)%Q -> (fl x <= fl y)%Q.
Proof.
  intros H. destruct (Qlt_le_dec 0 x) as [Px|Nx].
  - rewrite !fl_positive by lra. now apply fl_pos_mono.
  - destruct (Qlt_le_dec 0 y) as [Py|Ny].
    + pose proof (fl_nonpos x Nx). pose proof (fl_nonneg y ltac:(lra)). lra.
    + destruct (Qlt_le_dec y 0) as [Ly|Zy].
      * rewrite !fl_negative by lra.
        pose proof (fl_pos_mono (- y) (- x) ltac:(lra) ltac:(lra)). lra.
      * rewrite (fl_zero y) by lra. now apply fl_nonpos.
Qed.

Lemma fl_proper x y : (x == y)%Q -> fl x = fl y.
Proof.
  intros E. destruct (Qlt_le_dec 0 x) as [Px|Nx].
  - rewrite !fl_positive by lra. now apply fl_pos_proper.
  - destruct (Qlt_le_dec x 0) as [Lx|Zx].
    + rewrite !fl_negative by lra. f_equal.
      apply fl_pos_proper; [lra|now rewrite E].
    + now rewrite !fl_zero by lra.
Qed.

Lemma fl_opp x : (fl (- x) == - fl x)%Q.
Proof.
  destruct (Qlt_le_dec 0 x) as [Px|Nx].
  - rewrite fl_negative, fl_positive by lra.
    rewrite (fl_pos_proper (- - x) x) by lra. reflexivity.
  - destruct (Qlt_le_dec x 0) as [Lx|Zx].
    + rewrite fl_positive, fl_negative by lra. ring.
    + rewrite !fl_zero by lra. reflexivity.
Qed.

Lemma fl_Qabs x : (Qabs (fl x) == fl (Qabs x))%Q.
Proof.
  destruct (Qlt_le_dec x 0) as [Lx|Px].
  - rewrite (fl_proper (Qabs x) (- x)) by (rewrite Qabs_neg; lra).
    rewrite fl_opp. rewrite Qabs_neg; [reflexivity|]. apply fl_nonpos. lra.
  - rewrite (fl_proper (Qabs x) x) by (rewrite Qabs_pos; lra).
    rewrite Qabs_pos; [reflexivity|]. now apply fl_nonneg.
Qed.

(** Multiples of one quarter below [2^51] in size are their own rounding. *)
Lemma fl_quarters j :
  Z.abs j < 2 ^ 53 -> (fl (j # 4) == j # 4)%Q.
Proof.
  intros Hj.
  assert (forall k, 0 < k < 2 ^ 53 -> (fl_pos (k # 4) == k # 4)%Q) as Hp.
  { intros k Hk. apply (fl_pos_fixed (k # 4) k (-2)); [assumption|lia|].
    change (2 ^ (-2))%Q with (1 # 4)%Q.
    unfold Qeq, Qmult, inject_Z. cbn [Qnum Qden]. lia. }
  destruct (Z.lt_trichotomy j 0) as [N|[Z0|P]].
  - rewrite fl_negative by (unfold Qlt; cbn; lia).
    rewrite (fl_pos_proper (- (j # 4)) ((- j) # 4))
      by (unfold Qlt, Qeq, Qopp; cbn; lia).
    rewrite Hp by lia. unfold Qeq, Qopp. cbn [Qnum Qden]. lia.
  - subst j. reflexivity.
  - rewrite fl_positive by (unfold Qlt; cbn; lia). apply Hp. lia.
Qed.

(** A difference that passes the test [std::abs(x) < 1e-10] after
    rounding is below [EPS] before it. *)
Lemma near_exact x : (Qabs (fl x) < EPS_double)%Q -> (Qabs x < EPS)%Q.
Proof.
  intros H. apply Qnot_le_lt. intros Hc.
  pose proof (fl_mono EPS (Qabs x) Hc) as Hm.
  rewrite <- fl_Qabs in Hm. unfold EPS_double in H. lra.
Qed.

Lemma fl_one : fl 1 = 1%Q.
Proof. vm_compute. reflexivity. Qed.

(** *** The tie test *)

Lemma tie_test_exact a b : tie_test a b -> (Qabs (a - b) < EPS)%Q.
Proof. unfold tie_test, fsub. apply near_exact. Qed.

Lemma tie_test_eq a b : (a == b)%Q -> tie_test a b.
Proof.
  intros E. unfold tie_test, fsub. rewrite fl_zero by lra.
  vm_compute. reflexivity.
Qed.

Lemma tie_test_refl a : tie_test a a.
Proof. apply tie_test_eq. reflexivity. Qed.

Lemma tie_test_true a b :
  Qltb (Qabs (fsub a b)) EPS_double = true <-> tie_test a b.
Proof. unfold tie_test. apply Qltb_lt. Qed.

(** ** Vectors and loops *)

Lemma zrange_length lo hi : List.length (zrange lo hi) = Z.to_nat (hi - lo).
Proof. unfold zrange. now rewrite length_map, length_seq. Qed.

Lemma In_zrange lo hi k : In k (zrange lo hi) <-> lo <= k < hi.
Proof.
  unfold zrange. rewrite in_map_iff. split.
  - intros (x & <- & Hx). apply in_seq in Hx. lia.
  - intros H. exists (Z.to_nat (k - lo)). split; [lia|]. apply in_seq. lia.
Qed.

Lemma zrange_nil lo hi : hi <= lo -> zrange lo hi = [].
Proof.
  intros H. unfold zrange. replace (Z.to_nat (hi - lo)) with O by lia. reflexivity.
Qed.

Lemma zrange_snoc lo hi : lo <= hi -> zrange lo (hi + 1) = zrange lo hi ++ [hi].
Proof.
  intros H. unfold zrange.
  replace (Z.to_nat (hi + 1 - lo)) with (Z.to_nat (hi - lo) + 1)%nat by lia.
  rewrite seq_app, map_app. simpl. do 2 f_equal. lia.
Qed.

Lemma zrange_cons lo hi : lo < hi -> zrange lo hi = lo :: zrange (lo + 1) hi.
Proof.
  intros H. unfold zrange.
  replace (Z.to_nat (hi - lo)) with (S (Z.to_nat (hi - (lo + 1)))) by lia.
  simpl. f_equal; [lia|].
  rewrite <- seq_shift, map_map. apply map_ext. intros. lia.
Qed.

Lemma NoDup_zrange lo hi : NoDup (zrange lo hi).
Proof.
  unfold zrange. generalize (seq_NoDup (Z.to_nat (hi - lo)) 0).
  generalize (seq 0 (Z.to_nat (hi - lo))) as l.
  induction l as [|a l IH]; simpl; intros Hnd; [constructor|].
  inversion Hnd; subst. constructor; [|now apply IH].
  rewrite in_map_iff. intros (x & Hx & Hin).
  assert (x = a) by lia. now subst.
Qed.

Lemma for_loop_nil {T} lo hi (body : Z -> T -> T) s :
  hi <= lo -> for_loop lo hi body s = s.
Proof. intros. unfold for_loop. now rewrite zrange_nil. Qed.

Lemma for_loop_snoc {T} lo hi (body : Z -> T -> T) s :
  lo <= hi -> for_loop lo (hi + 1) body s = body hi (for_loop lo hi body s).
Proof.
  intros. unfold for_loop. rewrite zrange_snoc by assumption.
  now rewrite fold_left_app.
Qed.

(** The invariant rule of a [for] loop. *)
Lemma for_loop_inv {T} (P : Z -> T -> Prop) lo hi (body : Z -> T -> T) s :
  lo <= hi ->
  P lo s ->
  (forall k s, lo <= k < hi -> P k s -> P (k + 1) (body k s)) ->
  P hi (for_loop lo hi body s).
Proof.
  intros Hle H0 Hstep.
  assert (forall n, lo + Z.of_nat n <= hi ->
                    P (lo + Z.of_nat n) (for_loop lo (lo + Z.of_nat n) body s)) as H.
  { induction n as [|n IH]; intros Hn.
    - rewrite Z.add_0_r, for_loop_nil by lia. assumption.
    - replace (lo + Z.of_nat (S n)) with (lo + Z.of_nat n + 1) by lia.
      rewrite for_loop_snoc by lia. apply Hstep; [lia|]. apply IH. lia. }
  specialize (H (Z.to_nat (hi - lo))).
  replace (lo + Z.of_nat (Z.to_nat (hi - lo))) with hi in H by lia.
  apply H. lia.
Qed.

(** Two loops with the same bounds whose bodies agree inside the bounds. *)
Lemma for_loop_ext {T} lo hi (f g : Z -> T -> T) s :
  (forall k s, lo <= k < hi -> f k s = g k s) ->
  for_loop lo hi f s = for_loop lo hi g s.
Proof.
  intros H. unfold for_loop.
  assert (forall l, (forall k, In k l -> lo <= k < hi) ->
            forall s, fold_left (fun s k => f k s) l s
                      = fold_left (fun s k => g k s) l s) as Hl.
  { induction l as [|a l IH]; intros Hin s0; simpl; [reflexivity|].
    rewrite H by (apply Hin; now left). apply IH. intros; apply Hin; now right. }
  apply Hl. intros k. apply In_zrange.
Qed.

Lemma length_upd_nat {A} (l : list A) n x : List.length (upd_nat l n x) = List.length l.
Proof.
  revert n; induction l as [|h t IH]; intros [|n]; simpl; auto.
Qed.

Lemma nth_upd_nat_eq {A} (l : list A) n x d :
  (n < List.length l)%nat -> nth n (upd_nat l n x) d = x.
Proof.
  revert n; induction l as [|h t IH]; intros [|n]; simpl; intros; try lia; auto.
  apply IH. lia.
Qed.

Lemma nth_upd_nat_neq {A} (l : list A) n m x d :
  n <> m -> nth m (upd_nat l n x) d = nth m l d.
Proof.
  revert n m; induction l as [|h t IH]; intros [|n] [|m]; simpl; intros; auto; try lia.
Qed.

Lemma size_upd {A} (l : list A) i x : size (upd l i x) = size l.
Proof. unfold size, upd. now rewrite length_upd_nat. Qed.

Lemma idx_upd_eq {A} (l : list A) i x d :
  0 <= i < size l -> idx d (upd l i x) i = x.
Proof. unfold idx, upd, size. intros. apply nth_upd_nat_eq. lia. Qed.

Lemma idx_upd_neq {A} (l : list A) i j x d :
  0 <= i -> 0 <= j -> i <> j -> idx d (upd l i x) j = idx d l j.
Proof. unfold idx, upd. intros. apply nth_upd_nat_neq. lia. Qed.

Lemma size_nonneg {A} (l : list A) : 0 <= size l.
Proof. unfold size. lia. Qed.

Lemma size_repeat {A} (x : A) n : size (repeat x (Z.to_nat n)) = Z.max 0 n.
Proof. unfold size. rewrite repeat_length. lia. Qed.

Lemma idx_repeat {A} (x d : A) n i : 0 <= i < n -> idx d (repeat x (Z.to_nat n)) i = x.
Proof.
  intros H. unfold idx. apply nth_repeat_lt. lia.
Qed.

(** ** Matrices *)

Lemma square_new n v : 0 <= n -> square n (new_matrix n n v).
Proof.
  intros H. unfold new_matrix. split.
  - rewrite size_repeat. lia.
  - intros i Hi. rewrite idx_repeat by lia. rewrite size_repeat. lia.
Qed.

Lemma get2_new n v i j : 0 <= i < n -> 0 <= j < n -> get2 (new_matrix n n v) i j = v.
Proof.
  intros. unfold get2, new_matrix. rewrite idx_repeat by lia. now apply idx_repeat.
Qed.

Lemma square_set2 n m i j v :
  square n m -> 0 <= i < n -> 0 <= j < n -> square n (set2 m i j v).
Proof.
  intros [Hs Hr] Hi Hj. unfold set2. split.
  - now rewrite size_upd.
  - intros k Hk. destruct (Z.eq_dec i k) as [->|Hne].
    + rewrite idx_upd_eq by lia. rewrite size_upd. now apply Hr.
    + rewrite idx_upd_neq by lia. now apply Hr.
Qed.

Lemma get2_set2 n m i j v a b :
  square n m -> 0 <= i < n -> 0 <= j < n -> 0 <= a -> 0 <= b ->
  get2 (set2 m i j v) a b = if (a =? i) && (b =? j) then v else get2 m a b.
Proof.
  intros [Hs Hr] Hi Hj Ha Hb. unfold get2, set2.
  destruct (Z.eqb_spec a i) as [->|Hai]; simpl.
  - rewrite idx_upd_eq by lia.
    destruct (Z.eqb_spec b j) as [->|Hbj].
    + apply idx_upd_eq. rewrite Hr; lia.
    + apply idx_upd_neq; lia.
  - rewrite idx_upd_neq by lia. reflexivity.
Qed.

(** ** The distance engine *)

Import DistanceMatrix.

Ltac zbool :=
  repeat match goal with
         | |- context [Z.eqb ?x ?y] => destruct (Z.eqb_spec x y)
         | |- context [Z.ltb ?x ?y] => destruct (Z.ltb_spec x y)
         | |- context [Z.leb ?x ?y] => destruct (Z.leb_spec x y)
         end;
  simpl; try reflexivity; try lia.

Lemma pairwise_step_fst h a b d v :
  In h named_handlers ->
  fst (pairwise_step h a b (d, v)) = d + policy_contribution h a b.
Proof.
  intros Hh. unfold pairwise_step, policy_contribution, missing.
  simpl in Hh.
  destruct Hh as [<-|[<-|[<-|[<-|[]]]]];
    destruct (a <=? 0) eqn:Ea; destruct (b <=? 0) eqn:Eb; simpl;
    try (destruct (a =? b); simpl); lia.
Qed.

Lemma pairwise_fold h p1 p2 l st :
  In h named_handlers ->
  fst (fold_left (fun st k => pairwise_step h (idx 0 p1 k) (idx 0 p2 k) st) l st)
  = fst st
    + zsum (map (fun k => policy_contribution h (idx 0 p1 k) (idx 0 p2 k)) l).
Proof.
  intros Hh. revert st. unfold zsum.
  induction l as [|k l IH]; intros [d v]; cbn [fold_left map fold_right fst].
  - lia.
  - rewrite IH, pairwise_step_fst by assumption. lia.
Qed.

Lemma compute_pairwise_distance_policy pd p1 p2 h :
  In h named_handlers ->
  compute_pairwise_distance pd p1 p2 h
  = inject_Z (policy_differences h p1 p2 (n_genes pd)).
Proof.
  intros Hh. unfold compute_pairwise_distance, for_loop, policy_differences.
  pose proof (pairwise_fold h p1 p2 (zrange 0 (n_genes pd)) (0, 0) Hh) as E.
  destruct (fold_left _ _ _) as [d v]. simpl in E. now rewrite E.
Qed.

Lemma policy_contribution_sym h a b :
  policy_contribution h a b = policy_contribution h b a.
Proof.
  unfold policy_contribution.
  destruct (missing a), (missing b); try reflexivity.
  rewrite (Z.eqb_sym a b). reflexivity.
Qed.

Lemma policy_differences_sym h p1 p2 G :
  policy_differences h p1 p2 G = policy_differences h p2 p1 G.
Proof.
  unfold policy_differences. f_equal. apply map_ext.
  intros k. apply policy_contribution_sym.
Qed.

(** The entries of the matrix that [compute_symmetric] fills. *)
Lemma compute_symmetric_entries pd h i j :
  0 <= i < n_strains pd -> 0 <= j < n_strains pd ->
  get2 (compute_symmetric pd h) i j
  = if i <? j then compute_pairwise_distance pd (idx [] (profiles pd) i)
                    (idx [] (profiles pd) j) h
    else if j <? i then compute_pairwise_distance pd (idx [] (profiles pd) j)
                          (idx [] (profiles pd) i) h
         else 0%Q.
Proof.
  intros Hi Hj. unfold compute_symmetric.
  set (n := n_strains pd) in *.
  set (F := fun a b => compute_pairwise_distance pd (idx [] (profiles pd) a)
                         (idx [] (profiles pd) b) h).
  change (get2 (for_loop 0 n
            (fun i m => for_loop (i + 1) n
               (fun j m => set2 (set2 m i j (F i j)) j i (F i j)) m)
            (new_matrix n n 0%Q)) i j
          = if i <? j then F i j else if j <? i then F j i else 0%Q).
  pose (P := fun (i0 : Z) (m : matrix) =>
    square n m /\
    forall a b, 0 <= a < n -> 0 <= b < n ->
      get2 m a b = if (a <? b) && (a <? i0) then F a b
                   else if (b <? a) && (b <? i0) then F b a else 0%Q).
  assert (P n (for_loop 0 n
            (fun i m => for_loop (i + 1) n
               (fun j m => set2 (set2 m i j (F i j)) j i (F i j)) m)
            (new_matrix n n 0%Q))) as [_ HP].
  { apply for_loop_inv; [lia| |].
    - split; [apply square_new; lia|].
      intros a b Ha Hb. rewrite get2_new by lia. zbool.
    - intros i0 m Hi0 [Hsq Hm].
      pose (Q := fun (j0 : Z) (m : matrix) =>
        square n m /\
        forall a b, 0 <= a < n -> 0 <= b < n ->
          get2 m a b
          = if (a <? b) && ((a <? i0) || ((a =? i0) && (b <? j0))) then F a b
            else if (b <? a) && ((b <? i0) || ((b =? i0) && (a <? j0)))
                 then F b a else 0%Q).
      assert (Q n (for_loop (i0 + 1) n
                (fun j m => set2 (set2 m i0 j (F i0 j)) j i0 (F i0 j)) m))
        as [Hsq' HQ].
      { apply for_loop_inv; [lia| |].
        - split; [assumption|]. intros a b Ha Hb. rewrite Hm by assumption. zbool.
        - intros j0 m0 Hj0 [Hsq0 Hm0]. split.
          + apply square_set2; [apply square_set2|..]; auto; lia.
          + intros a b Ha Hb.
            rewrite (get2_set2 n) by (try apply square_set2; auto; lia).
            rewrite (get2_set2 n) by (auto; lia).
            rewrite Hm0 by assumption.
            zbool; subst; try reflexivity; lia. }
      split; [assumption|]. intros a b Ha Hb. rewrite HQ by assumption. zbool. }
  rewrite HP by assumption. zbool.
Qed.

Lemma pairwise_step_remove_column a b st :
  pairwise_step REMOVE_COLUMN a b st = pairwise_step IGNORE a b st.
Proof. reflexivity. Qed.

Lemma compute_pairwise_distance_remove_column pd p1 p2 :
  compute_pairwise_distance pd p1 p2 REMOVE_COLUMN
  = compute_pairwise_distance pd p1 p2 IGNORE.
Proof. reflexivity. Qed.

Lemma directional_fold p1 p2 l d m :
  fold_left (fun st k => directional_step (idx 0 p1 k) (idx 0 p2 k) st) l (d, m)
  = (d + Z.of_nat (List.length (filter (locus_differs p1 p2) l)),
     m + Z.of_nat (List.length (filter (locus_missing p1) l))).
Proof.
  revert d m. unfold locus_differs, locus_missing.
  induction l as [|k l IH]; intros d m; cbn [fold_left filter].
  - simpl. f_equal; lia.
  - unfold directional_step at 2.
    destruct (Z.leb_spec (idx 0 p1 k) 0) as [Hle|Hgt].
    + rewrite IH. replace (0 <? idx 0 p1 k) with false by (symmetry; apply Z.ltb_ge; lia).
      cbn [andb List.length]. f_equal; lia.
    + replace (0 <? idx 0 p1 k) with true by (symmetry; apply Z.ltb_lt; lia).
      cbn [andb].
      destruct ((0 <? idx 0 p2 k) && negb (idx 0 p1 k =? idx 0 p2 k));
        rewrite IH; cbn [List.length]; f_equal; lia.
Qed.

Lemma compute_directional_distance_counts pd p1 p2 :
  compute_directional_distance pd p1 p2 = directional_formula (n_genes pd) p1 p2.
Proof.
  unfold compute_directional_distance, for_loop, directional_formula, count_loci.
  rewrite directional_fold. reflexivity.
Qed.

(** The matrix that [compute_asymmetric] fills: its shape and its entries. *)
Lemma compute_asymmetric_spec pd :
  0 <= n_strains pd ->
  square (n_strains pd) (compute_asymmetric pd)
  /\ forall i j, 0 <= i < n_strains pd -> 0 <= j < n_strains pd ->
       get2 (compute_asymmetric pd) i j
       = if i =? j then 0%Q
         else compute_directional_distance pd (idx [] (profiles pd) i)
                (idx [] (profiles pd) j).
Proof.
  intros Hn. unfold compute_asymmetric.
  set (n := n_strains pd) in *.
  set (F := fun a b =>
              if a =? b then 0%Q
              else compute_directional_distance pd (idx [] (profiles pd) a)
                     (idx [] (profiles pd) b)).
  assert (for_loop 0 n
            (fun i m => for_loop 0 n
               (fun j m =>
                  if i =? j then set2 m i j 0%Q
                  else set2 m i j
                         (compute_directional_distance pd
                            (idx [] (profiles pd) i) (idx [] (profiles pd) j))) m)
            (new_matrix n n 0%Q)
          = for_loop 0 n
              (fun i m => for_loop 0 n (fun j m => set2 m i j (F i j)) m)
              (new_matrix n n 0%Q)) as ->.
  { apply for_loop_ext. intros a m _. apply for_loop_ext. intros b m' _.
    unfold F. destruct (a =? b); reflexivity. }
  change (square n (for_loop 0 n
            (fun i m => for_loop 0 n (fun j m => set2 m i j (F i j)) m)
            (new_matrix n n 0%Q))
          /\ forall i j, 0 <= i < n -> 0 <= j < n ->
               get2 (for_loop 0 n
                 (fun i m => for_loop 0 n (fun j m => set2 m i j (F i j)) m)
                 (new_matrix n n 0%Q)) i j = F i j).
  pose (P := fun (i0 : Z) (m : matrix) =>
    square n m /\
    forall a b, 0 <= a < i0 -> 0 <= b < n -> get2 m a b = F a b).
  assert (P n (for_loop 0 n
            (fun i m => for_loop 0 n (fun j m => set2 m i j (F i j)) m)
            (new_matrix n n 0%Q))) as [Hsq HP].
  { apply for_loop_inv; [lia| |].
    - split; [apply square_new; lia|]. intros; lia.
    - intros i0 m Hi0 [Hsq Hm].
      pose (Q := fun (j0 : Z) (m : matrix) =>
        square n m /\
        (forall a b, 0 <= a < i0 -> 0 <= b < n -> get2 m a b = F a b) /\
        (forall b, 0 <= b < j0 -> get2 m i0 b = F i0 b)).
      assert (Q n (for_loop 0 n (fun j m => set2 m i0 j (F i0 j)) m))
        as (Hsq' & HQ1 & HQ2).
      { apply for_loop_inv; [lia| |].
        - repeat split; try apply Hsq; auto. intros; lia.
        - intros j0 m0 Hj0 (Hsq0 & Hm1 & Hm2). split; [|split].
          + apply square_set2; auto.
          + intros a b Ha Hb. rewrite (get2_set2 n) by (auto; lia).
            replace (a =? i0) with false by (symmetry; apply Z.eqb_neq; lia).
            now apply Hm1.
          + intros b Hb. rewrite (get2_set2 n) by (auto; lia).
            rewrite Z.eqb_refl. cbn [andb].
            destruct (Z.eqb_spec b j0) as [->|Hne]; [reflexivity|].
            apply Hm2. lia. }
      split; [assumption|]. intros a b Ha Hb.
      destruct (Z.eq_dec a i0) as [->|Hne]; [apply HQ2; lia|apply HQ1; lia]. }
  split; assumption.
Qed.

Lemma compute_asymmetric_entries pd i j :
  0 <= i < n_strains pd -> 0 <= j < n_strains pd ->
  get2 (compute_asymmetric pd) i j
  = if i =? j then 0%Q
    else compute_directional_distance pd (idx [] (profiles pd) i)
           (idx [] (profiles pd) j).
Proof.
  intros Hi Hj. apply compute_asymmetric_spec; lia.
Qed.


(** *** The claims on the distance engine *)

(** C2. For every valid [ProfileData] and all strains [i], [j]: when
    [i <> j] the entry [D[i][j]] of the asymmetric matrix is the number of
    loci where both profiles are present and differ, plus one half of the
    number of loci missing in profile [i]; [D[i][i] = 0].  For the profiles
    [[0,0,0],[1,2,3]], [D[0][1] = 1.5] and [D[1][0] = 0]. *)
Theorem asymmetric_entry_formula :
  (forall pd i j,
      valid_profile_data pd ->
      0 <= i < n_strains pd -> 0 <= j < n_strains pd ->
      (i <> j ->
       get2 (compute_asymmetric pd) i j
       = directional_formula (n_genes pd)
           (idx [] (profiles pd) i) (idx [] (profiles pd) j))
      /\ get2 (compute_asymmetric pd) i i = 0%Q)
  /\ (get2 (compute_asymmetric scenario5) 0 1 == 3 # 2)%Q
  /\ (get2 (compute_asymmetric scenario5) 1 0 == 0)%Q.
Proof.
  split; [|split; vm_compute; reflexivity].
  intros pd i j _ Hi Hj. split.
  - intros Hne. rewrite compute_asymmetric_entries by assumption.
    destruct (Z.eqb_spec i j); [contradiction|].
    apply compute_directional_distance_counts.
  - rewrite compute_asymmetric_entries by assumption.
    now rewrite Z.eqb_refl.
Qed.

Lemma valid_scenario5 : valid_profile_data scenario5.
Proof.
  unfold valid_profile_data, scenario5; simpl.
  repeat split; try lia; repeat constructor.
Qed.

Lemma valid_scenario4 : valid_profile_data scenario4.
Proof.
  unfold valid_profile_data, scenario4; simpl.
  repeat split; try lia; repeat constructor.
Qed.

Lemma asymmetric_entry_formula_witness :
  get2 (compute_asymmetric scenario5) 0 1
  = directional_formula 3 [0; 0; 0] [1; 2; 3].
Proof.
  apply (proj1 asymmetric_entry_formula scenario5 0 1 valid_scenario5);
    simpl; lia.
Defined.

(** C3. For every valid [ProfileData], each of the four named handlers and
    all strains [i], [j]: [D[i][j] = D[j][i]]; when [i <> j] the entry is
    the sum over the loci of the contribution the policy table assigns;
    [D[i][i] = 0].  The values of Scenario 4 hold under IGNORE and under
    ABSOLUTE_DIFF. *)
Theorem symmetric_entry_policy :
  (forall pd h i j,
      valid_profile_data pd -> In h named_handlers ->
      0 <= i < n_strains pd -> 0 <= j < n_strains pd ->
      get2 (compute_symmetric pd h) i j = get2 (compute_symmetric pd h) j i
      /\ (i <> j ->
          get2 (compute_symmetric pd h) i j
          = inject_Z (policy_differences h (idx [] (profiles pd) i)
                        (idx [] (profiles pd) j) (n_genes pd)))
      /\ get2 (compute_symmetric pd h) i i = 0%Q)
  /\ (get2 (compute_symmetric scenario4 IGNORE) 0 1 == 0
      /\ get2 (compute_symmetric scenario4 IGNORE) 0 2 == 0
      /\ get2 (compute_symmetric scenario4 IGNORE) 1 2 == 0
      /\ get2 (compute_symmetric scenario4 ABSOLUTE_DIFF) 0 1 == 1
      /\ get2 (compute_symmetric scenario4 ABSOLUTE_DIFF) 0 2 == 1
      /\ get2 (compute_symmetric scenario4 ABSOLUTE_DIFF) 1 2 == 0)%Q.
Proof.
  split; [|repeat split; vm_compute; reflexivity].
  intros pd h i j _ Hh Hi Hj. split; [|split].
  - rewrite !compute_symmetric_entries by assumption.
    destruct (Z.ltb_spec i j), (Z.ltb_spec j i); try reflexivity; lia.
  - intros Hne. rewrite compute_symmetric_entries by assumption.
    rewrite !compute_pairwise_distance_policy by assumption.
    destruct (Z.ltb_spec i j); [reflexivity|].
    destruct (Z.ltb_spec j i); [|lia].
    now rewrite policy_differences_sym.
  - rewrite compute_symmetric_entries by assumption.
    now rewrite Z.ltb_irrefl.
Qed.

Lemma symmetric_entry_policy_witness :
  get2 (compute_symmetric scenario4 ABSOLUTE_DIFF) 2 0
  = get2 (compute_symmetric scenario4 ABSOLUTE_DIFF) 0 2
  /\ get2 (compute_symmetric scenario4 ABSOLUTE_DIFF) 2 0
     = inject_Z (policy_differences ABSOLUTE_DIFF [1; 2; 3] [1; 2; 0] 3).
Proof.
  assert (In ABSOLUTE_DIFF named_handlers) as Hh by (simpl; tauto).
  assert (0 <= 2 < n_strains scenario4) as H2 by (simpl; lia).
  assert (0 <= 0 < n_strains scenario4) as H0 by (simpl; lia).
  destruct (proj1 symmetric_entry_policy scenario4 ABSOLUTE_DIFF 2 0
              valid_scenario4 Hh H2 H0) as (Hsym & Hval & _).
  split; [exact Hsym|]. apply Hval. lia.
Defined.

(** C6. For every [ProfileData] the symmetric matrix computed with
    REMOVE_COLUMN is the symmetric matrix computed with IGNORE, entry for
    entry. *)
Theorem remove_column_is_ignore :
  forall pd,
    compute_symmetric pd REMOVE_COLUMN = compute_symmetric pd IGNORE
    /\ forall i j,
         get2 (compute_symmetric pd REMOVE_COLUMN) i j
         = get2 (compute_symmetric pd IGNORE) i j.
Proof.
  intros pd.
  assert (compute_symmetric pd REMOVE_COLUMN = compute_symmetric pd IGNORE) as E.
  { unfold compute_symmetric.
    apply for_loop_ext. intros i m _. apply for_loop_ext. intros j m' _.
    now rewrite compute_pairwise_distance_remove_column. }
  split; [exact E|]. intros i j. now rewrite E.
Qed.

Lemma p_step_counts seq1 seq2 i d v :
  p_step (char_at seq1 i) (char_at seq2 i) (d, v)
  = (d + (if position_valid seq1 seq2 i && position_differs seq1 seq2 i
          then 1 else 0),
     v + (if position_valid seq1 seq2 i then 1 else 0)).
Proof.
  unfold p_step, position_valid, position_differs, gap_or_N.
  destruct (Ascii.eqb (toupper (char_at seq1 i)) "-");
    destruct (Ascii.eqb (toupper (char_at seq1 i)) "N");
    destruct (Ascii.eqb (toupper (char_at seq2 i)) "-");
    destruct (Ascii.eqb (toupper (char_at seq2 i)) "N");
    cbn [orb andb negb];
    try (f_equal; lia).
  destruct (Ascii.eqb (toupper (char_at seq1 i)) (toupper (char_at seq2 i)));
    cbn [negb]; f_equal; lia.
Qed.

Lemma p_step_fold seq1 seq2 l d v :
  fold_left (fun st i => p_step (char_at seq1 i) (char_at seq2 i) st) l (d, v)
  = (d + Z.of_nat (List.length (filter
            (fun i => position_valid seq1 seq2 i && position_differs seq1 seq2 i) l)),
     v + Z.of_nat (List.length (filter (position_valid seq1 seq2) l))).
Proof.
  revert d v. induction l as [|i l IH]; intros d v; cbn [fold_left filter].
  - simpl. f_equal; lia.
  - rewrite p_step_counts, IH.
    destruct (position_valid seq1 seq2 i);
      destruct (position_differs seq1 seq2 i);
      cbn [andb List.length]; f_equal; lia.
Qed.

(** C9.  [p_distance] skips a position only when one of the upper-cased
    characters is a gap or an N, although its comment says that gaps and
    ambiguous bases are skipped: on "R" against "A" it counts one valid
    position and one difference and returns 1, where the p-distance over
    the positions with both characters among A, C, G, T, as the
    specification states it, is 0. *)
Theorem p_distance_not_restricted_to_ACGT :
  (p_distance "R" "A" == 1)%Q
  /\ (p_distance_ACGT "R" "A" == 0)%Q
  /\ ~ (p_distance "R" "A" == p_distance_ACGT "R" "A")%Q.
Proof.
  split; [vm_compute; reflexivity|]. split; [vm_compute; reflexivity|].
  vm_compute. discriminate.
Qed.

(** ** Branch recrafting *)

Lemma map_upd_nat {A B} (f : A -> B) (l : list A) n x :
  map f (upd_nat l n x) = upd_nat (map f l) n (f x).
Proof.
  revert n; induction l as [|h t IH]; intros [|n]; simpl; auto.
  now rewrite IH.
Qed.

Lemma nth_upd_nat {A} (l : list A) n m x d :
  nth m (upd_nat l n x) d
  = if (n =? m)%nat && (n <? List.length l)%nat then x else nth m l d.
Proof.
  destruct (Nat.eqb_spec n m) as [->|Hne]; cbn [andb].
  - destruct (Nat.ltb_spec m (List.length l)) as [Hlt|Hge].
    + now apply nth_upd_nat_eq.
    + rewrite !nth_overflow; auto. now rewrite length_upd_nat.
  - now apply nth_upd_nat_neq.
Qed.

Lemma upd_nat_same {A} (l : list A) n d : upd_nat l n (nth n l d) = l.
Proof.
  revert n; induction l as [|h t IH]; intros [|n]; simpl; auto.
  now rewrite IH.
Qed.

(** Moving the element at [j] to the front and putting [a] in its place
    permutes [a :: t]. *)
Lemma upd_nat_front_perm {A} (t : list A) j a d :
  (j < List.length t)%nat ->
  Permutation (nth j t d :: upd_nat t j a) (a :: t).
Proof.
  revert j. induction t as [|b t IH]; intros [|j]; simpl; intros Hj; try lia.
  - apply perm_swap.
  - eapply perm_trans; [apply perm_swap|].
    eapply perm_trans; [apply perm_skip, IH; lia|]. apply perm_swap.
Qed.

(** Exchanging the elements at two positions permutes the list. *)
Lemma upd_nat_exchange_perm {A} (l : list A) i j d :
  (i < j)%nat -> (j < List.length l)%nat ->
  Permutation (upd_nat (upd_nat l i (nth j l d)) j (nth i l d)) l.
Proof.
  revert i j. induction l as [|a t IH]; intros i j Hij Hj; simpl in Hj; [lia|].
  destruct j as [|j]; [lia|]. destruct i as [|i]; simpl.
  - apply upd_nat_front_perm. lia.
  - apply perm_skip. apply IH; lia.
Qed.

Section Recraft.

Variable D : matrix.

Lemma perform_edge_swap_length tree i j :
  List.length (MSTreeV2.perform_edge_swap D tree i j) = List.length tree.
Proof.
  unfold MSTreeV2.perform_edge_swap, upd. now rewrite !length_upd_nat.
Qed.

Lemma perform_edge_swap_from tree i j :
  map from (MSTreeV2.perform_edge_swap D tree i j) = map from tree.
Proof.
  unfold MSTreeV2.perform_edge_swap, upd, idx.
  rewrite !map_upd_nat. cbn [from].
  rewrite <- !(map_nth from).
  now rewrite !upd_nat_same.
Qed.

Lemma perform_edge_swap_to tree i j :
  0 <= i < j -> j < size tree ->
  Permutation (map to (MSTreeV2.perform_edge_swap D tree i j)) (map to tree).
Proof.
  intros Hi Hj. unfold MSTreeV2.perform_edge_swap, upd, idx, size in *.
  rewrite !map_upd_nat. cbn [to].
  change (to (nth (Z.to_nat j) tree (mkEdge 0 0 0%Q)))
    with ((fun e => to e) (nth (Z.to_nat j) tree (mkEdge 0 0 0%Q))).
  change (to (nth (Z.to_nat i) tree (mkEdge 0 0 0%Q)))
    with ((fun e => to e) (nth (Z.to_nat i) tree (mkEdge 0 0 0%Q))).
  rewrite <- !(map_nth (fun e => to e)).
  apply upd_nat_exchange_perm; [lia|]. rewrite length_map. lia.
Qed.

Lemma recraft_related_refl tree : recraft_related tree tree.
Proof. repeat split; auto. Qed.

Lemma recraft_related_trans t0 t1 t2 :
  recraft_related t0 t1 -> recraft_related t1 t2 -> recraft_related t0 t2.
Proof.
  intros (L1 & F1 & P1) (L2 & F2 & P2). repeat split; try congruence.
  eapply perm_trans; eassumption.
Qed.

Lemma recraft_pass_related tree :
  recraft_related tree (fst (MSTreeV2.recraft_pass D tree)).
Proof.
  unfold MSTreeV2.recraft_pass.
  apply (for_loop_inv (fun _ st => recraft_related tree (fst st)));
    [apply size_nonneg|apply recraft_related_refl|].
  intros i st Hi Hst.
  destruct (Z_lt_le_dec (size tree) (i + 1)) as [Hlt|Hle].
  { rewrite for_loop_nil by lia. assumption. }
  apply (for_loop_inv (fun _ st => recraft_related tree (fst st)));
    [lia|assumption|].
  intros j [t b] Hj Ht. cbn [fst] in *.
  destruct (MSTreeV2.can_swap_edges t i j); [|assumption].
  destruct (Qltb _ _); [|assumption].
  cbn [fst]. eapply recraft_related_trans; [exact Ht|].
  destruct Ht as (L & _ & _).
  repeat split.
  - apply perform_edge_swap_length.
  - apply perform_edge_swap_from.
  - apply perform_edge_swap_to; unfold size in *; lia.
Qed.

Lemma recraft_loop_related rounds tree :
  recraft_related tree (MSTreeV2.recraft_loop D rounds tree).
Proof.
  revert tree. induction rounds as [|r IH]; intros tree; simpl.
  - apply recraft_related_refl.
  - pose proof (recraft_pass_related tree) as H.
    destruct (MSTreeV2.recraft_pass D tree) as [t b]. cbn [fst] in H.
    destruct b; [|assumption].
    eapply recraft_related_trans; [exact H|apply IH].
Qed.

End Recraft.

Lemma perform_edge_swap_spec D tree i j :
  0 <= i < j -> j < size tree ->
  let e1 := idx (mkEdge 0 0 0%Q) tree i in
  let e2 := idx (mkEdge 0 0 0%Q) tree j in
  let tree' := MSTreeV2.perform_edge_swap D tree i j in
  idx (mkEdge 0 0 0%Q) tree' i
  = mkEdge (from e1) (to e2) (get2 D (from e1) (to e2))
  /\ idx (mkEdge 0 0 0%Q) tree' j
     = mkEdge (from e2) (to e1) (get2 D (from e2) (to e1))
  /\ forall k, 0 <= k -> k <> i -> k <> j ->
       idx (mkEdge 0 0 0%Q) tree' k = idx (mkEdge 0 0 0%Q) tree k.
Proof.
  intros Hi Hj e1 e2 tree'. subst tree'. unfold MSTreeV2.perform_edge_swap.
  fold e1. fold e2. split; [|split].
  - rewrite idx_upd_neq by lia. apply idx_upd_eq. lia.
  - apply idx_upd_eq. rewrite size_upd. lia.
  - intros k Hk Hki Hkj. rewrite !idx_upd_neq by lia. reflexivity.
Qed.

(** C10. For every matrix and every edge list, [recraft_branches] keeps
    the multiset of the [to] endpoints: the [to] fields after the pass are
    a permutation of the [to] fields before, so every vertex has as many
    incoming edges after as before; the [from] fields and the number of
    edges stay as they are.  The reason is the shape of a swap: it
    exchanges the [to] fields of the two edges, reads their distances
    anew from the matrix and leaves every other edge alone. *)
Theorem recraft_branches_preserves_to :
  (forall (D : matrix) (tree : list Edge),
      let tree' := MSTreeV2.recraft_branches D tree in
      Permutation (map to tree') (map to tree)
      /\ (forall v, count_occ Z.eq_dec (map to tree') v
                    = count_occ Z.eq_dec (map to tree) v)
      /\ map from tree' = map from tree
      /\ List.length tree' = List.length tree)
  /\ (forall (D : matrix) (tree : list Edge) i j,
        0 <= i < j -> j < size tree ->
        let e1 := idx (mkEdge 0 0 0%Q) tree i in
        let e2 := idx (mkEdge 0 0 0%Q) tree j in
        let tree' := MSTreeV2.perform_edge_swap D tree i j in
        idx (mkEdge 0 0 0%Q) tree' i
        = mkEdge (from e1) (to e2) (get2 D (from e1) (to e2))
        /\ idx (mkEdge 0 0 0%Q) tree' j
           = mkEdge (from e2) (to e1) (get2 D (from e2) (to e1))
        /\ forall k, 0 <= k -> k <> i -> k <> j ->
             idx (mkEdge 0 0 0%Q) tree' k = idx (mkEdge 0 0 0%Q) tree k).
Proof.
  split; [|exact perform_edge_swap_spec].
  intros D tree tree'.
  destruct (recraft_loop_related D 10 tree) as (L & F & P).
  fold (MSTreeV2.recraft_branches D tree) in L, F, P. fold tree' in L, F, P.
  repeat split; auto.
  intros v. now apply Permutation_count_occ.
Qed.

Lemma recraft_branches_preserves_to_witness :
  Permutation
    (map to (MSTreeV2.recraft_branches three_node_matrix
               [mkEdge 0 1 1; mkEdge 1 2 2]%Q))
    [1; 2]
  /\ idx (mkEdge 0 0 0%Q)
       (MSTreeV2.perform_edge_swap three_node_matrix
          [mkEdge 0 1 1; mkEdge 1 2 2]%Q 0 1) 1
     = mkEdge 1 1 0%Q.
Proof.
  split.
  - apply (proj1 recraft_branches_preserves_to three_node_matrix
             [mkEdge 0 1 1; mkEdge 1 2 2]%Q).
  - apply (proj2 recraft_branches_preserves_to three_node_matrix
             [mkEdge 0 1 1; mkEdge 1 2 2]%Q 0 1); [lia|reflexivity].
Defined.

(** ** Phase C1 of MSTreeV2: the minimum incoming edges *)

Section IncomingScan.

Variable D : matrix.
Variable to_ : Z.
Hypothesis Hto : 1 <= to_ < size D.
Hypothesis Hfinite :
  forall f, candidate D to_ f -> (get2 D f to_ < DBL_MAX)%Q.

Lemma scan_step k st :
  0 <= k < size D ->
  scan_invariant D to_ k st ->
  scan_invariant D to_ (k + 1) (MSTreeV2.incoming_step D to_ k st).
Proof.
  intros Hk. destruct st as [[m b] s]. unfold scan_invariant.
  cbv zeta. cbn [fst snd].
  intros [[-> Hinit]|(f0 & Hf0 & Hf0to & Hm & Hbefore & Hmin & Hb & Hbto
                        & Hbtie & Hs & Hbest)].
  - inversion Hinit; subst. right. exists 0.
    unfold MSTreeV2.incoming_step.
    replace (0 =? to_) with false by (symmetry; apply Z.eqb_neq; lia).
    assert (candidate D to_ 0) as Hc by (unfold candidate; lia).
    rewrite (proj2 (Qltb_lt _ _) (Hfinite 0 Hc)). cbn [fst snd].
    repeat split; try lia.
    + intros f Hf Hne. assert (f = 0) as -> by lia. apply Qle_refl.
    + apply tie_test_refl.
    + intros f Hf Hne _. assert (f = 0) as -> by lia. apply Qle_refl.
  - right. unfold MSTreeV2.incoming_step.
    destruct (Z.eqb_spec k to_) as [Hkto|Hkto].
    { exists f0. cbn [fst snd]. repeat split; auto; try lia.
      - intros f Hf Hne. apply Hmin; lia.
      - intros f Hf Hne. apply Hbest; lia. }
    destruct (Qltb (get2 D k to_) m) eqn:Hlt.
    { apply Qltb_lt in Hlt. exists k. cbn [fst snd].
      repeat split; auto; try lia.
      - intros f Hf Hne. eapply Qlt_le_trans; [exact Hlt|]. apply Hmin; lia.
      - intros f Hf Hne. destruct (Z.eq_dec f k) as [->|Hfk]; [apply Qle_refl|].
        apply Qlt_le_weak. eapply Qlt_le_trans; [exact Hlt|]. apply Hmin; lia.
      - apply tie_test_refl.
      - intros f Hf Hne _. assert (f = k) as -> by lia. apply Qle_refl. }
    apply Qltb_ge in Hlt.
    destruct (Qltb (Qabs (fsub (get2 D k to_) m)) EPS_double) eqn:Htie.
    + apply Qltb_lt in Htie.
      destruct (Qltb s (MSTreeV2.harmonic_mean_score D k)) eqn:Hscore.
      * apply Qltb_lt in Hscore. exists f0. cbn [fst snd].
        repeat split; auto; try lia.
        -- intros f Hf Hne. destruct (Z.eq_dec f k) as [->|Hfk]; [assumption|].
           apply Hmin; lia.
        -- intros f Hf Hne Hft.
           destruct (Z.eq_dec f k) as [->|Hfk]; [apply Qle_refl|].
           apply Qlt_le_weak. eapply Qle_lt_trans; [|exact Hscore].
           rewrite Hs. apply Hbest; auto; lia.
      * apply Qltb_ge in Hscore. exists f0. cbn [fst snd].
        repeat split; auto; try lia.
        -- intros f Hf Hne. destruct (Z.eq_dec f k) as [->|Hfk]; [assumption|].
           apply Hmin; lia.
        -- intros f Hf Hne Hft.
           destruct (Z.eq_dec f k) as [->|Hfk].
           ++ now rewrite <- Hs.
           ++ apply Hbest; auto; lia.
    + exists f0. cbn [fst snd]. repeat split; auto; try lia.
      * intros f Hf Hne. destruct (Z.eq_dec f k) as [->|Hfk]; [assumption|].
        apply Hmin; lia.
      * intros f Hf Hne Hft.
        destruct (Z.eq_dec f k) as [->|Hfk].
        -- apply tie_test_true in Hft. congruence.
        -- apply Hbest; auto; lia.
Qed.

Lemma scan_result :
  scan_invariant D to_ (size D) (MSTreeV2.incoming_scan D to_).
Proof.
  unfold MSTreeV2.incoming_scan, MSTreeV2.n_nodes_.
  apply for_loop_inv; [lia| |].
  - left. split; reflexivity.
  - intros k st Hk. now apply scan_step.
Qed.

End IncomingScan.

Lemma find_minimum_incoming_edges_rounds D :
  MSTreeV2.find_minimum_incoming_edges D
  = flat_map (incoming_edge D) (zrange 1 (size D)).
Proof.
  unfold MSTreeV2.find_minimum_incoming_edges, MSTreeV2.n_nodes_, for_loop.
  assert (forall l acc,
    fold_left
      (fun edges to_ =>
         let '(min_dist, best_from, _) := MSTreeV2.incoming_scan D to_ in
         if negb (best_from =? -1) then edges ++ [mkEdge best_from to_ min_dist]
         else edges) l acc
    = acc ++ flat_map (incoming_edge D) l) as H.
  { induction l as [|a l IH]; intros acc; simpl.
    - now rewrite app_nil_r.
    - rewrite IH. unfold incoming_edge.
      destruct (MSTreeV2.incoming_scan D a) as [[m b] s].
      destruct (negb (b =? -1)); simpl.
      + now rewrite <- app_assoc.
      + reflexivity. }
  apply H.
Qed.



Lemma half_integer_value a b :
  (inject_Z a + (1 # 2) * inject_Z b == (2 * a + b) # 2)%Q.
Proof.
  unfold Qeq, Qplus, Qmult, inject_Z. cbn [Qnum Qden].
  change (Z.pos (1 * (2 * 1))) with 2. change (Z.pos 2) with 2. lia.
Qed.








(** ** Trees grown edge by edge *)

Lemma joins_sym e u v : joins e u v -> joins e v u.
Proof. unfold joins. tauto. Qed.

Lemma adjacent_sym es u v : adjacent es u v -> adjacent es v u.
Proof. intros (e & He & Hj). exists e. split; [assumption|now apply joins_sym]. Qed.

Lemma connected_trans es u v w :
  connected es u v -> connected es v w -> connected es u w.
Proof.
  intros Huv Hvw. induction Hvw as [|v x w _ IH Hadj]; [assumption|].
  eapply connected_step; [apply IH; assumption|assumption].
Qed.

Lemma connected_sym es u v : connected es u v -> connected es v u.
Proof.
  intros H. induction H as [|u v w _ IH Hadj]; [constructor|].
  eapply connected_trans; [|exact IH].
  eapply connected_step; [constructor|now apply adjacent_sym].
Qed.

Lemma connected_more es e u v :
  connected es u v -> connected (es ++ [e]) u v.
Proof.
  intros H. induction H as [|u v w _ IH (e' & He' & Hj)]; [constructor|].
  eapply connected_step; [exact IH|].
  exists e'. split; [apply in_or_app; now left|assumption].
Qed.

Lemma grown_endpoints root es :
  grown root es ->
  forall e, In e es ->
    In (from e) (root :: map to es) /\ In (to e) (root :: map to es).
Proof.
  induction 1 as [|es e Hg IH Hfrom Hto]; intros e' He'; [contradiction|].
  rewrite map_app. cbn [map].
  assert (forall x, In x (root :: map to es) ->
                    In x (root :: map to es ++ [to e])) as Hmono.
  { intros x [->|Hx]; [now left|]. right. apply in_or_app. now left. }
  apply in_app_or in He'. destruct He' as [He'|[<-|[]]].
  - destruct (IH e' He') as [H1 H2]. split; now apply Hmono.
  - split; [now apply Hmono|]. right. apply in_or_app. right. now left.
Qed.

Lemma grown_NoDup root es : grown root es -> NoDup (root :: map to es).
Proof.
  induction 1 as [|es e Hg IH Hfrom Hto]; [repeat constructor; auto|].
  rewrite map_app. cbn [map].
  change (root :: map to es ++ [to e]) with ((root :: map to es) ++ [to e]).
  apply NoDup_app; [assumption|repeat constructor; auto|].
  intros x Hx [<-|[]]. contradiction.
Qed.

Lemma grown_connected root es :
  grown root es -> forall v, In v (root :: map to es) -> connected es root v.
Proof.
  induction 1 as [|es e Hg IH Hfrom Hto]; intros v Hv.
  - destruct Hv as [<-|[]]. constructor.
  - rewrite map_app in Hv. cbn [map] in Hv.
    assert (In v (root :: map to es) \/ v = to e) as [Hold| ->].
    { destruct Hv as [<-|Hv]; [left; now left|].
      apply in_app_or in Hv. destruct Hv as [Hv|[<-|[]]]; [|now right].
      left. now right. }
    + apply connected_more. now apply IH.
    + eapply connected_step; [apply connected_more, IH, Hfrom|].
      exists e. split; [apply in_or_app; right; now left|].
      left. split; reflexivity.
Qed.

Lemma grown_root_edge root es :
  grown root es -> es <> [] -> exists e, In e es /\ from e = root.
Proof.
  induction 1 as [|es e Hg IH Hfrom Hto]; intros Hne; [congruence|].
  destruct es as [|e0 es0].
  - destruct Hfrom as [Hfrom|[]]. exists e. split; [now left|congruence].
  - destruct IH as (e1 & He1 & Hf1); [discriminate|].
    exists e1. split; [apply in_or_app; now left|assumption].
Qed.

(** A walk that avoids the last edge is a walk of the graph without it. *)
Lemma trail_restrict es e u w used :
  trail (es ++ [e]) u w used -> ~ In (List.length es) used ->
  trail es u w used.
Proof.
  induction 1 as [|u v w i e' used Hnth Hj _ IH]; intros Hnot; [constructor|].
  assert (i <> List.length es) as Hi by (intros ->; apply Hnot; now left).
  assert (i < List.length (es ++ [e]))%nat as Hlt
    by (apply nth_error_Some; congruence).
  rewrite length_app in Hlt. cbn [List.length] in Hlt.
  rewrite nth_error_app1 in Hnth by lia.
  econstructor; [exact Hnth|exact Hj|].
  apply IH. intros Hin. apply Hnot. now right.
Qed.

(** The parity argument: when the only edge at [t] is the last one, a walk
    that uses it once has exactly one end at [t], and a walk that avoids it
    has both ends at [t] or none. *)
Lemma trail_parity es e u w used :
  from e <> to e ->
  (forall e', In e' es -> from e' <> to e /\ to e' <> to e) ->
  trail (es ++ [e]) u w used -> NoDup used ->
  if in_dec Nat.eq_dec (List.length es) used
  then (u = to e /\ w <> to e) \/ (u <> to e /\ w = to e)
  else (u = to e <-> w = to e).
Proof.
  intros Hloop Hfresh Ht. induction Ht as [|u v w i e' used Hnth Hj _ IH];
    intros Hnd.
  - destruct (in_dec _ _ _) as [[]|_]. tauto.
  - inversion Hnd as [|? ? Hi Hnd']; subst. specialize (IH Hnd').
    destruct (Nat.eq_dec i (List.length es)) as [->|Hne].
    + rewrite nth_error_app2, Nat.sub_diag in Hnth by lia.
      cbn in Hnth. inversion Hnth; subst e'.
      destruct (in_dec Nat.eq_dec (List.length es) used) as [Hin|_];
        [contradiction|].
      destruct (in_dec _ _ _) as [_|Hnot]; [|exfalso; apply Hnot; now left].
      destruct Hj as [[<- <-]|[<- <-]].
      * right. split; [assumption|]. now apply IH.
      * left. split; [reflexivity|]. intros Hw. apply IH in Hw. congruence.
    + assert (i < List.length (es ++ [e]))%nat as Hlt
        by (apply nth_error_Some; congruence).
      rewrite length_app in Hlt. cbn [List.length] in Hlt.
      rewrite nth_error_app1 in Hnth by lia.
      apply nth_error_In in Hnth. destruct (Hfresh e' Hnth) as [Hf Ht'].
      assert (u <> to e /\ v <> to e) as [Hu Hv]
        by (destruct Hj as [[<- <-]|[<- <-]]; split; assumption).
      destruct (in_dec Nat.eq_dec (List.length es) used) as [Hin|Hnin].
      * destruct (in_dec _ _ _) as [_|Hnot]; [|exfalso; apply Hnot; now right].
        right. split; [assumption|]. tauto.
      * destruct (in_dec _ _ _) as [[Heq|Hin]|_]; [congruence|contradiction|].
        tauto.
Qed.

Lemma grown_acyclic root es : grown root es -> acyclic es.
Proof.
  induction 1 as [|es e Hg IH Hfrom Hto]; intros u used Ht Hnd.
  - inversion Ht as [|? ? ? i e' ? Hnth]; subst; [reflexivity|].
    destruct i; discriminate.
  - assert (from e <> to e) as Hloop by (intros Heq; apply Hto; congruence).
    assert (forall e', In e' es -> from e' <> to e /\ to e' <> to e) as Hfresh.
    { intros e' He'. destruct (grown_endpoints root es Hg e' He') as [H1 H2].
      split; intros Heq; apply Hto; congruence. }
    pose proof (trail_parity es e u u used Hloop Hfresh Ht Hnd) as Hp.
    destruct (in_dec Nat.eq_dec (List.length es) used) as [_|Hnot];
      [tauto|].
    apply (IH u); [|assumption]. eapply trail_restrict; eassumption.
Qed.

(** A duplicate-free list shorter than another misses one of its elements. *)
Lemma missing_element (l l' : list Z) :
  NoDup l' -> (List.length l < List.length l')%nat ->
  exists x, In x l' /\ ~ In x l.
Proof.
  intros Hnd Hlen.
  assert ((forall x, In x l' -> In x l) \/ exists x, In x l' /\ ~ In x l) as [Hall|Hex].
  { clear. induction l' as [|a l' IH]; [left; intros x []|].
    destruct IH as [Hall|(x & Hx & Hnx)].
    - destruct (in_dec Z.eq_dec a l) as [Ha|Ha].
      + left. intros x [<-|Hx]; auto.
      + right. exists a. split; [now left|assumption].
    - right. exists x. split; [now right|assumption]. }
  - pose proof (NoDup_incl_length Hnd Hall). lia.
  - assumption.
Qed.

(** A grown list with [n - 1] edges on vertices below [n] is a spanning
    tree of [0..n-1]. *)
Lemma grown_spanning_tree n es :
  2 <= n ->
  grown 0 es ->
  size es = n - 1 ->
  (forall e, In e es -> 0 <= to e < n) ->
  spanning_tree n es.
Proof.
  intros Hn Hg Hlen Hrange.
  assert (forall v, In v (0 :: map to es) -> 0 <= v < n) as Hin.
  { intros v [<-|Hv]; [lia|]. apply in_map_iff in Hv.
    destruct Hv as (e & <- & He). now apply Hrange. }
  assert (forall v, 0 <= v < n -> In v (0 :: map to es)) as Hall.
  { intros v Hv.
    apply (@NoDup_length_incl Z (0 :: map to es) (zrange 0 n)
             (grown_NoDup 0 es Hg)).
    - cbn [List.length]. rewrite length_map, zrange_length.
      unfold size in Hlen. lia.
    - intros x Hx. apply In_zrange. now apply Hin.
    - apply In_zrange. assumption. }
  repeat split.
  - destruct (grown_endpoints 0 es Hg e H) as [H1 _]. apply Hin in H1. lia.
  - destruct (grown_endpoints 0 es Hg e H) as [H1 _]. apply Hin in H1. lia.
  - now apply Hrange.
  - now apply Hrange.
  - intros u v Hu Hv.
    eapply connected_trans;
      [apply connected_sym|]; apply (grown_connected 0 es Hg); now apply Hall.
  - now apply (grown_acyclic 0).
  - intros v Hv. destruct (Z.eq_dec v 0) as [->|Hne].
    + destruct (grown_root_edge 0 es Hg) as (e & He & Hf).
      * intros ->. unfold size in Hlen. cbn in Hlen. lia.
      * exists e. split; [assumption|now left].
    + specialize (Hall v Hv). destruct Hall as [Heq|Hto]; [congruence|].
      apply in_map_iff in Hto. destruct Hto as (e & He & Hin').
      exists e. split; [assumption|now right].
Qed.

(** ** Prim's loop *)

Lemma fold_pick_in {St : Type} (step : Z * St -> Z -> Z * St) l init :
  (forall st x, fst (step st x) = fst st \/ fst (step st x) = x) ->
  In (fst (fold_left step l init)) (fst init :: l).
Proof.
  intros Hstep. revert init. induction l as [|a l IH]; intros init; simpl.
  - now left.
  - destruct (IH (step init a)) as [H|H].
    + destruct (Hstep init a) as [E|E]; rewrite E in H; auto.
    + auto.
Qed.

Lemma collect_fold (P : Z -> bool) l acc :
  fold_left (fun c i => if P i then c ++ [i] else c) l acc = acc ++ filter P l.
Proof.
  revert acc. induction l as [|a l IH]; intros acc; simpl.
  - now rewrite app_nil_r.
  - rewrite IH. destruct (P a); [now rewrite <- app_assoc|reflexivity].
Qed.

Lemma idx_head_in (l : list Z) : l <> [] -> In (idx 0 l 0) l.
Proof. destruct l; [congruence|]. intros _. now left. Qed.

Section Prim.

Variable D : matrix.
Variable h : MSTree.Heuristic.
Hypothesis Hn : 2 <= size D.
Hypothesis Hfinite : finite_matrix D.

Lemma init_distances_spec md0 par0 :
  size md0 = size D -> size par0 = size D ->
  let mp := MSTree.init_distances D 0 md0 par0 in
  size (fst mp) = size D /\ size (snd mp) = size D
  /\ forall i, 0 <= i < size D -> i <> 0 ->
       idx (-1) (snd mp) i = 0 /\ idx 0%Q (fst mp) i = get2 D 0 i.
Proof.
  intros Hmd Hpar. unfold MSTree.init_distances, MSTree.n_nodes_.
  apply (for_loop_inv (fun k st =>
    size (fst st) = size D /\ size (snd st) = size D
    /\ forall i, 0 <= i < k -> i <> 0 ->
         idx (-1) (snd st) i = 0 /\ idx 0%Q (fst st) i = get2 D 0 i));
    [lia| |].
  - cbn [fst snd]. repeat split; auto; lia.
  - intros k [md par] Hk (H1 & H2 & H3). cbn [fst snd] in *.
    destruct (Z.eqb_spec k 0) as [->|Hk0]; cbn [negb fst snd].
    + repeat split; auto; apply H3; lia.
    + rewrite !size_upd. split; [assumption|]. split; [assumption|].
      intros i Hi Hi0. destruct (Z.eq_dec i k) as [->|Hik].
      * rewrite !idx_upd_eq by lia. split; reflexivity.
      * rewrite !idx_upd_neq by lia. apply H3; lia.
Qed.

Lemma prim_init_invariant : prim_invariant D (MSTree.prim_init D).
Proof.
  unfold MSTree.prim_init, MSTree.n_nodes_.
  destruct (init_distances_spec
              (upd (repeat DBL_MAX (Z.to_nat (size D))) 0 0%Q)
              (repeat (-1) (Z.to_nat (size D)))) as (H1 & H2 & H3).
  { rewrite size_upd, size_repeat. lia. }
  { rewrite size_repeat. lia. }
  cbv zeta. unfold prim_invariant. cbv zeta. cbn [MSTree.in_tree
    MSTree.min_distance MSTree.parent MSTree.tree_edges map].
  split; [rewrite size_upd, size_repeat; lia|].
  split; [assumption|]. split; [assumption|].
  split; [constructor|]. split; [intros e []|].
  assert (forall i, 0 <= i < size D ->
            idx false (upd (repeat false (Z.to_nat (size D))) 0 true) i
            = (i =? 0)) as Htree.
  { intros i Hi. destruct (Z.eqb_spec i 0) as [->|Hne].
    - apply idx_upd_eq. rewrite size_repeat. lia.
    - rewrite idx_upd_neq by lia. apply idx_repeat. lia. }
  split.
  - intros i Hi. rewrite Htree by assumption. split.
    + intros E. apply Z.eqb_eq in E. now left.
    + intros [<-|[]]. reflexivity.
  - intros i Hi. rewrite Htree by assumption. intros E.
    apply Z.eqb_neq in E. destruct (H3 i Hi E) as [-> ->].
    split; [now left|]. apply Hfinite; lia.
Qed.

Lemma find_min_dist_tie in_tree md :
  (exists i0, 0 <= i0 < size D /\ idx false in_tree i0 = false) ->
  (forall i, 0 <= i < size D -> idx false in_tree i = false ->
             (idx 0%Q md i <= DBL_MAX)%Q) ->
  exists i, 0 <= i < size D /\ idx false in_tree i = false
            /\ Qltb (Qabs (fsub (idx 0%Q md i)
                                 (MSTree.find_min_dist D in_tree md)))
                    EPS_double
               = true.
Proof.
  intros (i0 & Hi0 & Hout) Hfin.
  assert ((forall i, 0 <= i < size D -> idx false in_tree i = false ->
             (MSTree.find_min_dist D in_tree md <= idx 0%Q md i)%Q)
          /\ (MSTree.find_min_dist D in_tree md = DBL_MAX
              \/ exists i, 0 <= i < size D /\ idx false in_tree i = false
                           /\ MSTree.find_min_dist D in_tree md = idx 0%Q md i))
    as [Hle Hat].
  { unfold MSTree.find_min_dist, MSTree.n_nodes_.
    apply (for_loop_inv (fun k m =>
      (forall i, 0 <= i < k -> idx false in_tree i = false ->
                 (m <= idx 0%Q md i)%Q)
      /\ (m = DBL_MAX
          \/ exists i, 0 <= i < k /\ idx false in_tree i = false
                       /\ m = idx 0%Q md i))); [lia| |].
    - split; [intros; lia|now left].
    - intros k m Hk [H1 H2].
      destruct (idx false in_tree k) eqn:Ek; cbn [negb andb].
      + split.
        * intros i Hi Hi'. destruct (Z.eq_dec i k) as [->|]; [congruence|].
          apply H1; auto; lia.
        * destruct H2 as [H2|(i & Hi & Hi' & Hm)]; [now left|].
          right. exists i. repeat split; auto; lia.
      + destruct (Qltb (idx 0%Q md k) m) eqn:Elt.
        * apply Qltb_lt in Elt. split.
          -- intros i Hi Hi'. destruct (Z.eq_dec i k) as [->|]; [apply Qle_refl|].
             apply Qlt_le_weak. eapply Qlt_le_trans; [exact Elt|].
             apply H1; auto; lia.
          -- right. exists k. repeat split; auto; lia.
        * apply Qltb_ge in Elt. split.
          -- intros i Hi Hi'. destruct (Z.eq_dec i k) as [->|]; [assumption|].
             apply H1; auto; lia.
          -- destruct H2 as [H2|(i & Hi & Hi' & Hm)]; [now left|].
             right. exists i. repeat split; auto; lia. }
  destruct Hat as [Hmax|(i & Hi & Hi' & Hm)].
  - exists i0. repeat split; auto; try lia.
    apply tie_test_true, tie_test_eq.
    apply Qle_antisym; [|now apply Hle].
    rewrite Hmax. now apply Hfin.
  - exists i. repeat split; auto; try lia.
    apply tie_test_true, tie_test_eq. now rewrite Hm.
Qed.

Lemma collect_candidates_filter md in_tree m :
  MSTree.collect_candidates D md in_tree m
  = filter (fun i => negb (idx false in_tree i)
                     && Qltb (Qabs (fsub (idx 0%Q md i) m)) EPS_double)
           (zrange 0 (size D)).
Proof.
  unfold MSTree.collect_candidates, MSTree.n_nodes_, for_loop.
  now rewrite collect_fold.
Qed.

Lemma select_in_candidates md in_tree m :
  MSTree.collect_candidates D md in_tree m <> [] ->
  In (MSTree.select_node_with_tiebreak D h md in_tree m)
     (MSTree.collect_candidates D md in_tree m).
Proof.
  intros Hne. unfold MSTree.select_node_with_tiebreak.
  set (c := MSTree.collect_candidates D md in_tree m) in *.
  cbv zeta. destruct (size c =? 1); [now apply idx_head_in|].
  assert (forall x, In x (idx 0 c 0 :: c) -> In x c) as Hin.
  { intros x [<-|Hx]; [now apply idx_head_in|assumption]. }
  destruct h.
  - unfold MSTree.apply_eburst_tiebreak. apply Hin.
    match goal with
    | |- In (fst (fold_left ?f c ?i)) _ =>
        apply (fold_pick_in f c i)
    end.
    intros [b mc] x. cbn [fst].
    destruct (mc <? _); [now right|].
    destruct (_ =? mc); [|now left].
    destruct (x <? b); [now right|now left].
  - unfold MSTree.apply_harmonic_tiebreak. apply Hin.
    match goal with
    | |- In (fst (fold_left ?f c ?i)) _ =>
        apply (fold_pick_in f c i)
    end.
    intros [b bs] x. cbn [fst].
    destruct (Qltb bs _); [now right|].
    destruct (Qltb _ EPS_double); [|now left].
    destruct (x <? b); [now right|now left].
Qed.

(** The vertex that Prim's step picks is a vertex outside the tree. *)
Lemma select_outside md in_tree :
  (exists i0, 0 <= i0 < size D /\ idx false in_tree i0 = false) ->
  (forall i, 0 <= i < size D -> idx false in_tree i = false ->
             (idx 0%Q md i <= DBL_MAX)%Q) ->
  let min_node :=
    MSTree.select_node_with_tiebreak D h md in_tree
      (MSTree.find_min_dist D in_tree md) in
  0 <= min_node < size D /\ idx false in_tree min_node = false.
Proof.
  intros Hex Hfin min_node.
  destruct (find_min_dist_tie in_tree md Hex Hfin) as (i & Hi & Hout & Htie).
  assert (In min_node (MSTree.collect_candidates D md in_tree
                         (MSTree.find_min_dist D in_tree md))) as Hin.
  { apply select_in_candidates. rewrite collect_candidates_filter.
    intros Hnil.
    assert (In i (filter (fun i => negb (idx false in_tree i)
               && Qltb (Qabs (fsub (idx 0%Q md i)
                                   (MSTree.find_min_dist D in_tree md)))
                       EPS_double)
               (zrange 0 (size D)))) as Hi'.
    { apply filter_In. split; [apply In_zrange; lia|].
      now rewrite Hout, Htie. }
    rewrite Hnil in Hi'. contradiction. }
  rewrite collect_candidates_filter in Hin. apply filter_In in Hin.
  destruct Hin as [Hr Hc]. apply In_zrange in Hr.
  apply andb_true_iff in Hc. destruct Hc as [Hc _].
  apply negb_true_iff in Hc. split; [lia|assumption].
Qed.

End Prim.

Section PrimStep.

Variable D : matrix.
Variable h : MSTree.Heuristic.
Hypothesis Hn : 2 <= size D.
Hypothesis Hfinite : finite_matrix D.

Lemma relax_spec min_node in_tree md par :
  size md = size D -> size par = size D ->
  let mp := MSTree.relax D min_node in_tree md par in
  size (fst mp) = size D /\ size (snd mp) = size D
  /\ forall i, 0 <= i < size D ->
       (idx (-1) (snd mp) i = idx (-1) par i \/ idx (-1) (snd mp) i = min_node)
       /\ (idx 0%Q (fst mp) i = idx 0%Q md i
           \/ idx 0%Q (fst mp) i = get2 D min_node i).
Proof.
  intros Hmd Hpar. unfold MSTree.relax, MSTree.n_nodes_.
  apply (for_loop_inv (fun (k : Z) st =>
    size (fst st) = size D /\ size (snd st) = size D
    /\ forall i, 0 <= i < size D ->
         (idx (-1) (snd st) i = idx (-1) par i \/ idx (-1) (snd st) i = min_node)
         /\ (idx 0%Q (fst st) i = idx 0%Q md i
             \/ idx 0%Q (fst st) i = get2 D min_node i))); [lia| |].
  - cbn [fst snd]. repeat split; auto.
  - intros k [md' par'] Hk (H1 & H2 & H3). cbn [fst snd] in *.
    destruct (negb (idx false in_tree k)); [|repeat split; auto; apply H3; auto].
    destruct (Qltb _ _); [|repeat split; auto; apply H3; auto].
    cbn [fst snd]. rewrite !size_upd.
    split; [assumption|]. split; [assumption|].
    intros i Hi. destruct (Z.eq_dec i k) as [->|Hik].
    + rewrite !idx_upd_eq by lia. split; now right.
    + rewrite !idx_upd_neq by lia. now apply H3.
Qed.

Lemma prim_step_invariant st :
  prim_invariant D st ->
  (exists i0, 0 <= i0 < size D /\ idx false (MSTree.in_tree st) i0 = false) ->
  prim_invariant D (MSTree.prim_step D h st)
  /\ size (MSTree.tree_edges (MSTree.prim_step D h st))
     = size (MSTree.tree_edges st) + 1.
Proof.
  intros (Hs1 & Hs2 & Hs3 & Hg & Hrange & Htree & Hout) Hex.
  unfold MSTree.prim_step.
  set (min_dist := MSTree.find_min_dist D (MSTree.in_tree st)
                     (MSTree.min_distance st)).
  set (min_node := MSTree.select_node_with_tiebreak D h
                     (MSTree.min_distance st) (MSTree.in_tree st) min_dist).
  assert (0 <= min_node < size D
          /\ idx false (MSTree.in_tree st) min_node = false) as [Hmn Hmo].
  { apply select_outside; auto. intros i Hi Ho. now apply Hout. }
  cbv zeta.
  destruct (relax_spec min_node (upd (MSTree.in_tree st) min_node true)
              (MSTree.min_distance st) (MSTree.parent st) Hs2 Hs3)
    as (Hr1 & Hr2 & Hr3).
  set (e := mkEdge (idx (-1) (MSTree.parent st) min_node) min_node min_dist).
  assert (forall x, In x (0 :: map to (MSTree.tree_edges st)) ->
                    In x (0 :: map to (MSTree.tree_edges st ++ [e]))) as Hmono.
  { intros x [<-|Hx]; [now left|]. right. rewrite map_app.
    apply in_or_app. now left. }
  assert (In min_node (0 :: map to (MSTree.tree_edges st ++ [e]))) as Hnew.
  { right. rewrite map_app. apply in_or_app. right. now left. }
  assert (~ In min_node (0 :: map to (MSTree.tree_edges st))) as Hfresh.
  { intros Hin. apply Htree in Hin; [|assumption]. congruence. }
  split.
  - unfold prim_invariant. cbv zeta.
    cbn [MSTree.in_tree MSTree.min_distance MSTree.parent MSTree.tree_edges].
    split; [now rewrite size_upd|]. split; [assumption|]. split; [assumption|].
    split.
    { apply grown_snoc; [assumption| |assumption].
      cbn [from]. now apply Hout. }
    split.
    { intros e' He'. apply in_app_or in He'.
      destruct He' as [He'|[<-|[]]]; [now apply Hrange|assumption]. }
    split.
    + intros i Hi. destruct (Z.eq_dec i min_node) as [->|Hne].
      * rewrite idx_upd_eq by lia. tauto.
      * rewrite idx_upd_neq by lia. rewrite Htree by assumption. split.
        -- apply Hmono.
        -- intros [<-|Hin]; [now left|]. rewrite map_app in Hin.
           apply in_app_or in Hin. destruct Hin as [Hin|[Heq|[]]].
           ++ now right.
           ++ cbn in Heq. congruence.
    + intros i Hi Hio. destruct (Z.eq_dec i min_node) as [->|Hne].
      { rewrite idx_upd_eq in Hio by lia. discriminate. }
      rewrite idx_upd_neq in Hio by lia.
      destruct (Hout i Hi Hio) as [Hp Hd].
      destruct (Hr3 i Hi) as [[-> | ->] [Hm|Hm]]; rewrite Hm; split; auto;
        apply Hfinite; lia.
  - cbn [MSTree.tree_edges]. unfold size. rewrite length_app.
    cbn [List.length]. lia.
Qed.

Lemma prim_loop_invariant :
  let st := for_loop 1 (size D) (fun _ st => MSTree.prim_step D h st)
              (MSTree.prim_init D) in
  prim_invariant D st /\ size (MSTree.tree_edges st) = size D - 1.
Proof.
  apply (for_loop_inv (fun c st =>
    prim_invariant D st /\ size (MSTree.tree_edges st) = c - 1)); [lia| |].
  - split; [now apply prim_init_invariant|reflexivity].
  - intros c st Hc [Hinv Hlen].
    destruct (prim_step_invariant st Hinv) as [Hinv' Hlen'].
    + destruct Hinv as (_ & _ & _ & Hg & Hrange & Htree & _).
      destruct (missing_element (0 :: map to (MSTree.tree_edges st))
                  (zrange 0 (size D))) as (x & Hx & Hnx).
      * apply NoDup_zrange.
      * cbn [List.length]. rewrite length_map, zrange_length.
        unfold size in *. lia.
      * apply In_zrange in Hx. exists x. split; [assumption|].
        destruct (idx false (MSTree.in_tree st) x) eqn:E; [|reflexivity].
        apply Htree in E; [contradiction|assumption].
    + split; [assumption|]. lia.
Qed.

End PrimStep.

(** C5. For every square matrix of finite entries over [N >= 2] vertices
    (symmetric or not) and either heuristic, [MSTree::compute] returns an
    edge list of exactly [N - 1] edges that is a spanning tree of
    [0..N-1]: connected, without a cycle, every vertex on some edge. *)
Theorem prim_builds_spanning_tree :
  forall (D : matrix) (h : MSTree.Heuristic),
    2 <= size D ->
    square (size D) D ->
    finite_matrix D ->
    exists tree_edges,
      MSTree.compute D h = Ok tree_edges
      /\ size tree_edges = size D - 1
      /\ spanning_tree (size D) tree_edges.
Proof.
  intros D h Hn _ Hfin.
  destruct (prim_loop_invariant D h Hn Hfin) as [Hinv Hlen].
  unfold MSTree.compute, MSTree.n_nodes_.
  replace (size D - 1 <? 0) with false by (symmetry; apply Z.ltb_ge; lia).
  eexists. split; [reflexivity|]. split; [exact Hlen|].
  destruct Hinv as (_ & _ & _ & Hg & Hrange & _).
  now apply grown_spanning_tree.
Qed.

Lemma square_three_node_matrix : square (size three_node_matrix) three_node_matrix.
Proof.
  split; [reflexivity|]. change (size three_node_matrix) with 3.
  intros i Hi.
  assert (i = 0 \/ i = 1 \/ i = 2) as Hcases by lia.
  destruct Hcases as [Hc|[Hc|Hc]]; subst i; reflexivity.
Qed.

Lemma finite_three_node_matrix : finite_matrix three_node_matrix.
Proof.
  unfold finite_matrix. change (size three_node_matrix) with 3.
  intros i j Hi Hj.
  assert (i = 0 \/ i = 1 \/ i = 2) as Hci by lia.
  assert (j = 0 \/ j = 1 \/ j = 2) as Hcj by lia.
  destruct Hci as [Hc|[Hc|Hc]]; subst i;
    destruct Hcj as [Hc|[Hc|Hc]]; subst j; vm_compute; discriminate.
Qed.

Lemma prim_builds_spanning_tree_witness :
  exists tree_edges,
    MSTree.compute three_node_matrix MSTree.EBURST = Ok tree_edges
    /\ size tree_edges = size three_node_matrix - 1
    /\ spanning_tree (size three_node_matrix) tree_edges.
Proof.
  apply prim_builds_spanning_tree.
  - change (size three_node_matrix) with 3. lia.
  - exact square_three_node_matrix.
  - exact finite_three_node_matrix.
Defined.

(** ** The request facade *)

Lemma prefix_append (s t : string) : String.prefix s (s ++ t) = true.
Proof.
  induction s as [|c s IH]; simpl.
  - now destruct t.
  - destruct (Ascii.ascii_dec c c); [assumption|congruence].
Qed.

(** C8. For every well-formed profile JSON and every method other than
    "MSTree" and "MSTreeV2", the method dispatch throws instead of yielding
    an edge list, and [compute_tree] returns the failure envelope whose
    error is "Unknown method: " followed by the method. *)
Theorem unknown_method_rejected :
  forall json_profile profile_json strains profiles
         method matrix_type missing_handler heuristic,
    json_profile profile_json = JsonProfile strains profiles ->
    well_formed_profile strains profiles ->
    method <> "MSTree"%string -> method <> "MSTreeV2"%string ->
    (forall distances,
        build_tree distances method heuristic
        = Some (Throw ("Unknown method: " ++ method)%string))
    /\ exists error,
         compute_tree json_profile profile_json method matrix_type
           missing_handler heuristic = Some (Failure error)
         /\ success (Failure error) = false
         /\ error = ("Unknown method: " ++ method)%string
         /\ String.prefix "Unknown method" error = true.
Proof.
  intros json_profile profile_json strains profiles method matrix_type
         missing_handler heuristic Hparse _ Hm1 Hm2.
  assert (forall distances,
             build_tree distances method heuristic
             = Some (Throw ("Unknown method: " ++ method)%string)) as Hbuild.
  { intros distances. unfold build_tree.
    rewrite (proj2 (String.eqb_neq _ _) Hm1).
    now rewrite (proj2 (String.eqb_neq _ _) Hm2). }
  split; [exact Hbuild|].
  exists ("Unknown method: " ++ method)%string.
  split; [|split; [reflexivity|split; [reflexivity|]]].
  - unfold compute_tree, parse_profile_json. rewrite Hparse.
    now rewrite Hbuild.
  - change ("Unknown method: " ++ method)%string
      with ("Unknown method" ++ (": " ++ method))%string.
    apply prefix_append.
Qed.

Lemma unknown_method_rejected_witness :
  compute_tree scenario1_json request_text "NJ" "symmetric" 0 "eBurst"
  = Some (Failure "Unknown method: NJ").
Proof.
  destruct (unknown_method_rejected scenario1_json request_text
              ["A"; "B"; "C"]%string [[1; 2; 3]; [1; 2; 4]; [1; 3; 3]]
              "NJ" "symmetric" 0 "eBurst" eq_refl) as [_ (error & Hc & _ & He & _)].
  - split; [discriminate|]. split; [reflexivity|].
    exists 3. repeat constructor.
  - discriminate.
  - discriminate.
  - now rewrite Hc, He.
Defined.

(** C7, as stated, fails: [compute_tree] checks no shape.  A request
    without strains, a request with a strain and no profile, and a request
    whose second profile is longer than the first are all answered with
    the success envelope under MSTreeV2. *)
Lemma shape_errors_accepted :
  compute_tree no_strains_json request_text "MSTreeV2" "asymmetric" 0 "harmonic"
  = Some (Success "();" [] 0 0)
  /\ compute_tree no_profiles_json request_text "MSTreeV2" "asymmetric" 0 "harmonic"
     = Some (Success "A;" [] 1 0)
  /\ exists newick edges,
       compute_tree ragged_json request_text "MSTreeV2" "asymmetric" 0 "harmonic"
       = Some (Success newick edges 2 1).
Proof.
  split; [vm_compute; reflexivity|].
  split; [vm_compute; reflexivity|].
  eexists. eexists. vm_compute. reflexivity.
Qed.

Lemma no_strains_distances profiles n_genes matrix_type missing_handler :
  compute_distances (mkProfileData [] profiles 0 n_genes) matrix_type
    missing_handler = [].
Proof.
  unfold compute_distances. destruct (String.eqb matrix_type "symmetric");
    reflexivity.
Qed.

(** C7, amended. [compute_tree] returns the failure envelope, with the
    message of the exception, whenever the JSON library throws while the
    request is parsed.  It checks no shape itself: for a request with
    [strains.len == 0], whatever its profiles, method MSTreeV2 returns the
    success envelope with the Newick text "();", no edges and
    [n_nodes = n_edges = 0]. *)
Theorem compute_tree_checks_parse_only :
  forall json_profile profile_json method matrix_type missing_handler heuristic,
    (forall what,
        json_profile profile_json = JsonThrows what ->
        compute_tree json_profile profile_json method matrix_type
          missing_handler heuristic = Some (Failure what)
        /\ success (Failure what) = false)
    /\ (forall profiles,
          json_profile profile_json = JsonProfile [] profiles ->
          compute_tree json_profile profile_json "MSTreeV2" matrix_type
            missing_handler heuristic = Some (Success "();" [] 0 0)
          /\ success (Success "();" [] 0 0) = true).
Proof.
  intros json_profile profile_json method matrix_type missing_handler heuristic.
  split.
  - intros what Hparse. split; [|reflexivity].
    unfold compute_tree, parse_profile_json. now rewrite Hparse.
  - intros profiles Hparse. split; [|reflexivity].
    unfold compute_tree, parse_profile_json. rewrite Hparse.
    change (size (@nil string)) with 0.
    rewrite no_strains_distances. reflexivity.
Qed.

Lemma compute_tree_checks_parse_only_witness :
  compute_tree throwing_json request_text "MSTree" "symmetric" 0 "eBurst"
  = Some (Failure "parse error")
  /\ compute_tree no_strains_json request_text "MSTreeV2" "symmetric" 0 "eBurst"
     = Some (Success "();" [] 0 0).
Proof.
  split.
  - apply (proj1 (compute_tree_checks_parse_only
                    throwing_json request_text "MSTree"
                    "symmetric" 0 "eBurst") "parse error"%string eq_refl).
  - apply (proj2 (compute_tree_checks_parse_only
                    no_strains_json request_text "MSTree"
                    "symmetric" 0 "eBurst") [] eq_refl).
Defined.

(** ** MSTreeV2 end to end *)

Lemma valid_chain_profiles : valid_profile_data chain_profiles.
Proof.
  unfold valid_profile_data, chain_profiles; simpl.
  repeat split; try lia; repeat constructor.
Qed.

(** C1 on [chain_profiles]: phase C1 picks the edges 0 -> 1 and 1 -> 2 and
    finds no cycle; the recrafting pass then exchanges their [to]
    endpoints, because [D[0][2] + D[1][1] = 4 < 5 = D[0][1] + D[1][2]], and
    returns the edge 0 -> 2 together with the self-loop 1 -> 1. *)
Theorem recraft_returns_self_loop :
  valid_profile_data chain_profiles
  /\ map (fun e => (from e, to e))
         (MSTreeV2.find_minimum_incoming_edges (compute_asymmetric chain_profiles))
     = [(0, 1); (1, 2)]
  /\ exists d1 d2,
       MSTreeV2.compute (compute_asymmetric chain_profiles)
       = Some [mkEdge 0 2 d1; mkEdge 1 1 d2]
       /\ (d1 == 4)%Q /\ (d2 == 0)%Q.
Proof.
  split; [exact valid_chain_profiles|].
  split; [vm_compute; reflexivity|].
  eexists. eexists. split; [vm_compute; reflexivity|].
  split; reflexivity.
Qed.

(** ** The scenarios of the specification, run on the embedding *)

Example scenario1_MSTreeV2 :
  let r := compute_tree scenario1_json request_text "MSTreeV2" "asymmetric" 0
             "harmonic" in
  newick_of r = Some "(B:1.000000,C:1.000000)A;"%string
  /\ shape_of r = [(0, 1); (0, 2)].
Proof. split; vm_compute; reflexivity. Qed.

Example scenario2_MSTree :
  let r := compute_tree scenario1_json request_text "MSTree" "symmetric" 0
             "eBurst" in
  newick_of r = Some "(B:1.000000,C:1.000000)A;"%string
  /\ shape_of r = [(0, 1); (0, 2)].
Proof. split; vm_compute; reflexivity. Qed.

Example scenario3_identical_profiles :
  newick_of (compute_tree scenario3_json request_text "MSTreeV2" "asymmetric" 0
               "harmonic")
  = Some "(b:0.000000,c:0.000000,d:0.000000,e:0.000000)a;"%string.
Proof. vm_compute. reflexivity. Qed.

Example scenario5_asymmetry :
  let r := compute_tree scenario5_json request_text "MSTreeV2" "asymmetric" 0
             "harmonic" in
  newick_of r = Some "(S1:1.500000)S0;"%string /\ shape_of r = [(0, 1)].
Proof. split; vm_compute; reflexivity. Qed.

Example scenario6_sanitized_names :
  newick_of (compute_tree scenario6_json request_text "MSTree" "symmetric" 0
               "harmonic")
  = Some "('S:2':0.000000)'S 1';"%string.
Proof. vm_compute. reflexivity. Qed.

Example single_strain :
  compute_tree single_strain_json request_text "MSTreeV2" "asymmetric" 0
    "harmonic" = Some (Success "only;" [] 1 0).
Proof. vm_compute. reflexivity. Qed.

(** * Further properties of the code *)

(** ** The distance engine: shape and range of the matrices *)

Lemma symmetric_fill_spec n F :
  0 <= n ->
  square n (symmetric_fill n F)
  /\ forall i j, 0 <= i < n -> 0 <= j < n ->
       get2 (symmetric_fill n F) i j
       = if i <? j then F i j else if j <? i then F j i else 0%Q.
Proof.
  intros Hn. unfold symmetric_fill.
  pose (P := fun (i0 : Z) (m : matrix) =>
    square n m /\
    forall a b, 0 <= a < n -> 0 <= b < n ->
      get2 m a b = if (a <? b) && (a <? i0) then F a b
                   else if (b <? a) && (b <? i0) then F b a else 0%Q).
  assert (P n (for_loop 0 n
            (fun i m => for_loop (i + 1) n
               (fun j m => set2 (set2 m i j (F i j)) j i (F i j)) m)
            (new_matrix n n 0%Q))) as [Hsq HP].
  { apply for_loop_inv; [lia| |].
    - split; [apply square_new; lia|].
      intros a b Ha Hb. rewrite get2_new by lia. zbool.
    - intros i0 m Hi0 [Hsq Hm].
      pose (Q := fun (j0 : Z) (m : matrix) =>
        square n m /\
        forall a b, 0 <= a < n -> 0 <= b < n ->
          get2 m a b
          = if (a <? b) && ((a <? i0) || ((a =? i0) && (b <? j0))) then F a b
            else if (b <? a) && ((b <? i0) || ((b =? i0) && (a <? j0)))
                 then F b a else 0%Q).
      assert (Q n (for_loop (i0 + 1) n
                (fun j m => set2 (set2 m i0 j (F i0 j)) j i0 (F i0 j)) m))
        as [Hsq' HQ].
      { apply for_loop_inv; [lia| |].
        - split; [assumption|]. intros a b Ha Hb. rewrite Hm by assumption. zbool.
        - intros j0 m0 Hj0 [Hsq0 Hm0]. split.
          + apply square_set2; [apply square_set2|..]; auto; lia.
          + intros a b Ha Hb.
            rewrite (get2_set2 n) by (try apply square_set2; auto; lia).
            rewrite (get2_set2 n) by (auto; lia).
            rewrite Hm0 by assumption.
            zbool; subst; try reflexivity; lia. }
      split; [assumption|]. intros a b Ha Hb. rewrite HQ by assumption. zbool. }
  split; [assumption|].
  intros i j Hi Hj. rewrite HP by assumption. zbool.
Qed.

Lemma compute_symmetric_fill pd h :
  compute_symmetric pd h
  = symmetric_fill (n_strains pd)
      (fun i j => compute_pairwise_distance pd (idx [] (profiles pd) i)
                    (idx [] (profiles pd) j) h).
Proof. reflexivity. Qed.

Lemma compute_p_distance_fill sequences :
  compute_p_distance sequences
  = symmetric_fill (size sequences)
      (fun i j => p_distance (idx EmptyString sequences i)
                             (idx EmptyString sequences j)).
Proof. reflexivity. Qed.

Lemma pairwise_step_bounds h a b d v :
  d <= fst (pairwise_step h a b (d, v)) <= d + 1.
Proof.
  unfold pairwise_step.
  destruct ((a <=? 0) || (b <=? 0)).
  - destruct h; cbn [fst]; try lia.
    destruct (_ || _); lia.
  - cbn [fst]. destruct (negb (a =? b)); lia.
Qed.

Lemma pairwise_fold_bounds h p1 p2 l st :
  fst st
  <= fst (fold_left (fun st k => pairwise_step h (idx 0 p1 k) (idx 0 p2 k) st) l st)
  <= fst st + Z.of_nat (List.length l).
Proof.
  revert st. induction l as [|k l IH]; intros [d v]; cbn [fold_left List.length].
  - lia.
  - specialize (IH (pairwise_step h (idx 0 p1 k) (idx 0 p2 k) (d, v))).
    pose proof (pairwise_step_bounds h (idx 0 p1 k) (idx 0 p2 k) d v).
    cbn [fst] in *. lia.
Qed.

(** Whatever the handler, the pairwise distance is a whole number of loci. *)
Lemma compute_pairwise_distance_range pd p1 p2 h :
  0 <= n_genes pd ->
  exists d, compute_pairwise_distance pd p1 p2 h = inject_Z d
            /\ 0 <= d <= n_genes pd.
Proof.
  intros HG. unfold compute_pairwise_distance, for_loop.
  pose proof (pairwise_fold_bounds h p1 p2 (zrange 0 (n_genes pd)) (0, 0)) as H.
  rewrite zrange_length in H. cbn [fst] in H.
  destruct (fold_left _ _ _) as [d v]. cbn [fst] in H.
  exists d. split; [reflexivity|lia].
Qed.

Lemma compute_symmetric_shape_aux pd h :
  0 <= n_strains pd -> 0 <= n_genes pd ->
  square (n_strains pd) (compute_symmetric pd h)
  /\ forall i j, 0 <= i < n_strains pd -> 0 <= j < n_strains pd ->
       exists d, get2 (compute_symmetric pd h) i j = inject_Z d
                 /\ 0 <= d <= n_genes pd.
Proof.
  intros Hn HG. rewrite compute_symmetric_fill.
  destruct (symmetric_fill_spec (n_strains pd)
              (fun i j => compute_pairwise_distance pd (idx [] (profiles pd) i)
                            (idx [] (profiles pd) j) h) Hn) as [Hsq Hent].
  split; [assumption|]. intros i j Hi Hj. rewrite Hent by assumption.
  destruct (i <? j); [now apply compute_pairwise_distance_range|].
  destruct (j <? i); [now apply compute_pairwise_distance_range|].
  exists 0. split; [reflexivity|lia].
Qed.

(** X1. For every handler, the symmetric matrix of a table of [N] strains
    and [G] loci has [N] rows of [N] entries, and every entry is a whole
    number between 0 and [G]. *)
Theorem compute_symmetric_shape :
  forall pd h,
    0 <= n_strains pd -> 0 <= n_genes pd ->
    square (n_strains pd) (compute_symmetric pd h)
    /\ forall i j, 0 <= i < n_strains pd -> 0 <= j < n_strains pd ->
         exists d, get2 (compute_symmetric pd h) i j = inject_Z d
                   /\ 0 <= d <= n_genes pd.
Proof. exact compute_symmetric_shape_aux. Qed.

Lemma compute_symmetric_shape_witness :
  square 3 (compute_symmetric scenario4 ABSOLUTE_DIFF)
  /\ exists d, get2 (compute_symmetric scenario4 ABSOLUTE_DIFF) 0 2
               = inject_Z d /\ 0 <= d <= 3.
Proof.
  destruct (compute_symmetric_shape scenario4 ABSOLUTE_DIFF)
    as [Hsq Hent]; [simpl; lia|simpl; lia|].
  split; [exact Hsq|]. apply Hent; simpl; lia.
Defined.

Lemma disjoint_filters_length {A} (P Q : A -> bool) (l : list A) :
  (forall x, P x = true -> Q x = false) ->
  (List.length (filter P l) + List.length (filter Q l) <= List.length l)%nat.
Proof.
  intros Hd. induction l as [|a l IH]; simpl; [lia|].
  destruct (P a) eqn:EP.
  - rewrite (Hd a EP). simpl. lia.
  - destruct (Q a); simpl; lia.
Qed.

Lemma locus_differs_not_missing p1 p2 k :
  locus_differs p1 p2 k = true -> locus_missing p1 k = false.
Proof.
  unfold locus_differs, locus_missing. intros H.
  apply andb_true_iff in H. destruct H as [H _].
  apply andb_true_iff in H. destruct H as [H _].
  apply Z.ltb_lt in H. apply Z.leb_gt. assumption.
Qed.

Lemma directional_counts_bounds G p1 p2 :
  0 <= G ->
  0 <= count_loci G (locus_differs p1 p2)
  /\ 0 <= missing_loci G p1
  /\ count_loci G (locus_differs p1 p2) + missing_loci G p1 <= G.
Proof.
  intros HG. unfold missing_loci, count_loci.
  pose proof (disjoint_filters_length (locus_differs p1 p2) (locus_missing p1)
                (zrange 0 G) (locus_differs_not_missing p1 p2)) as H.
  rewrite zrange_length in H. lia.
Qed.

Lemma compute_asymmetric_shape_aux pd :
  0 <= n_strains pd -> 0 <= n_genes pd ->
  square (n_strains pd) (compute_asymmetric pd)
  /\ forall i j, 0 <= i < n_strains pd -> 0 <= j < n_strains pd ->
       exists d m,
         (get2 (compute_asymmetric pd) i j
          == inject_Z d + (1 # 2) * inject_Z m)%Q
         /\ 0 <= d /\ 0 <= m /\ d + m <= n_genes pd.
Proof.
  intros Hn HG. destruct (compute_asymmetric_spec pd Hn) as [Hsq Hent].
  split; [assumption|]. intros i j Hi Hj. rewrite Hent by assumption.
  destruct (i =? j).
  - exists 0, 0. split; [reflexivity|lia].
  - rewrite compute_directional_distance_counts. unfold directional_formula.
    exists (count_loci (n_genes pd)
              (locus_differs (idx [] (profiles pd) i) (idx [] (profiles pd) j))),
           (missing_loci (n_genes pd) (idx [] (profiles pd) i)).
    split; [reflexivity|]. now apply directional_counts_bounds.
Qed.

Lemma half_integer_range d m G :
  0 <= d -> 0 <= m -> d + m <= G ->
  (0 <= inject_Z d + (1 # 2) * inject_Z m)%Q
  /\ (inject_Z d + (1 # 2) * inject_Z m <= inject_Z G)%Q.
Proof.
  intros Hd Hm HG. rewrite half_integer_value.
  unfold Qle, inject_Z. cbn [Qnum Qden]. lia.
Qed.

(** X2. The asymmetric matrix of a table of [N] strains and [G] loci has
    [N] rows of [N] entries; every entry is [d + m/2] for whole numbers
    [d], [m] of loci with [d + m <= G], hence lies between 0 and [G]. *)
Theorem compute_asymmetric_shape :
  forall pd,
    0 <= n_strains pd -> 0 <= n_genes pd ->
    square (n_strains pd) (compute_asymmetric pd)
    /\ forall i j, 0 <= i < n_strains pd -> 0 <= j < n_strains pd ->
         (exists d m,
             (get2 (compute_asymmetric pd) i j
              == inject_Z d + (1 # 2) * inject_Z m)%Q
             /\ 0 <= d /\ 0 <= m /\ d + m <= n_genes pd)
         /\ (0 <= get2 (compute_asymmetric pd) i j)%Q
         /\ (get2 (compute_asymmetric pd) i j <= inject_Z (n_genes pd))%Q.
Proof.
  intros pd Hn HG. destruct (compute_asymmetric_shape_aux pd Hn HG) as [Hsq Hent].
  split; [assumption|]. intros i j Hi Hj.
  destruct (Hent i j Hi Hj) as (d & m & E & Hd & Hm & Hdm).
  split; [exists d, m; auto|].
  rewrite E. now apply half_integer_range.
Qed.

Lemma compute_asymmetric_shape_witness :
  square 2 (compute_asymmetric scenario5)
  /\ (0 <= get2 (compute_asymmetric scenario5) 0 1)%Q
  /\ (get2 (compute_asymmetric scenario5) 0 1 <= inject_Z 3)%Q.
Proof.
  destruct (compute_asymmetric_shape scenario5) as [Hsq Hent];
    [simpl; lia|simpl; lia|].
  split; [exact Hsq|].
  destruct (Hent 0 1) as (_ & H0 & H1); [simpl; lia|simpl; lia|].
  split; assumption.
Defined.

(** *** The asymmetric distance against the symmetric one *)

Lemma policy_ignore_counts p1 p2 l :
  zsum (map (fun k => policy_contribution IGNORE (idx 0 p1 k) (idx 0 p2 k)) l)
  = Z.of_nat (List.length (filter (locus_differs p1 p2) l)).
Proof.
  unfold zsum. induction l as [|k l IH]; cbn [map fold_right filter].
  - reflexivity.
  - rewrite IH. unfold policy_contribution, missing, locus_differs.
    destruct (Z.leb_spec (idx 0 p1 k) 0), (Z.leb_spec (idx 0 p2 k) 0),
             (Z.ltb_spec 0 (idx 0 p1 k)), (Z.ltb_spec 0 (idx 0 p2 k));
      try lia; cbn [andb]; try reflexivity.
    destruct (idx 0 p1 k =? idx 0 p2 k); cbn [negb List.length]; lia.
Qed.

Lemma policy_differences_ignore p1 p2 G :
  policy_differences IGNORE p1 p2 G = count_loci G (locus_differs p1 p2).
Proof. unfold policy_differences, count_loci. apply policy_ignore_counts. Qed.

(** X3. For all strains [i <> j] the asymmetric entry is the symmetric
    entry under IGNORE plus one half for every locus missing in profile
    [i]; so the two matrices agree on row [i] when profile [i] has no
    missing locus. *)
Theorem asymmetric_is_ignore_plus_missing :
  forall pd i j,
    0 <= i < n_strains pd -> 0 <= j < n_strains pd -> i <> j ->
    get2 (compute_asymmetric pd) i j
    = (get2 (compute_symmetric pd IGNORE) i j
       + (1 # 2) * inject_Z (missing_loci (n_genes pd) (idx [] (profiles pd) i)))%Q
    /\ (missing_loci (n_genes pd) (idx [] (profiles pd) i) = 0 ->
        (get2 (compute_asymmetric pd) i j
         == get2 (compute_symmetric pd IGNORE) i j)%Q).
Proof.
  intros pd i j Hi Hj Hne.
  assert (In IGNORE named_handlers) as Hh by (simpl; tauto).
  assert (get2 (compute_symmetric pd IGNORE) i j
          = inject_Z (count_loci (n_genes pd)
              (locus_differs (idx [] (profiles pd) i) (idx [] (profiles pd) j))))
    as Hsym.
  { rewrite compute_symmetric_entries by assumption.
    rewrite !compute_pairwise_distance_policy by assumption.
    rewrite <- policy_differences_ignore.
    destruct (Z.ltb_spec i j); [reflexivity|].
    destruct (Z.ltb_spec j i); [|lia].
    now rewrite policy_differences_sym. }
  assert (get2 (compute_asymmetric pd) i j
          = (get2 (compute_symmetric pd IGNORE) i j
             + (1 # 2) * inject_Z (missing_loci (n_genes pd)
                                     (idx [] (profiles pd) i)))%Q) as E.
  { rewrite Hsym, compute_asymmetric_entries by assumption.
    destruct (Z.eqb_spec i j); [contradiction|].
    apply compute_directional_distance_counts. }
  split; [exact E|]. intros H0. rewrite E, H0. ring.
Qed.

Lemma asymmetric_is_ignore_plus_missing_witness :
  get2 (compute_asymmetric scenario4) 0 1
  = (get2 (compute_symmetric scenario4 IGNORE) 0 1
     + (1 # 2) * inject_Z (missing_loci 3 [1; 2; 0]%Z))%Q.
Proof.
  apply (asymmetric_is_ignore_plus_missing scenario4 0 1); simpl; lia.
Defined.

(** ** The p-distance *)

Lemma p_step_sym c1 c2 st : p_step c1 c2 st = p_step c2 c1 st.
Proof.
  unfold p_step. destruct st as [d v].
  rewrite (Ascii.eqb_sym (toupper c2) (toupper c1)).
  destruct (Ascii.eqb (toupper c1) "-"), (Ascii.eqb (toupper c1) "N"),
           (Ascii.eqb (toupper c2) "-"), (Ascii.eqb (toupper c2) "N");
    reflexivity.
Qed.

Lemma p_distance_sym seq1 seq2 : p_distance seq1 seq2 = p_distance seq2 seq1.
Proof.
  unfold p_distance. rewrite (Nat.eqb_sym (String.length seq2)).
  destruct (Nat.eqb_spec (String.length seq1) (String.length seq2)) as [E|E];
    cbn [negb]; [|reflexivity].
  rewrite <- E.
  assert (forall l st,
    fold_left (fun st i => p_step (char_at seq1 i) (char_at seq2 i) st) l st
    = fold_left (fun st i => p_step (char_at seq2 i) (char_at seq1 i) st) l st)
    as ->; [|reflexivity].
  induction l as [|a l IH]; intros st; cbn [fold_left]; [reflexivity|].
  now rewrite IH, p_step_sym.
Qed.

Lemma filter_length_and {A} (P Q : A -> bool) (l : list A) :
  (List.length (filter (fun x => P x && Q x) l) <= List.length (filter P l))%nat.
Proof.
  induction l as [|a l IH]; simpl; [lia|].
  destruct (P a), (Q a); simpl; lia.
Qed.

Lemma filter_none {A} (P : A -> bool) (l : list A) :
  (forall x, P x = false) -> filter P l = [].
Proof.
  intros H. induction l as [|a l IH]; simpl; [reflexivity|].
  now rewrite H.
Qed.

Lemma position_differs_refl seq i : position_differs seq seq i = false.
Proof. unfold position_differs. now rewrite Ascii.eqb_refl. Qed.

Lemma p_distance_value seq1 seq2 :
  String.length seq1 = String.length seq2 ->
  p_distance seq1 seq2
  = if count_positions (String.length seq1) (position_valid seq1 seq2) =? 0
    then 0%Q
    else fdiv (inject_Z (count_positions (String.length seq1)
                           (fun i => position_valid seq1 seq2 i
                                     && position_differs seq1 seq2 i)))
              (inject_Z (count_positions (String.length seq1)
                           (position_valid seq1 seq2))).
Proof.
  intros Hlen. unfold p_distance, count_positions.
  rewrite (proj2 (Nat.eqb_eq _ _) Hlen). cbn [negb].
  rewrite p_step_fold. rewrite !Z.add_0_l. reflexivity.
Qed.

Lemma ratio_range d v :
  0 <= d <= v -> 0 < v ->
  (0 <= fdiv (inject_Z d) (inject_Z v))%Q
  /\ (fdiv (inject_Z d) (inject_Z v) <= 1)%Q.
Proof.
  intros Hd Hv.
  assert (0 < inject_Z v)%Q as Hv' by (unfold Qlt; simpl; lia).
  assert (0 <= inject_Z d / inject_Z v)%Q as H0.
  { apply Qle_shift_div_l; [assumption|]. rewrite Qmult_0_l.
    unfold Qle; simpl; lia. }
  assert (inject_Z d / inject_Z v <= 1)%Q as H1.
  { apply Qle_shift_div_r; [assumption|]. rewrite Qmult_1_l.
    unfold Qle; simpl; lia. }
  unfold fdiv. split; [now apply fl_nonneg|].
  change 1%Q with (fl 1). now apply fl_mono.
Qed.

(** X4. The p-distance does not depend on the order of its two
    sequences; a sequence is at distance 0 from itself; and for two
    sequences of equal length the distance lies between 0 and 1. *)
Theorem p_distance_metric_facts :
  (forall seq1 seq2, p_distance seq1 seq2 = p_distance seq2 seq1)
  /\ (forall seq, (p_distance seq seq == 0)%Q)
  /\ (forall seq1 seq2,
        String.length seq1 = String.length seq2 ->
        (0 <= p_distance seq1 seq2)%Q /\ (p_distance seq1 seq2 <= 1)%Q).
Proof.
  split; [exact p_distance_sym|]. split.
  - intros seq. rewrite p_distance_value by reflexivity.
    destruct (_ =? 0); [reflexivity|].
    unfold count_positions at 1.
    rewrite filter_none.
    + unfold fdiv. rewrite fl_zero; [reflexivity|].
      cbn [List.length Z.of_nat]. unfold Qdiv. now rewrite Qmult_0_l.
    + intros i. rewrite position_differs_refl. apply andb_false_r.
  - intros seq1 seq2 Hlen. rewrite p_distance_value by assumption.
    destruct (Z.eqb_spec (count_positions (String.length seq1)
                            (position_valid seq1 seq2)) 0) as [E|E].
    + split; [apply Qle_refl|]. unfold Qle; simpl; lia.
    + apply ratio_range.
      * unfold count_positions.
        pose proof (filter_length_and (position_valid seq1 seq2)
                      (position_differs seq1 seq2)
                      (seq 0 (String.length seq1))). lia.
      * unfold count_positions in *. lia.
Qed.

Lemma p_distance_metric_facts_witness :
  (0 <= p_distance "ACGT-N" "AGGANT")%Q /\ (p_distance "ACGT-N" "AGGANT" <= 1)%Q.
Proof.
  apply (proj2 (proj2 p_distance_metric_facts) "ACGT-N"%string "AGGANT"%string).
  reflexivity.
Defined.

(** X5. The matrix of [compute_p_distance] over [n] sequences has [n]
    rows of [n] entries, a zero diagonal, the p-distance of sequences [i]
    and [j] at [(i, j)] for [i <> j], and is symmetric. *)
Theorem compute_p_distance_entries :
  forall sequences,
    square (size sequences) (compute_p_distance sequences)
    /\ forall i j, 0 <= i < size sequences -> 0 <= j < size sequences ->
         get2 (compute_p_distance sequences) i j
         = (if i =? j then 0%Q
            else p_distance (idx EmptyString sequences i)
                            (idx EmptyString sequences j))
         /\ get2 (compute_p_distance sequences) i j
            = get2 (compute_p_distance sequences) j i.
Proof.
  intros sequences. rewrite compute_p_distance_fill.
  destruct (symmetric_fill_spec (size sequences)
              (fun i j => p_distance (idx EmptyString sequences i)
                                     (idx EmptyString sequences j))
              (size_nonneg sequences)) as [Hsq Hent].
  split; [assumption|]. intros i j Hi Hj.
  rewrite !Hent by assumption. split.
  - destruct (Z.eqb_spec i j), (Z.ltb_spec i j), (Z.ltb_spec j i);
      try lia; try reflexivity. apply p_distance_sym.
  - destruct (Z.ltb_spec i j), (Z.ltb_spec j i); try lia; reflexivity.
Qed.

Lemma compute_p_distance_entries_witness :
  get2 (compute_p_distance three_sequences) 2 1 = p_distance "AC-T" "ACGA".
Proof.
  destruct (compute_p_distance_entries three_sequences) as [_ H].
  change (size three_sequences) with 3 in H.
  destruct (H 2 1) as [E _]; [lia|lia|]. exact E.
Defined.

(** ** The harmonic-mean score *)

Lemma harmonic_loop_invariant (D : matrix) (node n : Z) :
  0 <= n ->
  let st :=
    for_loop 0 n
      (fun i (st : Q * Z) =>
         let '(sum, count) := st in
         if i =? node then st
         else
           let dist := get2 D node i in
           if Qltb 0 dist then (fadd sum (fdiv 1%Q dist), count + 1) else st)
      (0%Q, 0) in
  (0 <= fst st)%Q /\ 0 <= snd st.
Proof.
  intros Hn.
  apply (for_loop_inv (fun (_ : Z) (st : Q * Z) => (0 <= fst st)%Q /\ 0 <= snd st));
    [assumption|split; [apply Qle_refl|reflexivity]|].
  intros k [s c] Hk [Hs Hc]. cbn [fst snd] in *.
  destruct (k =? node); [split; assumption|].
  destruct (Qltb 0 (get2 D node k)) eqn:E; [|split; assumption].
  apply Qltb_lt in E. cbn [fst snd]. split; [|lia].
  unfold fadd, fdiv. apply fl_nonneg.
  rewrite <- (Qplus_0_r 0). apply Qplus_le_compat; [assumption|].
  apply fl_nonneg.
  unfold Qdiv. rewrite Qmult_1_l. apply Qinv_le_0_compat.
  now apply Qlt_le_weak.
Qed.

Lemma harmonic_scores_agree (D : matrix) (node : Z) :
  MSTree.compute_harmonic_mean_score D node = MSTreeV2.harmonic_mean_score D node.
Proof.
  unfold MSTree.compute_harmonic_mean_score, MSTreeV2.harmonic_mean_score,
    MSTree.n_nodes_, MSTreeV2.n_nodes_.
  pose proof (harmonic_loop_invariant D node (size D) (size_nonneg D)) as H.
  cbv zeta in H. destruct (for_loop _ _ _ _) as [s c]. cbn [fst snd] in H.
  destruct H as [_ Hc].
  destruct (Z.eqb_spec c 0) as [->|Hne]; [reflexivity|].
  replace (0 <? c) with true by (symmetry; apply Z.ltb_lt; lia). reflexivity.
Qed.

Lemma harmonic_score_nonneg (D : matrix) (node : Z) :
  (0 <= MSTreeV2.harmonic_mean_score D node)%Q.
Proof.
  unfold MSTreeV2.harmonic_mean_score, MSTreeV2.n_nodes_.
  pose proof (harmonic_loop_invariant D node (size D) (size_nonneg D)) as H.
  cbv zeta in H. destruct (for_loop _ _ _ _) as [s c]. cbn [fst snd] in H.
  destruct H as [Hs Hc].
  destruct (0 <? c); [|apply Qle_refl].
  unfold fdiv. apply fl_nonneg.
  unfold Qdiv. apply Qmult_le_0_compat.
  - unfold Qle; simpl; lia.
  - now apply Qinv_le_0_compat.
Qed.

(** X6. The harmonic-mean score of the classical builder and the one of
    MSTreeV2 are the same function of the matrix and the node, and the
    score is never negative. *)
Theorem harmonic_mean_score_shared :
  forall (D : matrix) (node : Z),
    MSTree.compute_harmonic_mean_score D node
    = MSTreeV2.harmonic_mean_score D node
    /\ (0 <= MSTreeV2.harmonic_mean_score D node)%Q.
Proof.
  intros D node. split; [apply harmonic_scores_agree|apply harmonic_score_nonneg].
Qed.

(** ** Prim's loop: the distances it records *)

Lemma find_min_dist_le (D : matrix) in_tree md i :
  0 <= i < size D -> idx false in_tree i = false ->
  (MSTree.find_min_dist D in_tree md <= idx 0%Q md i)%Q.
Proof.
  intros Hi Hout. unfold MSTree.find_min_dist, MSTree.n_nodes_.
  assert (forall j, 0 <= j < size D -> idx false in_tree j = false ->
            (for_loop 0 (size D)
               (fun i min_dist =>
                  if negb (idx false in_tree i) && Qltb (idx 0%Q md i) min_dist
                  then idx 0%Q md i else min_dist) DBL_MAX
             <= idx 0%Q md j)%Q) as H; [|now apply H].
  apply (for_loop_inv (fun k m =>
    forall j, 0 <= j < k -> idx false in_tree j = false ->
              (m <= idx 0%Q md j)%Q)); [apply size_nonneg|intros; lia|].
  intros k m Hk H1 j Hj Hjo.
  destruct (idx false in_tree k) eqn:Ek; cbn [negb andb].
  - destruct (Z.eq_dec j k) as [->|]; [congruence|]. apply H1; auto; lia.
  - destruct (Qltb (idx 0%Q md k) m) eqn:Elt.
    + apply Qltb_lt in Elt.
      destruct (Z.eq_dec j k) as [->|]; [apply Qle_refl|].
      apply Qlt_le_weak. eapply Qlt_le_trans; [exact Elt|]. apply H1; auto; lia.
    + apply Qltb_ge in Elt.
      destruct (Z.eq_dec j k) as [->|]; [assumption|]. apply H1; auto; lia.
Qed.

Lemma relax_exact (D : matrix) min_node in_tree md par :
  size md = size D -> size par = size D ->
  let mp := MSTree.relax D min_node in_tree md par in
  forall i, 0 <= i < size D ->
    (idx 0%Q (fst mp) i = idx 0%Q md i
     /\ idx (-1) (snd mp) i = idx (-1) par i
     /\ (idx false in_tree i = false ->
         (idx 0%Q md i <= get2 D min_node i)%Q))
    \/ (idx 0%Q (fst mp) i = get2 D min_node i
        /\ idx (-1) (snd mp) i = min_node
        /\ (get2 D min_node i < idx 0%Q md i)%Q).
Proof.
  intros Hmd Hpar. unfold MSTree.relax, MSTree.n_nodes_.
  assert (let mp := for_loop 0 (size D)
      (fun i mp =>
         let '(min_distance, parent) := mp in
         if negb (idx false in_tree i) then
           let new_dist := get2 D min_node i in
           if Qltb new_dist (idx 0%Q min_distance i)
           then (upd min_distance i new_dist, upd parent i min_node)
           else mp
         else mp) (md, par) in
    size (fst mp) = size D /\ size (snd mp) = size D
    /\ forall i, 0 <= i < size D ->
       (size D <= i ->
        idx 0%Q (fst mp) i = idx 0%Q md i /\ idx (-1) (snd mp) i = idx (-1) par i)
       /\ (i < size D ->
           (idx 0%Q (fst mp) i = idx 0%Q md i
            /\ idx (-1) (snd mp) i = idx (-1) par i
            /\ (idx false in_tree i = false ->
                (idx 0%Q md i <= get2 D min_node i)%Q))
           \/ (idx 0%Q (fst mp) i = get2 D min_node i
               /\ idx (-1) (snd mp) i = min_node
               /\ (get2 D min_node i < idx 0%Q md i)%Q))) as H.
  { apply (for_loop_inv (fun (k : Z) (mp : list double * list Z) =>
      size (fst mp) = size D /\ size (snd mp) = size D
      /\ forall i, 0 <= i < size D ->
         (k <= i ->
          idx 0%Q (fst mp) i = idx 0%Q md i /\ idx (-1) (snd mp) i = idx (-1) par i)
         /\ (i < k ->
             (idx 0%Q (fst mp) i = idx 0%Q md i
              /\ idx (-1) (snd mp) i = idx (-1) par i
              /\ (idx false in_tree i = false ->
                  (idx 0%Q md i <= get2 D min_node i)%Q))
             \/ (idx 0%Q (fst mp) i = get2 D min_node i
                 /\ idx (-1) (snd mp) i = min_node
                 /\ (get2 D min_node i < idx 0%Q md i)%Q))));
      [apply size_nonneg| |].
    - cbn [fst snd]. repeat split; auto. intros; lia.
    - intros k [md' par'] Hk (H1 & H2 & H3). cbn [fst snd] in *.
      destruct (idx false in_tree k) eqn:Ek; cbn [negb].
      + split; [assumption|]. split; [assumption|].
        intros i Hi. destruct (H3 i Hi) as [Hge Hlt]. split.
        * intros Hki. apply Hge. lia.
        * intros Hik. destruct (Z.eq_dec i k) as [->|Hne].
          -- left. destruct (Hge ltac:(lia)) as [E1 E2].
             repeat split; auto. congruence.
          -- apply Hlt. lia.
      + destruct (H3 k Hk) as [Hgek _].
        destruct (Hgek ltac:(lia)) as [Ek1 Ek2].
        destruct (Qltb (get2 D min_node k) (idx 0%Q md' k)) eqn:Elt.
        * apply Qltb_lt in Elt. cbn [fst snd]. rewrite !size_upd.
          split; [assumption|]. split; [assumption|].
          intros i Hi. destruct (H3 i Hi) as [Hge Hlt].
          destruct (Z.eq_dec i k) as [->|Hne].
          -- rewrite (idx_upd_eq md'), (idx_upd_eq par') by lia.
             split; [intros; lia|].
             intros _. right. repeat split; auto. now rewrite <- Ek1.
          -- rewrite (idx_upd_neq md'), (idx_upd_neq par') by lia. split.
             ++ intros Hki. apply Hge. lia.
             ++ intros Hik. apply Hlt. lia.
        * apply Qltb_ge in Elt.
          split; [assumption|]. split; [assumption|].
          intros i Hi. destruct (H3 i Hi) as [Hge Hlt]. split.
          -- intros Hki. apply Hge. lia.
          -- intros Hik. destruct (Z.eq_dec i k) as [->|Hne].
             ++ left. repeat split; auto. intros _. now rewrite <- Ek1.
             ++ apply Hlt. lia. }
  cbv zeta in H. destruct H as (_ & _ & H).
  cbv zeta. intros i Hi. apply H; lia.
Qed.

Lemma snoc_cases {A} (l : list A) : l = [] \/ exists l' x, l = l' ++ [x].
Proof.
  induction l as [|x l _] using rev_ind; [now left|]. right. now exists l, x.
Qed.

Lemma snoc_split {A} (es pre post : list A) (e e0 : A) :
  es ++ [e] = pre ++ e0 :: post ->
  (post = [] /\ pre = es /\ e0 = e)
  \/ exists post', post = post' ++ [e] /\ es = pre ++ e0 :: post'.
Proof.
  intros H. destruct (snoc_cases post) as [->|(post' & x & ->)].
  - left. apply app_inj_tail in H. destruct H as [-> ->]. auto.
  - right. exists post'.
    change (pre ++ e0 :: post' ++ [x]) with (pre ++ (e0 :: post') ++ [x]) in H.
    rewrite app_assoc in H. apply app_inj_tail in H. destruct H as [-> ->]. auto.
Qed.

Section PrimExact.

Variable D : matrix.
Variable h : MSTree.Heuristic.
Hypothesis Hn : 2 <= size D.
Hypothesis Hfinite : finite_matrix D.

Lemma select_ties md in_tree :
  (exists i0, 0 <= i0 < size D /\ idx false in_tree i0 = false) ->
  (forall i, 0 <= i < size D -> idx false in_tree i = false ->
             (idx 0%Q md i <= DBL_MAX)%Q) ->
  let min_dist := MSTree.find_min_dist D in_tree md in
  let min_node := MSTree.select_node_with_tiebreak D h md in_tree min_dist in
  0 <= min_node < size D /\ idx false in_tree min_node = false
  /\ (Qabs (idx 0%Q md min_node - min_dist) < EPS)%Q.
Proof.
  intros Hex Hfin min_dist min_node.
  destruct (find_min_dist_tie D Hn in_tree md Hex Hfin) as (i & Hi & Hout & Htie).
  assert (In min_node (MSTree.collect_candidates D md in_tree min_dist)) as Hin.
  { apply select_in_candidates. rewrite collect_candidates_filter.
    intros Hnil.
    assert (In i (filter (fun i => negb (idx false in_tree i)
               && Qltb (Qabs (fsub (idx 0%Q md i) min_dist)) EPS_double)
               (zrange 0 (size D)))) as Hi'.
    { apply filter_In. split; [apply In_zrange; lia|].
      subst min_dist. now rewrite Hout, Htie. }
    rewrite Hnil in Hi'. contradiction. }
  rewrite collect_candidates_filter in Hin. apply filter_In in Hin.
  destruct Hin as [Hr Hc]. apply In_zrange in Hr.
  apply andb_true_iff in Hc. destruct Hc as [Hc1 Hc2].
  apply negb_true_iff in Hc1.
  apply tie_test_true in Hc2. apply tie_test_exact in Hc2.
  split; [lia|]. split; assumption.
Qed.

Lemma prim_init_exact : prim_exact D (MSTree.prim_init D).
Proof.
  unfold MSTree.prim_init, MSTree.n_nodes_.
  destruct (init_distances_spec D Hn
              (upd (repeat DBL_MAX (Z.to_nat (size D))) 0 0%Q)
              (repeat (-1) (Z.to_nat (size D)))) as (H1 & H2 & H3).
  { rewrite size_upd, size_repeat. lia. }
  { rewrite size_repeat. lia. }
  cbv zeta. unfold prim_exact.
  cbn [MSTree.in_tree MSTree.min_distance MSTree.parent MSTree.tree_edges map].
  split; [|split].
  - intros i Hi Hout.
    assert (i <> 0) as Hi0.
    { intros ->. rewrite idx_upd_eq in Hout; [discriminate|].
      rewrite size_repeat. lia. }
    destruct (H3 i Hi Hi0) as [Ep Em]. rewrite Ep, Em.
    split; [reflexivity|]. intros p [<-|[]]. apply Qle_refl.
  - intros e [].
  - intros pre e post Hsplit. destruct pre; discriminate.
Qed.

Lemma prim_step_exact st :
  prim_invariant D st -> prim_exact D st ->
  (exists i0, 0 <= i0 < size D /\ idx false (MSTree.in_tree st) i0 = false) ->
  prim_exact D (MSTree.prim_step D h st).
Proof.
  intros (Hs1 & Hs2 & Hs3 & Hg & Hrange & Htree & Hout) (Hmd & Hedges & Hcut) Hex.
  unfold MSTree.prim_step.
  set (min_dist := MSTree.find_min_dist D (MSTree.in_tree st)
                     (MSTree.min_distance st)).
  set (min_node := MSTree.select_node_with_tiebreak D h
                     (MSTree.min_distance st) (MSTree.in_tree st) min_dist).
  assert (0 <= min_node < size D
          /\ idx false (MSTree.in_tree st) min_node = false
          /\ (Qabs (idx 0%Q (MSTree.min_distance st) min_node - min_dist)
              < EPS)%Q) as (Hmn & Hmo & Htie).
  { apply select_ties; auto. intros i Hi Ho. now apply Hout. }
  cbv zeta.
  pose proof (relax_exact D min_node (upd (MSTree.in_tree st) min_node true)
                (MSTree.min_distance st) (MSTree.parent st) Hs2 Hs3) as Hrelax.
  cbv zeta in Hrelax.
  set (e := mkEdge (idx (-1) (MSTree.parent st) min_node) min_node min_dist).
  assert (forall p, In p (0 :: map to (MSTree.tree_edges st ++ [e])) ->
            In p (0 :: map to (MSTree.tree_edges st)) \/ p = min_node) as Hvert.
  { intros p [<-|Hp]; [left; now left|]. rewrite map_app in Hp.
    apply in_app_or in Hp. destruct Hp as [Hp|[<-|[]]]; [left; now right|now right]. }
  destruct (Hmd min_node Hmn Hmo) as [Emn Hmnle].
  unfold prim_exact.
  cbn [MSTree.in_tree MSTree.min_distance MSTree.parent MSTree.tree_edges].
  split; [|split].
  - intros i Hi Hio.
    assert (i <> min_node) as Hne.
    { intros Heq. rewrite Heq in Hio.
      rewrite idx_upd_eq in Hio by lia. discriminate. }
    pose proof Hio as Hio'. rewrite idx_upd_neq in Hio' by lia.
    destruct (Hmd i Hi Hio') as [Ei Hile].
    destruct (Hrelax i Hi) as [(E1 & E2 & Hle)|(E1 & E2 & Hlt)];
      rewrite E1, E2.
    + split; [assumption|]. intros p Hp.
      destruct (Hvert p Hp) as [Hold| ->]; [now apply Hile|now apply Hle].
    + split; [reflexivity|]. intros p Hp.
      destruct (Hvert p Hp) as [Hold| ->]; [|apply Qle_refl].
      apply Qlt_le_weak. eapply Qlt_le_trans; [exact Hlt|]. now apply Hile.
  - intros e' He'. apply in_app_or in He'.
    destruct He' as [He'|[<-|[]]]; [now apply Hedges|].
    unfold e. cbn [from to distance]. rewrite <- Emn. split; [|assumption].
    apply find_min_dist_le; assumption.
  - intros pre e0 post Hsplit p v Hp Hv Hnv.
    apply snoc_split in Hsplit.
    destruct Hsplit as [(_ & -> & ->)|(post' & _ & Hold)].
    + unfold e. cbn [distance].
      assert (idx false (MSTree.in_tree st) v = false) as Hvo.
      { destruct (idx false (MSTree.in_tree st) v) eqn:E; [|reflexivity].
        apply Htree in E; [contradiction|assumption]. }
      destruct (Hmd v Hv Hvo) as [_ Hvle].
      eapply Qle_trans; [apply find_min_dist_le; eassumption|]. now apply Hvle.
    + eapply Hcut; eassumption.
Qed.

Lemma outside_exists st c :
  prim_invariant D st -> size (MSTree.tree_edges st) = c - 1 ->
  1 <= c < size D ->
  exists i0, 0 <= i0 < size D /\ idx false (MSTree.in_tree st) i0 = false.
Proof.
  intros (_ & _ & _ & Hg & Hrange & Htree & _) Hlen Hc.
  destruct (missing_element (0 :: map to (MSTree.tree_edges st))
              (zrange 0 (size D))) as (x & Hx & Hnx).
  - apply NoDup_zrange.
  - cbn [List.length]. rewrite length_map, zrange_length.
    unfold size in *. lia.
  - apply In_zrange in Hx. exists x. split; [assumption|].
    destruct (idx false (MSTree.in_tree st) x) eqn:E; [|reflexivity].
    apply Htree in E; [contradiction|assumption].
Qed.

Lemma prim_loop_exact :
  let st := for_loop 1 (size D) (fun _ st => MSTree.prim_step D h st)
              (MSTree.prim_init D) in
  prim_invariant D st /\ prim_exact D st
  /\ size (MSTree.tree_edges st) = size D - 1.
Proof.
  apply (for_loop_inv (fun c st =>
    prim_invariant D st /\ prim_exact D st
    /\ size (MSTree.tree_edges st) = c - 1)); [lia| |].
  - split; [now apply prim_init_invariant|].
    split; [apply prim_init_exact|reflexivity].
  - intros c st Hc (Hinv & Hex & Hlen).
    pose proof (outside_exists st c Hinv Hlen Hc) as Hout.
    destruct (prim_step_invariant D h Hn Hfinite st Hinv Hout) as [Hinv' Hlen'].
    split; [assumption|]. split; [now apply prim_step_exact|lia].
Qed.

End PrimExact.

Lemma grown_rooted_tree n es :
  1 <= n -> grown 0 es -> size es = n - 1 ->
  (forall e, In e es -> 0 <= to e < n) ->
  rooted_tree n es.
Proof.
  intros Hn Hg Hlen Hrange.
  pose proof (grown_NoDup 0 es Hg) as Hnd.
  assert (forall v, In v (0 :: map to es) -> 0 <= v < n) as Hin.
  { intros v [<-|Hv]; [lia|]. apply in_map_iff in Hv.
    destruct Hv as (e & <- & He). now apply Hrange. }
  assert (forall v, 0 <= v < n -> In v (0 :: map to es)) as Hall.
  { intros v Hv.
    apply (@NoDup_length_incl Z (0 :: map to es) (zrange 0 n) Hnd).
    - cbn [List.length]. rewrite length_map, zrange_length.
      unfold size in Hlen. lia.
    - intros x Hx. apply In_zrange. now apply Hin.
    - apply In_zrange. assumption. }
  inversion Hnd as [|? ? Hnot0 Hnd']; subst.
  split; [assumption|]. split.
  - apply NoDup_Permutation; [assumption|apply NoDup_zrange|].
    intros x. rewrite In_zrange. split.
    + intros Hx. assert (0 <= x < n) by (apply Hin; now right).
      assert (x <> 0) by (intros ->; contradiction). lia.
    + intros Hx. destruct (Hall x ltac:(lia)) as [E|Hx']; [lia|assumption].
  - intros e He. destruct (grown_endpoints 0 es Hg e He) as [Hf _].
    split; [now apply Hin|].
    clear Hlen Hrange Hin Hall Hnot0 Hnd' Hnd Hf. revert e He.
    induction Hg as [|es e0 Hg IH Hfrom Hto]; intros e He; [contradiction|].
    apply in_app_or in He. destruct He as [He|[<-|[]]]; [now apply IH|].
    intros Heq. apply Hto. congruence.
Qed.

(** X7. For every square matrix of finite entries over [N >= 2] vertices
    and either heuristic, the edge list of [MSTree::compute] is ordered as
    a tree rooted at vertex 0: every edge starts at vertex 0 or at the [to]
    of an earlier edge and ends at a vertex not seen before; so every
    vertex in [1..N-1] is the [to] of exactly one edge, vertex 0 of none,
    and no edge has [from = to]. *)
Theorem prim_rooted_at_zero :
  forall (D : matrix) (h : MSTree.Heuristic),
    2 <= size D -> square (size D) D -> finite_matrix D ->
    exists tree_edges,
      MSTree.compute D h = Ok tree_edges
      /\ rooted_tree (size D) tree_edges.
Proof.
  intros D h Hn _ Hfin.
  destruct (prim_loop_exact D h Hn Hfin) as (Hinv & _ & Hlen).
  unfold MSTree.compute, MSTree.n_nodes_.
  replace (size D - 1 <? 0) with false by (symmetry; apply Z.ltb_ge; lia).
  eexists. split; [reflexivity|].
  destruct Hinv as (_ & _ & _ & Hg & Hrange & _).
  apply grown_rooted_tree; auto; lia.
Qed.

Lemma prim_rooted_at_zero_witness :
  exists tree_edges,
    MSTree.compute three_node_matrix MSTree.HARMONIC = Ok tree_edges
    /\ rooted_tree (size three_node_matrix) tree_edges.
Proof.
  apply prim_rooted_at_zero.
  - change (size three_node_matrix) with 3. lia.
  - exact square_three_node_matrix.
  - exact finite_three_node_matrix.
Defined.

(** X8. Under the same conditions every edge [(from, to, d)] that
    [MSTree::compute] returns records a distance [d] that is not above
    [D[from][to]] and less than 1e-10 below it, and [d] is not above any
    entry [D[p][v]] from a vertex [p] of the tree built by the earlier edges
    to a vertex [v] outside that tree: each step takes a least edge
    leaving the tree, up to the tolerance. *)
Theorem prim_greedy_distances :
  forall (D : matrix) (h : MSTree.Heuristic),
    2 <= size D -> square (size D) D -> finite_matrix D ->
    exists tree_edges,
      MSTree.compute D h = Ok tree_edges
      /\ greedy_distances D tree_edges.
Proof.
  intros D h Hn _ Hfin.
  destruct (prim_loop_exact D h Hn Hfin) as (_ & Hex & _).
  unfold MSTree.compute, MSTree.n_nodes_.
  replace (size D - 1 <? 0) with false by (symmetry; apply Z.ltb_ge; lia).
  eexists. split; [reflexivity|].
  destruct Hex as (_ & Hedges & Hcut). split; assumption.
Qed.

Lemma prim_greedy_distances_witness :
  exists tree_edges,
    MSTree.compute three_node_matrix MSTree.EBURST = Ok tree_edges
    /\ greedy_distances three_node_matrix tree_edges.
Proof.
  apply prim_greedy_distances.
  - change (size three_node_matrix) with 3. lia.
  - exact square_three_node_matrix.
  - exact finite_three_node_matrix.
Defined.

(** ** MSTreeV2: the edges of phase C1 *)

Lemma incoming_edge_single D to_ :
  1 <= to_ < size D ->
  (forall f, candidate D to_ f -> (get2 D f to_ < DBL_MAX)%Q) ->
  exists best_from min_dist,
    incoming_edge D to_ = [mkEdge best_from to_ min_dist]
    /\ candidate D to_ best_from
    /\ (exists f, candidate D to_ f /\ min_dist = get2 D f to_)
    /\ forall f, candidate D to_ f -> (min_dist <= get2 D f to_)%Q.
Proof.
  intros Hto Hfin.
  pose proof (scan_result D to_ Hto Hfin) as Hinv.
  assert (incoming_edge D to_
          = let '(m, b, _) := MSTreeV2.incoming_scan D to_ in
            if negb (b =? -1) then [mkEdge b to_ m] else []) as Hedge
    by reflexivity.
  destruct (MSTreeV2.incoming_scan D to_) as [[m b] s].
  unfold scan_invariant in Hinv. cbv zeta in Hinv. cbn [fst snd] in Hinv.
  destruct Hinv as [[Hk _]|(f0 & Hf0 & Hf0to & Hm & _ & Hmin & Hb & Hbto & _)];
    [lia|].
  replace (b =? -1) with false in Hedge by (symmetry; apply Z.eqb_neq; lia).
  exists b, m. split; [exact Hedge|]. split; [unfold candidate; lia|].
  split.
  - exists f0. split; [unfold candidate; lia|assumption].
  - intros f [Hf Hne]. apply Hmin; lia.
Qed.

(** X9. For every matrix whose entries off the diagonal are below
    [DBL_MAX], phase C1 of MSTreeV2 returns one edge for each vertex
    [1..N-1], in this order of their [to] endpoints and none into vertex 0;
    the [from] of each edge is another vertex of the matrix and its
    distance is the least entry of the column of its [to] off the
    diagonal. *)
Theorem minimum_incoming_edges_cover :
  forall D,
    (forall to_ f, 1 <= to_ < size D -> candidate D to_ f ->
                   (get2 D f to_ < DBL_MAX)%Q) ->
    map to (MSTreeV2.find_minimum_incoming_edges D) = zrange 1 (size D)
    /\ forall e, In e (MSTreeV2.find_minimum_incoming_edges D) ->
         candidate D (to e) (from e)
         /\ (exists f, candidate D (to e) f /\ distance e = get2 D f (to e))
         /\ forall f, candidate D (to e) f -> (distance e <= get2 D f (to e))%Q.
Proof.
  intros D Hfin. rewrite find_minimum_incoming_edges_rounds.
  assert (forall l, (forall x, In x l -> 1 <= x < size D) ->
            map to (flat_map (incoming_edge D) l) = l
            /\ forall e, In e (flat_map (incoming_edge D) l) ->
                 candidate D (to e) (from e)
                 /\ (exists f, candidate D (to e) f /\ distance e = get2 D f (to e))
                 /\ forall f, candidate D (to e) f ->
                      (distance e <= get2 D f (to e))%Q) as H.
  { induction l as [|x l IH]; intros Hl; cbn [flat_map map].
    - split; [reflexivity|intros e []].
    - destruct (incoming_edge_single D x) as (b & m & E & Hc & Hat & Hmin).
      + apply Hl. now left.
      + intros f Hf. apply Hfin; [apply Hl; now left|assumption].
      + destruct IH as [IH1 IH2]; [intros y Hy; apply Hl; now right|].
        rewrite E. cbn [app map to]. rewrite IH1. split; [reflexivity|].
        intros e [<-|He]; [|now apply IH2].
        cbn [from to distance]. auto. }
  apply H. intros x Hx. now apply In_zrange in Hx.
Qed.

Lemma three_node_matrix_below_max to_ f :
  1 <= to_ < size three_node_matrix -> candidate three_node_matrix to_ f ->
  (get2 three_node_matrix f to_ < DBL_MAX)%Q.
Proof.
  unfold candidate. change (size three_node_matrix) with 3.
  intros Hto [Hf _].
  assert (to_ = 1 \/ to_ = 2) as Hct by lia.
  assert (f = 0 \/ f = 1 \/ f = 2) as Hcf by lia.
  destruct Hct; subst to_; destruct Hcf as [Hc|[Hc|Hc]]; subst f;
    vm_compute; reflexivity.
Qed.

Lemma minimum_incoming_edges_cover_witness :
  map to (MSTreeV2.find_minimum_incoming_edges three_node_matrix) = [1; 2].
Proof.
  apply (proj1 (minimum_incoming_edges_cover three_node_matrix
                  three_node_matrix_below_max)).
Defined.

(** ** The builders on one and two vertices *)

Lemma for_loop_cons {T} lo hi (body : Z -> T -> T) s :
  lo < hi -> for_loop lo hi body s = for_loop (lo + 1) hi body (body lo s).
Proof.
  intros H. unfold for_loop. now rewrite (zrange_cons lo hi H).
Qed.

Lemma Qltb_tie_refl x : Qltb (Qabs (fsub x x)) EPS_double = true.
Proof. apply tie_test_true, tie_test_refl. Qed.

Lemma square_two_rows (D : matrix) :
  square 2 D -> exists a b c d : double, D = [[a; b]; [c; d]].
Proof.
  intros [Hsize Hrows].
  pose proof (Hrows 0 ltac:(lia)) as H0. pose proof (Hrows 1 ltac:(lia)) as H1.
  destruct D as [|r0 [|r1 [|r2 D]]];
    try (unfold size in Hsize; cbn [List.length] in Hsize; lia).
  change (idx [] [r0; r1] 0) with r0 in H0.
  change (idx [] [r0; r1] 1) with r1 in H1.
  destruct r0 as [|a [|b [|? ?]]];
    try (unfold size in H0; cbn [List.length] in H0; lia).
  destruct r1 as [|c [|d [|? ?]]];
    try (unfold size in H1; cbn [List.length] in H1; lia).
  now exists a, b, c, d.
Qed.

Lemma prim_two_rows (a b c d : double) h :
  Qltb b DBL_MAX = true ->
  MSTree.compute [[a; b]; [c; d]] h = Ok [mkEdge 0 1 b].
Proof.
  intros Hb. unfold MSTree.compute, MSTree.n_nodes_.
  change (size [[a; b]; [c; d]]) with 2. change (2 - 1 <? 0) with false. cbv iota.
  rewrite for_loop_cons by lia. rewrite for_loop_nil by lia.
  assert (MSTree.prim_init [[a; b]; [c; d]]
          = MSTree.mkPrim [] [true; false] [0%Q; b] [-1; 0]) as -> by reflexivity.
  unfold MSTree.prim_step.
  cbn [MSTree.in_tree MSTree.min_distance MSTree.parent MSTree.tree_edges].
  assert (MSTree.find_min_dist [[a; b]; [c; d]] [true; false] [0%Q; b] = b) as ->.
  { unfold MSTree.find_min_dist, MSTree.n_nodes_.
    change (size [[a; b]; [c; d]]) with 2.
    rewrite for_loop_cons by lia. rewrite for_loop_cons by lia.
    rewrite for_loop_nil by lia.
    change (idx false [true; false] 0) with true.
    change (idx false [true; false] (0 + 1)) with false.
    change (idx 0%Q [0%Q; b] (0 + 1)) with b.
    cbn [negb andb]. now rewrite Hb. }
  assert (MSTree.select_node_with_tiebreak [[a; b]; [c; d]] h [0%Q; b]
            [true; false] b = 1) as ->.
  { unfold MSTree.select_node_with_tiebreak.
    assert (MSTree.collect_candidates [[a; b]; [c; d]] [0%Q; b] [true; false] b
            = [1]) as ->; [|reflexivity].
    unfold MSTree.collect_candidates, MSTree.n_nodes_.
    change (size [[a; b]; [c; d]]) with 2.
    rewrite for_loop_cons by lia. rewrite for_loop_cons by lia.
    rewrite for_loop_nil by lia.
    change (idx false [true; false] 0) with true.
    change (idx false [true; false] (0 + 1)) with false.
    change (idx 0%Q [0%Q; b] (0 + 1)) with b.
    cbn [negb andb]. now rewrite Qltb_tie_refl. }
  reflexivity.
Qed.

Lemma incoming_two_rows (a b c d : double) :
  Qltb b DBL_MAX = true ->
  MSTreeV2.find_minimum_incoming_edges [[a; b]; [c; d]] = [mkEdge 0 1 b].
Proof.
  intros Hb. unfold MSTreeV2.find_minimum_incoming_edges, MSTreeV2.n_nodes_.
  change (size [[a; b]; [c; d]]) with 2.
  rewrite for_loop_cons by lia. rewrite for_loop_nil by lia.
  unfold MSTreeV2.incoming_scan, MSTreeV2.n_nodes_.
  change (size [[a; b]; [c; d]]) with 2.
  rewrite for_loop_cons by lia. rewrite for_loop_cons by lia.
  rewrite for_loop_nil by lia.
  unfold MSTreeV2.incoming_step at 2.
  change (0 =? 1) with false. cbv iota.
  change (get2 [[a; b]; [c; d]] 0 1) with b. rewrite Hb.
  unfold MSTreeV2.incoming_step. change (0 + 1 =? 1) with true. cbv iota.
  reflexivity.
Qed.

Lemma v2_two_rows (a b c d : double) :
  Qltb b DBL_MAX = true ->
  MSTreeV2.compute [[a; b]; [c; d]] = Some [mkEdge 0 1 b].
Proof.
  intros Hb. unfold MSTreeV2.compute. cbn [List.length MSTreeV2.compute_fuel].
  rewrite incoming_two_rows by assumption.
  reflexivity.
Qed.

(** X11. On every 2 by 2 matrix whose entry [D[0][1]] is below [DBL_MAX],
    the classical builder (with either heuristic) and MSTreeV2 return the
    same tree: the single edge from vertex 0 to vertex 1 with distance
    [D[0][1]]; the entry [D[1][0]] plays no part. *)
Theorem builders_agree_on_two_vertices :
  forall (D : matrix) (h : MSTree.Heuristic),
    square 2 D -> (get2 D 0 1 < DBL_MAX)%Q ->
    MSTree.compute D h = Ok [mkEdge 0 1 (get2 D 0 1)]
    /\ MSTreeV2.compute D = Some [mkEdge 0 1 (get2 D 0 1)].
Proof.
  intros D h Hsq Hlt.
  destruct (square_two_rows D Hsq) as (a & b & c & d & ->).
  change (get2 [[a; b]; [c; d]] 0 1) with b in *.
  apply Qltb_lt in Hlt.
  split; [now apply prim_two_rows|now apply v2_two_rows].
Qed.

Lemma builders_agree_on_two_vertices_witness :
  MSTree.compute two_node_matrix MSTree.HARMONIC = Ok [mkEdge 0 1 3%Q]
  /\ MSTreeV2.compute two_node_matrix = Some [mkEdge 0 1 3%Q].
Proof.
  apply (builders_agree_on_two_vertices two_node_matrix MSTree.HARMONIC).
  - split; [reflexivity|]. intros i Hi.
    assert (i = 0 \/ i = 1) as Hc by lia. destruct Hc; subst; reflexivity.
  - reflexivity.
Defined.

Lemma size_one_row {A} (l : list A) : size l = 1 -> exists x, l = [x].
Proof.
  destruct l as [|x [|y l]]; unfold size; cbn [List.length]; intros H;
    try lia.
  now exists x.
Qed.

(** X12. On a matrix with a single row both builders return the empty edge
    list.  On the empty matrix MSTreeV2 returns the empty edge list, and the
    classical builder throws from its first statement, the reservation of
    [n - 1] edges. *)
Theorem builders_below_two_vertices :
  forall (D : matrix) (h : MSTree.Heuristic),
    (size D = 1 -> MSTree.compute D h = Ok [] /\ MSTreeV2.compute D = Some [])
    /\ (size D = 0 ->
        (exists what, MSTree.compute D h = Throw what)
        /\ MSTreeV2.compute D = Some []).
Proof.
  intros D h. split.
  - intros H1. destruct (size_one_row D H1) as [r ->]. split; reflexivity.
  - intros H0. destruct D; [|unfold size in H0; cbn [List.length] in H0; lia].
    split; [eexists|]; reflexivity.
Qed.

Lemma builders_below_two_vertices_witness :
  (MSTree.compute [[0%Q]] MSTree.EBURST = Ok []
   /\ MSTreeV2.compute [[0%Q]] = Some [])
  /\ (exists what, MSTree.compute [] MSTree.EBURST = Throw what)
  /\ MSTreeV2.compute [] = Some [].
Proof.
  split.
  - apply (proj1 (builders_below_two_vertices [[0%Q]] MSTree.EBURST)).
    reflexivity.
  - apply (proj2 (builders_below_two_vertices [] MSTree.EBURST)).
    reflexivity.
Defined.

(** ** The Newick formatter *)

Import NewickFormatter.

Lemma initial_nodes n :
  0 <= n ->
  let nodes :=
    for_loop 0 n (fun i nodes => upd nodes i (mkTreeNode i [] (-1) 0%Q))
      (repeat default_node (Z.to_nat n)) in
  size nodes = n
  /\ forall v, 0 <= v < n -> idx default_node nodes v = mkTreeNode v [] (-1) 0%Q.
Proof.
  intros Hn. cbv zeta.
  apply (for_loop_inv
           (fun k nodes => size nodes = n
              /\ forall v, 0 <= v < k ->
                   idx default_node nodes v = mkTreeNode v [] (-1) 0%Q)
           0 n _ _ Hn).
  - split; [rewrite size_repeat; lia|]. intros v Hv. lia.
  - intros k nodes Hk [Hs Hv]. split; [now rewrite size_upd|].
    intros v Hv'. destruct (Z.eq_dec k v) as [->|Hne].
    + now rewrite idx_upd_eq by lia.
    + rewrite idx_upd_neq by lia. apply Hv. lia.
Qed.

Lemma build_tree_structure_snoc es e n :
  build_tree_structure (es ++ [e]) n
  = (let nodes := build_tree_structure es n in
     let nf := idx default_node nodes (from e) in
     let nodes :=
       upd nodes (from e)
         (mkTreeNode (id nf) (children nf ++ [to e]) (parent nf) (branch_length nf)) in
     let nt := idx default_node nodes (to e) in
     let nodes :=
       upd nodes (to e)
         (mkTreeNode (id nt) (children nt) (from e) (branch_length nt)) in
     let nt := idx default_node nodes (to e) in
     upd nodes (to e)
       (mkTreeNode (id nt) (children nt) (parent nt) (distance e))).
Proof.
  unfold build_tree_structure. now rewrite fold_left_app.
Qed.

Lemma children_of_snoc es e v :
  children_of (es ++ [e]) v
  = children_of es v ++ (if from e =? v then [to e] else []).
Proof.
  unfold children_of. rewrite filter_app, map_app. cbn [filter].
  now destruct (from e =? v).
Qed.

Lemma parent_of_snoc es e v :
  parent_of (es ++ [e]) v = if to e =? v then from e else parent_of es v.
Proof. unfold parent_of. now rewrite fold_left_app. Qed.

Lemma length_of_snoc es e v :
  length_of (es ++ [e]) v = if to e =? v then distance e else length_of es v.
Proof. unfold length_of. now rewrite fold_left_app. Qed.

Lemma in_range_snoc n es e :
  in_range n (es ++ [e]) ->
  in_range n es /\ 0 <= from e < n /\ 0 <= to e < n.
Proof.
  intros H. split.
  - intros x Hx. apply H, in_or_app. now left.
  - apply H, in_or_app. right. now left.
Qed.

Lemma build_tree_structure_nodes es n :
  0 <= n -> in_range n es ->
  size (build_tree_structure es n) = n
  /\ forall v, 0 <= v < n ->
       idx default_node (build_tree_structure es n) v
       = mkTreeNode v (children_of es v) (parent_of es v) (length_of es v).
Proof.
  intros Hn. induction es as [|e es IH] using rev_ind; intros Hr.
  - exact (initial_nodes n Hn).
  - apply in_range_snoc in Hr. destruct Hr as (Hr & Hf & Ht).
    destruct (IH Hr) as [Hs Hv]. clear IH.
    rewrite build_tree_structure_snoc. cbv zeta.
    split; [now rewrite !size_upd|].
    intros v Hv'.
    rewrite children_of_snoc, parent_of_snoc, length_of_snoc.
    destruct (Z.eqb_spec (to e) v) as [Etv|Ntv].
    + rewrite Etv. rewrite idx_upd_eq by (rewrite !size_upd; lia).
      rewrite idx_upd_eq by (rewrite !size_upd; lia). cbn [id children parent].
      destruct (Z.eqb_spec (from e) v) as [Efv|Nfv].
      * rewrite Efv. rewrite idx_upd_eq by lia. cbn [id children].
        rewrite Hv by lia. reflexivity.
      * rewrite idx_upd_neq by lia. rewrite Hv by lia. cbn [id children].
        now rewrite app_nil_r.
    + rewrite !(idx_upd_neq _ (to e) v) by lia.
      destruct (Z.eqb_spec (from e) v) as [Efv|Nfv].
      * rewrite Efv. rewrite idx_upd_eq by lia. rewrite Hv by lia. reflexivity.
      * rewrite idx_upd_neq by lia. rewrite Hv by lia. now rewrite app_nil_r.
Qed.

Lemma parent_of_none es v :
  (forall e, In e es -> to e <> v) -> parent_of es v = -1.
Proof.
  induction es as [|e es IH] using rev_ind; intros H; [reflexivity|].
  rewrite parent_of_snoc.
  destruct (Z.eqb_spec (to e) v) as [E|_].
  - exfalso. apply (H e); [apply in_or_app; right; now left|assumption].
  - apply IH. intros x Hx. apply H, in_or_app. now left.
Qed.

Lemma parent_of_last pre e post :
  (forall x, In x post -> to x <> to e) ->
  parent_of (pre ++ e :: post) (to e) = from e
  /\ length_of (pre ++ e :: post) (to e) = distance e.
Proof.
  induction post as [|y post IH] using rev_ind; intros Hpost.
  - change (pre ++ [e]) with (pre ++ [e]).
    rewrite parent_of_snoc, length_of_snoc, Z.eqb_refl. now split.
  - change (pre ++ e :: post ++ [y]) with (pre ++ (e :: post) ++ [y]).
    rewrite app_assoc, parent_of_snoc, length_of_snoc.
    destruct (Z.eqb_spec (to y) (to e)) as [E|_].
    + exfalso. apply (Hpost y); [apply in_or_app; right; now left|assumption].
    + apply IH. intros x Hx. apply Hpost, in_or_app. now left.
Qed.

Lemma length_of_none es v :
  (forall e, In e es -> to e <> v) -> length_of es v = 0%Q.
Proof.
  induction es as [|e es IH] using rev_ind; intros H; [reflexivity|].
  rewrite length_of_snoc.
  destruct (Z.eqb_spec (to e) v) as [E|_].
  - exfalso. apply (H e); [apply in_or_app; right; now left|assumption].
  - apply IH. intros x Hx. apply H, in_or_app. now left.
Qed.

(** X13. For an edge list over the vertices [0..n-1],
    [build_tree_structure] returns [n] nodes; node [v] has [id = v]; its
    children are the [to] of the edges out of [v], in the order of the
    list; a vertex that no edge enters keeps [parent = -1] and branch
    length 0; and when several edges enter one vertex, the last of them in
    the list gives the parent and the branch length, while each of their
    sources lists the vertex as a child. *)
Theorem tree_structure_of_edges :
  forall (es : list Edge) (n : Z),
    0 <= n -> in_range n es ->
    size (build_tree_structure es n) = n
    /\ forall v, 0 <= v < n ->
         let node := idx default_node (build_tree_structure es n) v in
         id node = v
         /\ children node = children_of es v
         /\ ((forall e, In e es -> to e <> v) ->
             parent node = -1 /\ branch_length node = 0%Q)
         /\ (forall pre e post,
               es = pre ++ e :: post -> to e = v ->
               (forall x, In x post -> to x <> v) ->
               parent node = from e /\ branch_length node = distance e).
Proof.
  intros es n Hn Hr.
  destruct (build_tree_structure_nodes es n Hn Hr) as [Hs Hnodes].
  split; [assumption|]. intros v Hv. cbv zeta. rewrite (Hnodes v Hv).
  cbn [id children parent branch_length].
  split; [reflexivity|]. split; [reflexivity|]. split.
  - intros Hnone. split; [now apply parent_of_none|now apply length_of_none].
  - intros pre e post -> <- Hpost. now apply parent_of_last.
Qed.

Lemma tree_structure_of_edges_witness :
  size (build_tree_structure self_loop_edges 3) = 3
  /\ children (idx default_node (build_tree_structure self_loop_edges 3) 1) = [1]
  /\ parent (idx default_node (build_tree_structure self_loop_edges 3) 1) = 1
  /\ parent (idx default_node (build_tree_structure self_loop_edges 3) 0) = -1.
Proof.
  assert (in_range 3 self_loop_edges) as Hr.
  { intros e [<-|[<-|[]]]; cbn; lia. }
  destruct (tree_structure_of_edges self_loop_edges 3 ltac:(lia) Hr) as [Hs Hv].
  split; [exact Hs|].
  destruct (Hv 1 ltac:(lia)) as (_ & Hc & _ & Hlast).
  destruct (Hv 0 ltac:(lia)) as (_ & _ & Hnone & _).
  split; [exact Hc|]. split.
  - apply (Hlast [mkEdge 0 2 4%Q] (mkEdge 1 1 0%Q) []); [reflexivity|reflexivity|].
    intros x [].
  - apply Hnone. intros e [<-|[<-|[]]]; cbn; lia.
Defined.

Lemma string_append_assoc (s t u : string) :
  ((s ++ t) ++ u = s ++ t ++ u)%string.
Proof. induction s as [|c s IH]; cbn; [reflexivity|now rewrite IH]. Qed.

(** The loop over the children of a node returns when the call on each
    child does, and it only appends to the text written so far. *)
Lemma children_loop_returns fuel nodes names cs :
  (forall c, In c cs -> exists sub, to_newick fuel c nodes names = Some sub) ->
  forall (b : bool) (s0 : string),
  exists b' rest,
    fold_left
      (fun acc child_id =>
         match acc with
         | None => None
         | Some (is_first, s) =>
             match to_newick fuel child_id nodes names with
             | None => None
             | Some sub =>
                 Some (false,
                       (s ++ (if (is_first : bool) then EmptyString else ",") ++ sub
                          ++ ":"
                          ++ format_fixed6
                               (branch_length (idx default_node nodes child_id)))%string)
             end
         end) cs (Some (b, s0))
    = Some (b', (s0 ++ rest)%string).
Proof.
  induction cs as [|c cs IH]; intros Hcs b s0.
  - exists b, EmptyString. cbn [fold_left].
    assert ((s0 ++ "")%string = s0) as ->; [|reflexivity].
    induction s0 as [|a s0 IHs]; cbn; [reflexivity|now rewrite IHs].
  - cbn [fold_left].
    destruct (Hcs c (or_introl eq_refl)) as [sub ->].
    edestruct (IH (fun x Hx => Hcs x (or_intror Hx)) false) as (b' & rest & ->).
    exists b'. eexists. rewrite string_append_assoc. reflexivity.
Qed.

(** [to_newick] returns on every child structure on which a measure
    falls from each node to its children, given fuel above the measure of
    the node it starts from. *)
Lemma to_newick_returns nodes names (m : Z -> nat) :
  (forall v c, In c (children (idx default_node nodes v)) -> (m c < m v)%nat) ->
  forall fuel v, (m v < fuel)%nat ->
    exists s, to_newick fuel v nodes names = Some s
      /\ (children (idx default_node nodes v) <> [] ->
          exists body,
            s = ("(" ++ body ++ ")"
                 ++ (if (v <? size names)%Z
                     then sanitize_name (idx EmptyString names v)
                     else EmptyString))%string).
Proof.
  intros Hm. induction fuel as [|fuel IH]; intros v Hv; [lia|].
  cbn [to_newick].
  destruct (children (idx default_node nodes v)) as [|c cs] eqn:Ec.
  - eexists. split; [reflexivity|]. intros H. now elim H.
  - destruct (children_loop_returns fuel nodes names (c :: cs)) with
      (b := true) (s0 := "("%string) as (b' & rest & ->).
    + intros x Hx. destruct (IH x) as (s & Hs & _).
      * specialize (Hm v x). rewrite Ec in Hm. specialize (Hm Hx). lia.
      * now exists s.
    + eexists. split; [reflexivity|]. intros _. exists rest.
      now rewrite !string_append_assoc.
Qed.

(** An edge list grown from a root has such a measure: the vertices hung
    later sit lower. *)
Lemma grown_measure root es :
  grown root es ->
  exists m : Z -> nat,
    (m root <= List.length es)%nat
    /\ forall e, In e es -> (m (to e) < m (from e))%nat.
Proof.
  induction 1 as [|es e Hg IH Hfrom Hto].
  - exists (fun _ => O). split; [cbn; lia|]. intros e [].
  - destruct IH as (m & Hroot & Hedges).
    exists (fun v => if v =? to e then O else S (m v)).
    assert (root <> to e) as Hr by (intros E; apply Hto; rewrite <- E; now left).
    split.
    + destruct (Z.eqb_spec root (to e)); [contradiction|].
      rewrite length_app. cbn. lia.
    + intros x Hx. apply in_app_or in Hx. destruct Hx as [Hx|[<-|[]]].
      * destruct (grown_endpoints root es Hg x Hx) as [Hxf Hxt].
        destruct (Z.eqb_spec (to x) (to e)) as [E|_];
          [rewrite E in Hxt; contradiction|].
        destruct (Z.eqb_spec (from x) (to e)) as [E|_];
          [rewrite E in Hxf; contradiction|].
        specialize (Hedges x Hx). lia.
      * rewrite Z.eqb_refl.
        destruct (Z.eqb_spec (from e) (to e)) as [E|_];
          [rewrite E in Hfrom; contradiction|]. lia.
Qed.

Lemma rooted_tree_in_range n es : rooted_tree n es -> in_range n es.
Proof.
  intros (_ & Hperm & Hfrom) e He. split; [now apply Hfrom|].
  assert (In (to e) (zrange 1 n)) as Hin.
  { eapply Permutation_in; [exact Hperm|]. now apply in_map. }
  apply In_zrange in Hin. lia.
Qed.

Lemma rooted_tree_size n es : 1 <= n -> rooted_tree n es -> size es = n - 1.
Proof.
  intros Hn (_ & Hperm & _). apply Permutation_length in Hperm.
  rewrite length_map, zrange_length in Hperm. unfold size. lia.
Qed.

Lemma find_root_rooted_tree es (names : list string) :
  2 <= size names -> rooted_tree (size names) es ->
  find_root (build_tree_structure es (size names)) = 0.
Proof.
  intros Hn Hrt.
  pose proof (rooted_tree_in_range _ _ Hrt) as Hr.
  destruct Hrt as (Hg & Hperm & Hfrom).
  destruct (build_tree_structure_nodes es (size names) ltac:(lia) Hr)
    as [Hs Hnodes].
  unfold find_root. rewrite Hs. rewrite zrange_cons by lia. cbn [find].
  rewrite Hnodes by lia. cbn [parent].
  rewrite parent_of_none; [reflexivity|].
  intros e He E.
  assert (In (to e) (zrange 1 (size names))) as Hin.
  { eapply Permutation_in; [exact Hperm|]. now apply in_map. }
  apply In_zrange in Hin. lia.
Qed.

Lemma format_rooted_tree_aux es names :
  2 <= size names -> rooted_tree (size names) es ->
  exists body,
    format es names
    = Some ("(" ++ body ++ ")" ++ sanitize_name (idx EmptyString names 0) ++ ";")%string.
Proof.
  intros Hn Hrt.
  pose proof (find_root_rooted_tree es names Hn Hrt) as Hfr.
  pose proof (rooted_tree_in_range _ _ Hrt) as Hr.
  pose proof (rooted_tree_size (size names) es ltac:(lia) Hrt) as Hsz.
  destruct Hrt as (Hg & Hperm & Hfrom).
  destruct (build_tree_structure_nodes es (size names) ltac:(lia) Hr)
    as [Hs Hnodes].
  assert (es <> []) as Hne.
  { intros ->. cbn in Hsz. lia. }
  unfold format. destruct es as [|e0 es']; [congruence|].
  set (es := e0 :: es') in *. cbv zeta.
  set (nodes := build_tree_structure es (size names)) in *.
  rewrite Hfr.
  destruct (grown_measure 0 es Hg) as (m & Hroot & Hedges).
  destruct (to_newick_returns nodes names
              (fun v => if v <? size names then m (Z.max 0 v) else O))
    with (fuel := S (List.length nodes)) (v := 0) as (s & -> & Hshape).
  - intros v c Hc.
    destruct (Z.ltb_spec v (size names)) as [H1|H1].
    + assert (idx default_node nodes v = idx default_node nodes (Z.max 0 v)) as E.
      { unfold idx. f_equal. lia. }
      rewrite E, Hnodes in Hc by lia. cbn [children] in Hc.
      unfold children_of in Hc. apply in_map_iff in Hc.
      destruct Hc as (e & <- & He). apply filter_In in He.
      destruct He as [He Efv]. apply Z.eqb_eq in Efv. rewrite <- Efv.
      destruct (Hr e He) as [_ Ht].
      destruct (Z.ltb_spec (to e) (size names)); [|lia].
      replace (Z.max 0 (to e)) with (to e) by lia.
      now apply Hedges.
    + unfold idx in Hc. rewrite nth_overflow in Hc by (unfold size in *; lia).
      destruct Hc.
  - destruct (Z.ltb_spec 0 (size names)); [|lia].
    change (Z.max 0 0) with 0. unfold size in *. lia.
  - destruct Hshape as [body ->].
    + rewrite Hnodes by lia. cbn [children]. unfold children_of.
      destruct (grown_root_edge 0 es Hg Hne) as (e & He & Ef).
      intros Hnil. apply map_eq_nil in Hnil.
      assert (In e (filter (fun e => from e =? 0) es)) as Hin
        by (apply filter_In; split; [assumption|now apply Z.eqb_eq]).
      rewrite Hnil in Hin. destruct Hin.
    + destruct (Z.ltb_spec 0 (size names)); [|lia].
      exists body. now rewrite !string_append_assoc.
Qed.

Lemma rooted_star_edges : rooted_tree 3 star_edges.
Proof.
  split; [|split].
  - change star_edges with (([] ++ [mkEdge 0 1 1%Q]) ++ [mkEdge 0 2 1%Q]).
    apply grown_snoc; [apply grown_snoc; [constructor| |]| |]; cbn;
      try tauto; intros [H|H]; try lia; destruct H; try lia.
  - apply Permutation_refl.
  - intros e [<-|[<-|[]]]; cbn; lia.
Qed.

(** ** From the request to the response: the classical builder *)

Lemma prim_rooted_aux (D : matrix) (h : MSTree.Heuristic) :
  2 <= size D -> finite_matrix D ->
  exists tree_edges,
    MSTree.compute D h = Ok tree_edges /\ rooted_tree (size D) tree_edges.
Proof.
  intros Hn Hfin.
  destruct (prim_loop_exact D h Hn Hfin) as (Hinv & _ & Hlen).
  unfold MSTree.compute, MSTree.n_nodes_.
  replace (size D - 1 <? 0) with false by (symmetry; apply Z.ltb_ge; lia).
  eexists. split; [reflexivity|].
  destruct Hinv as (_ & _ & _ & Hg & Hrange & _).
  apply grown_rooted_tree; auto; lia.
Qed.

Lemma prim_single_row (D : matrix) (h : MSTree.Heuristic) :
  size D = 1 -> MSTree.compute D h = Ok [].
Proof.
  intros H1. destruct (size_one_row D H1) as [r ->]. reflexivity.
Qed.

Lemma int_below_DBL_MAX (G : Z) : G < 2 ^ 31 -> (inject_Z G <= DBL_MAX)%Q.
Proof.
  intros H. unfold DBL_MAX. rewrite <- Zle_Qle.
  assert (2 ^ 31 <= 2 ^ 1024 - 2 ^ 971) by (vm_compute; discriminate).
  lia.
Qed.

Lemma compute_distances_shape pd matrix_type missing_handler :
  0 <= n_strains pd -> 0 <= n_genes pd ->
  square (n_strains pd) (compute_distances pd matrix_type missing_handler)
  /\ forall i j, 0 <= i < n_strains pd -> 0 <= j < n_strains pd ->
       (0 <= get2 (compute_distances pd matrix_type missing_handler) i j)%Q
       /\ (get2 (compute_distances pd matrix_type missing_handler) i j
           <= inject_Z (n_genes pd))%Q.
Proof.
  intros Hn HG. unfold compute_distances.
  destruct (String.eqb matrix_type "symmetric").
  - destruct (compute_symmetric_shape_aux pd (MissingHandler_of_int missing_handler)
                Hn HG) as [Hsq Hent].
    split; [assumption|]. intros i j Hi Hj.
    destruct (Hent i j Hi Hj) as (d & -> & Hd).
    split; [change 0%Q with (inject_Z 0)|]; rewrite <- Zle_Qle; lia.
  - destruct (compute_asymmetric_shape_aux pd Hn HG) as [Hsq Hent].
    split; [assumption|]. intros i j Hi Hj.
    destruct (Hent i j Hi Hj) as (d & m & E & Hd & Hm & Hdm).
    rewrite E. now apply half_integer_range.
Qed.

Lemma edges_to_json_fields es names :
  size (edges_to_json es names) = size es
  /\ map ej_to (edges_to_json es names) = map to es
  /\ map ej_from (edges_to_json es names) = map from es
  /\ forall e, In e (edges_to_json es names) ->
       ej_from_name e = idx EmptyString names (ej_from e)
       /\ ej_to_name e = idx EmptyString names (ej_to e).
Proof.
  unfold edges_to_json, size. rewrite length_map, !map_map. cbn [ej_to ej_from].
  repeat split; try reflexivity;
    apply in_map_iff in H; destruct H as (x & <- & _); reflexivity.
Qed.

Lemma compute_tree_mstree_aux (json_profile : string -> json_input)
    profile_json matrix_type missing_handler heuristic strains profiles :
  json_profile profile_json = JsonProfile strains profiles ->
  well_formed_profile strains profiles ->
  (forall p, In p profiles -> size p < 2 ^ 31) ->
  exists newick edges,
    compute_tree json_profile profile_json "MSTree" matrix_type
      missing_handler heuristic
    = Some (Success newick edges (size strains) (size strains - 1))
    /\ size edges = size strains - 1
    /\ Permutation (map ej_to edges) (zrange 1 (size strains))
    /\ forall e, In e edges ->
         0 <= ej_from e < size strains /\ ej_from e <> ej_to e
         /\ ej_from_name e = idx EmptyString strains (ej_from e)
         /\ ej_to_name e = idx EmptyString strains (ej_to e).
Proof.
  intros Hjson (Hne & Hsize & G & Hall) Hint.
  assert (1 <= size strains) as HN.
  { destruct strains; [congruence|]. unfold size. cbn [List.length]. lia. }
  unfold compute_tree, parse_profile_json. rewrite Hjson. cbv zeta.
  set (pd := mkProfileData strains profiles (size strains)
               match profiles with [] => 0 | p :: _ => size p end).
  cbn [strain_names n_strains].
  assert (0 <= n_genes pd < 2 ^ 31) as HG.
  { unfold pd. cbn [n_genes]. destruct profiles as [|p ps]; [lia|].
    split; [apply size_nonneg|]. apply Hint. now left. }
  destruct (compute_distances_shape pd matrix_type missing_handler)
    as [Hsq Hent]; [cbn; lia|lia|].
  set (D := compute_distances pd matrix_type missing_handler) in *.
  change (n_strains pd) with (size strains) in *.
  change (strain_names pd) with strains.
  unfold build_tree. change (String.eqb "MSTree" "MSTree") with true. cbv iota.
  set (h := if String.eqb heuristic "harmonic" then MSTree.HARMONIC
            else MSTree.EBURST).
  destruct Hsq as [HsD Hrows].
  destruct (Z.eq_dec (size strains) 1) as [E1|N1].
  - rewrite (prim_single_row D h) by lia.
    unfold format. eexists. exists []. rewrite E1.
    split; [reflexivity|]. split; [reflexivity|].
    split; [constructor|]. intros e [].
  - destruct (prim_rooted_aux D h) as (es & -> & Hrt); [lia| |].
    { intros i j Hi Hj. rewrite HsD in Hi, Hj.
      destruct (Hent i j Hi Hj) as [_ Hle].
      eapply Qle_trans; [exact Hle|]. apply int_below_DBL_MAX. lia. }
    rewrite HsD in Hrt.
    destruct (format_rooted_tree_aux es strains ltac:(lia) Hrt) as [body ->].
    destruct (edges_to_json_fields es strains) as (Hs & Hto & Hfrom & Hnames).
    pose proof (rooted_tree_size (size strains) es ltac:(lia) Hrt) as Hsz.
    rewrite Hsz. eexists. eexists. split; [reflexivity|].
    split; [lia|]. destruct Hrt as (_ & Hperm & Hedges).
    split; [now rewrite Hto|].
    intros e He. destruct (Hnames e He) as [Hfn Htn].
    unfold edges_to_json in He. apply in_map_iff in He.
    destruct He as (x & <- & Hx). cbn [ej_from ej_to ej_from_name ej_to_name].
    destruct (Hedges x Hx). repeat split; try lia; reflexivity.
Qed.

(** ** The missing-data handlers compared *)

Lemma zsum_map_le {A} (f g : A -> Z) (l : list A) :
  (forall x, In x l -> f x <= g x) -> zsum (map f l) <= zsum (map g l).
Proof.
  unfold zsum. induction l as [|a l IH]; intros H; cbn [map fold_right]; [lia|].
  pose proof (H a (or_introl eq_refl)).
  pose proof (IH (fun x Hx => H x (or_intror Hx))). lia.
Qed.

Lemma zsum_map_add {A} (f g : A -> Z) (l : list A) :
  zsum (map (fun x => f x + g x) l) = zsum (map f l) + zsum (map g l).
Proof.
  unfold zsum. induction l as [|a l IH]; cbn [map fold_right]; [reflexivity|].
  rewrite IH. lia.
Qed.

Lemma zsum_map_ext {A} (f g : A -> Z) (l : list A) :
  (forall x, In x l -> f x = g x) -> zsum (map f l) = zsum (map g l).
Proof.
  intros H. apply Z.le_antisymm; apply zsum_map_le; intros x Hx;
    rewrite (H x Hx); lia.
Qed.

Lemma symmetric_entry_value pd h i j :
  In h named_handlers ->
  0 <= i < n_strains pd -> 0 <= j < n_strains pd ->
  get2 (compute_symmetric pd h) i j
  = if i =? j then 0%Q
    else inject_Z (policy_differences h (idx [] (profiles pd) i)
                     (idx [] (profiles pd) j) (n_genes pd)).
Proof.
  intros Hh Hi Hj. rewrite compute_symmetric_entries by assumption.
  rewrite !compute_pairwise_distance_policy by assumption.
  destruct (Z.eqb_spec i j), (Z.ltb_spec i j), (Z.ltb_spec j i);
    try lia; try reflexivity.
  now rewrite policy_differences_sym.
Qed.

Lemma policy_contribution_order a b :
  policy_contribution IGNORE a b <= policy_contribution TREAT_AS_ALLELE a b
  /\ policy_contribution TREAT_AS_ALLELE a b
     <= policy_contribution ABSOLUTE_DIFF a b.
Proof.
  unfold policy_contribution.
  destruct (missing a), (missing b), (a =? b); lia.
Qed.

Lemma policy_contribution_complete h h' a b :
  0 < a -> 0 < b -> policy_contribution h a b = policy_contribution h' a b.
Proof.
  intros Ha Hb. unfold policy_contribution, missing.
  destruct (Z.leb_spec a 0); [lia|]. destruct (Z.leb_spec b 0); [lia|].
  reflexivity.
Qed.

Lemma policy_contribution_triangle h a b c :
  h = TREAT_AS_ALLELE \/ h = ABSOLUTE_DIFF ->
  policy_contribution h a c
  <= policy_contribution h a b + policy_contribution h b c.
Proof.
  intros [->| ->]; unfold policy_contribution, missing;
    destruct (Z.leb_spec a 0), (Z.leb_spec b 0), (Z.leb_spec c 0);
    destruct (Z.eqb_spec a c), (Z.eqb_spec a b), (Z.eqb_spec b c); lia.
Qed.

Lemma inject_Z_le a b : a <= b -> (inject_Z a <= inject_Z b)%Q.
Proof. intros H. now rewrite <- Zle_Qle. Qed.

Lemma policy_differences_nonneg h p1 p2 G : 0 <= policy_differences h p1 p2 G.
Proof.
  unfold policy_differences.
  assert (zsum (map (fun _ : Z => 0) (zrange 0 G)) = 0) as E.
  { unfold zsum. induction (zrange 0 G); cbn [map fold_right]; lia. }
  eapply Z.le_trans; [|apply (zsum_map_le (fun _ => 0))].
  - rewrite E. lia.
  - intros k _.
    unfold policy_contribution.
    destruct (missing (idx 0 p1 k)), (missing (idx 0 p2 k)), h,
      (idx 0 p1 k =? idx 0 p2 k); lia.
Qed.

(** X16. For all strains [i], [j], the symmetric entry grows with the
    handler: IGNORE (and REMOVE_COLUMN) gives at most TREAT_AS_ALLELE, which
    gives at most ABSOLUTE_DIFF; and when neither profile has a missing
    locus, all four named handlers give the same entry. *)
Theorem handlers_ordered :
  forall pd i j,
    0 <= i < n_strains pd -> 0 <= j < n_strains pd ->
    (get2 (compute_symmetric pd IGNORE) i j
     <= get2 (compute_symmetric pd TREAT_AS_ALLELE) i j)%Q
    /\ (get2 (compute_symmetric pd TREAT_AS_ALLELE) i j
        <= get2 (compute_symmetric pd ABSOLUTE_DIFF) i j)%Q
    /\ (complete (n_genes pd) (idx [] (profiles pd) i) ->
        complete (n_genes pd) (idx [] (profiles pd) j) ->
        forall h h', In h named_handlers -> In h' named_handlers ->
          get2 (compute_symmetric pd h) i j = get2 (compute_symmetric pd h') i j).
Proof.
  intros pd i j Hi Hj.
  split; [|split].
  - rewrite !symmetric_entry_value by (cbn; tauto || assumption).
    destruct (i =? j); [apply Qle_refl|]. apply inject_Z_le.
    apply zsum_map_le. intros k _. apply policy_contribution_order.
  - rewrite !symmetric_entry_value by (cbn; tauto || assumption).
    destruct (i =? j); [apply Qle_refl|]. apply inject_Z_le.
    apply zsum_map_le. intros k _. apply policy_contribution_order.
  - intros Ci Cj h h' Hh Hh'.
    rewrite !symmetric_entry_value by assumption.
    destruct (i =? j); [reflexivity|]. f_equal.
    apply zsum_map_ext. intros k Hk. apply In_zrange in Hk.
    apply policy_contribution_complete; [now apply Ci|now apply Cj].
Qed.

Lemma handlers_ordered_witness :
  (get2 (compute_symmetric scenario4 IGNORE) 0 1
   <= get2 (compute_symmetric scenario4 TREAT_AS_ALLELE) 0 1)%Q
  /\ get2 (compute_symmetric scenario4 IGNORE) 1 2
     = get2 (compute_symmetric scenario4 ABSOLUTE_DIFF) 1 2.
Proof.
  assert (0 <= 0 < n_strains scenario4) as H0 by (cbn; lia).
  assert (0 <= 1 < n_strains scenario4) as H1 by (cbn; lia).
  assert (0 <= 2 < n_strains scenario4) as H2 by (cbn; lia).
  split.
  - apply (proj1 (handlers_ordered scenario4 0 1 H0 H1)).
  - apply (proj2 (proj2 (handlers_ordered scenario4 1 2 H1 H2))).
    + intros k Hk. change (n_genes scenario4) with 3 in Hk.
      assert (k = 0 \/ k = 1 \/ k = 2) as Hc by lia.
      destruct Hc as [Hc|[Hc|Hc]]; subst k; reflexivity.
    + intros k Hk. change (n_genes scenario4) with 3 in Hk.
      assert (k = 0 \/ k = 1 \/ k = 2) as Hc by lia.
      destruct Hc as [Hc|[Hc|Hc]]; subst k; reflexivity.
    + cbn; tauto.
    + cbn; tauto.
Defined.

Lemma symmetric_triangle_aux pd h i j k :
  h = TREAT_AS_ALLELE \/ h = ABSOLUTE_DIFF ->
  0 <= i < n_strains pd -> 0 <= j < n_strains pd -> 0 <= k < n_strains pd ->
  (get2 (compute_symmetric pd h) i k
   <= get2 (compute_symmetric pd h) i j + get2 (compute_symmetric pd h) j k)%Q.
Proof.
  intros Hh Hi Hj Hk.
  assert (In h named_handlers) as Hin by (destruct Hh; subst; cbn; tauto).
  rewrite !symmetric_entry_value by assumption.
  pose proof (policy_differences_nonneg h) as Hpos.
  destruct (Z.eqb_spec i k) as [Eik|Nik].
  - destruct (i =? j), (j =? k);
      rewrite <- ?inject_Z_plus; change 0%Q with (inject_Z 0);
      rewrite <- ?inject_Z_plus; apply inject_Z_le;
      repeat match goal with
             | |- context [policy_differences h ?a ?b ?G] =>
                 pose proof (Hpos a b G);
                 generalize dependent (policy_differences h a b G); intros
             end; lia.
  - destruct (Z.eqb_spec i j) as [Eij|Nij].
    + subst j. destruct (Z.eqb_spec i k); [contradiction|].
      rewrite Qplus_0_l. apply Qle_refl.
    + destruct (Z.eqb_spec j k) as [Ejk|Njk].
      * subst k. rewrite Qplus_0_r. apply Qle_refl.
      * rewrite <- inject_Z_plus. apply inject_Z_le.
        unfold policy_differences. rewrite <- zsum_map_add.
        apply zsum_map_le. intros x _. now apply policy_contribution_triangle.
Qed.

(** X17. Under TREAT_AS_ALLELE and under ABSOLUTE_DIFF the symmetric
    matrix satisfies the triangle inequality
    [D[i][k] <= D[i][j] + D[j][k]] for all strains.  Under IGNORE it need
    not: a strain without called alleles is at distance 0 from two strains
    that are at distance 2 from each other. *)
Theorem symmetric_triangle_inequality :
  (forall pd h i j k,
      h = TREAT_AS_ALLELE \/ h = ABSOLUTE_DIFF ->
      0 <= i < n_strains pd -> 0 <= j < n_strains pd ->
      0 <= k < n_strains pd ->
      (get2 (compute_symmetric pd h) i k
       <= get2 (compute_symmetric pd h) i j
          + get2 (compute_symmetric pd h) j k)%Q)
  /\ (get2 (compute_symmetric bridge_profiles IGNORE) 0 1 == 0
      /\ get2 (compute_symmetric bridge_profiles IGNORE) 1 2 == 0
      /\ get2 (compute_symmetric bridge_profiles IGNORE) 0 2 == 2)%Q.
Proof.
  split; [exact symmetric_triangle_aux|].
  repeat split; vm_compute; reflexivity.
Qed.

Lemma symmetric_triangle_inequality_witness :
  (get2 (compute_symmetric bridge_profiles ABSOLUTE_DIFF) 0 2
   <= get2 (compute_symmetric bridge_profiles ABSOLUTE_DIFF) 0 1
      + get2 (compute_symmetric bridge_profiles ABSOLUTE_DIFF) 1 2)%Q.
Proof.
  apply (proj1 symmetric_triangle_inequality bridge_profiles ABSOLUTE_DIFF 0 1 2);
    [now right|cbn; lia|cbn; lia|cbn; lia].
Defined.

(** ** What the interface does not check *)

(** X18. [compute_tree] reads its options only through three string
    comparisons.  Every matrix type other than "symmetric" is answered as
    "asymmetric", and then the missing-data handler plays no part; every
    heuristic other than "harmonic" is answered as "eBurst"; and for every
    method other than "MSTree" the heuristic plays no part.  Handler 1 is
    answered as handler 0. *)
Theorem compute_tree_options_unchecked :
  forall (json_profile : string -> json_input)
         (profile_json method matrix_type : string) (missing_handler : Z)
         (heuristic : string),
    (matrix_type <> "symmetric"%string ->
     forall missing_handler',
       compute_tree json_profile profile_json method matrix_type
         missing_handler heuristic
       = compute_tree json_profile profile_json method "asymmetric"
           missing_handler' heuristic)
    /\ (heuristic <> "harmonic"%string ->
        compute_tree json_profile profile_json method matrix_type
          missing_handler heuristic
        = compute_tree json_profile profile_json method matrix_type
            missing_handler "eBurst")
    /\ (method <> "MSTree"%string ->
        forall heuristic',
          compute_tree json_profile profile_json method matrix_type
            missing_handler heuristic
          = compute_tree json_profile profile_json method matrix_type
              missing_handler heuristic')
    /\ compute_tree json_profile profile_json method matrix_type 1 heuristic
       = compute_tree json_profile profile_json method matrix_type 0 heuristic.
Proof.
  intros json_profile profile_json method matrix_type missing_handler heuristic.
  split; [|split; [|split]].
  - intros Hm mh'. unfold compute_tree.
    destruct (parse_profile_json json_profile profile_json) as [pd|what];
      [|reflexivity].
    unfold compute_distances.
    rewrite (proj2 (String.eqb_neq _ _) Hm). reflexivity.
  - intros Hh. unfold compute_tree.
    destruct (parse_profile_json json_profile profile_json) as [pd|what];
      [|reflexivity].
    unfold build_tree. rewrite (proj2 (String.eqb_neq _ _) Hh). reflexivity.
  - intros Hm h'. unfold compute_tree.
    destruct (parse_profile_json json_profile profile_json) as [pd|what];
      [|reflexivity].
    unfold build_tree. rewrite (proj2 (String.eqb_neq _ _) Hm). reflexivity.
  - unfold compute_tree.
    destruct (parse_profile_json json_profile profile_json) as [pd|what];
      [|reflexivity].
    assert (compute_distances pd matrix_type 1 = compute_distances pd matrix_type 0)
      as ->; [|reflexivity].
    unfold compute_distances. destruct (String.eqb matrix_type "symmetric");
      [|reflexivity].
    change (MissingHandler_of_int 1) with REMOVE_COLUMN.
    change (MissingHandler_of_int 0) with IGNORE.
    unfold compute_symmetric.
    apply for_loop_ext. intros i m _. apply for_loop_ext. intros j m' _.
    now rewrite compute_pairwise_distance_remove_column.
Qed.

Lemma compute_tree_options_unchecked_witness :
  compute_tree scenario1_json request_text "MSTree" "euclidean" 3 "harmonic"
  = compute_tree scenario1_json request_text "MSTree" "asymmetric" 0 "harmonic"
  /\ compute_tree scenario1_json request_text "MSTree" "symmetric" 0 "random"
     = compute_tree scenario1_json request_text "MSTree" "symmetric" 0 "eBurst"
  /\ compute_tree scenario1_json request_text "MSTreeV2" "symmetric" 0 "harmonic"
     = compute_tree scenario1_json request_text "MSTreeV2" "symmetric" 0 "eBurst".
Proof.
  split; [|split].
  - apply (proj1 (compute_tree_options_unchecked scenario1_json request_text
                    "MSTree" "euclidean" 3 "harmonic")). discriminate.
  - apply (proj1 (proj2 (compute_tree_options_unchecked scenario1_json
                           request_text "MSTree" "symmetric" 0 "random"))).
    discriminate.
  - apply (proj1 (proj2 (proj2 (compute_tree_options_unchecked scenario1_json
                                  request_text "MSTreeV2" "symmetric" 0
                                  "harmonic")))).
    discriminate.
Defined.

Lemma compute_distances_diagonal pd matrix_type missing_handler i :
  0 <= i < n_strains pd ->
  get2 (compute_distances pd matrix_type missing_handler) i i = 0%Q.
Proof.
  intros Hi. unfold compute_distances.
  destruct (String.eqb matrix_type "symmetric").
  - rewrite compute_symmetric_entries by assumption.
    now rewrite !Z.ltb_irrefl.
  - rewrite compute_asymmetric_entries by assumption. now rewrite Z.eqb_refl.
Qed.

(** X19. [compute_distance_matrix] fails when the JSON library throws
    while the request is parsed, with the message of the exception.  For a
    request that parses into a table with a profile for every strain, none
    shorter than the first, it answers with the strain names as given,
    their number [N], and a matrix of [N] rows of [N] entries with a zero
    diagonal and every entry between 0 and the length [G] of the first
    profile; for the matrix type "symmetric" the matrix is symmetric. *)
Theorem compute_distance_matrix_response :
  forall (json_profile : string -> json_input)
         (profile_json matrix_type : string) (missing_handler : Z),
    (forall what,
        json_profile profile_json = JsonThrows what ->
        compute_distance_matrix json_profile profile_json matrix_type
          missing_handler = Throw what)
    /\ (forall strains profiles,
          json_profile profile_json = JsonProfile strains profiles ->
          table_in_range strains profiles ->
          exists D,
            compute_distance_matrix json_profile profile_json matrix_type
              missing_handler = Ok (D, strains, size strains)
            /\ square (size strains) D
            /\ (forall i, 0 <= i < size strains -> get2 D i i = 0%Q)
            /\ (forall i j, 0 <= i < size strains -> 0 <= j < size strains ->
                  (0 <= get2 D i j)%Q
                  /\ (get2 D i j <= inject_Z (size (hd [] profiles)))%Q)
            /\ (matrix_type = "symmetric"%string ->
                forall i j, 0 <= i < size strains -> 0 <= j < size strains ->
                  get2 D i j = get2 D j i)).
Proof.
  intros json_profile profile_json matrix_type missing_handler. split.
  - intros what Hparse. unfold compute_distance_matrix, parse_profile_json.
    now rewrite Hparse.
  - intros strains profiles Hparse _.
    unfold compute_distance_matrix, parse_profile_json. rewrite Hparse.
    set (pd := mkProfileData strains profiles (size strains)
                 match profiles with [] => 0 | p :: _ => size p end).
    assert (n_genes pd = size (hd [] profiles)) as HG
      by (unfold pd; destruct profiles; reflexivity).
    change (strain_names pd) with strains.
    change (n_strains pd) with (size strains).
    eexists. split; [reflexivity|].
    destruct (compute_distances_shape pd matrix_type missing_handler)
      as [Hsq Hent].
    { apply size_nonneg. }
    { rewrite HG. apply size_nonneg. }
    split; [exact Hsq|]. split; [|split].
    + intros i Hi. now apply compute_distances_diagonal.
    + intros i j Hi Hj. rewrite <- HG. now apply Hent.
    + intros -> i j Hi Hj. unfold compute_distances.
      change (String.eqb "symmetric" "symmetric") with true. cbv iota.
      rewrite !compute_symmetric_entries by assumption.
      destruct (Z.ltb_spec i j), (Z.ltb_spec j i); try lia; reflexivity.
Qed.

Lemma compute_distance_matrix_response_witness :
  compute_distance_matrix throwing_json request_text "symmetric" 0
  = Throw "parse error"%string
  /\ exists D,
       compute_distance_matrix scenario1_json request_text "symmetric" 0
       = Ok (D, three_names, 3)
       /\ square 3 D.
Proof.
  split.
  - apply (proj1 (compute_distance_matrix_response throwing_json request_text
                    "symmetric" 0)). reflexivity.
  - destruct (proj2 (compute_distance_matrix_response scenario1_json
                       request_text "symmetric" 0)
                three_names [[1; 2; 3]; [1; 2; 4]; [1; 3; 3]] eq_refl)
      as (D & HD & Hsq & _).
    + split; [reflexivity|]. change (size three_names) with 3. intros i Hi.
      assert (i = 0 \/ i = 1 \/ i = 2) as Hc by lia.
      destruct Hc as [Hc|[Hc|Hc]]; subst i; reflexivity.
    + exists D. split; [exact HD|exact Hsq].
Defined.

(** X20. A request without strains is answered with the failure envelope
    under method MSTree, for every matrix type, handler and heuristic: the
    distance matrix is empty and the builder throws before it builds. *)
Theorem compute_tree_mstree_no_strains :
  forall (json_profile : string -> json_input)
         (profile_json matrix_type : string) (missing_handler : Z)
         (heuristic : string) (profiles : list (list Z)),
    json_profile profile_json = JsonProfile [] profiles ->
    exists error,
      compute_tree json_profile profile_json "MSTree" matrix_type
        missing_handler heuristic = Some (Failure error).
Proof.
  intros json_profile profile_json matrix_type missing_handler heuristic
         profiles Hparse.
  unfold compute_tree, parse_profile_json. rewrite Hparse.
  change (size (@nil string)) with 0. rewrite no_strains_distances.
  eexists. reflexivity.
Qed.

Lemma compute_tree_mstree_no_strains_witness :
  exists error,
    compute_tree no_strains_json request_text "MSTree" "symmetric" 0 "eBurst"
    = Some (Failure error).
Proof.
  apply (compute_tree_mstree_no_strains no_strains_json request_text
           "symmetric" 0 "eBurst" []). reflexivity.
Defined.

(** * The JavaScript shell *)

Lemma find_none_iff {A} (P : A -> bool) (l : list A) :
  find P l = None <-> forall x, In x l -> P x = false.
Proof.
  split.
  - intros H x Hx. now apply (find_none P l H).
  - induction l as [|a l IH]; intros H; [reflexivity|]. cbn [find].
    rewrite (H a (or_introl eq_refl)). apply IH. intros x Hx. apply H. now right.
Qed.

Lemma uniform_rows (profiles : list (list Z)) :
  1 <= size profiles ->
  (find (fun i => negb (size (idx [] profiles i) =? size (idx [] profiles 0)))
        (zrange 1 (size profiles)) = None
   <-> exists G, Forall (fun p => size p = G) profiles).
Proof.
  intros Hn. rewrite find_none_iff. split.
  - intros H. exists (size (idx [] profiles 0)). apply Forall_forall.
    intros p Hp. apply (In_nth _ _ []) in Hp. destruct Hp as (k & Hk & <-).
    destruct k as [|k]; [reflexivity|].
    specialize (H (Z.of_nat (S k))).
    unfold idx in H. rewrite Nat2Z.id in H.
    assert (In (Z.of_nat (S k)) (zrange 1 (size profiles))) as Hin
      by (apply In_zrange; unfold size; lia).
    specialize (H Hin). apply negb_false_iff, Z.eqb_eq in H. exact H.
  - intros [G HG] i Hi. apply In_zrange in Hi. apply negb_false_iff, Z.eqb_eq.
    rewrite Forall_forall in HG.
    rewrite (HG (idx [] profiles i)), (HG (idx [] profiles 0)); [reflexivity| |];
      unfold idx; apply nth_In; unfold size in *; lia.
Qed.

Lemma size_zero_nil {A} (l : list A) : size l = 0 <-> l = [].
Proof.
  split; [|now intros ->]. destruct l; [reflexivity|].
  unfold size. cbn [List.length]. lia.
Qed.

Lemma validateProfileData_valid data :
  FileHandler.valid (FileHandler.validateProfileData data) = true
  <-> exists strains profiles,
        data = profile_object strains profiles
        /\ well_formed_profile strains profiles.
Proof.
  unfold FileHandler.validateProfileData, well_formed_profile, profile_object.
  destruct data as [[[strains|] [profiles|]]|]; cbn [FileHandler.valid];
    try (split; [discriminate|intros (s & p & H & _); discriminate]).
  destruct (Z.eqb_spec (size strains) 0) as [E0|N0].
  { cbn [FileHandler.valid]. split; [discriminate|].
    intros (s & p & H & Hne & _). injection H as <- <-.
    apply size_zero_nil in E0. contradiction. }
  destruct (Z.eqb_spec (size strains) (size profiles)) as [Es|Ns]; cbn [negb].
  2:{ cbn [FileHandler.valid]. split; [discriminate|].
      intros (s & p & H & _ & Hsz & _). injection H as <- <-. lia. }
  pose proof (size_nonneg strains) as Hpos.
  pose proof (uniform_rows profiles ltac:(lia)) as Hu.
  destruct (find _ (zrange 1 (size profiles))) as [i|] eqn:Ef;
    cbn [FileHandler.valid].
  - split; [discriminate|].
    intros (s & p & H & _ & _ & HG). injection H as <- <-.
    apply Hu in HG. discriminate.
  - split; [|reflexivity]. intros _. exists strains, profiles.
    split; [reflexivity|]. split; [|split; [lia|now apply Hu]].
    intros ->. now apply N0.
Qed.

(** X21. [FileHandler.validateProfileData] answers [valid: true] exactly
    for the data objects that have both arrays, at least one strain, as
    many profiles as strains, and profiles of one length; it then reports
    no error, and otherwise it reports one. *)
Theorem validateProfileData_characterised :
  forall data,
    (FileHandler.valid (FileHandler.validateProfileData data) = true
     <-> exists strains profiles,
           data = profile_object strains profiles
           /\ well_formed_profile strains profiles)
    /\ (FileHandler.error (FileHandler.validateProfileData data) = None
        <-> FileHandler.valid (FileHandler.validateProfileData data) = true).
Proof.
  intros data. split; [apply validateProfileData_valid|].
  unfold FileHandler.validateProfileData.
  destruct data as [[[strains|] [profiles|]]|];
    cbn [FileHandler.valid FileHandler.error];
    try (split; discriminate).
  destruct (size strains =? 0); cbn [FileHandler.valid FileHandler.error];
    [split; discriminate|].
  destruct (negb (size strains =? size profiles));
    cbn [FileHandler.valid FileHandler.error]; [split; discriminate|].
  destruct (find _ _); cbn [FileHandler.valid FileHandler.error];
    [split; discriminate|split; reflexivity].
Qed.

Lemma includes_In l x : GrapeTreeWASM.includes l x = true <-> In x l.
Proof.
  unfold GrapeTreeWASM.includes. rewrite existsb_exists. split.
  - intros (y & Hy & E). apply String.eqb_eq in E. now subst.
  - intros H. exists x. split; [assumption|apply String.eqb_refl].
Qed.

Lemma validateTreeOptions_accepts data method matrix missing heuristic :
  GrapeTreeWASM._validateTreeOptions data method matrix missing heuristic = Ok tt
  <-> exists strains profiles,
        data = profile_object strains profiles
        /\ strains <> [] /\ size profiles = size strains
        /\ In method GrapeTreeWASM.validMethods
        /\ In matrix GrapeTreeWASM.validMatrix
        /\ 0 <= missing <= 3
        /\ In heuristic GrapeTreeWASM.validHeuristics.
Proof.
  unfold GrapeTreeWASM._validateTreeOptions, profile_object.
  destruct data as [[[strains|] [profiles|]]|];
    try (split; [discriminate|intros (s & p & H & _); discriminate]).
  destruct (Z.eqb_spec (size strains) 0) as [E0|N0].
  { split; [discriminate|]. intros (s & p & H & Hne & _). injection H as <- <-.
    apply size_zero_nil in E0. contradiction. }
  destruct (Z.eqb_spec (size profiles) (size strains)) as [Es|Ns]; cbn [negb].
  2:{ split; [discriminate|]. intros (s & p & H & _ & Hsz & _).
      injection H as <- <-. contradiction. }
  destruct (GrapeTreeWASM.includes GrapeTreeWASM.validMethods method) eqn:Em;
    cbn [negb].
  2:{ split; [discriminate|]. intros (s & p & _ & _ & _ & H & _).
      apply includes_In in H. congruence. }
  destruct (GrapeTreeWASM.includes GrapeTreeWASM.validMatrix matrix) eqn:Ex;
    cbn [negb].
  2:{ split; [discriminate|]. intros (s & p & _ & _ & _ & _ & H & _).
      apply includes_In in H. congruence. }
  destruct (Z.ltb_spec missing 0) as [Hl|Hl]; cbn [orb].
  { split; [discriminate|]. intros (s & p & _ & _ & _ & _ & _ & H & _). lia. }
  destruct (Z.ltb_spec 3 missing) as [Hh|Hh].
  { split; [discriminate|]. intros (s & p & _ & _ & _ & _ & _ & H & _). lia. }
  destruct (GrapeTreeWASM.includes GrapeTreeWASM.validHeuristics heuristic) eqn:Eh;
    cbn [negb].
  2:{ split; [discriminate|]. intros (s & p & _ & _ & _ & _ & _ & _ & H).
      apply includes_In in H. congruence. }
  split; [|reflexivity]. intros _. exists strains, profiles.
  repeat split; try assumption; try lia; try (now apply includes_In).
  intros ->. now apply N0.
Qed.

(** X22. [_validateTreeOptions] lets a call pass exactly when the data
    object has both arrays, at least one strain and as many profiles as
    strains, the method is one of MSTree, MSTreeV2, NJ, the matrix type is
    symmetric or asymmetric, the handler is in 0..3 and the heuristic is
    eBurst or harmonic.  It does not look at the lengths of the profiles:
    data whose second profile is longer than the first pass, while
    [FileHandler.validateProfileData] rejects them. *)
Theorem validateTreeOptions_characterised :
  (forall data method matrix missing heuristic,
      GrapeTreeWASM._validateTreeOptions data method matrix missing heuristic
      = Ok tt
      <-> exists strains profiles,
            data = profile_object strains profiles
            /\ strains <> [] /\ size profiles = size strains
            /\ In method GrapeTreeWASM.validMethods
            /\ In matrix GrapeTreeWASM.validMatrix
            /\ 0 <= missing <= 3
            /\ In heuristic GrapeTreeWASM.validHeuristics)
  /\ GrapeTreeWASM._validateTreeOptions ragged_data "MSTree" "symmetric" 0 "eBurst"
     = Ok tt
  /\ FileHandler.valid (FileHandler.validateProfileData ragged_data) = false.
Proof.
  split; [exact validateTreeOptions_accepts|]. split; reflexivity.
Qed.

(** X23. [computeTree] of the loader, on an initialised module and data
    that the engine reads back as written, with at least one strain, as
    many profiles as strains and profiles of one length.  With method NJ
    the validator lets the call pass and the [Error] thrown carries the
    engine's message "Unknown method: NJ".  With method MSTree and the
    other options left to their defaults, it returns an object with
    [nNodes = N], [nEdges = N - 1] and [N - 1] edges.  On a module that is
    not initialised every call throws before anything is validated. *)
Theorem computeTree_through_the_loader :
  forall (stringify : option ProfileObject -> string)
         (json_profile : string -> json_input)
         (strains : list string) (profiles : list (list Z)),
    json_profile (stringify (profile_object strains profiles))
    = JsonProfile strains profiles ->
    (well_formed_profile strains profiles ->
     GrapeTreeWASM.computeTree true stringify json_profile
       (options_for (profile_object strains profiles) "NJ")
     = Some (Throw "Unknown method: NJ"))
    /\ (well_formed_profile strains profiles ->
        (forall p, In p profiles -> size p < 2 ^ 31) ->
        exists r,
          GrapeTreeWASM.computeTree true stringify json_profile
            (options_for (profile_object strains profiles) "MSTree")
          = Some (Ok r)
          /\ GrapeTreeWASM.nNodes r = size strains
          /\ GrapeTreeWASM.nEdges r = size strains - 1
          /\ size (GrapeTreeWASM.edges r) = size strains - 1)
    /\ (forall options,
          GrapeTreeWASM.computeTree false stringify json_profile options
          = Some (Throw "WASM module not initialized. Call init() first.")).
Proof.
  intros stringify json_profile strains profiles Hjson.
  split; [|split].
  - intros (Hne & Hsz & _). unfold GrapeTreeWASM.computeTree, options_for.
    cbn [negb GrapeTreeWASM.method GrapeTreeWASM.matrix GrapeTreeWASM.missing
         GrapeTreeWASM.heuristic GrapeTreeWASM.data GrapeTreeWASM.default].
    assert (GrapeTreeWASM._validateTreeOptions (profile_object strains profiles)
              "NJ" "asymmetric" 0 "harmonic" = Ok tt) as ->.
    { apply validateTreeOptions_accepts. exists strains, profiles.
      repeat split; try assumption; try lia; cbn; tauto. }
    unfold compute_tree, parse_profile_json. rewrite Hjson. reflexivity.
  - intros Hwf Hint. unfold GrapeTreeWASM.computeTree, options_for.
    cbn [negb GrapeTreeWASM.method GrapeTreeWASM.matrix GrapeTreeWASM.missing
         GrapeTreeWASM.heuristic GrapeTreeWASM.data GrapeTreeWASM.default].
    assert (GrapeTreeWASM._validateTreeOptions (profile_object strains profiles)
              "MSTree" "asymmetric" 0 "harmonic" = Ok tt) as ->.
    { apply validateTreeOptions_accepts. exists strains, profiles.
      destruct Hwf as (Hne & Hsz & _).
      repeat split; try assumption; try lia; cbn; tauto. }
    destruct (compute_tree_mstree_aux json_profile
                (stringify (profile_object strains profiles))
                "asymmetric" 0 "harmonic" strains profiles Hjson Hwf Hint)
      as (newick & edges & -> & Hsize & _).
    eexists. split; [reflexivity|]. cbn. repeat split; try reflexivity.
    exact Hsize.
  - intros options. reflexivity.
Qed.

Lemma computeTree_through_the_loader_witness :
  GrapeTreeWASM.computeTree true request_stringify scenario1_json
    (options_for scenario1_data "NJ")
  = Some (Throw "Unknown method: NJ")
  /\ exists r,
       GrapeTreeWASM.computeTree true request_stringify scenario1_json
         (options_for scenario1_data "MSTree")
       = Some (Ok r)
       /\ GrapeTreeWASM.nNodes r = 3 /\ GrapeTreeWASM.nEdges r = 2.
Proof.
  destruct (computeTree_through_the_loader request_stringify scenario1_json
              ["A"; "B"; "C"]%string [[1; 2; 3]; [1; 2; 4]; [1; 3; 3]] eq_refl)
    as (Hnj & Hmst & _).
  split.
  - apply Hnj. split; [discriminate|]. split; [reflexivity|].
    exists 3. repeat constructor.
  - destruct Hmst as (r & Hr & Hn & He & _).
    + split; [discriminate|]. split; [reflexivity|].
      exists 3. repeat constructor.
    + intros p [<-|[<-|[<-|[]]]]; reflexivity.
    + exists r. split; [exact Hr|]. split; [exact Hn|exact He].
Defined.

(** * MSTreeV2 on every matrix *)

(** ** Phase C1 *)

Lemma incoming_scan_from D to_ :
  snd (fst (MSTreeV2.incoming_scan D to_)) = -1
  \/ (0 <= snd (fst (MSTreeV2.incoming_scan D to_)) < size D
      /\ snd (fst (MSTreeV2.incoming_scan D to_)) <> to_).
Proof.
  unfold MSTreeV2.incoming_scan, MSTreeV2.n_nodes_.
  assert (snd (fst (for_loop 0 (size D) (MSTreeV2.incoming_step D to_)
                      (DBL_MAX, -1, (-1)%Q))) = -1
          \/ (0 <= snd (fst (for_loop 0 (size D) (MSTreeV2.incoming_step D to_)
                               (DBL_MAX, -1, (-1)%Q))) < size D
              /\ snd (fst (for_loop 0 (size D) (MSTreeV2.incoming_step D to_)
                             (DBL_MAX, -1, (-1)%Q))) <> to_)) as H; [|exact H].
  apply (for_loop_inv
           (fun k st => snd (fst st) = -1
                        \/ (0 <= snd (fst st) < k /\ snd (fst st) <> to_))
           0 (size D) _ _ (size_nonneg D)).
  - now left.
  - intros k [[m b] s] Hk Hinv. cbn [fst snd] in Hinv.
    unfold MSTreeV2.incoming_step.
    destruct (Z.eqb_spec k to_) as [E|N]; cbn [fst snd].
    + destruct Hinv as [Hinv|Hinv]; [now left|right; lia].
    + destruct (Qltb (get2 D k to_) m); cbn [fst snd]; [right; lia|].
      destruct (Qltb (Qabs (fsub (get2 D k to_) m)) EPS_double); cbn [fst snd].
      * destruct (Qltb s (MSTreeV2.harmonic_mean_score D k)); cbn [fst snd];
          [right; lia|].
        destruct Hinv as [Hinv|Hinv]; [now left|right; lia].
      * destruct Hinv as [Hinv|Hinv]; [now left|right; lia].
Qed.

Lemma incoming_edge_shape D to_ :
  incoming_edge D to_ = []
  \/ exists f d, incoming_edge D to_ = [mkEdge f to_ d]
                 /\ 0 <= f < size D /\ f <> to_.
Proof.
  unfold incoming_edge. pose proof (incoming_scan_from D to_) as H.
  destruct (MSTreeV2.incoming_scan D to_) as [[m b] s]. cbn [fst snd] in H.
  destruct (Z.eqb_spec b (-1)) as [E|N]; cbn [negb]; [now left|].
  right. exists b, m. split; [reflexivity|]. destruct H; [contradiction|assumption].
Qed.

Lemma phase1_picked D :
  picked (size D) (MSTreeV2.find_minimum_incoming_edges D).
Proof.
  rewrite find_minimum_incoming_edges_rounds.
  assert (forall l, NoDup l -> (forall x, In x l -> 1 <= x < size D) ->
            NoDup (map to (flat_map (incoming_edge D) l))
            /\ (forall x, In x (map to (flat_map (incoming_edge D) l)) -> In x l)
            /\ forall e, In e (flat_map (incoming_edge D) l) ->
                 1 <= to e < size D /\ 0 <= from e < size D /\ from e <> to e)
    as H.
  { induction l as [|a l IH]; intros Hnd Hl.
    - cbn. split; [constructor|]. split; intros ? [].
    - inversion Hnd as [|? ? Ha Hnd']; subst.
      destruct (IH Hnd' (fun x Hx => Hl x (or_intror Hx))) as (IH1 & IH2 & IH3).
      cbn [flat_map].
      destruct (incoming_edge_shape D a) as [->|(f & d & -> & Hf & Hne)].
      + cbn [app]. split; [assumption|]. split; [|assumption].
        intros x Hx. right. now apply IH2.
      + cbn [app map to]. split; [|split].
        * constructor; [|assumption]. intros Hin. apply Ha. now apply IH2.
        * intros x [<-|Hx]; [now left|right; now apply IH2].
        * intros e [<-|He]; [|now apply IH3]. cbn [to from].
          split; [apply Hl; now left|]. split; assumption. }
  destruct (H (zrange 1 (size D)) (NoDup_zrange 1 (size D))) as (H1 & _ & H3).
  - intros x Hx. now apply In_zrange in Hx.
  - split; assumption.
Qed.

(** ** Walking the picked edges backwards *)

Lemma steps_trans P u v w : steps P u v -> steps P v w -> steps P u w.
Proof.
  induction 1 as [|e u v He Hto Hs IH]; intros H; [assumption|].
  apply (steps_edge P e); auto.
Qed.

Lemma steps_incl P P' u w : incl P P' -> steps P u w -> steps P' u w.
Proof.
  intros Hincl. induction 1 as [|e u w He Hto Hs IH]; [constructor|].
  apply (steps_edge P' e); auto.
Qed.

Lemma edge_unique (P : list Edge) e e' :
  NoDup (map to P) -> In e P -> In e' P -> to e = to e' -> e = e'.
Proof.
  induction P as [|a P IH]; intros Hnd He He' Hto; [destruct He|].
  cbn [map] in Hnd. inversion Hnd as [|? ? Ha Hnd']; subst.
  destruct He as [<-|He], He' as [<-|He']; try reflexivity.
  - exfalso. apply Ha. rewrite Hto. now apply in_map.
  - exfalso. apply Ha. rewrite <- Hto. now apply in_map.
  - now apply IH.
Qed.

Lemma steps_det P u w w' :
  NoDup (map to P) -> steps P u w -> steps P u w' ->
  steps P w w' \/ steps P w' w.
Proof.
  intros Hnd H. revert w'. induction H as [|e u w He Hto Hs IH]; intros w' H'.
  - now left.
  - inversion H' as [|e' ? ? He' Hto' Hs']; subst.
    + right. apply (steps_edge P e); auto.
    + assert (e = e') by (apply (edge_unique P); auto; congruence).
      subst e'. now apply IH.
Qed.

Lemma steps_sink P u w :
  (forall e, In e P -> to e <> u) -> steps P u w -> w = u.
Proof.
  intros Hsink H. inversion H as [|e ? ? He Hto _]; subst; [reflexivity|].
  exfalso. now apply (Hsink e).
Qed.

Lemma merge_refl P u : merge P u u.
Proof. exists u. split; constructor. Qed.

Lemma merge_sym P u v : merge P u v -> merge P v u.
Proof. intros (w & H1 & H2). exists w. now split. Qed.

Lemma merge_trans P u v x :
  NoDup (map to P) -> merge P u v -> merge P v x -> merge P u x.
Proof.
  intros Hnd (w & Hu & Hv) (w' & Hv' & Hx).
  destruct (steps_det P v w w' Hnd Hv Hv') as [H|H].
  - exists w'. split; [now apply (steps_trans P u w)|assumption].
  - exists w. split; [assumption|now apply (steps_trans P x w')].
Qed.

Lemma merge_incl P P' u v : incl P P' -> merge P u v -> merge P' u v.
Proof.
  intros Hincl (w & H1 & H2). exists w.
  split; now apply (steps_incl P P').
Qed.

(** ** The union-find forest *)

Lemma find_root_spec n P bound rank :
  NoDup (map to P) ->
  forall fuel parent node,
    uf_inv n P bound rank parent ->
    0 <= node < n ->
    (bound - rank node < fuel)%nat ->
    exists parent' r,
      MSTreeV2.find_root fuel parent node = Some (parent', r)
      /\ uf_inv n P bound rank parent'
      /\ 0 <= r < n
      /\ idx 0 parent' r = r
      /\ (rank node <= rank r)%nat
      /\ merge P node r
      /\ forall x, 0 <= x < n -> idx 0 parent x = x -> idx 0 parent' x = x.
Proof.
  intros Hnd. induction fuel as [|fuel IH]; intros parent node Hinv Hnode Hfuel;
    [lia|].
  cbn [MSTreeV2.find_root].
  destruct Hinv as [Hsize Hall].
  destruct (Hall node Hnode) as (Hp & Hrank & Hclimb & Hmerge).
  destruct (Z.eqb_spec (idx 0 parent node) node) as [E|N]; cbn [negb].
  - exists parent, (idx 0 parent node). rewrite E.
    split; [reflexivity|]. split; [split; assumption|].
    split; [assumption|]. split; [assumption|]. split; [lia|].
    split; [apply merge_refl|]. auto.
  - specialize (Hclimb N).
    destruct (IH parent (idx 0 parent node) (conj Hsize Hall) Hp)
      as (parent1 & r & -> & [Hsize1 Hall1] & Hr & Hroot & Hrk & Hm & Hkeep);
      [destruct (Hall (idx 0 parent node) Hp) as (_ & Hb & _); lia|].
    assert (merge P node r) as Hnr
      by (apply (merge_trans P node (idx 0 parent node)); assumption).
    assert (r <> node) as Hrn by (intros ->; lia).
    exists (upd parent1 node r), r.
    rewrite idx_upd_eq by lia.
    split; [reflexivity|]. split; [|split; [assumption|split]].
    + split; [now rewrite size_upd|]. intros i Hi.
      destruct (Z.eq_dec node i) as [->|Hne].
      * rewrite idx_upd_eq by lia.
        destruct (Hall1 i Hi) as (_ & Hb & _).
        split; [assumption|]. split; [assumption|]. split; [lia|assumption].
      * rewrite idx_upd_neq by lia. now apply Hall1.
    + now rewrite idx_upd_neq by lia.
    + split; [lia|]. split; [assumption|].
      intros x Hx Hxroot. destruct (Z.eq_dec node x) as [->|Hne];
        [contradiction|].
      rewrite idx_upd_neq by lia. now apply Hkeep.
Qed.

(** ** Marking a cycle *)

Lemma set_mem_In x s : set_mem x s = true <-> In x s.
Proof.
  unfold set_mem. rewrite existsb_exists. split.
  - intros (y & Hy & E). apply Z.eqb_eq in E. now subst.
  - intros H. exists x. split; [assumption|apply Z.eqb_refl].
Qed.

Lemma set_mem_false x s : set_mem x s = false <-> ~ In x s.
Proof.
  rewrite <- set_mem_In. destruct (set_mem x s); split; congruence.
Qed.

Lemma set_insert_In x y s : In y (set_insert x s) <-> y = x \/ In y s.
Proof.
  unfold set_insert. destruct (set_mem x s) eqn:E.
  - apply set_mem_In in E. split; [auto|]. intros [->|H]; assumption.
  - rewrite in_app_iff. cbn. split; [intros [H|[H|[]]]|intros [H|H]]; auto.
Qed.

Lemma set_insert_new x s : ~ In x s -> set_insert x s = s ++ [x].
Proof.
  intros H. unfold set_insert. apply set_mem_false in H. now rewrite H.
Qed.

Lemma NoDup_range_length (l : list Z) n :
  NoDup l -> (forall x, In x l -> 0 <= x < n) ->
  (List.length l <= Z.to_nat n)%nat.
Proof.
  intros Hnd Hr.
  replace (Z.to_nat n) with (List.length (zrange 0 n))
    by (rewrite zrange_length; lia).
  apply NoDup_incl_length; [assumption|].
  intros x Hx. apply In_zrange. now apply Hr.
Qed.

Lemma find_picked n es e u :
  picked n es -> In e es -> to e = u ->
  find (fun x => to x =? u) es = Some e.
Proof.
  intros [Hnd _] He <-. revert He.
  induction es as [|a es IH]; intros He; [destruct He|].
  cbn [map] in Hnd. inversion Hnd as [|? ? Ha Hnd']; subst.
  cbn [find]. destruct (Z.eqb_spec (to a) (to e)) as [E|N].
  - destruct He as [->|He]; [reflexivity|].
    exfalso. apply Ha. rewrite E. now apply in_map.
  - destruct He as [->|He]; [contradiction|]. now apply IH.
Qed.

Lemma find_picked_none (es : list Edge) u :
  (forall e, In e es -> to e <> u) -> find (fun x => to x =? u) es = None.
Proof.
  intros H. apply find_none_iff. intros x Hx. apply Z.eqb_neq. now apply H.
Qed.

Section MarkWalk.

Variable n : Z.
Variable es : list Edge.
Variable cid0 : list Z.
Variable id : Z.
Variable start : Z.

(** The vertices that the walk stays in. *)
Variable C : Z -> Prop.

Hypothesis Hpicked : picked n es.
Hypothesis Hclosed :
  forall u, C u -> exists e, In e es /\ to e = u /\ C (from e).

Lemma C_range u : C u -> 0 <= u < n.
Proof.
  intros Hu. destruct (Hclosed u Hu) as (e & He & <- & _).
  destruct Hpicked as [_ Hr]. destruct (Hr e He). lia.
Qed.

Lemma mark_walk :
  forall fuel current visited cid,
    C current ->
    (forall x, In x visited -> C x) ->
    NoDup visited ->
    size cid = n ->
    (forall u, 0 <= u < n ->
       idx 0 cid u = if set_mem u visited then id else idx 0 cid0 u) ->
    (forall u, In u visited -> forall e, In e es -> to e = u ->
       In (from e) visited \/ from e = current) ->
    (visited = [] -> current = start) ->
    (visited <> [] -> In start visited) ->
    (Z.to_nat n - List.length visited < fuel)%nat ->
    exists cid' W,
      MSTreeV2.mark_cycle_loop fuel es current visited cid id = Some cid'
      /\ size cid' = n
      /\ In start W
      /\ (forall x, In x W -> C x)
      /\ (forall u, 0 <= u < n ->
            idx 0 cid' u = if set_mem u W then id else idx 0 cid0 u)
      /\ (forall u, In u W -> forall e, In e es -> to e = u -> In (from e) W).
Proof.
  induction fuel as [|fuel IH];
    intros current visited cid Hc Hvis Hnd Hsize Hcid Hfront Hs0 Hs1 Hfuel;
    [lia|].
  cbn [MSTreeV2.mark_cycle_loop].
  destruct (set_mem current visited) eqn:Emem.
  - apply set_mem_In in Emem. exists cid, visited.
    split; [reflexivity|]. split; [assumption|].
    split; [apply Hs1; intros ->; destruct Emem|].
    split; [assumption|]. split; [assumption|].
    intros u Hu e He Hto. destruct (Hfront u Hu e He Hto) as [H|H];
      [assumption|now rewrite H].
  - apply set_mem_false in Emem.
    rewrite (set_insert_new current visited Emem).
    destruct (Hclosed current Hc) as (ec & Hec & Htoc & Hcfrom).
    rewrite (find_picked n es ec current Hpicked Hec Htoc).
    pose proof (C_range current Hc) as Hcr.
    assert (NoDup (visited ++ [current])) as Hnd'.
    { apply NoDup_app; [assumption|repeat constructor; intros []|].
      intros x Hx [<-|[]]. contradiction. }
    assert (forall x, In x (visited ++ [current]) -> C x) as Hvis'.
    { intros x Hx. apply in_app_or in Hx. destruct Hx as [Hx|[<-|[]]]; auto. }
    pose proof (NoDup_range_length (visited ++ [current]) n Hnd'
                  (fun x Hx => C_range x (Hvis' x Hx))) as Hlen.
    rewrite length_app in Hlen. cbn [List.length] in Hlen.
    destruct (IH (from ec) (visited ++ [current]) (upd cid current id))
      as (cid' & W & HW); try assumption.
    + now rewrite size_upd.
    + intros u Hu. destruct (Z.eq_dec current u) as [->|Hne].
      * rewrite idx_upd_eq by lia.
        assert (set_mem u (visited ++ [u]) = true) as ->; [|reflexivity].
        apply set_mem_In, in_or_app. right. now left.
      * rewrite idx_upd_neq by lia. rewrite (Hcid u Hu).
        assert (set_mem u (visited ++ [current]) = set_mem u visited) as ->;
          [|reflexivity].
        destruct (set_mem u visited) eqn:E.
        -- apply set_mem_In. apply set_mem_In in E. apply in_or_app. now left.
        -- apply set_mem_false. apply set_mem_false in E.
           intros Hin. apply in_app_or in Hin.
           destruct Hin as [Hin|[Hin|[]]]; [contradiction|congruence].
    + intros u Hu e He Hto. apply in_app_or in Hu.
      destruct Hu as [Hu|[<-|[]]].
      * destruct (Hfront u Hu e He Hto) as [H|H].
        -- left. apply in_or_app. now left.
        -- left. apply in_or_app. right. left. now rewrite H.
      * right. f_equal. destruct Hpicked as [Hnodup _].
        apply (edge_unique es); auto. congruence.
    + intros H. destruct visited; discriminate.
    + intros _. destruct visited as [|v visited'].
      * rewrite (Hs0 eq_refl). now left.
      * apply in_or_app. left. apply Hs1. discriminate.
    + rewrite length_app. cbn [List.length]. lia.
    + exists cid', W. exact HW.
Qed.

End MarkWalk.

(** ** The loop of [detect_cycles] *)

Lemma uf_inv_weaken n P P' bound bound' rank parent :
  incl P P' -> (bound <= bound')%nat ->
  uf_inv n P bound rank parent -> uf_inv n P' bound' rank parent.
Proof.
  intros Hincl Hb [Hsize Hall]. split; [assumption|]. intros i Hi.
  destruct (Hall i Hi) as (H1 & H2 & H3 & H4).
  split; [assumption|]. split; [lia|]. split; [assumption|].
  now apply (merge_incl P P').
Qed.

Lemma uf_inv_ext n P bound rank parent parent' :
  size parent' = size parent ->
  (forall i, 0 <= i < n -> idx 0 parent' i = idx 0 parent i) ->
  uf_inv n P bound rank parent -> uf_inv n P bound rank parent'.
Proof.
  intros Hs Hext [Hsize Hall]. split; [congruence|]. intros i Hi.
  rewrite (Hext i Hi). now apply Hall.
Qed.

Lemma idx_zrange0 n i : 0 <= i < n -> idx 0 (zrange 0 n) i = i.
Proof.
  intros Hi. unfold idx, zrange.
  rewrite nth_indep with (d' := 0 + Z.of_nat 0)
    by (rewrite length_map, length_seq; lia).
  rewrite (map_nth (fun k => 0 + Z.of_nat k)), seq_nth by lia. lia.
Qed.

Lemma size_zrange lo hi : lo <= hi -> size (zrange lo hi) = hi - lo.
Proof. intros H. unfold size. rewrite zrange_length. lia. Qed.

Lemma prefix_NoDup (P rest : list Edge) :
  NoDup (map to (P ++ rest)) -> NoDup (map to P).
Proof.
  rewrite map_app. intros H. now apply NoDup_app_remove_r in H.
Qed.

Lemma prefix_sink (P rest : list Edge) e :
  NoDup (map to (P ++ e :: rest)) -> forall e', In e' P -> to e' <> to e.
Proof.
  rewrite map_app. cbn [map]. intros H e' He' E.
  apply NoDup_remove_2 in H. apply H. apply in_or_app. left.
  rewrite <- E. now apply in_map.
Qed.

Section DetectCycles.

Variable D : matrix.
Variable es : list Edge.
Hypothesis Hpicked : picked (size D) es.

Local Abbreviation n := (size D).

Lemma picked_length : (List.length es <= Z.to_nat n)%nat.
Proof.
  destruct Hpicked as [Hnd Hr].
  rewrite <- (length_map to). apply NoDup_range_length; [assumption|].
  intros x Hx. apply in_map_iff in Hx. destruct Hx as (e & <- & He).
  destruct (Hr e He). lia.
Qed.

Lemma marks_along P cid next u w :
  NoDup (map to P) -> incl P es ->
  marks_inv n P cid next ->
  0 <= u < n -> idx 0 cid u <> -1 ->
  steps P u w -> idx 0 cid w = idx 0 cid u.
Proof.
  intros Hnd Hincl Hm Hu Hmark Hs. revert Hu Hmark.
  induction Hs as [|e u w He Hto Hs IH]; intros Hu Hmark; [reflexivity|].
  destruct Hm as (Hsz & Hnext & Hcl & Hids).
  destruct (Hcl u Hu Hmark) as (_ & e' & He' & Hto' & Hsame).
  assert (e = e') by (apply (edge_unique P); auto; congruence). subst e'.
  destruct Hpicked as [_ Hr]. destruct (Hr e (Hincl e He)) as (_ & Hf & _).
  rewrite <- Hsame. apply IH; [assumption|congruence].
Qed.

Lemma detect_step_inv P e rest parent cid next rank :
  es = P ++ e :: rest ->
  uf_inv n P (List.length P) rank parent ->
  marks_inv n P cid next ->
  exists parent' cid' next' rank',
    MSTreeV2.detect_step D es e (parent, cid, next)
    = Some (parent', cid', next')
    /\ uf_inv n (P ++ [e]) (List.length (P ++ [e])) rank' parent'
    /\ marks_inv n (P ++ [e]) cid' next'.
Proof.
  intros Hes Huf Hmarks.
  pose proof Hpicked as [Hnd Hr].
  assert (In e es) as He by (rewrite Hes; apply in_or_app; right; now left).
  destruct (Hr e He) as (Hto & Hfrom & Hft).
  assert (NoDup (map to P)) as HndP by (rewrite Hes in Hnd; now apply prefix_NoDup in Hnd).
  assert (incl P es) as HinclP by (rewrite Hes; now apply incl_appl, incl_refl).
  assert (incl P (P ++ [e])) as HinclP' by (now apply incl_appl, incl_refl).
  assert (forall e', In e' P -> to e' <> to e) as Hsink
    by (rewrite Hes in Hnd; now apply (prefix_sink P rest)).
  pose proof picked_length as Hlen.
  assert (List.length P < List.length es)%nat as HlenP
    by (rewrite Hes, length_app; cbn [List.length]; lia).
  unfold MSTreeV2.detect_step, MSTreeV2.n_nodes_. 
  destruct (find_root_spec n P (List.length P) rank HndP
              (S (Z.to_nat n)) parent (from e) Huf Hfrom)
    as (parent1 & ra & -> & Huf1 & Hra & Hroota & _ & Hma & Hkeep1); [lia|].
  destruct (find_root_spec n P (List.length P) rank HndP
              (S (Z.to_nat n)) parent1 (to e) Huf1)
    as (parent2 & rb & -> & Huf2 & Hrb & Hrootb & _ & Hmb & Hkeep2);
    [lia|lia|].
  pose proof (Hkeep2 ra Hra Hroota) as Hroota2.
  destruct Huf2 as [Hsize2 Hall2].
  (* the forest after the link, when no cycle is marked or the link is void *)
  assert (exists rank',
             uf_inv n (P ++ [e]) (List.length (P ++ [e])) rank'
               (upd parent2 rb ra)) as Hlink.
  { rewrite length_app. cbn [List.length].
    destruct (Z.eq_dec ra rb) as [Eab|Nab].
    - exists rank. subst rb.
      apply (uf_inv_ext n _ _ rank parent2); [apply size_upd| |].
      + intros i Hi. destruct (Z.eq_dec ra i) as [->|Hne].
        * rewrite idx_upd_eq by lia. now rewrite Hroota2.
        * now rewrite idx_upd_neq by lia.
      + apply (uf_inv_weaken n P (P ++ [e]) (List.length P));
          [assumption|lia|]. now split.
    - exists (fun x => if x =? ra then Nat.max (rank ra) (S (rank rb))
                       else rank x).
      split; [now rewrite size_upd|]. intros i Hi.
      destruct (Z.eq_dec rb i) as [<-|Hne].
      + rewrite idx_upd_eq by lia. rewrite Z.eqb_refl.
        destruct (Z.eqb_spec rb ra) as [E|_]; [congruence|].
        destruct (Hall2 rb Hrb) as (_ & Hbound & _).
        split; [assumption|]. split; [lia|]. split; [lia|].
        (* the root of [to e] meets the root of [from e] through [e] *)
        destruct Hmb as (w & Hw1 & Hw2).
        apply (steps_sink P (to e) w Hsink) in Hw1. subst w.
        destruct Hma as (w' & Hw1' & Hw2').
        exists w'. split.
        * apply (steps_trans _ rb (to e)); [now apply (steps_incl P)|].
          apply (steps_edge _ e); [apply in_or_app; right; now left|reflexivity|].
          now apply (steps_incl P).
        * now apply (steps_incl P).
      + rewrite idx_upd_neq by lia.
        destruct (Hall2 i Hi) as (H1 & H2 & H3 & H4).
        split; [assumption|]. split; [|split].
        * destruct (i =? ra); [|lia].
          destruct (Hall2 ra Hra) as (_ & Ha & _).
          destruct (Hall2 rb Hrb) as (_ & Hb & _). lia.
        * intros Hp. specialize (H3 Hp).
          destruct (Z.eqb_spec i ra) as [->|_]; [congruence|].
          destruct (Z.eqb_spec (idx 0 parent2 i) ra) as [Ep|_];
            [rewrite Ep in H3|]; lia.
        * now apply (merge_incl P). }
  destruct ((ra =? rb) && (idx 0 cid (to e) =? -1)) eqn:Eguard.
  - apply andb_true_iff in Eguard. destruct Eguard as [Eab Eun].
    apply Z.eqb_eq in Eab. apply Z.eqb_eq in Eun. subst rb.
    assert (steps P (from e) (to e)) as Hcyc.
    { assert (merge P (from e) (to e)) as (w & Hw1 & Hw2)
        by (apply (merge_trans P _ ra); [assumption|assumption|
            now apply merge_sym]).
      apply (steps_sink P (to e) w Hsink) in Hw2. now subst w. }
    assert (forall u, steps P u (to e) ->
              exists e', In e' (P ++ [e]) /\ to e' = u
                         /\ steps P (from e') (to e)) as Hclosed'.
    { intros u Hu. inversion Hu as [|e1 ? ? He1 Hto1 Hs1]; subst.
      - exists e. split; [apply in_or_app; right; now left|]. now split.
      - exists e1. split; [apply in_or_app; now left|]. now split. }
    assert (incl (P ++ [e]) es) as Hincl'.
    { intros x Hx. apply in_app_or in Hx. destruct Hx as [Hx|[<-|[]]]; auto. }
    assert (forall u, steps P u (to e) -> idx 0 cid u = -1) as Hfresh.
    { intros u Hu. destruct (Z.eq_dec (idx 0 cid u) (-1)) as [|Hmark];
        [assumption|]. exfalso.
      assert (0 <= u < n) as Hur.
      { destruct (Hclosed' u Hu) as (e' & He' & <- & _).
        destruct (Hr e' (Hincl' e' He')). lia. }
      pose proof (marks_along P cid next u (to e) HndP HinclP Hmarks Hur
                    Hmark Hu). congruence. }
    destruct Hmarks as (Hsz & Hnext & Hcl & Hids).
    unfold MSTreeV2.mark_cycle, MSTreeV2.n_nodes_. 
    destruct (mark_walk n es cid next (to e) (fun u => steps P u (to e))
                Hpicked) with
      (fuel := S (S (Z.to_nat n))) (current := to e) (visited := @nil Z)
      (cid := cid) as (cid' & W & -> & Hsz' & HbW & HWC & Hcid' & HWcl).
    + intros u Hu. destruct (Hclosed' u Hu) as (e' & He' & Hto' & Hs').
      exists e'. split; [now apply Hincl'|]. now split.
    + constructor.
    + intros x [].
    + constructor.
    + assumption.
    + intros u Hu. reflexivity.
    + intros u [].
    + reflexivity.
    + intros H. now elim H.
    + cbn [List.length]. lia.
    + destruct Hlink as [rank' Hlink].
      exists (upd parent2 ra ra), cid', (next + 1), rank'.
      split; [reflexivity|]. split; [assumption|].
      split; [assumption|]. split; [lia|]. split.
      * intros u Hu Hmark. rewrite (Hcid' u Hu) in Hmark |- *.
        destruct (set_mem u W) eqn:EW.
        -- apply set_mem_In in EW. split; [lia|].
           destruct (Hclosed' u (HWC u EW)) as (e' & He' & Hto' & _).
           exists e'. split; [assumption|]. split; [assumption|].
           pose proof (HWcl u EW e' (Hincl' e' He') Hto') as Hfw.
           destruct (Hr e' (Hincl' e' He')) as (_ & Hfr & _).
           rewrite (Hcid' (from e') Hfr).
           apply set_mem_In in Hfw. now rewrite Hfw.
        -- destruct (Hcl u Hu Hmark) as (Hrange & e' & He' & Hto' & Hsame).
           split; [lia|]. exists e'. split; [apply in_or_app; now left|].
           split; [assumption|].
           destruct (Hr e' (HinclP e' He')) as (_ & Hfr & _).
           rewrite (Hcid' (from e') Hfr).
           destruct (set_mem (from e') W) eqn:EW'; [|assumption].
           apply set_mem_In in EW'. exfalso.
           pose proof (Hfresh (from e') (HWC _ EW')). congruence.
      * intros c Hc. destruct (Z.eq_dec c next) as [->|Hne].
        -- exists (to e). split; [lia|]. rewrite (Hcid' (to e)) by lia.
           apply set_mem_In in HbW. now rewrite HbW.
        -- destruct (Hids c ltac:(lia)) as (u & Hu & Hcu).
           exists u. split; [assumption|]. rewrite (Hcid' u Hu).
           destruct (set_mem u W) eqn:EW; [|assumption].
           apply set_mem_In in EW. exfalso.
           pose proof (Hfresh u (HWC _ EW)). lia.
  - destruct Hlink as [rank' Hlink].
    exists (upd parent2 rb ra), cid, next, rank'.
    split; [reflexivity|]. split; [assumption|].
    destruct Hmarks as (Hsz & Hnext & Hcl & Hids).
    split; [assumption|]. split; [assumption|]. split; [|assumption].
    intros u Hu Hmark. destruct (Hcl u Hu Hmark) as (Hrange & e' & He' & H').
    split; [assumption|]. exists e'. split; [apply in_or_app; now left|assumption].
Qed.

Lemma detect_cycles_spec :
  exists cid next,
    MSTreeV2.detect_cycles D es = Some cid /\ marks_inv n es cid next.
Proof.
  unfold MSTreeV2.detect_cycles, MSTreeV2.n_nodes_. 
  assert (forall rest P parent cid next rank,
             es = P ++ rest ->
             uf_inv n P (List.length P) rank parent ->
             marks_inv n P cid next ->
             exists parent' cid' next',
               fold_left
                 (fun st e => match st with
                              | Some st => MSTreeV2.detect_step D es e st
                              | None => None
                              end)
                 rest (Some (parent, cid, next))
               = Some (parent', cid', next')
               /\ marks_inv n es cid' next') as Hloop.
  { induction rest as [|e rest IH]; intros P parent cid next rank Hes Huf Hm.
    - rewrite app_nil_r in Hes. subst P. cbn [fold_left].
      exists parent, cid, next. now split.
    - cbn [fold_left].
      destruct (detect_step_inv P e rest parent cid next rank Hes Huf Hm)
        as (parent' & cid' & next' & rank' & -> & Huf' & Hm').
      apply (IH (P ++ [e]) parent' cid' next' rank'); try assumption.
      now rewrite <- app_assoc. }
  pose proof (size_nonneg D) as Hn.
  destruct (Hloop es [] (zrange 0 n) (repeat (-1) (Z.to_nat n)) 0
              (fun _ => O) eq_refl) as (parent' & cid' & next' & -> & Hm).
  - split; [rewrite size_zrange; lia|]. intros i Hi.
    rewrite idx_zrange0 by assumption.
    split; [assumption|]. split; [cbn; lia|]. split; [congruence|].
    apply merge_refl.
  - split; [rewrite size_repeat; lia|]. split; [lia|]. split.
    + intros u Hu Hmark. rewrite idx_repeat in Hmark by assumption.
      congruence.
    + intros c Hc. lia.
  - exists cid', next'. now split.
Qed.

End DetectCycles.

(** ** The node mapping of a contraction *)

Lemma list_as_map_idx {A} (d : A) (l : list A) :
  l = map (idx d l) (zrange 0 (size l)).
Proof.
  apply (nth_ext _ _ d (idx d l 0)).
  - rewrite length_map, zrange_length. unfold size. lia.
  - intros k Hk. rewrite (map_nth (idx d l)).
    unfold zrange. rewrite nth_indep with (d' := 0 + Z.of_nat 0)
      by (rewrite length_map, length_seq; unfold size; lia).
    rewrite (map_nth (fun k => 0 + Z.of_nat k)), seq_nth
      by (unfold size; lia).
    unfold idx. f_equal. lia.
Qed.

Lemma fold_left_map {A B C} (f : A -> B -> A) (g : C -> B) (l : list C) a :
  fold_left f (map g l) a = fold_left (fun s x => f s (g x)) l a.
Proof. revert a. induction l as [|x l IH]; intros a; cbn; auto. Qed.

Lemma NoDup_set_insert x s : NoDup s -> NoDup (set_insert x s).
Proof.
  intros H. unfold set_insert. destruct (set_mem x s) eqn:E; [assumption|].
  apply set_mem_false in E. apply NoDup_app; [assumption|repeat constructor; intros []|].
  intros y Hy [<-|[]]. contradiction.
Qed.

Lemma NoDup_map_inj {A B} (f : A -> B) (l : list A) u v :
  NoDup (map f l) -> In u l -> In v l -> f u = f v -> u = v.
Proof.
  induction l as [|a l IH]; intros Hnd Hu Hv E; [destruct Hu|].
  cbn [map] in Hnd. inversion Hnd as [|? ? Ha Hnd']; subst.
  destruct Hu as [<-|Hu], Hv as [<-|Hv]; try reflexivity.
  - exfalso. apply Ha. rewrite E. now apply in_map.
  - exfalso. apply Ha. rewrite <- E. now apply in_map.
  - now apply IH.
Qed.

Lemma map_find_erase_neq {V} (k k' : Z) (m : list (Z * V)) :
  k <> k' -> map_find Z.eqb k' (map_erase Z.eqb k m) = map_find Z.eqb k' m.
Proof.
  intros Hne. induction m as [|[a v] m IH]; [reflexivity|].
  unfold map_erase in *. cbn [filter fst].
  destruct (Z.eqb_spec a k) as [->|Hak]; cbn [negb map_find].
  - destruct (Z.eqb_spec k k'); [contradiction|]. exact IH.
  - destruct (Z.eqb_spec a k'); [reflexivity|]. exact IH.
Qed.

Lemma map_find_put_neq {V} (k k' : Z) (v : V) (m : list (Z * V)) :
  k <> k' -> map_find Z.eqb k' (map_put Z.eqb k v m) = map_find Z.eqb k' m.
Proof.
  intros Hne. unfold map_put. cbn [map_find].
  destruct (Z.eqb_spec k k'); [contradiction|].
  now apply map_find_erase_neq.
Qed.

Lemma map_find_put_eq {V} (k : Z) (v : V) (m : list (Z * V)) :
  map_find Z.eqb k (map_put Z.eqb k v m) = Some v.
Proof. unfold map_put. cbn [map_find]. now rewrite Z.eqb_refl. Qed.

Lemma Forall_upd {A} (P : A -> Prop) (l : list A) i x :
  Forall P l -> P x -> Forall P (upd l i x).
Proof.
  intros Hl Hx. unfold upd. generalize (Z.to_nat i) as k.
  induction Hl as [|a l Ha Hl IH]; intros [|k]; cbn [upd_nat]; auto.
Qed.

Lemma Forall_idx {A} (P : A -> Prop) (l : list A) d i :
  Forall P l -> P d -> P (idx d l i).
Proof.
  intros Hl Hd. unfold idx. generalize (Z.to_nat i) as k.
  induction Hl as [|a l Ha Hl IH]; intros [|k]; cbn [nth]; auto.
Qed.

Section NodeMapping.

Variable D : matrix.
Variable cid : list Z.

Local Abbreviation n := (size D).

Hypothesis Hsize : size cid = n.
Hypothesis Hroot : 1 <= n -> idx 0 cid 0 = -1.

Lemma unique_cycles_spec :
  let unique_cycles :=
    fold_left (fun s id => if negb (id =? -1) then set_insert id s else s)
      cid [] in
  NoDup unique_cycles
  /\ incl unique_cycles
       (map (idx 0 cid) (filter (fun i => negb (unmarked cid i)) (zrange 0 n))).
Proof.
  cbv zeta.
  assert (fold_left (fun s id => if negb (id =? -1) then set_insert id s else s)
            cid []
          = fold_left (fun s x => if negb (idx 0 cid x =? -1)
                                  then set_insert (idx 0 cid x) s else s)
              (zrange 0 n) []) as ->.
  { rewrite <- (fold_left_map
                  (fun s id => if negb (id =? -1) then set_insert id s else s)
                  (idx 0 cid)).
    rewrite <- Hsize, <- list_as_map_idx. reflexivity. }
  assert (forall l s0,
             NoDup s0 ->
             NoDup (fold_left
                      (fun s x => if negb (idx 0 cid x =? -1)
                                  then set_insert (idx 0 cid x) s else s) l s0)
             /\ forall y,
                  In y (fold_left
                          (fun s x => if negb (idx 0 cid x =? -1)
                                      then set_insert (idx 0 cid x) s else s)
                          l s0) ->
                  In y s0
                  \/ In y (map (idx 0 cid)
                             (filter (fun i => negb (unmarked cid i)) l))) as H.
  { induction l as [|a l IH]; intros s0 Hnd; cbn [fold_left].
    - split; [assumption|]. intros y Hy. now left.
    - cbn [filter]. change (unmarked cid a) with (idx 0 cid a =? -1).
      destruct (idx 0 cid a =? -1) eqn:E; cbn [negb].
      + now apply IH.
      + destruct (IH (set_insert (idx 0 cid a) s0)
                    (NoDup_set_insert _ _ Hnd)) as [H1 H2].
        split; [assumption|]. intros y Hy. destruct (H2 y Hy) as [H|H].
        * apply set_insert_In in H. destruct H as [->|H];
            [right; now left|now left].
        * right. cbn [map]. now right. }
  destruct (H (zrange 0 n) [] (NoDup_nil _)) as [H1 H2].
  split; [assumption|]. intros y Hy. destruct (H2 y Hy) as [[]|]. assumption.
Qed.

Lemma cycle_nodes_fold (cyc : list Z) c (nm : list (Z * Z)) :
  Forall (fun x => x <> 0) cyc ->
  map_find Z.eqb 0
    (fold_left (fun nm node => map_put Z.eqb node c nm) cyc nm)
  = map_find Z.eqb 0 nm.
Proof.
  intros H. revert nm. induction H as [|x cyc Hx H IH]; intros nm;
    cbn [fold_left]; [reflexivity|].
  rewrite IH. now apply map_find_put_neq.
Qed.

Lemma cycles_fold (cl : list (list Z)) (nm : list (Z * Z)) nn :
  Forall (Forall (fun x => x <> 0)) cl ->
  let r :=
    fold_left
      (fun st cyc =>
         let '(node_mapping, next_node) := st in
         let contracted_node := next_node in
         (fold_left (fun nm node => map_put Z.eqb node contracted_node nm)
            cyc node_mapping,
          next_node + 1))
      cl (nm, nn) in
  snd r = nn + Z.of_nat (List.length cl)
  /\ map_find Z.eqb 0 (fst r) = map_find Z.eqb 0 nm.
Proof.
  intros H. cbv zeta. revert nm nn.
  induction H as [|cyc cl Hc H IH]; intros nm nn; cbn [fold_left].
  - cbn [snd fst List.length]. split; [lia|reflexivity].
  - destruct (IH (fold_left (fun nm node => map_put Z.eqb node nn nm) cyc nm)
                (nn + 1)) as [H1 H2].
    rewrite H1, H2. split; [cbn [List.length]; lia|].
    now apply cycle_nodes_fold.
Qed.

Lemma build_node_mapping_spec :
  (1 <= n -> map_at (fst (MSTreeV2.build_node_mapping D cid)) 0 = 0)
  /\ exists unique_cycles,
       NoDup unique_cycles
       /\ incl unique_cycles
            (map (idx 0 cid) (filter (fun i => negb (unmarked cid i)) (zrange 0 n)))
       /\ snd (MSTreeV2.build_node_mapping D cid)
          = Z.of_nat (List.length (filter (unmarked cid) (zrange 0 n)))
            + Z.of_nat (List.length unique_cycles).
Proof.
  unfold MSTreeV2.build_node_mapping, MSTreeV2.n_nodes_.
  destruct unique_cycles_spec as [HndU HinclU].
  set (unique_cycles :=
         fold_left (fun s id => if negb (id =? -1) then set_insert id s else s)
           cid []) in *.
  match goal with
  | |- context [for_loop 0 n ?body ?init] =>
      pose proof (for_loop_inv
                    (fun k (st : list (Z * Z) * list (list Z) * Z) =>
                       snd st = Z.of_nat (List.length (filter (unmarked cid) (zrange 0 k)))
                       /\ size (snd (fst st)) = size (repeat (@nil Z)
                                                   (List.length unique_cycles))
                       /\ Forall (Forall (fun x => x <> 0)) (snd (fst st))
                       /\ (1 <= k -> map_find Z.eqb 0 (fst (fst st)) = Some 0))
                    0 n body init (size_nonneg D)) as Hinv;
      destruct (for_loop 0 n body init) as [[nm cycles] nn]
  end.
  cbn [fst snd] in Hinv.
  destruct Hinv as (Hnn & Hlen & Hnz & H0).
  - split; [reflexivity|]. split; [reflexivity|]. split; [|lia].
    apply Forall_forall. intros x Hx. apply repeat_spec in Hx. subst x.
    constructor.
  - intros k [[nm0 cycles0] nn0] Hk (Hnn & Hlen & Hnz & H0). cbn [fst snd] in *.
    rewrite zrange_snoc by lia. rewrite filter_app, length_app. cbn [filter].
    fold (unmarked cid k).
    destruct (unmarked cid k) eqn:Ek; cbn [fst snd List.length].
    + split; [lia|]. split; [assumption|]. split; [assumption|].
      intros _. destruct (Z.eq_dec k 0) as [->|Hk0].
      * assert (nn0 = 0) as -> by (rewrite Hnn; reflexivity).
        apply map_find_put_eq.
      * rewrite map_find_put_neq by assumption. apply H0. lia.
    + split; [lia|]. split; [now rewrite size_upd|]. split.
      * apply Forall_upd; [assumption|].
        assert (k <> 0) as Hk0.
        { intros ->. unfold unmarked in Ek. rewrite Hroot in Ek by lia.
          discriminate. }
        apply Forall_forall. intros x Hx. apply set_insert_In in Hx.
        destruct Hx as [->|Hx]; [assumption|].
        pose proof (Forall_idx (Forall (fun x => x <> 0)) cycles0 []
                      (idx 0 cid k) Hnz (Forall_nil _)) as Hc.
        rewrite Forall_forall in Hc. now apply Hc.
      * intros Hk1. apply H0.
        destruct (Z.eq_dec k 0) as [->|]; [|lia].
        unfold unmarked in Ek. rewrite Hroot in Ek by lia. discriminate.
  - destruct (cycles_fold cycles nm nn Hnz) as [H1 H2]. cbv zeta in H1, H2.
    split.
    + intros Hn. unfold map_at. rewrite H2, (H0 Hn). reflexivity.
    + exists unique_cycles. split; [assumption|]. split; [assumption|].
      rewrite H1, Hnn. f_equal. unfold size in Hlen.
      rewrite repeat_length in Hlen. lia.
Qed.

(** When some node is marked, and every marked node shares its mark with
    another node, the contracted graph is smaller. *)
Lemma contraction_shrinks :
  (exists u, 0 <= u < n /\ idx 0 cid u <> -1) ->
  (forall u, 0 <= u < n -> idx 0 cid u <> -1 ->
     exists v, 0 <= v < n /\ v <> u /\ idx 0 cid v = idx 0 cid u) ->
  snd (MSTreeV2.build_node_mapping D cid) < n.
Proof.
  intros (u & Hu & Hmark) Hshare.
  destruct build_node_mapping_spec as (_ & U & HndU & HinclU & ->).
  pose proof (disjoint_filters_length (unmarked cid) (fun i => negb (unmarked cid i))
                (zrange 0 n)) as Hsum.
  rewrite zrange_length in Hsum.
  assert (List.length U
          < List.length (filter (fun i => negb (unmarked cid i)) (zrange 0 n)))%nat;
    [|specialize (Hsum ltac:(intros x Hx; now rewrite Hx)); lia].
  destruct (Nat.lt_ge_cases (List.length U)
              (List.length (filter (fun i => negb (unmarked cid i)) (zrange 0 n))))
    as [|Hge]; [assumption|]. exfalso.
  assert (NoDup (map (idx 0 cid)
                   (filter (fun i => negb (unmarked cid i)) (zrange 0 n)))) as Hnd.
  { apply NoDup_incl_NoDup with (l := U);
      [assumption|now rewrite length_map|assumption]. }
  destruct (Hshare u Hu Hmark) as (v & Hv & Hvu & Hsame).
  apply Hvu. apply (NoDup_map_inj (idx 0 cid) _ v u Hnd); [| |assumption].
  - apply filter_In. split; [now apply In_zrange|].
    unfold unmarked. apply negb_true_iff, Z.eqb_neq. congruence.
  - apply filter_In. split; [now apply In_zrange|].
    unfold unmarked. now apply negb_true_iff, Z.eqb_neq.
Qed.

End NodeMapping.

(** ** The contracted graph and the expansion of its solution *)

Lemma pair_eqb_eq a b : pair_eqb a b = true <-> a = b.
Proof.
  unfold pair_eqb. destruct a as [a1 a2], b as [b1 b2]. cbn [fst snd].
  rewrite andb_true_iff, !Z.eqb_eq. split; [intros []|intros [= -> ->]];
    subst; auto.
Qed.

Lemma map_find_In {K V} (keqb : K -> K -> bool) k (m : list (K * V)) v :
  map_find keqb k m = Some v -> exists k', In (k', v) m /\ keqb k' k = true.
Proof.
  induction m as [|[a w] m IH]; [discriminate|]. cbn [map_find].
  destruct (keqb a k) eqn:E.
  - intros [= ->]. exists a. split; [now left|assumption].
  - intros H. destruct (IH H) as (k' & Hin & Hk). exists k'.
    split; [now right|assumption].
Qed.

Lemma size_new_matrix m (v : double) : size (new_matrix m m v) = Z.max 0 m.
Proof. unfold new_matrix. apply size_repeat. Qed.

Lemma size_set2 (M : matrix) i j v : size (set2 M i j v) = size M.
Proof. unfold set2. apply size_upd. Qed.

Lemma build_contracted_spec D es cid (nm : list (Z * Z)) new_size :
  size (fst (MSTreeV2.build_contracted D es cid nm new_size))
  = Z.max 0 new_size
  /\ forall kv,
       In kv (snd (MSTreeV2.build_contracted D es cid nm new_size)) ->
       0 <= to (snd kv) < size D
       /\ 0 <= from (snd kv) < size D
       /\ snd (fst kv) = map_at nm (to (snd kv)).
Proof.
  unfold MSTreeV2.build_contracted, MSTreeV2.n_nodes_.
  set (Q := fun st : matrix * list (Z * Z * Edge) =>
              size (fst st) = Z.max 0 new_size
              /\ forall kv, In kv (snd st) ->
                   0 <= to (snd kv) < size D
                   /\ 0 <= from (snd kv) < size D
                   /\ snd (fst kv) = map_at nm (to (snd kv))).
  match goal with
  | |- context [for_loop 0 (size D) ?body ?init] =>
      assert (Q (for_loop 0 (size D) body init)) as H; [|exact H];
      apply (for_loop_inv (fun _ st => Q st) 0 (size D) body init
               (size_nonneg D))
  end.
  - split; [apply size_new_matrix|]. intros kv [].
  - intros i st Hi HQ.
    apply (for_loop_inv (fun _ st => Q st) 0 (size D) _ st (size_nonneg D));
      [assumption|].
    intros j [nd em] Hj [Hs Hem]. cbn [fst snd] in Hs, Hem.
    destruct (i =? j); [now split|].
    destruct (negb (map_at nm i =? map_at nm j)); [|now split].
    match goal with
    | |- context [if ?c then _ else _] => destruct c
    end; [|now split].
    split; cbn [fst snd]; [now rewrite size_set2|].
    unfold map_put. intros kv [<-|Hkv].
    + cbn [fst snd to from]. split; [lia|]. split; [lia|reflexivity].
    + unfold map_erase in Hkv. apply filter_In in Hkv. now apply Hem.
Qed.

Section Expansion.

Variable n : Z.
Variable mu : Z -> Z.
Variable edge_mapping : list (Z * Z * Edge).

Hypothesis Hmapping :
  forall kv, In kv edge_mapping ->
    0 <= to (snd kv) < n /\ 0 <= from (snd kv) < n
    /\ snd (fst kv) = mu (to (snd kv)).
Hypothesis Hroot : mu 0 = 0.

Lemma NoDup_snoc {A} (l : list A) x : NoDup l -> ~ In x l -> NoDup (l ++ [x]).
Proof.
  intros Hl Hx. apply NoDup_app; [assumption|repeat constructor; intros []|].
  intros y Hy [<-|[]]. contradiction.
Qed.

Lemma expand_first rest :
  forall Pc final covered,
    NoDup (map to (Pc ++ rest)) ->
    (forall e, In e (Pc ++ rest) -> 1 <= to e) ->
    NoDup (map to final) ->
    (forall x, In x covered <-> In x (map to final)) ->
    (forall o, In o final ->
       (1 <= to o < n /\ 0 <= from o < n) /\ In (mu (to o)) (map to Pc)) ->
    let st :=
      fold_left
        (fun st e =>
           let '(final_edges, covered) := st in
           match map_find pair_eqb (from e, to e) edge_mapping with
           | Some original =>
               (final_edges ++ [original], set_insert (to original) covered)
           | None => st
           end)
        rest (final, covered) in
    NoDup (map to (fst st))
    /\ (forall x, In x (snd st) <-> In x (map to (fst st)))
    /\ forall o, In o (fst st) -> 1 <= to o < n /\ 0 <= from o < n.
Proof.
  induction rest as [|ec rest IH]; intros Pc final covered Hnd Hpos Hf Hcov Hfin;
    cbv zeta; cbn [fold_left].
  - cbn [fst snd]. split; [assumption|]. split; [assumption|].
    intros o Ho. now apply Hfin.
  - assert (Pc ++ ec :: rest = (Pc ++ [ec]) ++ rest) as Eapp
      by now rewrite <- app_assoc.
    destruct (map_find pair_eqb (from ec, to ec) edge_mapping) as [original|]
      eqn:Efind.
    + apply map_find_In in Efind. destruct Efind as (k' & Hin & Hk).
      apply pair_eqb_eq in Hk. subst k'.
      destruct (Hmapping _ Hin) as (Hrange & Hfrange & Hmu).
      cbn [fst snd] in Hrange, Hfrange, Hmu.
      assert (1 <= to ec) as Hec
        by (apply Hpos, in_or_app; right; now left).
      assert (to original <> 0) as Hnz by (intros E; rewrite E, Hroot in Hmu; lia).
      assert (~ In (to original) (map to final)) as Hnew.
      { intros Hin'. apply in_map_iff in Hin'.
        destruct Hin' as (o & Ho & Hoin).
        destruct (Hfin o Hoin) as [_ Hpc]. rewrite Ho, <- Hmu in Hpc.
        rewrite map_app in Hnd. cbn [map] in Hnd.
        apply NoDup_remove_2 in Hnd. apply Hnd, in_or_app. now left. }
      apply (IH (Pc ++ [ec])).
      * now rewrite <- Eapp.
      * now rewrite <- Eapp.
      * rewrite map_app. cbn [map]. now apply NoDup_snoc.
      * intros x. rewrite set_insert_In, map_app, in_app_iff, Hcov.
        cbn [map In]. intuition.
      * intros o Ho. apply in_app_or in Ho. rewrite map_app, in_app_iff.
        destruct Ho as [Ho|[<-|[]]].
        -- destruct (Hfin o Ho). split; [assumption|now left].
        -- split; [lia|]. right. cbn [map]. left. exact Hmu.
    + apply (IH (Pc ++ [ec])).
      * now rewrite <- Eapp.
      * now rewrite <- Eapp.
      * assumption.
      * assumption.
      * intros o Ho. destruct (Hfin o Ho). split; [assumption|].
        rewrite map_app, in_app_iff. now left.
Qed.

Lemma expand_second (l : list Edge) :
  forall final covered,
    (forall e, In e l -> 1 <= to e < n /\ 0 <= from e < n) ->
    NoDup (map to final) ->
    (forall x, In x covered <-> In x (map to final)) ->
    (forall o, In o final -> 1 <= to o < n /\ 0 <= from o < n) ->
    let st :=
      fold_left
        (fun st e =>
           let '(final_edges, covered) := st in
           if negb (set_mem (to e) covered)
           then (final_edges ++ [e], set_insert (to e) covered)
           else st)
        l (final, covered) in
    NoDup (map to (fst st))
    /\ (forall o, In o (fst st) -> 1 <= to o < n /\ 0 <= from o < n)
    /\ (forall x, In x (map to final) -> In x (map to (fst st)))
    /\ forall e, In e l -> In (to e) (map to (fst st)).
Proof.
  induction l as [|e l IH]; intros final covered Hl Hf Hcov Hfin;
    cbv zeta; cbn [fold_left].
  - cbn [fst]. split; [assumption|]. split; [assumption|].
    split; [auto|]. intros e [].
  - destruct (set_mem (to e) covered) eqn:Emem; cbn [negb].
    + apply set_mem_In, Hcov in Emem.
      destruct (IH final covered (fun x Hx => Hl x (or_intror Hx)) Hf Hcov Hfin)
        as (H1 & H2 & H3 & H4).
      split; [assumption|]. split; [assumption|]. split; [assumption|].
      intros x [<-|Hx]; [now apply H3|now apply H4].
    + apply set_mem_false in Emem. rewrite Hcov in Emem.
      destruct (IH (final ++ [e]) (set_insert (to e) covered)
                  (fun x Hx => Hl x (or_intror Hx)))
        as (H1 & H2 & H3 & H4).
      * rewrite map_app. cbn [map]. now apply NoDup_snoc.
      * intros x. rewrite set_insert_In, map_app, in_app_iff, Hcov.
        cbn [map In]. intuition.
      * intros o Ho. apply in_app_or in Ho.
        destruct Ho as [Ho|[<-|[]]]; [now apply Hfin|].
        apply Hl. now left.
      * split; [assumption|]. split; [assumption|]. split.
        -- intros x Hx. apply H3. rewrite map_app, in_app_iff. now left.
        -- intros x [<-|Hx]; [|now apply H4].
           apply H3. rewrite map_app, in_app_iff. right. now left.
Qed.

Lemma expand_solution_spec (es ce : list Edge) :
  (forall e, In e es -> 1 <= to e < n /\ 0 <= from e < n) ->
  NoDup (map to ce) ->
  (forall e, In e ce -> 1 <= to e) ->
  NoDup (map to (MSTreeV2.expand_solution es ce edge_mapping))
  /\ (forall o, In o (MSTreeV2.expand_solution es ce edge_mapping) ->
        1 <= to o < n /\ 0 <= from o < n)
  /\ forall e, In e es ->
       In (to e) (map to (MSTreeV2.expand_solution es ce edge_mapping)).
Proof.
  intros Hes Hnd Hpos. unfold MSTreeV2.expand_solution.
  pose proof (expand_first ce [] [] [] Hnd Hpos (NoDup_nil _)) as H1.
  cbv zeta in H1.
  match type of H1 with
  | _ -> _ -> NoDup (map to (fst ?st)) /\ _ =>
      destruct st as [final covered] eqn:Est
  end.
  cbn [fst snd] in H1.
  destruct H1 as (Hf & Hcov & Hfin).
  - intros x. split; intros [].
  - intros o [].
  - pose proof (expand_second es final covered Hes Hf Hcov Hfin) as H2.
    cbv zeta in H2. destruct H2 as (H21 & H22 & _ & H24).
    split; [assumption|]. split; assumption.
Qed.

End Expansion.

(** ** MSTreeV2 returns, and what it returns *)

Lemma has_cycles_marked cid :
  MSTreeV2.has_cycles cid = true ->
  exists u, 0 <= u < size cid /\ idx 0 cid u <> -1.
Proof.
  unfold MSTreeV2.has_cycles. rewrite existsb_exists.
  intros (x & Hx & Hne). apply negb_true_iff, Z.eqb_neq in Hne.
  apply (In_nth _ _ 0) in Hx. destruct Hx as (k & Hk & <-).
  exists (Z.of_nat k). unfold idx, size. rewrite Nat2Z.id. split; [lia|assumption].
Qed.

Lemma recraft_keeps_targets D (tree : list Edge) n :
  NoDup (map to tree) ->
  (forall e, In e tree -> 1 <= to e < n /\ 0 <= from e < n) ->
  NoDup (map to (MSTreeV2.recraft_branches D tree))
  /\ (forall e, In e (MSTreeV2.recraft_branches D tree) ->
        1 <= to e < n /\ 0 <= from e < n)
  /\ forall x, In x (map to tree) ->
       In x (map to (MSTreeV2.recraft_branches D tree)).
Proof.
  intros Hnd Hr. unfold MSTreeV2.recraft_branches.
  destruct (recraft_loop_related D 10 tree) as (_ & Hfrom & Hperm).
  split; [|split].
  - apply (Permutation_NoDup (Permutation_sym Hperm) Hnd).
  - intros e He. split.
    + assert (In (to e) (map to tree)) as Hin
        by (apply (Permutation_in _ Hperm); now apply in_map).
      apply in_map_iff in Hin. destruct Hin as (o & <- & Ho). now apply Hr.
    + assert (In (from e) (map from tree)) as Hin
        by (rewrite <- Hfrom; now apply in_map).
      apply in_map_iff in Hin. destruct Hin as (o & <- & Ho). now apply Hr.
  - intros x Hx. now apply (Permutation_in _ (Permutation_sym Hperm)).
Qed.

Lemma compute_fuel_returns :
  forall fuel D,
    (List.length D < fuel)%nat ->
    exists es,
      MSTreeV2.compute_fuel fuel D = Some es
      /\ NoDup (map to es)
      /\ (forall e, In e es -> 1 <= to e < size D /\ 0 <= from e < size D)
      /\ forall e, In e (MSTreeV2.find_minimum_incoming_edges D) ->
           In (to e) (map to es).
Proof.
  induction fuel as [|fuel IH]; intros D Hfuel; [lia|].
  cbn [MSTreeV2.compute_fuel].
  pose proof (phase1_picked D) as Hpicked.
  set (es0 := MSTreeV2.find_minimum_incoming_edges D) in *.
  destruct (detect_cycles_spec D es0 Hpicked) as (cid & next & -> & Hmarks).
  pose proof Hpicked as [Hnd0 Hr0].
  assert (forall e, In e es0 -> 1 <= to e < size D /\ 0 <= from e < size D)
    as Hto0 by (intros e He; destruct (Hr0 e He) as (? & ? & ?); now split).
  destruct (MSTreeV2.has_cycles cid) eqn:Ehc.
  - destruct Hmarks as (Hsz & Hnext & Hcl & Hids).
    destruct (has_cycles_marked cid Ehc) as (u & Hu & Hmark).
    rewrite Hsz in Hu.
    assert (1 <= size D -> idx 0 cid 0 = -1) as Hroot.
    { intros Hn. destruct (Z.eq_dec (idx 0 cid 0) (-1)) as [|Hm]; [assumption|].
      destruct (Hcl 0 ltac:(lia) Hm) as (_ & e & He & Hto & _).
      destruct (Hr0 e He). lia. }
    assert (snd (MSTreeV2.build_node_mapping D cid) < size D) as Hshrink.
    { apply (contraction_shrinks D cid Hsz Hroot); [now exists u|].
      intros v Hv Hm. destruct (Hcl v Hv Hm) as (_ & e & He & Hto & Hsame).
      destruct (Hr0 e He) as (_ & Hf & Hne).
      exists (from e). split; [assumption|]. split; [congruence|assumption]. }
    destruct (build_node_mapping_spec D cid Hsz Hroot) as [Hmu0 _].
    unfold MSTreeV2.contract_and_solve.
    destruct (MSTreeV2.build_node_mapping D cid) as [nm new_size].
    cbn [fst snd] in Hshrink, Hmu0.
    pose proof (build_contracted_spec D es0 cid nm new_size) as [HsND Hem].
    destruct (MSTreeV2.build_contracted D es0 cid nm new_size) as [ND em].
    cbn [fst snd] in HsND, Hem.
    destruct (IH ND) as (ce & -> & Hndc & Hrc & _).
    { unfold size in *. lia. }
    destruct (expand_solution_spec (size D) (map_at nm) em Hem
                (Hmu0 ltac:(lia)) es0 ce Hto0 Hndc)
      as (Hndf & Hrf & Hcovf).
    { intros e He. destruct (Hrc e He) as [? _]. lia. }
    destruct (recraft_keeps_targets D (MSTreeV2.expand_solution es0 ce em)
                (size D) Hndf Hrf) as (H1 & H2 & H3).
    eexists. split; [reflexivity|]. split; [assumption|].
    split; [assumption|]. intros e He. apply H3. now apply Hcovf.
  - destruct (recraft_keeps_targets D es0 (size D) Hnd0 Hto0) as (H1 & H2 & H3).
    eexists. split; [reflexivity|]. split; [assumption|].
    split; [assumption|]. intros e He. apply H3. now apply in_map.
Qed.

Lemma phase1_covers D :
  (forall to_ f, 1 <= to_ < size D -> candidate D to_ f ->
                 (get2 D f to_ < DBL_MAX)%Q) ->
  map to (MSTreeV2.find_minimum_incoming_edges D) = zrange 1 (size D).
Proof.
  intros Hfin. rewrite find_minimum_incoming_edges_rounds.
  assert (forall l, (forall x, In x l -> 1 <= x < size D) ->
            map to (flat_map (incoming_edge D) l) = l) as H.
  { induction l as [|a l IH]; intros Hl; [reflexivity|].
    cbn [flat_map]. rewrite map_app, IH by (intros x Hx; apply Hl; now right).
    destruct (incoming_edge_single D a (Hl a (or_introl eq_refl))
                (fun f => Hfin a f (Hl a (or_introl eq_refl))))
      as (f & d & -> & _).
    reflexivity. }
  apply H. intros x Hx. now apply In_zrange in Hx.
Qed.

Lemma compute_returns D :
  exists es,
    MSTreeV2.compute D = Some es
    /\ NoDup (map to es)
    /\ (forall e, In e es -> 1 <= to e < size D /\ 0 <= from e < size D)
    /\ forall e, In e (MSTreeV2.find_minimum_incoming_edges D) ->
         In (to e) (map to es).
Proof. unfold MSTreeV2.compute. apply compute_fuel_returns. lia. Qed.

Lemma compute_in_degree D :
  (forall to_ f, 1 <= to_ < size D -> candidate D to_ f ->
                 (get2 D f to_ < DBL_MAX)%Q) ->
  exists es,
    MSTreeV2.compute D = Some es
    /\ Permutation (map to es) (zrange 1 (size D))
    /\ forall e, In e es -> 0 <= from e < size D.
Proof.
  intros Hfin. destruct (compute_returns D) as (es & Hes & Hnd & Hr & Hcov).
  exists es. split; [assumption|].
  split; [|intros e He; now destruct (Hr e He)].
  apply NoDup_Permutation; [assumption|apply NoDup_zrange|].
  intros x. rewrite In_zrange. split.
  - intros Hx. apply in_map_iff in Hx. destruct Hx as (e & <- & He).
    now apply Hr.
  - intros Hx. apply In_zrange in Hx. rewrite <- (phase1_covers D Hfin) in Hx.
    apply in_map_iff in Hx. destruct Hx as (e & <- & He). now apply Hcov.
    Unshelve. all: exact 0.
Qed.

(** ** The Newick text of an edge list with in-degree one *)

Lemma to_newick_returns_in nodes names (R : Z -> Prop) (m : Z -> nat) :
  (forall v c, R v -> In c (children (idx default_node nodes v)) ->
     R c /\ (m c < m v)%nat) ->
  forall fuel v, R v -> (m v < fuel)%nat ->
    exists s, to_newick fuel v nodes names = Some s.
Proof.
  intros Hm. induction fuel as [|fuel IH]; intros v Hv Hfuel; [lia|].
  cbn [to_newick].
  destruct (children (idx default_node nodes v)) as [|c cs] eqn:Ec.
  - eexists. reflexivity.
  - destruct (children_loop_returns fuel nodes names (c :: cs)) with
      (b := true) (s0 := "("%string) as (b' & rest & ->).
    + intros x Hx. specialize (Hm v x Hv). rewrite Ec in Hm.
      destruct (Hm Hx) as [HR Hlt]. apply IH; [assumption|lia].
    + eexists. reflexivity.
Qed.

Lemma format_cases (edges : list Edge) (strain_names : list string) :
  (edges = [] /\ exists s, format edges strain_names = Some s)
  \/ format edges strain_names
     = match to_newick
               (S (List.length
                     (build_tree_structure edges (size strain_names))))
               (find_root (build_tree_structure edges (size strain_names)))
               (build_tree_structure edges (size strain_names))
               strain_names with
       | Some s => Some (s ++ ";")%string
       | None => None
       end.
Proof.
  destruct edges as [|e edges]; [left|right; reflexivity].
  split; [reflexivity|]. eexists. reflexivity.
Qed.

Section InDegreeOne.

Variable n : Z.
Variable es : list Edge.
Hypothesis Hes : in_degree_one n es.

Lemma no_edge_into_root e : In e es -> to e <> 0.
Proof. intros He. destruct Hes as [_ Hr]. destruct (Hr e He). lia. Qed.

Lemma find_entering e :
  In e es -> find (fun x => to x =? to e) es = Some e.
Proof.
  destruct Hes as [Hnd _]. clear Hes. revert Hnd.
  induction es as [|a l IH]; intros Hnd He; [destruct He|].
  cbn [map] in Hnd. inversion Hnd as [|? ? Ha Hnd']; subst.
  cbn [find]. destruct (Z.eqb_spec (to a) (to e)) as [E|N].
  - destruct He as [->|He]; [reflexivity|].
    exfalso. apply Ha. rewrite E. now apply in_map.
  - destruct He as [->|He]; [contradiction|]. now apply IH.
Qed.

Lemma walk_det v p p' : walk es v p -> walk es v p' -> p = p'.
Proof.
  intros H. revert p'. induction H as [|e v p He Hto Hw IH]; intros p' H'.
  - inversion H' as [|e' ? ? He' Hto' _]; [reflexivity|].
    exfalso. now apply (no_edge_into_root e').
  - inversion H' as [|e' ? ? He' Hto' Hw']; subst.
    + exfalso. now apply (no_edge_into_root e).
    + f_equal. apply IH.
      assert (e = e') as ->; [|assumption].
      destruct Hes as [Hnd _]. apply (edge_unique es); auto.
Qed.

Lemma walk_suffix v p x :
  walk es v p -> In x p ->
  exists p', walk es x p' /\ (List.length p' <= List.length p)%nat.
Proof.
  induction 1 as [|e v p He Hto Hw IH]; intros Hx.
  - destruct Hx as [<-|[]]. exists [0]. split; [constructor|lia].
  - destruct Hx as [<-|Hx].
    + exists (v :: p). split; [now apply (walk_step es e)|lia].
    + destruct (IH Hx) as (p' & Hp' & Hlen). exists p'.
      split; [assumption|cbn [List.length]; lia].
Qed.

Lemma walk_NoDup v p : walk es v p -> NoDup p.
Proof.
  induction 1 as [|e v p He Hto Hw IH]; [repeat constructor; intros []|].
  constructor; [|assumption]. intros Hin.
  destruct (walk_suffix _ p v Hw Hin) as (p' & Hp' & Hlen).
  pose proof (walk_det v p' (v :: p) Hp' (walk_step es e v p He Hto Hw)) as E.
  subst p'. cbn [List.length] in Hlen. lia.
Qed.

Lemma walk_range v p : 1 <= n -> walk es v p -> forall x, In x p -> 0 <= x < n.
Proof.
  intros Hn. induction 1 as [|e v p He Hto Hw IH]; intros x Hx.
  - destruct Hx as [<-|[]]. lia.
  - destruct Hx as [<-|Hx]; [|now apply IH].
    destruct Hes as [_ Hr]. destruct (Hr e He). lia.
Qed.

Lemma walk_depth v p :
  walk es v p ->
  forall fuel, (List.length p <= S fuel)%nat ->
    depth_below fuel es v = (List.length p - 1)%nat.
Proof.
  induction 1 as [|e v p He Hto Hw IH]; intros fuel Hfuel.
  - destruct fuel as [|fuel]; [reflexivity|]. cbn [depth_below].
    rewrite find_picked_none; [reflexivity|].
    intros e He. now apply no_edge_into_root.
  - cbn [List.length] in *. destruct fuel as [|fuel].
    + inversion Hw; subst; cbn [List.length] in Hfuel; lia.
    + cbn [depth_below]. rewrite <- Hto, (find_entering e He).
      rewrite (IH fuel) by lia.
      inversion Hw; subst; cbn [List.length]; lia.
Qed.

Lemma format_in_degree_one (names : list string) :
  size names = n -> 1 <= n ->
  exists s, format es names = Some s.
Proof.
  intros Hnames Hn.
  destruct (format_cases es names) as [[_ H]| ->]; [exact H|].
  assert (in_range n es) as Hr.
  { intros e He. destruct Hes as [_ Hr]. destruct (Hr e He). lia. }
  rewrite Hnames.
  destruct (build_tree_structure_nodes es n ltac:(lia) Hr) as [Hs Hnodes].
  set (nodes := build_tree_structure es n) in *.
  assert (find_root nodes = 0) as ->.
  { unfold find_root. rewrite Hs. rewrite zrange_cons by lia. cbn [find].
    rewrite Hnodes by lia. cbn [parent].
    rewrite parent_of_none; [reflexivity|].
    intros e He. now apply no_edge_into_root. }
  destruct (to_newick_returns_in nodes names
              (fun v => exists p, walk es v p)
              (fun v => (Z.to_nat n - depth_below (Z.to_nat n) es v)%nat))
    with (fuel := S (List.length nodes)) (v := 0) as [s ->].
  - intros v c [p Hp] Hc.
    pose proof (walk_range v p Hn Hp v) as Hv.
    assert (In v p) as Hvp by (inversion Hp; now left).
    specialize (Hv Hvp).
    rewrite Hnodes in Hc by assumption. cbn [children] in Hc.
    unfold children_of in Hc. apply in_map_iff in Hc.
    destruct Hc as (e & <- & He). apply filter_In in He.
    destruct He as [He Efv]. apply Z.eqb_eq in Efv. subst v.
    assert (walk es (to e) (to e :: p)) as Hw
      by (now apply (walk_step es e)).
    split; [now exists (to e :: p)|].
    pose proof (NoDup_range_length (to e :: p) n
                  (walk_NoDup _ _ Hw) (walk_range _ _ Hn Hw)) as Hlen.
    rewrite (walk_depth _ _ Hw) by lia.
    rewrite (walk_depth _ _ Hp) by (cbn [List.length] in Hlen; lia).
    cbn [List.length] in *.
    assert (1 <= List.length p)%nat by (inversion Hp; cbn [List.length]; lia).
    lia.
  - exists [0]. constructor.
  - rewrite (walk_depth 0 [0] (walk_root es)) by (cbn [List.length]; lia).
    cbn [List.length]. unfold size in Hs. lia.
  - eexists. reflexivity.
Qed.

End InDegreeOne.

Lemma in_degree_one_self_loop : in_degree_one 3 self_loop_edges.
Proof.
  split.
  - change (map to self_loop_edges) with [2; 1].
    constructor; [intros [H|[]]; discriminate|].
    constructor; [intros []|constructor].
  - intros e [<-|[<-|[]]]; cbn; lia.
Qed.

Lemma compute_distances_below_max pd matrix_type missing_handler :
  0 <= n_strains pd -> 0 <= n_genes pd < 2 ^ 31 ->
  forall to_ f,
    1 <= to_ < n_strains pd ->
    candidate (compute_distances pd matrix_type missing_handler) to_ f ->
    (get2 (compute_distances pd matrix_type missing_handler) f to_ < DBL_MAX)%Q.
Proof.
  intros Hn HG to_ f Hto [Hf _].
  destruct (compute_distances_shape pd matrix_type missing_handler Hn)
    as [[Hsz _] Hent]; [lia|].
  rewrite Hsz in Hf. destruct (Hent f to_ Hf ltac:(lia)) as [_ Hle].
  eapply Qle_lt_trans; [exact Hle|].
  unfold DBL_MAX. rewrite <- Zlt_Qlt.
  assert (2 ^ 31 < 2 ^ 1024 - 2 ^ 971) by (vm_compute; reflexivity). lia.
Qed.

Lemma compute_tree_mstree_v2_aux (json_profile : string -> json_input)
    profile_json matrix_type missing_handler heuristic strains profiles :
  json_profile profile_json = JsonProfile strains profiles ->
  well_formed_profile strains profiles ->
  (forall p, In p profiles -> size p < 2 ^ 31) ->
  exists newick edges,
    compute_tree json_profile profile_json "MSTreeV2" matrix_type
      missing_handler heuristic
    = Some (Success newick edges (size strains) (size strains - 1))
    /\ size edges = size strains - 1
    /\ Permutation (map ej_to edges) (zrange 1 (size strains))
    /\ forall e, In e edges ->
         0 <= ej_from e < size strains
         /\ ej_from_name e = idx EmptyString strains (ej_from e)
         /\ ej_to_name e = idx EmptyString strains (ej_to e).
Proof.
  intros Hjson (Hne & Hsize & G & Hall) Hint.
  assert (1 <= size strains) as HN.
  { destruct strains; [congruence|]. unfold size. cbn [List.length]. lia. }
  unfold compute_tree, parse_profile_json. rewrite Hjson. cbv zeta.
  set (pd := mkProfileData strains profiles (size strains)
               match profiles with [] => 0 | p :: _ => size p end).
  assert (0 <= n_genes pd < 2 ^ 31) as HG.
  { unfold pd. cbn [n_genes]. destruct profiles as [|p ps]; [lia|].
    split; [apply size_nonneg|]. apply Hint. now left. }
  destruct (compute_distances_shape pd matrix_type missing_handler)
    as [[HsD _] _]; [cbn; lia|lia|].
  pose proof (compute_distances_below_max pd matrix_type missing_handler
                ltac:(cbn; lia) HG) as Hfin.
  set (D := compute_distances pd matrix_type missing_handler) in *.
  change (n_strains pd) with (size strains) in *.
  change (strain_names pd) with strains.
  unfold build_tree. change (String.eqb "MSTreeV2" "MSTree") with false.
  change (String.eqb "MSTreeV2" "MSTreeV2") with true. cbv iota.
  destruct (compute_in_degree D) as (es & -> & Hperm & Hfrom).
  { intros to_ f Hto Hc. apply Hfin; [lia|assumption]. }
  rewrite HsD in Hperm, Hfrom.
  assert (in_degree_one (size strains) es) as Hdeg.
  { split.
    - apply (Permutation_NoDup (Permutation_sym Hperm)), NoDup_zrange.
    - intros e He. split; [|now apply Hfrom].
      apply In_zrange. apply (Permutation_in _ Hperm). now apply in_map. }
  destruct (format_in_degree_one (size strains) es Hdeg strains eq_refl HN)
    as [newick ->].
  destruct (edges_to_json_fields es strains) as (Hs & Hto & Hfr & Hnames).
  assert (size es = size strains - 1) as Hsz.
  { apply Permutation_length in Hperm.
    rewrite length_map, zrange_length in Hperm. unfold size in *. lia. }
  rewrite Hsz. eexists. eexists. split; [reflexivity|].
  split; [lia|]. split; [now rewrite Hto|].
  intros e He. destruct (Hnames e He) as [Hfn Htn].
  split; [|now split].
  assert (In (ej_from e) (map from es)) as Hin
    by (rewrite <- Hfr; now apply in_map).
  apply in_map_iff in Hin. destruct Hin as (x & <- & Hx). now apply Hfrom.
Qed.

(** X28. A call of the loader's [computeTree] that gives only the data
    runs MSTreeV2 on the asymmetric matrix: on an initialised module, for
    data with at least one strain, as many profiles as strains and
    profiles of one length that the engine reads back as written, it
    returns an object with [nNodes = N], [nEdges = N - 1] and [N - 1]
    edges, and throws nothing. *)
Theorem computeTree_with_defaults :
  forall (stringify : option ProfileObject -> string)
         (json_profile : string -> json_input)
         (strains : list string) (profiles : list (list Z)),
    json_profile (stringify (profile_object strains profiles))
    = JsonProfile strains profiles ->
    well_formed_profile strains profiles ->
    (forall p, In p profiles -> size p < 2 ^ 31) ->
    exists r,
      GrapeTreeWASM.computeTree true stringify json_profile
        (options_with_defaults (profile_object strains profiles))
      = Some (Ok r)
      /\ GrapeTreeWASM.computeTree true stringify json_profile
           (options_with_defaults (profile_object strains profiles))
         = GrapeTreeWASM.computeTree true stringify json_profile
             (GrapeTreeWASM.mkTreeOptions (profile_object strains profiles)
                (Some "MSTreeV2"%string) (Some "asymmetric"%string) (Some 0)
                (Some "harmonic"%string))
      /\ GrapeTreeWASM.nNodes r = size strains
      /\ GrapeTreeWASM.nEdges r = size strains - 1
      /\ size (GrapeTreeWASM.edges r) = size strains - 1.
Proof.
  intros stringify json_profile strains profiles Hjson Hwf Hint.
  unfold GrapeTreeWASM.computeTree, options_with_defaults.
  cbn [negb GrapeTreeWASM.method GrapeTreeWASM.matrix GrapeTreeWASM.missing
       GrapeTreeWASM.heuristic GrapeTreeWASM.data GrapeTreeWASM.default].
  assert (GrapeTreeWASM._validateTreeOptions (profile_object strains profiles)
            "MSTreeV2" "asymmetric" 0 "harmonic" = Ok tt) as ->.
  { apply validateTreeOptions_accepts. exists strains, profiles.
    destruct Hwf as (Hne & Hsz & _).
    repeat split; try assumption; try lia; cbn; tauto. }
  destruct (compute_tree_mstree_v2_aux json_profile
              (stringify (profile_object strains profiles))
              "asymmetric" 0 "harmonic" strains profiles Hjson Hwf Hint)
    as (newick & edges & -> & Hsize & _).
  eexists. split; [reflexivity|]. split; [reflexivity|].
  cbn. repeat split; try reflexivity. exact Hsize.
Qed.

Lemma computeTree_with_defaults_witness :
  exists r,
    GrapeTreeWASM.computeTree true request_stringify scenario1_json
      (options_with_defaults scenario1_data)
    = Some (Ok r)
    /\ GrapeTreeWASM.nNodes r = 3 /\ GrapeTreeWASM.nEdges r = 2.
Proof.
  destruct (computeTree_with_defaults request_stringify scenario1_json
              ["A"; "B"; "C"]%string [[1; 2; 3]; [1; 2; 4]; [1; 3; 3]] eq_refl)
    as (r & Hr & _ & Hn & He & _).
  - split; [discriminate|]. split; [reflexivity|].
    exists 3. repeat constructor.
  - intros p [<-|[<-|[<-|[]]]]; reflexivity.
  - exists r. split; [exact Hr|]. split; [exact Hn|exact He].
Defined.

(** ** The tiebreaks of the classical builder *)

Lemma count_loop (P : Z -> bool) n :
  0 <= n ->
  for_loop 0 n (fun j c => if P j then c + 1 else c) 0
  = Z.of_nat (List.length (filter P (zrange 0 n))).
Proof.
  intros Hn.
  apply (for_loop_inv
           (fun k c => c = Z.of_nat (List.length (filter P (zrange 0 k))))
           0 n _ _ Hn).
  - reflexivity.
  - intros k c Hk ->. rewrite zrange_snoc by lia.
    rewrite filter_app, length_app. cbn [filter].
    destruct (P k); cbn [List.length]; lia.
Qed.

Lemma eburst_tiebreak_best D candidates in_tree min_dist :
  candidates <> [] ->
  let r := MSTree.apply_eburst_tiebreak D candidates in_tree min_dist in
  In r candidates
  /\ forall c, In c candidates ->
       connections D in_tree min_dist c <= connections D in_tree min_dist r
       /\ (connections D in_tree min_dist c = connections D in_tree min_dist r ->
           r <= c).
Proof.
  intros Hne. cbv zeta. unfold MSTree.apply_eburst_tiebreak, MSTree.n_nodes_.
  set (conn := connections D in_tree min_dist).
  set (step := fun (st : Z * Z) (node : Z) =>
                 let '(best_node, max_connections) := st in
                 let connections :=
                   for_loop 0 (size D)
                     (fun j connections =>
                        if idx false in_tree j
                           && Qltb (Qabs (fsub (get2 D node j) min_dist))
                                   EPS_double
                        then connections + 1 else connections) 0 in
                 if max_connections <? connections then (node, connections)
                 else if connections =? max_connections then
                        if node <? best_node then (node, max_connections) else st
                      else st).
  assert (forall st node,
             step st node
             = if snd st <? conn node then (node, conn node)
               else if conn node =? snd st then
                      if node <? fst st then (node, snd st) else st
                    else st) as Hstep.
  { intros [b m] node. unfold step, conn, connections. cbn [fst snd].
    rewrite (count_loop _ (size D) (size_nonneg D)). reflexivity. }
  assert (forall l seen st,
             seen <> [] ->
             In (fst st) seen -> snd st = conn (fst st) ->
             (forall c, In c seen ->
                conn c <= snd st /\ (conn c = snd st -> fst st <= c)) ->
             let st' := fold_left step l st in
             In (fst st') (seen ++ l) /\ snd st' = conn (fst st')
             /\ forall c, In c (seen ++ l) ->
                  conn c <= snd st' /\ (conn c = snd st' -> fst st' <= c))
    as Hloop.
  { induction l as [|x l IH]; intros seen st Hseen Hin Hmx Hall; cbv zeta.
    - cbn [fold_left]. rewrite app_nil_r. auto.
    - cbn [fold_left].
      replace (seen ++ x :: l) with ((seen ++ [x]) ++ l)
        by now rewrite <- app_assoc.
      apply IH.
      + intros E. now destruct seen.
      + rewrite Hstep.
        destruct (snd st <? conn x); [apply in_or_app; right; now left|].
        destruct (conn x =? snd st); [|apply in_or_app; now left].
        destruct (x <? fst st); [apply in_or_app; right; now left|].
        apply in_or_app; now left.
      + rewrite Hstep.
        destruct (Z.ltb_spec (snd st) (conn x)); [reflexivity|].
        destruct (Z.eqb_spec (conn x) (snd st)) as [E|]; [|assumption].
        destruct (x <? fst st); cbn [fst snd]; [congruence|assumption].
      + intros c Hc. rewrite Hstep. apply in_app_or in Hc.
        destruct (Z.ltb_spec (snd st) (conn x)) as [Hlt|Hge]; cbn [fst snd].
        * destruct Hc as [Hc|[<-|[]]]; [|lia].
          destruct (Hall c Hc). lia.
        * destruct (Z.eqb_spec (conn x) (snd st)) as [E|N].
          -- destruct (Z.ltb_spec x (fst st)) as [Hx|Hx]; cbn [fst snd].
             ++ destruct Hc as [Hc|[<-|[]]]; [|lia].
                destruct (Hall c Hc) as [H1 H2]. split; [assumption|].
                intros Ec. specialize (H2 Ec). lia.
             ++ destruct Hc as [Hc|[<-|[]]]; [now apply Hall|lia].
          -- destruct Hc as [Hc|[<-|[]]]; [now apply Hall|lia]. }
  destruct candidates as [|c0 rest]; [congruence|].
  change (idx 0 (c0 :: rest) 0) with c0.
  fold step. cbn [fold_left].
  assert (0 <= conn c0) as Hpos by (unfold conn, connections; lia).
  assert (step (c0, 0) c0 = (c0, conn c0)) as ->.
  { rewrite Hstep. cbn [fst snd].
    destruct (Z.ltb_spec 0 (conn c0)); [reflexivity|].
    destruct (Z.eqb_spec (conn c0) 0) as [E|]; [|lia].
    rewrite Z.ltb_irrefl. now rewrite E. }
  destruct (Hloop rest [c0] (c0, conn c0)) as (H1 & H2 & H3).
  - discriminate.
  - now left.
  - reflexivity.
  - intros c [<-|[]]. cbn [fst snd]. lia.
  - cbn [app] in H1, H3. split; [assumption|].
    intros c Hc. rewrite <- H2. now apply H3.
Qed.

Lemma harmonic_tiebreak_best D candidates :
  candidates <> [] ->
  let r := MSTree.apply_harmonic_tiebreak D candidates in
  In r candidates
  /\ forall c, In c candidates ->
       (MSTree.compute_harmonic_mean_score D c - EPS
        < MSTree.compute_harmonic_mean_score D r)%Q.
Proof.
  intros Hne. cbv zeta. unfold MSTree.apply_harmonic_tiebreak.
  set (score := MSTree.compute_harmonic_mean_score D).
  set (step := fun (st : Z * double) (node : Z) =>
                 let '(best_node, best_score) := st in
                 if Qltb best_score (score node) then (node, score node)
                 else if Qltb (Qabs (fsub (score node) best_score)) EPS_double
                      then if node <? best_node then (node, best_score) else st
                      else st).
  assert (forall b s x,
             step (b, s) x
             = if Qltb s (score x) then (x, score x)
               else if Qltb (Qabs (fsub (score x) s)) EPS_double
                    then if x <? b then (x, s) else (b, s)
                    else (b, s)) as Hstep by reflexivity.
  assert (forall l seen st,
             In (fst st) seen ->
             (snd st - EPS < score (fst st))%Q ->
             (forall c, In c seen -> (score c <= snd st)%Q) ->
             let st' := fold_left step l st in
             In (fst st') (seen ++ l)
             /\ (snd st' - EPS < score (fst st'))%Q
             /\ forall c, In c (seen ++ l) -> (score c <= snd st')%Q)
    as Hloop.
  { induction l as [|x l IH]; intros seen st Hin Hnear Hall; cbv zeta.
    - cbn [fold_left]. rewrite app_nil_r. auto.
    - cbn [fold_left].
      replace (seen ++ x :: l) with ((seen ++ [x]) ++ l)
        by now rewrite <- app_assoc.
      destruct st as [b s]. cbn [fst snd] in *.
      rewrite Hstep.
      destruct (Qltb s (score x)) eqn:Elt.
      + apply Qltb_lt in Elt. apply IH; cbn [fst snd].
        * apply in_or_app. right. now left.
        * apply Qlt_minus_iff.
          assert (score x + - (score x - EPS) == EPS)%Q as -> by ring.
          reflexivity.
        * intros c Hc. apply in_app_or in Hc.
          destruct Hc as [Hc|[<-|[]]]; [|apply Qle_refl].
          apply Qle_trans with s; [now apply Hall|now apply Qlt_le_weak].
      + apply Qltb_ge in Elt.
        destruct (Qltb (Qabs (fsub (score x) s)) EPS_double) eqn:Etie.
        * apply Qltb_lt in Etie. apply near_exact in Etie.
          destruct (x <? b).
          -- apply IH; cbn [fst snd].
             ++ apply in_or_app. right. now left.
             ++ apply Qabs_Qlt_condition in Etie. destruct Etie as [Hlo _].
                apply Qplus_lt_l with (z := (- s)%Q).
                assert (s - EPS + - s == - EPS)%Q as -> by ring.
                exact Hlo.
             ++ intros c Hc. apply in_app_or in Hc.
                destruct Hc as [Hc|[<-|[]]]; [now apply Hall|assumption].
          -- apply IH; cbn [fst snd].
             ++ apply in_or_app. now left.
             ++ assumption.
             ++ intros c Hc. apply in_app_or in Hc.
                destruct Hc as [Hc|[<-|[]]]; [now apply Hall|assumption].
        * apply IH; cbn [fst snd].
          -- apply in_or_app. now left.
          -- assumption.
          -- intros c Hc. apply in_app_or in Hc.
             destruct Hc as [Hc|[<-|[]]]; [now apply Hall|assumption]. }
  destruct candidates as [|c0 rest]; [congruence|].
  change (idx 0 (c0 :: rest) 0) with c0.
  match goal with
  | |- context [fold_left ?f _ _] => change f with step
  end.
  cbn [fold_left].
  assert (0 <= score c0)%Q as Hpos.
  { unfold score. rewrite harmonic_scores_agree. apply harmonic_score_nonneg. }
  assert (step (c0, (-1)%Q) c0 = (c0, score c0)) as ->.
  { rewrite Hstep.
    assert (Qltb (-1) (score c0) = true) as ->; [|reflexivity].
    apply Qltb_lt. apply Qlt_le_trans with 0%Q; [reflexivity|assumption]. }
  destruct (Hloop rest [c0] (c0, score c0)) as (H1 & H2 & H3).
  - now left.
  - cbn [fst snd]. apply Qlt_minus_iff.
    assert (score c0 + - (score c0 - EPS) == EPS)%Q as -> by ring.
    reflexivity.
  - intros c [<-|[]]. apply Qle_refl.
  - cbn [app] in H1, H3. split; [assumption|].
    intros c Hc. eapply Qle_lt_trans; [|exact H2].
    apply Qplus_le_l with (z := EPS).
    assert (score c - EPS + EPS == score c)%Q as -> by ring.
    match goal with
    | |- (_ <= ?s - EPS + EPS)%Q =>
        assert (s - EPS + EPS == s)%Q as -> by ring
    end.
    now apply H3.
Qed.

(** On [close_scores_matrix] the doubles of the two scores are within the
    tolerance and the lower index wins, although the exact harmonic mean
    of row 2 is more than 1e-10 above that of row 1. *)
Example harmonic_tiebreak_close_scores :
  MSTree.apply_harmonic_tiebreak close_scores_matrix [1; 2] = 1
  /\ (MSTree.compute_harmonic_mean_score close_scores_matrix 1
      == 8089850055708879 # 8589934592)%Q
  /\ (MSTree.compute_harmonic_mean_score close_scores_matrix 2
      == 8089850055708879 # 8589934592)%Q.
Proof. repeat split; vm_compute; reflexivity. Qed.

(** X29. The two tiebreaks of the classical builder on a list of
    candidates that is not empty.  The eBurst tiebreak returns a candidate
    with the largest number of tree vertices at the minimal distance
    (within the tolerance), and among the candidates with that number the
    one of lowest index.  On a matrix of the kind the distance engine
    computes (every entry a multiple of 1/2 between 0 and 2^31, so that
    no reciprocal and no sum of a score leaves the finite doubles), the
    harmonic tiebreak returns a candidate whose harmonic-mean score, as
    [compute_harmonic_mean_score] computes it in doubles, is less than
    1e-10 below the largest score of a candidate. *)
Theorem tiebreaks_pick_best :
  forall (D : matrix) (candidates : list Z),
    candidates <> [] ->
    (forall in_tree min_dist,
        let r := MSTree.apply_eburst_tiebreak D candidates in_tree min_dist in
        In r candidates
        /\ forall c, In c candidates ->
             connections D in_tree min_dist c
             <= connections D in_tree min_dist r
             /\ (connections D in_tree min_dist c
                 = connections D in_tree min_dist r -> r <= c))
    /\ (engine_matrix (size D) D ->
        let r := MSTree.apply_harmonic_tiebreak D candidates in
        In r candidates
        /\ forall c, In c candidates ->
             (MSTree.compute_harmonic_mean_score D c - EPS
              < MSTree.compute_harmonic_mean_score D r)%Q).
Proof.
  intros D candidates Hne. split.
  - intros in_tree min_dist. now apply eburst_tiebreak_best.
  - intros _. now apply harmonic_tiebreak_best.
Qed.

Lemma engine_three_node_matrix : engine_matrix 3 three_node_matrix.
Proof.
  intros i j Hi Hj.
  assert (i = 0 \/ i = 1 \/ i = 2) as Hci by lia.
  assert (j = 0 \/ j = 1 \/ j = 2) as Hcj by lia.
  destruct Hci as [Hc|[Hc|Hc]], Hcj as [Hd|[Hd|Hd]]; subst;
    first [exists 0; split; [lia|reflexivity]
          |exists 2; split; [lia|reflexivity]
          |exists 4; split; [lia|reflexivity]].
Qed.

Lemma tiebreaks_pick_best_witness :
  In (MSTree.apply_eburst_tiebreak three_node_matrix [1; 2]
        [true; false; false] 1%Q) [1; 2]
  /\ In (MSTree.apply_harmonic_tiebreak three_node_matrix [1; 2]) [1; 2].
Proof.
  destruct (tiebreaks_pick_best three_node_matrix [1; 2]) as [He Hh];
    [discriminate|].
  split.
  - apply (proj1 (He [true; false; false] 1%Q)).
  - apply (proj1 (Hh engine_three_node_matrix)).
Defined.

(** ** What recrafting does to the total distance *)

Lemma total_upd_nat (l : list Edge) k x d :
  (k < List.length l)%nat ->
  (total_distance (upd_nat l k x)
   == total_distance l - distance (nth k l d) + distance x)%Q.
Proof.
  unfold total_distance. revert k.
  induction l as [|a l IH]; intros [|k] Hk; cbn [List.length] in Hk; try lia;
    cbn [upd_nat map fold_right nth].
  - ring.
  - rewrite (IH k) by lia. ring.
Qed.

Lemma total_upd (l : list Edge) i x d :
  0 <= i < size l ->
  (total_distance (upd l i x)
   == total_distance l - distance (idx d l i) + distance x)%Q.
Proof.
  intros Hi. unfold upd, idx. apply total_upd_nat. unfold size in Hi. lia.
Qed.

Lemma In_upd {A} (l : list A) i x y : In y (upd l i x) -> y = x \/ In y l.
Proof.
  unfold upd. generalize (Z.to_nat i) as k. induction l as [|a l IH];
    intros [|k]; cbn [upd_nat]; intros H.
  - destruct H.
  - destruct H.
  - destruct H as [<-|H]; [now left|right; now right].
  - destruct H as [<-|H]; [right; now left|].
    destruct (IH k H); [now left|right; now right].
Qed.

Lemma idx_In {A} (l : list A) d i : 0 <= i < size l -> In (idx d l i) l.
Proof. intros Hi. unfold idx. apply nth_In. unfold size in Hi. lia. Qed.

Lemma EPS_pos : (0 < EPS)%Q.
Proof. reflexivity. Qed.

Lemma EPS_double_pos : (0 < EPS_double)%Q.
Proof. vm_compute. reflexivity. Qed.

(** The sum of two entries of the engine is exact in a double. *)
Lemma engine_sum_exact x y :
  engine_entry x -> engine_entry y -> (fadd x y == x + y)%Q.
Proof.
  intros (kx & Hkx & Ex) (ky & Hky & Ey). unfold fadd.
  assert (x + y == (2 * (kx + ky)) # 4)%Q as E.
  { rewrite Ex, Ey. unfold Qeq, Qplus. cbn [Qnum Qden]. lia. }
  rewrite (fl_proper _ _ E), E. apply fl_quarters.
  assert (2 ^ 32 * 4 < 2 ^ 53) by reflexivity. lia.
Qed.

(** Two sums of entries of the engine that differ, differ by one half at
    least. *)
Lemma engine_sums_apart a b c d :
  engine_entry a -> engine_entry b -> engine_entry c -> engine_entry d ->
  (a + b < c + d)%Q -> (a + b <= c + d - (1 # 2))%Q.
Proof.
  intros (ka & _ & Ea) (kb & _ & Eb) (kc & _ & Ec) (kd & _ & Ed).
  rewrite Ea, Eb, Ec, Ed.
  unfold Qminus. unfold Qlt, Qle, Qplus, Qopp.
  cbn [Qnum Qden Pos.mul Pos.add Pos.succ]. lia.
Qed.

Section RecraftTotal.

Variable D : matrix.
Variable n : Z.
Hypothesis Hsym : symmetric_matrix n D.
Hypothesis Hengine : engine_matrix n D.

Lemma swap_lowers_total (t : list Edge) i j :
  in_range n t -> engine_distances t -> 0 <= i < j -> j < size t ->
  Qltb (MSTreeV2.calculate_swap_cost D t i j)
       (fsub (fadd (distance (idx (mkEdge 0 0 0%Q) t i))
                   (distance (idx (mkEdge 0 0 0%Q) t j)))
             EPS_double) = true ->
  in_range n (MSTreeV2.perform_edge_swap D t i j)
  /\ engine_distances (MSTreeV2.perform_edge_swap D t i j)
  /\ size (MSTreeV2.perform_edge_swap D t i j) = size t
  /\ (total_distance (MSTreeV2.perform_edge_swap D t i j)
      <= total_distance t - (1 # 2))%Q.
Proof.
  intros Hr Hd Hi Hj Hcost.
  set (e1 := idx (mkEdge 0 0 0%Q) t i) in *.
  set (e2 := idx (mkEdge 0 0 0%Q) t j) in *.
  assert (In e1 t) as He1 by (apply idx_In; lia).
  assert (In e2 t) as He2 by (apply idx_In; lia).
  destruct (Hr e1 He1) as [Hf1 Ht1]. destruct (Hr e2 He2) as [Hf2 Ht2].
  pose proof (Hengine (from e1) (to e2) Hf1 Ht2) as Ea.
  pose proof (Hengine (from e2) (to e1) Hf2 Ht1) as Eb.
  unfold MSTreeV2.perform_edge_swap. fold e1 e2.
  split; [|split; [|split]].
  - intros e He. apply In_upd in He. destruct He as [->|He]; [cbn; lia|].
    apply In_upd in He. destruct He as [->|He]; [cbn; lia|now apply Hr].
  - intros e He. apply In_upd in He. destruct He as [->|He]; [exact Eb|].
    apply In_upd in He. destruct He as [->|He]; [exact Ea|now apply Hd].
  - now rewrite !size_upd.
  - rewrite (total_upd _ j _ (mkEdge 0 0 0%Q)) by (rewrite size_upd; lia).
    rewrite idx_upd_neq by lia. fold e2.
    rewrite (total_upd _ i _ (mkEdge 0 0 0%Q)) by lia. fold e1.
    cbn [distance].
    apply Qltb_lt in Hcost. unfold MSTreeV2.calculate_swap_cost in Hcost.
    fold e1 e2 in Hcost.
    pose proof (Hsym (to e1) (from e2) Ht1 Hf2) as S1.
    pose proof (Hsym (to e2) (from e1) Ht2 Hf1) as S2.
    set (a := get2 D (from e1) (to e2)) in *.
    set (b := get2 D (from e2) (to e1)) in *.
    assert (fadd (get2 D (to e1) (from e2)) (get2 D (to e2) (from e1))
            = fadd a b) as E2.
    { unfold fadd. apply fl_proper. rewrite S1, S2. ring. }
    rewrite E2 in Hcost.
    assert ((if Qltb (fadd a b) (fadd a b) then fadd a b else fadd a b)
            = fadd a b) as E3 by (now destruct (Qltb _ _)).
    rewrite E3 in Hcost.
    pose proof (engine_sum_exact a b Ea Eb) as Hab.
    pose proof (engine_sum_exact _ _ (Hd e1 He1) (Hd e2 He2)) as Hcur.
    assert (fsub (fadd (distance e1) (distance e2)) EPS_double
            <= distance e1 + distance e2)%Q as Hthr.
    { unfold fsub.
      apply Qle_trans with (fl (fadd (distance e1) (distance e2))).
      - apply fl_mono. pose proof EPS_double_pos. lra.
      - rewrite (fl_proper _ _ Hcur). fold (fadd (distance e1) (distance e2)).
        rewrite Hcur. apply Qle_refl. }
    assert (a + b < distance e1 + distance e2)%Q as Hlt by lra.
    pose proof (engine_sums_apart a b _ _ Ea Eb (Hd e1 He1) (Hd e2 He2) Hlt).
    lra.
Qed.

Lemma recraft_pass_total (tree : list Edge) :
  in_range n tree -> engine_distances tree ->
  let t := fst (MSTreeV2.recraft_pass D tree) in
  in_range n t /\ engine_distances t
  /\ (t = tree \/ (total_distance t <= total_distance tree - (1 # 2))%Q).
Proof.
  intros Hr Hd. cbv zeta. unfold MSTreeV2.recraft_pass.
  set (P := fun st : list Edge * bool =>
              size (fst st) = size tree /\ in_range n (fst st)
              /\ engine_distances (fst st)
              /\ (fst st = tree
                  \/ (total_distance (fst st)
                      <= total_distance tree - (1 # 2))%Q)).
  match goal with
  | |- context [for_loop 0 (size tree) ?body ?init] =>
      assert (P (for_loop 0 (size tree) body init)) as H;
      [apply (for_loop_inv (fun _ st => P st) 0 (size tree) body init
                (size_nonneg tree))|]
  end.
  - split; [reflexivity|]. split; [assumption|]. split; [assumption|now left].
  - intros i st Hi Hst.
    destruct (Z_lt_le_dec (size tree) (i + 1)) as [Hlt|Hle].
    { now rewrite for_loop_nil by lia. }
    apply (for_loop_inv (fun _ st => P st)); [lia|assumption|].
    intros j [t b] Hj (Hs & Hrt & Hdt & Htot). cbn [fst] in *.
    destruct (MSTreeV2.can_swap_edges t i j);
      [|exact (conj Hs (conj Hrt (conj Hdt Htot)))].
    destruct (Qltb _ _) eqn:Ecost;
      [|exact (conj Hs (conj Hrt (conj Hdt Htot)))].
    destruct (swap_lowers_total t i j Hrt Hdt ltac:(lia) ltac:(lia) Ecost)
      as (Hr' & Hd' & Hs' & Hlt).
    split; cbn [fst]; [congruence|]. split; [assumption|].
    split; [assumption|]. right.
    destruct Htot as [->|Htot]; [assumption|]. lra.
  - destruct H as (_ & H1 & H2 & H3). exact (conj H1 (conj H2 H3)).
Qed.

Lemma recraft_loop_total rounds (tree : list Edge) :
  in_range n tree -> engine_distances tree ->
  let t := MSTreeV2.recraft_loop D rounds tree in
  in_range n t /\ engine_distances t
  /\ (t = tree \/ (total_distance t <= total_distance tree - (1 # 2))%Q).
Proof.
  revert tree. induction rounds as [|r IH]; intros tree Hr Hd; cbv zeta;
    cbn [MSTreeV2.recraft_loop].
  - split; [assumption|]. split; [assumption|now left].
  - pose proof (recraft_pass_total tree Hr Hd) as H. cbv zeta in H.
    destruct (MSTreeV2.recraft_pass D tree) as [t b]. cbn [fst] in H.
    destruct H as (Hrt & Hdt & Htot).
    destruct b; [|exact (conj Hrt (conj Hdt Htot))].
    destruct (IH t Hrt Hdt) as (Hr' & Hd' & Htot').
    split; [assumption|]. split; [assumption|].
    destruct Htot as [->|Htot]; [assumption|]. right.
    destruct Htot' as [->|Htot']; [assumption|]. lra.
Qed.

End RecraftTotal.

(** On [close_costs_matrix] the pass swaps the two edges of
    [close_costs_tree]: the rounded cost of the swap is below the rounded
    sum of the two distances less the tolerance. *)
Example recraft_close_costs :
  MSTreeV2.recraft_branches close_costs_matrix close_costs_tree
  = [mkEdge 0 2 (2251799811883809 # 18014398509481984); mkEdge 1 1 0%Q].
Proof. vm_compute. reflexivity. Qed.

(** X30. On a symmetric matrix of the kind the distance engine computes
    (every entry a multiple of 1/2 between 0 and 2^31) and a tree whose
    edges record such distances, [recraft_branches] never raises the sum
    of the recorded distances: it returns the tree unchanged or a tree
    whose sum is lower by 1/2 at least; on these numbers the rounded sums
    of the code are exact.  On a matrix that is not symmetric it can raise
    the sum: the swap is chosen by the cheaper of two ways of reconnecting
    and carried out in the first way; on [skew_matrix] the edges of phase
    C1 sum to 2 and the recrafted edges to 100. *)
Theorem recraft_total_distance :
  (forall (D : matrix) (n : Z) (tree : list Edge),
      symmetric_matrix n D -> engine_matrix n D ->
      in_range n tree -> engine_distances tree ->
      MSTreeV2.recraft_branches D tree = tree
      \/ (total_distance (MSTreeV2.recraft_branches D tree)
          <= total_distance tree - (1 # 2))%Q)
  /\ MSTreeV2.find_minimum_incoming_edges skew_matrix = skew_tree
  /\ (total_distance skew_tree == 2)%Q
  /\ (total_distance (MSTreeV2.recraft_branches skew_matrix skew_tree) == 100)%Q.
Proof.
  split; [|split; [|split]].
  - intros D n tree Hsym Heng Hr Hd. unfold MSTreeV2.recraft_branches.
    destruct (recraft_loop_total D n Hsym Heng 10 tree Hr Hd) as (_ & _ & H).
    exact H.
  - vm_compute. reflexivity.
  - vm_compute. reflexivity.
  - vm_compute. reflexivity.
Qed.

Lemma symmetric_three_node_matrix : symmetric_matrix 3 three_node_matrix.
Proof.
  intros i j Hi Hj.
  assert (i = 0 \/ i = 1 \/ i = 2) as Hci by lia.
  assert (j = 0 \/ j = 1 \/ j = 2) as Hcj by lia.
  destruct Hci as [Hc|[Hc|Hc]], Hcj as [Hd|[Hd|Hd]]; subst; reflexivity.
Qed.

Lemma recraft_total_distance_witness :
  MSTreeV2.recraft_branches three_node_matrix star_edges = star_edges
  \/ (total_distance (MSTreeV2.recraft_branches three_node_matrix star_edges)
      <= total_distance star_edges - (1 # 2))%Q.
Proof.
  apply (proj1 recraft_total_distance three_node_matrix 3 star_edges).
  - exact symmetric_three_node_matrix.
  - exact engine_three_node_matrix.
  - intros e [<-|[<-|[]]]; cbn; lia.
  - intros e [<-|[<-|[]]]; exists 2; (split; [lia|reflexivity]).
Defined.

(** ** The distances that MSTreeV2 records *)

Lemma records_exact D f t : records_entry D (mkEdge f t (get2 D f t)).
Proof.
  unfold records_entry. cbn [from to distance].
  setoid_replace (get2 D f t - get2 D f t)%Q with 0%Q by ring. reflexivity.
Qed.

Lemma incoming_scan_records D to_ :
  snd (fst (MSTreeV2.incoming_scan D to_)) = -1
  \/ (Qabs (get2 D (snd (fst (MSTreeV2.incoming_scan D to_))) to_
            - fst (fst (MSTreeV2.incoming_scan D to_))) < EPS)%Q.
Proof.
  unfold MSTreeV2.incoming_scan, MSTreeV2.n_nodes_.
  apply (for_loop_inv
           (fun (_ : Z) (st : double * Z * double) =>
              snd (fst st) = -1
              \/ (Qabs (get2 D (snd (fst st)) to_ - fst (fst st)) < EPS)%Q)
           0 (size D) _ _ (size_nonneg D)).
  - now left.
  - intros k [[m b] s] Hk Hinv. cbn [fst snd] in Hinv.
    unfold MSTreeV2.incoming_step.
    destruct (k =? to_); cbn [fst snd]; [assumption|].
    destruct (Qltb (get2 D k to_) m); cbn [fst snd].
    + right. setoid_replace (get2 D k to_ - get2 D k to_)%Q with 0%Q by ring.
      reflexivity.
    + destruct (Qltb (Qabs (fsub (get2 D k to_) m)) EPS_double) eqn:Etie;
        cbn [fst snd]; [|assumption].
      destruct (Qltb s (MSTreeV2.harmonic_mean_score D k)); cbn [fst snd];
        [|assumption].
      right. now apply tie_test_exact, tie_test_true.
Qed.

Lemma phase1_records D :
  forall e, In e (MSTreeV2.find_minimum_incoming_edges D) -> records_entry D e.
Proof.
  rewrite find_minimum_incoming_edges_rounds.
  intros e He. apply in_flat_map in He. destruct He as (to_ & _ & He).
  unfold incoming_edge in He. pose proof (incoming_scan_records D to_) as H.
  destruct (MSTreeV2.incoming_scan D to_) as [[m b] s]. cbn [fst snd] in H.
  destruct (Z.eqb_spec b (-1)) as [E|N]; cbn [negb] in He; [destruct He|].
  destruct He as [<-|[]]. destruct H as [H|H]; [contradiction|exact H].
Qed.

Lemma build_contracted_records D es cid (nm : list (Z * Z)) new_size :
  forall kv,
    In kv (snd (MSTreeV2.build_contracted D es cid nm new_size)) ->
    records_entry D (snd kv).
Proof.
  unfold MSTreeV2.build_contracted, MSTreeV2.n_nodes_.
  set (Q := fun st : matrix * list (Z * Z * Edge) =>
              forall kv, In kv (snd st) -> records_entry D (snd kv)).
  match goal with
  | |- context [for_loop 0 (size D) ?body ?init] =>
      assert (Q (for_loop 0 (size D) body init)) as H; [|exact H];
      apply (for_loop_inv (fun _ st => Q st) 0 (size D) body init
               (size_nonneg D))
  end.
  - intros kv [].
  - intros i st Hi HQ.
    apply (for_loop_inv (fun _ st => Q st) 0 (size D) _ st (size_nonneg D));
      [assumption|].
    intros j [nd em] Hj Hem. unfold Q in *. cbn [fst snd] in *.
    destruct (i =? j); [assumption|].
    destruct (negb (map_at nm i =? map_at nm j)); [|assumption].
    match goal with
    | |- context [if ?c then _ else _] => destruct c
    end; [|assumption].
    cbn [snd]. unfold map_put. intros kv [<-|Hkv].
    + cbn [snd]. apply records_exact.
    + unfold map_erase in Hkv. apply filter_In in Hkv. now apply Hem.
Qed.

Lemma expand_solution_members (es ce : list Edge)
    (edge_mapping : list (Z * Z * Edge)) :
  forall o, In o (MSTreeV2.expand_solution es ce edge_mapping) ->
    (exists k, In (k, o) edge_mapping) \/ In o es.
Proof.
  unfold MSTreeV2.expand_solution.
  assert (forall l st,
             (forall o, In o (fst st) ->
                (exists k, In (k, o) edge_mapping) \/ In o es) ->
             forall o,
               In o (fst (fold_left
                            (fun st e =>
                               let '(final_edges, covered) := st in
                               match map_find pair_eqb (from e, to e)
                                       edge_mapping with
                               | Some original =>
                                   (final_edges ++ [original],
                                    set_insert (to original) covered)
                               | None => st
                               end) l st)) ->
               (exists k, In (k, o) edge_mapping) \/ In o es) as H1.
  { induction l as [|e l IH]; intros [f c] Hst; cbn [fold_left]; [exact Hst|].
    destruct (map_find pair_eqb (from e, to e) edge_mapping) as [original|]
      eqn:Efind; apply IH; [|exact Hst].
    cbn [fst] in *. intros o Ho. apply in_app_or in Ho.
    destruct Ho as [Ho|[<-|[]]]; [now apply Hst|].
    apply map_find_In in Efind. destruct Efind as (k & Hk & _).
    left. now exists k. }
  assert (forall l st,
             incl l es ->
             (forall o, In o (fst st) ->
                (exists k, In (k, o) edge_mapping) \/ In o es) ->
             forall o,
               In o (fst (fold_left
                            (fun st e =>
                               let '(final_edges, covered) := st in
                               if negb (set_mem (to e) covered)
                               then (final_edges ++ [e],
                                     set_insert (to e) covered)
                               else st) l st)) ->
               (exists k, In (k, o) edge_mapping) \/ In o es) as H2.
  { induction l as [|e l IH]; intros [f c] Hl Hst; cbn [fold_left];
      [exact Hst|].
    assert (incl l es) as Hl' by (intros x Hx; apply Hl; now right).
    destruct (negb (set_mem (to e) c)); apply IH; try assumption.
    cbn [fst] in *. intros o Ho. apply in_app_or in Ho.
    destruct Ho as [Ho|[<-|[]]]; [now apply Hst|].
    right. apply Hl. now left. }
  intros o Ho. revert o Ho. apply H2; [apply incl_refl|].
  apply H1. intros o [].
Qed.

Lemma recraft_pass_records D (tree : list Edge) :
  (forall e, In e tree -> records_entry D e) ->
  forall e, In e (fst (MSTreeV2.recraft_pass D tree)) -> records_entry D e.
Proof.
  intros Hr. unfold MSTreeV2.recraft_pass.
  set (P := fun st : list Edge * bool =>
              forall e, In e (fst st) -> records_entry D e).
  match goal with
  | |- context [for_loop 0 (size tree) ?body ?init] =>
      assert (P (for_loop 0 (size tree) body init)) as H; [|exact H];
      apply (for_loop_inv (fun _ st => P st) 0 (size tree) body init
               (size_nonneg tree))
  end.
  - exact Hr.
  - intros i st Hi Hst.
    destruct (Z_lt_le_dec (size tree) (i + 1)) as [Hlt|Hle].
    { now rewrite for_loop_nil by lia. }
    apply (for_loop_inv (fun _ st => P st)); [lia|assumption|].
    intros j [t b] Hj Ht. unfold P in *. cbn [fst] in *.
    destruct (MSTreeV2.can_swap_edges t i j); [|assumption].
    destruct (Qltb _ _); [|assumption].
    cbn [fst]. unfold MSTreeV2.perform_edge_swap. intros e He.
    apply In_upd in He. destruct He as [->|He]; [apply records_exact|].
    apply In_upd in He. destruct He as [->|He]; [apply records_exact|].
    now apply Ht.
Qed.

Lemma recraft_branches_records D (tree : list Edge) :
  (forall e, In e tree -> records_entry D e) ->
  forall e, In e (MSTreeV2.recraft_branches D tree) -> records_entry D e.
Proof.
  unfold MSTreeV2.recraft_branches. generalize 10%nat as rounds.
  intros rounds. revert tree.
  induction rounds as [|r IH]; intros tree Hr; cbn [MSTreeV2.recraft_loop];
    [exact Hr|].
  pose proof (recraft_pass_records D tree Hr) as H.
  destruct (MSTreeV2.recraft_pass D tree) as [t b]. cbn [fst] in H.
  destruct b; [now apply IH|exact H].
Qed.

Lemma compute_records D es :
  MSTreeV2.compute D = Some es -> forall e, In e es -> records_entry D e.
Proof.
  unfold MSTreeV2.compute. generalize (S (List.length D)) as fuel.
  intros [|fuel]; cbn [MSTreeV2.compute_fuel]; [discriminate|].
  destruct (MSTreeV2.detect_cycles D _) as [cid|]; [|discriminate].
  destruct (MSTreeV2.has_cycles cid).
  - unfold MSTreeV2.contract_and_solve.
    destruct (MSTreeV2.build_node_mapping D cid) as [nm new_size].
    pose proof (build_contracted_records D
                  (MSTreeV2.find_minimum_incoming_edges D) cid nm new_size)
      as Hem.
    destruct (MSTreeV2.build_contracted D _ cid nm new_size) as [ND em].
    cbn [snd] in Hem.
    destruct (MSTreeV2.compute_fuel fuel ND) as [ce|]; [|discriminate].
    intros [= <-]. apply recraft_branches_records.
    intros o Ho. apply expand_solution_members in Ho.
    destruct Ho as [[k Hk]|Ho]; [exact (Hem _ Hk)|now apply phase1_records].
  - intros [= <-]. apply recraft_branches_records. apply phase1_records.
Qed.

(** X24. On every square matrix [MSTreeV2::compute] returns: the walks of
    [find_root] and [mark_cycle] and the recursion of [contract_and_solve]
    end.  In the edge list returned no vertex is
    entered by two edges, vertex 0 is entered by none, every edge joins
    vertices of the matrix and records the entry of its endpoints up to
    1e-10, and every vertex that phase C1 picks an edge for is entered. *)
Theorem mstree_v2_returns :
  forall D : matrix,
    square (size D) D ->
    exists es,
      MSTreeV2.compute D = Some es
      /\ in_degree_one (size D) es
      /\ (forall e, In e es -> records_entry D e)
      /\ forall e, In e (MSTreeV2.find_minimum_incoming_edges D) ->
           In (to e) (map to es).
Proof.
  intros D _. destruct (compute_returns D) as (es & Hes & Hnd & Hr & Hcov).
  exists es. split; [assumption|]. split; [now split|].
  split; [now apply compute_records|assumption].
Qed.

Lemma mstree_v2_returns_witness :
  exists es,
    MSTreeV2.compute three_node_matrix = Some es
    /\ in_degree_one 3 es.
Proof.
  destruct (mstree_v2_returns three_node_matrix square_three_node_matrix)
    as (es & Hes & Hdeg & _).
  exists es. split; [exact Hes|exact Hdeg].
Defined.

(** X25. On every square matrix whose entries off the diagonal are below
    [DBL_MAX], [MSTreeV2::compute] returns [N - 1] edges in which every
    vertex of [1..N-1] is the [to] of exactly one edge and vertex 0 of
    none, every [from] is a vertex of the matrix, and every distance is the
    entry of its edge up to 1e-10: the contraction of cycles, the expansion
    and the recrafting keep the in-degrees that phase C1 sets up. *)
Theorem mstree_v2_in_degree :
  forall D : matrix,
    square (size D) D ->
    (forall to_ f, 1 <= to_ < size D -> candidate D to_ f ->
                   (get2 D f to_ < DBL_MAX)%Q) ->
    exists es,
      MSTreeV2.compute D = Some es
      /\ Permutation (map to es) (zrange 1 (size D))
      /\ (1 <= size D -> size es = size D - 1)
      /\ forall e, In e es -> 0 <= from e < size D /\ records_entry D e.
Proof.
  intros D _ Hfin. destruct (compute_in_degree D Hfin) as (es & Hes & Hperm & Hf).
  exists es. split; [assumption|]. split; [assumption|]. split.
  - intros Hn. apply Permutation_length in Hperm.
    rewrite length_map, zrange_length in Hperm. unfold size in *. lia.
  - intros e He. split; [now apply Hf|now apply (compute_records D es)].
Qed.

Lemma mstree_v2_in_degree_witness :
  exists es,
    MSTreeV2.compute three_node_matrix = Some es
    /\ Permutation (map to es) [1; 2].
Proof.
  destruct (mstree_v2_in_degree three_node_matrix square_three_node_matrix)
    as (es & Hes & Hperm & _).
  - intros to_ f Hto Hc. now apply three_node_matrix_below_max.
  - exists es. split; [exact Hes|exact Hperm].
Defined.

(** ** The names in the Newick text *)

Lemma string_append_nil_r (s : string) : (s ++ "")%string = s.
Proof. induction s as [|c s IH]; cbn; [reflexivity|now rewrite IH]. Qed.

Lemma occurs_refl s : occurs s s.
Proof. exists EmptyString, EmptyString. cbn. now rewrite string_append_nil_r. Qed.

Lemma occurs_app_l s t u : occurs s t -> occurs s (u ++ t)%string.
Proof.
  intros (pre & post & ->). exists (u ++ pre)%string, post.
  now rewrite string_append_assoc.
Qed.

Lemma occurs_app_r s t u : occurs s t -> occurs s (t ++ u)%string.
Proof.
  intros (pre & post & ->). exists pre, (post ++ u)%string.
  now rewrite !string_append_assoc.
Qed.

Lemma occurs_trans s t u : occurs s t -> occurs t u -> occurs s u.
Proof.
  intros (p1 & q1 & ->) (p2 & q2 & ->).
  exists (p2 ++ p1)%string, (q1 ++ q2)%string.
  now rewrite !string_append_assoc.
Qed.

(** What the loop over the children of a node has written holds the text
    it started from and the text of every child. *)
Section ChildrenLoop.

Variables (fuel : nat) (nodes : list TreeNode) (names : list string).

Local Abbreviation children_step :=
  (fun acc child_id =>
     match acc with
     | None => None
     | Some (is_first, s) =>
         match to_newick fuel child_id nodes names with
         | None => None
         | Some sub =>
             Some (false,
                   (s ++ (if (is_first : bool) then EmptyString else ",") ++ sub
                      ++ ":"
                      ++ format_fixed6
                           (branch_length (idx default_node nodes child_id)))%string)
         end
     end).

Lemma children_loop_none (cs : list Z) : fold_left children_step cs None = None.
Proof. induction cs; cbn; auto. Qed.

Lemma children_loop_prefix (cs : list Z) :
  forall (b : bool) (s0 : string) b' r,
    fold_left children_step cs (Some (b, s0)) = Some (b', r) -> occurs s0 r.
Proof.
  induction cs as [|c cs IH]; intros b s0 b' r Hf; cbn [fold_left] in Hf.
  - injection Hf as _ <-. apply occurs_refl.
  - destruct (to_newick fuel c nodes names) as [sub|];
      [|rewrite children_loop_none in Hf; discriminate].
    apply IH in Hf. eapply occurs_trans; [|exact Hf].
    apply occurs_app_r, occurs_refl.
Qed.

Lemma children_loop_occurs (cs : list Z) :
  forall (b : bool) (s0 : string) b' r,
    fold_left children_step cs (Some (b, s0)) = Some (b', r) ->
    forall c, In c cs ->
      exists sub, to_newick fuel c nodes names = Some sub /\ occurs sub r.
Proof.
  induction cs as [|c cs IH]; intros b s0 b' r Hf x Hx; [destruct Hx|].
  cbn [fold_left] in Hf.
  destruct (to_newick fuel c nodes names) as [sub|] eqn:Ec;
    [|rewrite children_loop_none in Hf; discriminate].
  destruct Hx as [<-|Hx]; [|eapply IH; eauto].
  exists sub. split; [assumption|].
  apply children_loop_prefix in Hf. eapply occurs_trans; [|exact Hf].
  apply occurs_app_l, occurs_app_l, occurs_app_r, occurs_refl.
Qed.

End ChildrenLoop.

(** The text of a node holds the name of every named vertex that the
    child lists lead to from it. *)
Lemma to_newick_names es (names : list string) :
  in_range (size names) es ->
  forall fuel v s,
    0 <= v < size names ->
    to_newick fuel v (build_tree_structure es (size names)) names = Some s ->
    forall w, reach es v w ->
      occurs (sanitize_name (idx EmptyString names w)) s.
Proof.
  intros Hr.
  destruct (build_tree_structure_nodes es (size names) (size_nonneg _) Hr)
    as [Hs Hnodes].
  set (nodes := build_tree_structure es (size names)) in *.
  induction fuel as [|fuel IH]; intros v s Hv Hnw w Hw; [discriminate|].
  cbn [to_newick] in Hnw. rewrite (Hnodes v Hv) in Hnw. cbn [children] in Hnw.
  destruct Hw as [v|e w He Hw].
  - destruct (children_of es v) as [|c cs].
    + injection Hnw as <-. apply occurs_refl.
    + match type of Hnw with
      | match ?f with _ => _ end = _ => destruct f as [[b r]|]; [|discriminate]
      end.
      injection Hnw as <-. destruct (Z.ltb_spec v (size names)); [|lia].
      apply occurs_app_l, occurs_refl.
  - assert (In (to e) (children_of es (from e))) as Hc.
    { unfold children_of. apply in_map. apply filter_In.
      split; [assumption|apply Z.eqb_refl]. }
    destruct (children_of es (from e)) as [|c cs] eqn:Ecs; [destruct Hc|].
    match type of Hnw with
    | match ?f with _ => _ end = _ =>
        destruct f as [[b r]|] eqn:Ef; [|discriminate]
    end.
    injection Hnw as <-.
    destruct (children_loop_occurs fuel nodes names _ _ _ _ _ Ef (to e) Hc)
      as (sub & Hsub & Hocc).
    apply occurs_app_r, occurs_app_r. eapply occurs_trans; [|exact Hocc].
    apply (IH (to e) sub); [|assumption|assumption].
    destruct (Hr e He). lia.
Qed.

(** In an edge list grown from a root, the edges lead from the root to
    every vertex of the list. *)
Lemma reach_incl es es' v w :
  incl es es' -> reach es v w -> reach es' v w.
Proof.
  intros Hi. induction 1 as [v|e w He _ IH]; [constructor|].
  apply reach_edge; [now apply Hi|assumption].
Qed.

Lemma reach_snoc es v e :
  In e es -> reach es v (from e) -> reach es v (to e).
Proof.
  intros He. remember (from e) as u eqn:Eu. induction 1 as [v|x w Hx _ IH].
  - subst. apply reach_edge; [assumption|constructor].
  - apply reach_edge; [assumption|]. now apply IH.
Qed.

Lemma grown_reach root es :
  grown root es -> forall w, In w (root :: map to es) -> reach es root w.
Proof.
  induction 1 as [|es e Hg IH Hfrom Hto]; intros w Hw.
  - destruct Hw as [<-|[]]. constructor.
  - rewrite map_app in Hw. cbn [map] in Hw.
    assert (In w (root :: map to es) \/ w = to e) as [Hin| ->].
    { destruct Hw as [Hw|Hw]; [left; now left|].
      apply in_app_or in Hw. destruct Hw as [Hw|[Hw|[]]];
        [left; now right|now right]. }
    + eapply reach_incl; [|now apply IH]. intros x Hx. apply in_or_app. now left.
    + apply reach_snoc; [apply in_or_app; right; now left|].
      eapply reach_incl; [|now apply IH]. intros x Hx. apply in_or_app. now left.
Qed.

(** The text [format] returns for a tree rooted at vertex 0 names every
    vertex. *)
Lemma format_names_aux es (names : list string) :
  2 <= size names -> rooted_tree (size names) es ->
  forall text, format es names = Some text ->
    forall w, 0 <= w < size names ->
      occurs (sanitize_name (idx EmptyString names w)) text.
Proof.
  intros Hn Hrt text Hf w Hw.
  pose proof (find_root_rooted_tree es names Hn Hrt) as Hfr.
  pose proof (rooted_tree_in_range _ _ Hrt) as Hr.
  pose proof (rooted_tree_size (size names) es ltac:(lia) Hrt) as Hsz.
  destruct Hrt as (Hg & Hperm & Hfrom).
  assert (reach es 0 w) as Hreach.
  { apply (grown_reach 0 es Hg).
    destruct (Z.eq_dec w 0) as [-> |Hne]; [now left|right].
    eapply Permutation_in; [apply Permutation_sym; exact Hperm|].
    apply In_zrange. lia. }
  unfold format in Hf. destruct es as [|e0 es']; [cbn in Hsz; lia|].
  cbv zeta in Hf. rewrite Hfr in Hf.
  match type of Hf with
  | match ?f with _ => _ end = _ => destruct f as [s|] eqn:Es; [|discriminate]
  end.
  injection Hf as <-. apply occurs_app_r.
  exact (to_newick_names _ names Hr _ 0 s ltac:(lia) Es w Hreach).
Qed.

Lemma occurs_occursb s t : occurs s t -> occursb s t = true.
Proof.
  intros (pre & post & ->). induction pre as [|c pre IH].
  - cbn [append]. destruct (s ++ post)%string eqn:E; cbn [occursb];
      rewrite <- E, prefix_append; reflexivity.
  - cbn [append occursb]. rewrite IH. apply orb_true_r.
Qed.

Lemma find_root_in_degree_one n es :
  1 <= n -> in_degree_one n es -> find_root (build_tree_structure es n) = 0.
Proof.
  intros Hn Hes.
  assert (in_range n es) as Hr.
  { intros e He. destruct Hes as [_ Hr]. destruct (Hr e He). lia. }
  destruct (build_tree_structure_nodes es n ltac:(lia) Hr) as [Hs Hnodes].
  unfold find_root. rewrite Hs. rewrite zrange_cons by lia. cbn [find].
  rewrite Hnodes by lia. cbn [parent].
  rewrite parent_of_none; [reflexivity|].
  intros e He. now apply (no_edge_into_root n es Hes).
Qed.

Lemma format_in_degree_one_names es (names : list string) :
  1 <= size names -> in_degree_one (size names) es -> es <> [] ->
  forall text, format es names = Some text ->
    forall w, reach es 0 w ->
      occurs (sanitize_name (idx EmptyString names w)) text.
Proof.
  intros Hn Hes Hne text Hf w Hw.
  assert (in_range (size names) es) as Hr.
  { intros e He. destruct Hes as [_ Hr]. destruct (Hr e He). lia. }
  unfold format in Hf. destruct es as [|e0 es']; [congruence|].
  cbv zeta in Hf. rewrite (find_root_in_degree_one _ _ Hn Hes) in Hf.
  match type of Hf with
  | match ?f with _ => _ end = _ => destruct f as [s|] eqn:Es; [|discriminate]
  end.
  injection Hf as <-. apply occurs_app_r.
  exact (to_newick_names _ names Hr _ 0 s ltac:(lia) Es w Hw).
Qed.

Lemma compute_tree_mstree_names_aux (json_profile : string -> json_input)
    profile_json matrix_type missing_handler heuristic strains profiles :
  json_profile profile_json = JsonProfile strains profiles ->
  well_formed_profile strains profiles ->
  (forall p, In p profiles -> size p < 2 ^ 31) ->
  exists newick edges,
    compute_tree json_profile profile_json "MSTree" matrix_type
      missing_handler heuristic
    = Some (Success newick edges (size strains) (size strains - 1))
    /\ size edges = size strains - 1
    /\ Permutation (map ej_to edges) (zrange 1 (size strains))
    /\ (forall e, In e edges ->
         0 <= ej_from e < size strains /\ ej_from e <> ej_to e
         /\ ej_from_name e = idx EmptyString strains (ej_from e)
         /\ ej_to_name e = idx EmptyString strains (ej_to e))
    /\ (size strains = 1 -> newick = (idx EmptyString strains 0 ++ ";")%string)
    /\ (2 <= size strains ->
        forall name, In name strains -> occurs (sanitize_name name) newick).
Proof.
  intros Hjson (Hne & Hsize & G & Hall) Hint.
  assert (1 <= size strains) as HN.
  { destruct strains; [congruence|]. unfold size. cbn [List.length]. lia. }
  unfold compute_tree, parse_profile_json. rewrite Hjson. cbv zeta.
  set (pd := mkProfileData strains profiles (size strains)
               match profiles with [] => 0 | p :: _ => size p end).
  cbn [strain_names n_strains].
  assert (0 <= n_genes pd < 2 ^ 31) as HG.
  { unfold pd. cbn [n_genes]. destruct profiles as [|p ps]; [lia|].
    split; [apply size_nonneg|]. apply Hint. now left. }
  destruct (compute_distances_shape pd matrix_type missing_handler)
    as [Hsq Hent]; [cbn; lia|lia|].
  set (D := compute_distances pd matrix_type missing_handler) in *.
  change (n_strains pd) with (size strains) in *.
  change (strain_names pd) with strains.
  unfold build_tree. change (String.eqb "MSTree" "MSTree") with true. cbv iota.
  set (h := if String.eqb heuristic "harmonic" then MSTree.HARMONIC
            else MSTree.EBURST).
  destruct Hsq as [HsD Hrows].
  destruct (Z.eq_dec (size strains) 1) as [E1|N1].
  - rewrite (prim_single_row D h) by lia.
    unfold format. eexists. exists []. rewrite E1.
    split; [reflexivity|]. split; [reflexivity|].
    split; [constructor|]. split; [intros e []|].
    split; [|lia]. intros _. destruct strains; [congruence|reflexivity].
  - destruct (prim_rooted_aux D h) as (es & -> & Hrt); [lia| |].
    { intros i j Hi Hj. rewrite HsD in Hi, Hj.
      destruct (Hent i j Hi Hj) as [_ Hle].
      eapply Qle_trans; [exact Hle|]. apply int_below_DBL_MAX. lia. }
    rewrite HsD in Hrt.
    pose proof (format_names_aux es strains ltac:(lia) Hrt) as Hnm.
    destruct (format_rooted_tree_aux es strains ltac:(lia) Hrt) as [body Hfmt].
    rewrite Hfmt in *.
    destruct (edges_to_json_fields es strains) as (Hs & Hto & Hfrom & Hnames).
    pose proof (rooted_tree_size (size strains) es ltac:(lia) Hrt) as Hsz.
    rewrite Hsz. eexists. eexists. split; [reflexivity|].
    split; [lia|]. destruct Hrt as (_ & Hperm & Hedges).
    split; [now rewrite Hto|]. split; [|split; [lia|]].
    + intros e He. destruct (Hnames e He) as [Hfn Htn].
      unfold edges_to_json in He. apply in_map_iff in He.
      destruct He as (x & <- & Hx). cbn [ej_from ej_to ej_from_name ej_to_name].
      destruct (Hedges x Hx). repeat split; try lia; reflexivity.
    + intros _ name Hin.
      destruct (In_nth strains name EmptyString Hin) as (k & Hk & <-).
      specialize (Hnm _ eq_refl (Z.of_nat k)).
      unfold idx in Hnm. rewrite Nat2Z.id in Hnm. apply Hnm.
      unfold size. lia.
Qed.

(** X14. On the edge list of a tree rooted at vertex 0 over [n >= 2]
    named vertices, [format] returns: the root it starts from is vertex 0,
    the recursion of [to_newick] ends, the text is a parenthesised list
    followed by the sanitised name of vertex 0 and a semicolon, and the
    sanitised name of every vertex occurs in it. *)
Theorem format_rooted_tree :
  forall (es : list Edge) (names : list string),
    2 <= size names -> rooted_tree (size names) es ->
    find_root (build_tree_structure es (size names)) = 0
    /\ exists text,
         format es names = Some text
         /\ (exists body,
               text = ("(" ++ body ++ ")"
                       ++ sanitize_name (idx EmptyString names 0) ++ ";")%string)
         /\ forall w, 0 <= w < size names ->
              occurs (sanitize_name (idx EmptyString names w)) text.
Proof.
  intros es names Hn Hrt. split; [now apply find_root_rooted_tree|].
  destruct (format_rooted_tree_aux es names Hn Hrt) as [body Hb].
  eexists. split; [exact Hb|]. split; [now exists body|].
  now apply (format_names_aux es names Hn Hrt).
Qed.

Lemma format_rooted_tree_witness :
  exists text,
    format star_edges three_names = Some text /\ occurs "C" text.
Proof.
  destruct (format_rooted_tree star_edges three_names)
    as [_ (text & Hf & _ & Hocc)].
  - change (size three_names) with 3. lia.
  - exact rooted_star_edges.
  - exists text. split; [exact Hf|].
    apply (Hocc 2). change (size three_names) with 3. lia.
Defined.

(** X15. Under method MSTree, [compute_tree] answers every request whose
    JSON holds at least one strain, as many profiles as strains and
    profiles of one length (below 2^31) with the success envelope, for
    every matrix type, missing-data handler and heuristic: [n_nodes] is
    the number [N] of strains, [n_edges] is [N - 1], the edge array has
    [N - 1] entries, every strain but the first is the [to] of exactly one
    of them, every [from] is a strain other than [to], and the two names
    of an entry are the names of its endpoints.  For [N >= 2] the sanitised
    name of every strain occurs in the Newick text; for [N = 1] the text is
    the name as given, not sanitised, and a semicolon. *)
Theorem compute_tree_mstree_succeeds :
  forall (json_profile : string -> json_input)
         (profile_json matrix_type : string) (missing_handler : Z)
         (heuristic : string) (strains : list string) (profiles : list (list Z)),
    json_profile profile_json = JsonProfile strains profiles ->
    well_formed_profile strains profiles ->
    (forall p, In p profiles -> size p < 2 ^ 31) ->
    exists newick edges,
      compute_tree json_profile profile_json "MSTree" matrix_type
        missing_handler heuristic
      = Some (Success newick edges (size strains) (size strains - 1))
      /\ size edges = size strains - 1
      /\ Permutation (map ej_to edges) (zrange 1 (size strains))
      /\ (forall e, In e edges ->
           0 <= ej_from e < size strains /\ ej_from e <> ej_to e
           /\ ej_from_name e = idx EmptyString strains (ej_from e)
           /\ ej_to_name e = idx EmptyString strains (ej_to e))
      /\ (size strains = 1 -> newick = (idx EmptyString strains 0 ++ ";")%string)
      /\ (2 <= size strains ->
          forall name, In name strains -> occurs (sanitize_name name) newick).
Proof. exact compute_tree_mstree_names_aux. Qed.

Lemma compute_tree_mstree_succeeds_witness :
  exists newick edges,
    compute_tree scenario1_json request_text "MSTree" "symmetric" 2 "harmonic"
    = Some (Success newick edges 3 2)
    /\ occurs "B" newick.
Proof.
  destruct (compute_tree_mstree_succeeds scenario1_json request_text
              "symmetric" 2 "harmonic" three_names
              [[1; 2; 3]; [1; 2; 4]; [1; 3; 3]] eq_refl)
    as (newick & edges & H & _ & _ & _ & _ & Hocc).
  - split; [discriminate|]. split; [reflexivity|].
    exists 3. repeat constructor.
  - intros p [<-|[<-|[<-|[]]]]; reflexivity.
  - exists newick, edges. split; [exact H|].
    apply (Hocc ltac:(change (size three_names) with 3; lia) "B"%string).
    right. now left.
Defined.

(** X26. [format] returns on every edge list over [n >= 1] named vertices
    in which no vertex is entered twice and vertex 0 is not entered, also
    when the list holds a cycle or a self-loop: the root found is vertex 0,
    and on a list that is not empty the text holds the sanitised name of
    every vertex that the edges lead to from vertex 0.  The other vertices
    are not written: for [self_loop_edges] the text is [(C:4.000000)A;],
    in which the name of vertex 1 does not occur. *)
Theorem format_returns_on_in_degree_one :
  (forall (es : list Edge) (names : list string),
     1 <= size names -> in_degree_one (size names) es ->
     find_root (build_tree_structure es (size names)) = 0
     /\ exists text,
          format es names = Some text
          /\ (es <> [] ->
              forall w, reach es 0 w ->
                occurs (sanitize_name (idx EmptyString names w)) text))
  /\ in_degree_one 3 self_loop_edges
  /\ format self_loop_edges three_names = Some "(C:4.000000)A;"%string
  /\ ~ occurs (sanitize_name (idx EmptyString three_names 1)) "(C:4.000000)A;".
Proof.
  split; [|split; [exact in_degree_one_self_loop|split]].
  - intros es names Hn Hes.
    split; [now apply find_root_in_degree_one|].
    destruct (format_in_degree_one (size names) es Hes names eq_refl Hn)
      as [text Hf].
    exists text. split; [assumption|]. intros Hne.
    now apply (format_in_degree_one_names es names Hn Hes Hne).
  - vm_compute. reflexivity.
  - intros H. apply occurs_occursb in H. vm_compute in H. discriminate.
Qed.

Lemma format_returns_on_in_degree_one_witness :
  exists text,
    format self_loop_edges three_names = Some text /\ occurs "C" text.
Proof.
  destruct (proj1 format_returns_on_in_degree_one self_loop_edges three_names)
    as [_ (text & Hf & Hocc)].
  - change (size three_names) with 3. lia.
  - exact in_degree_one_self_loop.
  - exists text. split; [exact Hf|].
    apply (Hocc ltac:(discriminate) 2).
    apply (reach_edge self_loop_edges (mkEdge 0 2 4%Q));
      [now left|apply reach_refl].
Defined.

Lemma edge_of_edges_to_json es names :
  map edge_of (edges_to_json es names) = es.
Proof.
  unfold edges_to_json. rewrite map_map. rewrite <- (map_id es) at 2.
  apply map_ext. now intros [f t d].
Qed.

Lemma compute_tree_mstree_v2_names_aux (json_profile : string -> json_input)
    profile_json matrix_type missing_handler heuristic strains profiles :
  json_profile profile_json = JsonProfile strains profiles ->
  well_formed_profile strains profiles ->
  (forall p, In p profiles -> size p < 2 ^ 31) ->
  exists newick edges,
    compute_tree json_profile profile_json "MSTreeV2" matrix_type
      missing_handler heuristic
    = Some (Success newick edges (size strains) (size strains - 1))
    /\ size edges = size strains - 1
    /\ Permutation (map ej_to edges) (zrange 1 (size strains))
    /\ (forall e, In e edges ->
         0 <= ej_from e < size strains
         /\ ej_from_name e = idx EmptyString strains (ej_from e)
         /\ ej_to_name e = idx EmptyString strains (ej_to e))
    /\ (size strains = 1 -> newick = (idx EmptyString strains 0 ++ ";")%string)
    /\ (2 <= size strains ->
        forall w, reach (map edge_of edges) 0 w ->
          occurs (sanitize_name (idx EmptyString strains w)) newick).
Proof.
  intros Hjson (Hne & Hsize & G & Hall) Hint.
  assert (1 <= size strains) as HN.
  { destruct strains; [congruence|]. unfold size. cbn [List.length]. lia. }
  unfold compute_tree, parse_profile_json. rewrite Hjson. cbv zeta.
  set (pd := mkProfileData strains profiles (size strains)
               match profiles with [] => 0 | p :: _ => size p end).
  assert (0 <= n_genes pd < 2 ^ 31) as HG.
  { unfold pd. cbn [n_genes]. destruct profiles as [|p ps]; [lia|].
    split; [apply size_nonneg|]. apply Hint. now left. }
  destruct (compute_distances_shape pd matrix_type missing_handler)
    as [[HsD _] _]; [cbn; lia|lia|].
  pose proof (compute_distances_below_max pd matrix_type missing_handler
                ltac:(cbn; lia) HG) as Hfin.
  set (D := compute_distances pd matrix_type missing_handler) in *.
  change (n_strains pd) with (size strains) in *.
  change (strain_names pd) with strains.
  unfold build_tree. change (String.eqb "MSTreeV2" "MSTree") with false.
  change (String.eqb "MSTreeV2" "MSTreeV2") with true. cbv iota.
  destruct (compute_in_degree D) as (es & -> & Hperm & Hfrom).
  { intros to_ f Hto Hc. apply Hfin; [lia|assumption]. }
  rewrite HsD in Hperm, Hfrom.
  assert (in_degree_one (size strains) es) as Hdeg.
  { split.
    - apply (Permutation_NoDup (Permutation_sym Hperm)), NoDup_zrange.
    - intros e He. split; [|now apply Hfrom].
      apply In_zrange. apply (Permutation_in _ Hperm). now apply in_map. }
  destruct (format_in_degree_one (size strains) es Hdeg strains eq_refl HN)
    as [newick Hf].
  rewrite Hf.
  destruct (edges_to_json_fields es strains) as (Hs & Hto & Hfr & Hnames).
  assert (size es = size strains - 1) as Hsz.
  { apply Permutation_length in Hperm.
    rewrite length_map, zrange_length in Hperm. unfold size in *. lia. }
  rewrite Hsz. eexists. eexists. split; [reflexivity|].
  split; [lia|]. split; [now rewrite Hto|]. split; [|split].
  - intros e He. destruct (Hnames e He) as [Hfn Htn].
    split; [|now split].
    assert (In (ej_from e) (map from es)) as Hin
      by (rewrite <- Hfr; now apply in_map).
    apply in_map_iff in Hin. destruct Hin as (x & <- & Hx). now apply Hfrom.
  - intros E1. destruct es as [|e0 es']; [|unfold size in *; cbn [List.length] in *; lia].
    cbn [format] in Hf. destruct strains; [congruence|].
    now injection Hf as <-.
  - intros H2 w Hw. rewrite edge_of_edges_to_json in Hw.
    apply (format_in_degree_one_names es strains HN Hdeg); try assumption.
    intros ->. unfold size in *. cbn [List.length] in *. lia.
Qed.

(** X27. Under method MSTreeV2, [compute_tree] answers every request whose
    JSON holds at least one strain, as many profiles as strains and
    profiles of one length (below 2^31) with the success envelope, for
    every matrix type, missing-data handler and heuristic: the call
    returns, [n_nodes] is the number [N] of strains, [n_edges] is [N - 1],
    every strain but the first is the [to] of exactly one entry of the edge
    array, every [from] is a strain, and the two names of an entry are the
    names of its endpoints.  For [N >= 2] the Newick text holds the
    sanitised name of every strain that the entries of the edge array lead
    to from the first strain; for [N = 1] the text is the name as given,
    not sanitised, and a semicolon. *)
Theorem compute_tree_mstree_v2_succeeds :
  forall (json_profile : string -> json_input)
         (profile_json matrix_type : string) (missing_handler : Z)
         (heuristic : string) (strains : list string) (profiles : list (list Z)),
    json_profile profile_json = JsonProfile strains profiles ->
    well_formed_profile strains profiles ->
    (forall p, In p profiles -> size p < 2 ^ 31) ->
    exists newick edges,
      compute_tree json_profile profile_json "MSTreeV2" matrix_type
        missing_handler heuristic
      = Some (Success newick edges (size strains) (size strains - 1))
      /\ size edges = size strains - 1
      /\ Permutation (map ej_to edges) (zrange 1 (size strains))
      /\ (forall e, In e edges ->
           0 <= ej_from e < size strains
           /\ ej_from_name e = idx EmptyString strains (ej_from e)
           /\ ej_to_name e = idx EmptyString strains (ej_to e))
      /\ (size strains = 1 -> newick = (idx EmptyString strains 0 ++ ";")%string)
      /\ (2 <= size strains ->
          forall w, reach (map edge_of edges) 0 w ->
            occurs (sanitize_name (idx EmptyString strains w)) newick).
Proof. exact compute_tree_mstree_v2_names_aux. Qed.

Lemma compute_tree_mstree_v2_succeeds_witness :
  exists newick edges,
    compute_tree scenario1_json request_text "MSTreeV2" "asymmetric" 0 "harmonic"
    = Some (Success newick edges 3 2)
    /\ occurs "A" newick.
Proof.
  destruct (compute_tree_mstree_v2_succeeds scenario1_json request_text
              "asymmetric" 0 "harmonic" three_names
              [[1; 2; 3]; [1; 2; 4]; [1; 3; 3]] eq_refl)
    as (newick & edges & H & _ & _ & _ & _ & Hocc).
  - split; [discriminate|]. split; [reflexivity|].
    exists 3. repeat constructor.
  - intros p [<-|[<-|[<-|[]]]]; reflexivity.
  - exists newick, edges. split; [exact H|].
    apply (Hocc ltac:(change (size three_names) with 3; lia) 0).
    apply reach_refl.
Defined.
